(** * vtpc: a user-space block cache in front of an unbuffered descriptor

    Shallow embedding of [lab/vtpc/lib/vtpc.c] and the properties of its
    six calls ([vtpc_open], [vtpc_close], [vtpc_read], [vtpc_write],
    [vtpc_lseek], [vtpc_fsync]).

    The C file keeps two process-wide arrays, [cache] and [open_files]; here
    they are the fields of a [State] that every call receives and returns.
    The operating system the library calls into (open, fstat, pread, lseek,
    write, pwrite, fsync, ftruncate, close, posix_memalign, perror) is the
    [OS] record carried inside the state: files by path, the descriptor
    table, [errno], a script of injected outcomes and the trace of calls. *)

From Stdlib Require Import ZArith.
From Stdlib.Strings Require Import Byte.
From stdpp Require Import base tactics option list gmap strings fin_maps.

Local Open Scope Z_scope.

(** ** Build-time configuration

    [BLOCK_SIZE], [CACHE_SIZE_BLOCKS] and [MAX_OPEN_FILES] are [#define]s.
    The model takes them from a [Config] so that the theorems hold for every
    choice and small pools can be run; [vtpc_config] is the one of the file. *)

Record Config := {
  BLOCK_SIZE : Z;
  CACHE_SIZE_BLOCKS : nat;
  MAX_OPEN_FILES : nat
}.

Definition vtpc_config : Config :=
  {| BLOCK_SIZE := 4096; CACHE_SIZE_BLOCKS := 1024; MAX_OPEN_FILES := 128 |}.

(** ** Machine integers

    [size_t] and [unsigned long long] are 64 bits and wrap; [off_t],
    [ssize_t] are 64-bit signed.  Unsigned arithmetic is reduced with [u64];
    a value converted back to a signed type goes through [s64].  Signed
    overflow is undefined in C: signed expressions are computed in [Z]. *)

Definition u64 (x : Z) : Z := x mod 2 ^ 64.
Definition s64 (x : Z) : Z := (x + 2 ^ 63) mod 2 ^ 64 - 2 ^ 63.

Definition SSIZE_MAX : Z := 2 ^ 63 - 1.
Definition OFF_MAX : Z := 2 ^ 63 - 1.

Definition SEEK_SET : Z := 0.
Definition SEEK_CUR : Z := 1.
Definition SEEK_END : Z := 2.

Definition ENOENT : Z := 2.
Definition EBADF : Z := 9.
Definition ENOMEM : Z := 12.
Definition EINVAL : Z := 22.
Definition EMFILE : Z := 24.
Definition EIO : Z := 5.

Definition O_CREAT : Z := 64.
Definition O_TRUNC : Z := 512.
Definition O_DIRECT : Z := 16384.

(** ** Buffers *)

#[global] Instance byte_eq_dec : EqDecision byte := Byte.byte_eq_dec.

(** [memcpy (dst + off, src, length src)] *)
Definition memcpy (dst : list byte) (off : Z) (src : list byte) : list byte :=
  take (Z.to_nat off) dst ++ src ++ drop (Z.to_nat off + length src) dst.

(** [memset (dst + off, 0, n)] *)
Definition memset0 (dst : list byte) (off n : Z) : list byte :=
  take (Z.to_nat off) dst ++ replicate (Z.to_nat n) x00
    ++ drop (Z.to_nat off + Z.to_nat n) dst.

(** [len] bytes of [src] starting at [off] *)
Definition slice (src : list byte) (off len : Z) : list byte :=
  take (Z.to_nat len) (drop (Z.to_nat off) src).

(** ** The operating system *)

Inductive outcome :=
  | IoOk
  | IoFail (e : Z)      (* the call returns -1 and sets errno to e *)
  | IoShort (n : Z).    (* a transfer moves at most n bytes *)

Inductive syscall :=
  | SysOpen (path : string) (flags mode : Z)
  | SysFstat (fd : Z)
  | SysClose (fd : Z)
  | SysPread (fd len off : Z)
  | SysLseek (fd off whence : Z)
  | SysWrite (fd : Z) (data : list byte)
  | SysPwrite (fd : Z) (data : list byte) (off : Z)
  | SysFsync (fd : Z)
  | SysFtruncate (fd len : Z)
  | SysPosixMemalign (size : Z)
  | SysPerror (msg : string).

Record FdEntry := {
  fe_path : string;
  fe_pos : Z
}.

Record OS := {
  fs : gmap string (list byte);
  fds : gmap Z FdEntry;
  errno : Z;
  script : list outcome;
  trace : list syscall;
  junk : byte
}.

Definition set_fs (v : gmap string (list byte)) (w : OS) : OS :=
  {| fs := v; fds := fds w; errno := errno w; script := script w;
     trace := trace w; junk := junk w |}.
Definition set_fds (v : gmap Z FdEntry) (w : OS) : OS :=
  {| fs := fs w; fds := v; errno := errno w; script := script w;
     trace := trace w; junk := junk w |}.
Definition set_errno (v : Z) (w : OS) : OS :=
  {| fs := fs w; fds := fds w; errno := v; script := script w;
     trace := trace w; junk := junk w |}.

(** Every system call is recorded and takes the next scripted outcome;
    an exhausted script means the call runs normally. *)
Definition enter (c : syscall) (w : OS) : outcome * OS :=
  match script w with
  | [] =>
      (IoOk, {| fs := fs w; fds := fds w; errno := errno w; script := [];
                trace := trace w ++ [c]; junk := junk w |})
  | o :: rest =>
      (o, {| fs := fs w; fds := fds w; errno := errno w; script := rest;
             trace := trace w ++ [c]; junk := junk w |})
  end.

(** The file a descriptor designates. *)
Definition file_of (w : OS) (fd : Z) : option (string * Z * list byte) :=
  match fds w !! fd with
  | None => None
  | Some fe =>
      match fs w !! fe_path fe with
      | None => None
      | Some content => Some (fe_path fe, fe_pos fe, content)
      end
  end.

(** Contents after [data] is stored at [off]; a gap beyond the end of the
    file reads as zeros. *)
Definition write_at (content : list byte) (off : Z) (data : list byte)
  : list byte :=
  take (Z.to_nat off) (content ++ replicate (Z.to_nat off - length content) x00)
    ++ data ++ drop (Z.to_nat off + length data) content.

Definition truncate_to (content : list byte) (len : Z) : list byte :=
  take (Z.to_nat len) content
    ++ replicate (Z.to_nat len - length content) x00.

Definition limit (o : outcome) (data : list byte) : list byte :=
  match o with
  | IoShort n => take (Z.to_nat n) data
  | _ => data
  end.

Fixpoint lowest_free (tab : gmap Z FdEntry) (n : nat) (k : Z) : Z :=
  match n with
  | O => k
  | S n' =>
      match tab !! k with
      | Some _ => lowest_free tab n' (k + 1)
      | None => k
      end
  end.

Definition sys_open (w : OS) (path : string) (flags mode : Z) : Z * OS :=
  let '(o, w) := enter (SysOpen path flags mode) w in
  match o with
  | IoFail e => (-1, set_errno e w)
  | _ =>
      match fs w !! path with
      | None =>
          if Z.eqb (Z.land flags O_CREAT) 0 then (-1, set_errno ENOENT w)
          else
            let fd := lowest_free (fds w) (size (fds w)) 0 in
            (fd, set_fds (<[fd := {| fe_path := path; fe_pos := 0 |}]> (fds w))
                   (set_fs (<[path := []]> (fs w)) w))
      | Some content =>
          let content' :=
            if Z.eqb (Z.land flags O_TRUNC) 0 then content else [] in
          let fd := lowest_free (fds w) (size (fds w)) 0 in
          (fd, set_fds (<[fd := {| fe_path := path; fe_pos := 0 |}]> (fds w))
                 (set_fs (<[path := content']> (fs w)) w))
      end
  end.

(** [fstat]: the result and [st_size]. *)
Definition sys_fstat (w : OS) (fd : Z) : Z * Z * OS :=
  let '(o, w) := enter (SysFstat fd) w in
  match o with
  | IoFail e => (-1, 0, set_errno e w)
  | _ =>
      match file_of w fd with
      | None => (-1, 0, set_errno EBADF w)
      | Some (_, _, content) => (0, Z.of_nat (length content), w)
      end
  end.

Definition sys_close (w : OS) (fd : Z) : Z * OS :=
  let '(o, w) := enter (SysClose fd) w in
  match fds w !! fd with
  | None => (-1, set_errno EBADF w)
  | Some _ =>
      let w := set_fds (delete fd (fds w)) w in
      match o with
      | IoFail e => (-1, set_errno e w)
      | _ => (0, w)
      end
  end.

(** [pread (fd, buf, len, off)]: the result and the bytes stored at the
    start of [buf]. *)
Definition sys_pread (w : OS) (fd len off : Z) : Z * list byte * OS :=
  let '(o, w) := enter (SysPread fd len off) w in
  match o with
  | IoFail e => (-1, [], set_errno e w)
  | _ =>
      match file_of w fd with
      | None => (-1, [], set_errno EBADF w)
      | Some (_, _, content) =>
          if off <? 0 then (-1, [], set_errno EINVAL w)
          else
            let got := limit o (slice content off len) in
            (Z.of_nat (length got), got, w)
      end
  end.

Definition sys_lseek (w : OS) (fd off whence : Z) : Z * OS :=
  let '(o, w) := enter (SysLseek fd off whence) w in
  match o with
  | IoFail e => (-1, set_errno e w)
  | _ =>
      match file_of w fd with
      | None => (-1, set_errno EBADF w)
      | Some (path, pos, content) =>
          let target :=
            if whence =? SEEK_SET then Some off
            else if whence =? SEEK_CUR then Some (pos + off)
            else if whence =? SEEK_END
                 then Some (Z.of_nat (length content) + off)
            else None in
          match target with
          | None => (-1, set_errno EINVAL w)
          | Some t =>
              if t <? 0 then (-1, set_errno EINVAL w)
              else
                (t, set_fds
                      (<[fd := {| fe_path := path; fe_pos := t |}]> (fds w)) w)
          end
      end
  end.

(** [write (fd, data, length data)] at the descriptor's position. *)
Definition sys_write (w : OS) (fd : Z) (data : list byte) : Z * OS :=
  let '(o, w) := enter (SysWrite fd data) w in
  match o with
  | IoFail e => (-1, set_errno e w)
  | _ =>
      match file_of w fd with
      | None => (-1, set_errno EBADF w)
      | Some (path, pos, content) =>
          let put := limit o data in
          let n := Z.of_nat (length put) in
          (n, set_fds (<[fd := {| fe_path := path; fe_pos := pos + n |}]> (fds w))
                (set_fs (<[path := write_at content pos put]> (fs w)) w))
      end
  end.

Definition sys_pwrite (w : OS) (fd : Z) (data : list byte) (off : Z)
  : Z * OS :=
  let '(o, w) := enter (SysPwrite fd data off) w in
  match o with
  | IoFail e => (-1, set_errno e w)
  | _ =>
      match file_of w fd with
      | None => (-1, set_errno EBADF w)
      | Some (path, _, content) =>
          if off <? 0 then (-1, set_errno EINVAL w)
          else
            let put := limit o data in
            (Z.of_nat (length put),
             set_fs (<[path := write_at content off put]> (fs w)) w)
      end
  end.

Definition sys_fsync (w : OS) (fd : Z) : Z * OS :=
  let '(o, w) := enter (SysFsync fd) w in
  match o with
  | IoFail e => (-1, set_errno e w)
  | _ =>
      match file_of w fd with
      | None => (-1, set_errno EBADF w)
      | Some _ => (0, w)
      end
  end.

Definition sys_ftruncate (w : OS) (fd len : Z) : Z * OS :=
  let '(o, w) := enter (SysFtruncate fd len) w in
  match o with
  | IoFail e => (-1, set_errno e w)
  | _ =>
      match file_of w fd with
      | None => (-1, set_errno EBADF w)
      | Some (path, _, content) =>
          if len <? 0 then (-1, set_errno EINVAL w)
          else (0, set_fs (<[path := truncate_to content len]> (fs w)) w)
      end
  end.

(** [posix_memalign]: the result and a buffer of [size] bytes whose contents
    are indeterminate (here [junk] everywhere). *)
Definition sys_posix_memalign (w : OS) (size : Z) : Z * list byte * OS :=
  let '(o, w) := enter (SysPosixMemalign size) w in
  match o with
  | IoFail e => (e, [], w)
  | _ => (0, replicate (Z.to_nat size) (junk w), w)
  end.

(** [perror] prints to the standard error stream and changes nothing else. *)
Definition sys_perror (w : OS) (msg : string) : OS :=
  {| fs := fs w; fds := fds w; errno := errno w; script := script w;
     trace := trace w ++ [SysPerror msg]; junk := junk w |}.

(** ** The data of vtpc.c *)

Record CacheBlock := {
  cb_data : list byte;       (* char* data, BLOCK_SIZE bytes once allocated *)
  cb_fd : Z;                 (* int fd: the owning raw descriptor *)
  cb_block_index : Z;        (* off_t block_index *)
  cb_dirty : bool;           (* int dirty *)
  cb_frequency : Z;          (* unsigned long long frequency *)
  cb_valid : bool            (* int valid *)
}.

Record FileContext := {
  fc_os_fd : Z;
  fc_current_offset : Z;
  fc_file_size : Z;
  fc_flags : Z
}.

Record State := {
  cache : list CacheBlock;
  cache_initialized : bool;
  open_files : list FileContext;
  world : OS
}.

Definition set_cache (v : list CacheBlock) (st : State) : State :=
  {| cache := v; cache_initialized := cache_initialized st;
     open_files := open_files st; world := world st |}.
Definition set_open_files (v : list FileContext) (st : State) : State :=
  {| cache := cache st; cache_initialized := cache_initialized st;
     open_files := v; world := world st |}.
Definition set_world (v : OS) (st : State) : State :=
  {| cache := cache st; cache_initialized := cache_initialized st;
     open_files := open_files st; world := v |}.

(** Objects with static storage start zeroed: no buffer, descriptor 0. *)
Definition zero_block : CacheBlock :=
  {| cb_data := []; cb_fd := 0; cb_block_index := 0; cb_dirty := false;
     cb_frequency := 0; cb_valid := false |}.
Definition zero_file : FileContext :=
  {| fc_os_fd := 0; fc_current_offset := 0; fc_file_size := 0; fc_flags := 0 |}.

Definition slot (st : State) (i : Z) : CacheBlock :=
  default zero_block (cache st !! Z.to_nat i).
Definition file (st : State) (fd : Z) : FileContext :=
  default zero_file (open_files st !! Z.to_nat fd).

Definition set_slot (i : Z) (b : CacheBlock) (st : State) : State :=
  set_cache (<[Z.to_nat i := b]> (cache st)) st.
Definition set_file (fd : Z) (f : FileContext) (st : State) : State :=
  set_open_files (<[Z.to_nat fd := f]> (open_files st)) st.

Section Vtpc.

Variable cfg : Config.

Definition static_state (w : OS) : State :=
  {| cache := replicate (CACHE_SIZE_BLOCKS cfg) zero_block;
     cache_initialized := false;
     open_files := replicate (MAX_OPEN_FILES cfg) zero_file;
     world := w |}.

(** *** init_cache *)

Fixpoint init_blocks (blocks : list CacheBlock) (w : OS)
  : Z * list CacheBlock * OS :=
  match blocks with
  | [] => (0, [], w)
  | b :: rest =>
      let '(r, buf, w) := sys_posix_memalign w (BLOCK_SIZE cfg) in
      if negb (r =? 0) then (-1, b :: rest, set_errno ENOMEM w)
      else
        let b' := {| cb_data := buf; cb_fd := -1;
                     cb_block_index := cb_block_index b; cb_dirty := false;
                     cb_frequency := 0; cb_valid := false |} in
        let '(res, rest', w) := init_blocks rest w in
        (res, b' :: rest', w)
  end.

Definition init_cache (st : State) : Z * State :=
  if cache_initialized st then (0, st)
  else
    let '(r, blocks, w) := init_blocks (cache st) (world st) in
    if r =? -1 then (-1, set_world w (set_cache blocks st))
    else
      (0, {| cache := blocks; cache_initialized := true;
             open_files :=
               (fun f => {| fc_os_fd := -1;
                            fc_current_offset := fc_current_offset f;
                            fc_file_size := fc_file_size f;
                            fc_flags := fc_flags f |}) <$> open_files st;
             world := w |}).

(** *** find_cache_block *)

Fixpoint find_from (blocks : list CacheBlock) (i : Z) (fd block_index : Z)
  : Z :=
  match blocks with
  | [] => -1
  | b :: rest =>
      if cb_valid b && (cb_fd b =? fd) && (cb_block_index b =? block_index)
      then i
      else find_from rest (i + 1) fd block_index
  end.

Definition find_cache_block (st : State) (fd block_index : Z) : Z :=
  find_from (cache st) 0 fd block_index.

(** *** evict_block

    The scan returns at the first invalid slot ([inl]); otherwise it ends
    with the candidate and [max_freq] ([inr]).  The variable [first_invalid]
    of the C function is written and never read. *)

Fixpoint evict_scan (blocks : list CacheBlock) (i candidate max_freq : Z)
  : Z + Z * Z :=
  match blocks with
  | [] => inr (candidate, max_freq)
  | b :: rest =>
      if negb (cb_valid b) then inl i
      else if (candidate =? -1) || (cb_frequency b >? max_freq)
      then evict_scan rest (i + 1) i (cb_frequency b)
      else evict_scan rest (i + 1) candidate max_freq
  end.

Definition invalidated (b : CacheBlock) : CacheBlock :=
  {| cb_data := cb_data b; cb_fd := cb_fd b;
     cb_block_index := cb_block_index b; cb_dirty := false;
     cb_frequency := 0; cb_valid := false |}.

(** Lines 88-96: the forced flush of a dirty candidate. *)
Definition evict_write_back (b : CacheBlock) (w : OS) : OS :=
  let offset := cb_block_index b * BLOCK_SIZE cfg in
  let '(_, w) := sys_lseek w (cb_fd b) offset SEEK_SET in
  let '(written, w) :=
    sys_write w (cb_fd b) (take (Z.to_nat (BLOCK_SIZE cfg)) (cb_data b)) in
  if negb (written =? BLOCK_SIZE cfg)
  then sys_perror w "vtpc: eviction write failed"
  else w.

Definition evict_block (st : State) : Z * State :=
  match evict_scan (cache st) 0 (-1) 0 with
  | inl i => (i, st)
  | inr (candidate, _) =>
      if negb (candidate =? -1) then
        let b := slot st candidate in
        let st :=
          if cb_dirty b
          then set_world (evict_write_back b (world st)) st
          else st in
        (candidate, set_slot candidate (invalidated b) st)
      else (0, st)
  end.

(** *** vtpc_open *)

Fixpoint find_free_handle (files : list FileContext) (i : Z) : Z :=
  match files with
  | [] => -1
  | f :: rest =>
      if fc_os_fd f =? -1 then i else find_free_handle rest (i + 1)
  end.

Definition vtpc_open (st : State) (path : string) (flags mode : Z)
  : Z * State :=
  let '(r, st) :=
    if negb (cache_initialized st) then init_cache st else (0, st) in
  if r =? -1 then (-1, st)
  else
    let handle :=
      find_free_handle (take (MAX_OPEN_FILES cfg) (open_files st)) 0 in
    if handle =? -1 then (-1, set_world (set_errno EMFILE (world st)) st)
    else
      let '(os_fd, w) :=
        sys_open (world st) path (Z.lor flags O_DIRECT) mode in
      if os_fd =? -1 then (-1, set_world w st)
      else
        let '(r, st_size, w) := sys_fstat w os_fd in
        if r =? -1 then
          let '(_, w) := sys_close w os_fd in (-1, set_world w st)
        else
          (handle,
           set_file handle
             {| fc_os_fd := os_fd; fc_current_offset := 0;
                fc_file_size := st_size; fc_flags := flags |}
             (set_world w st)).

(** The guard every other call starts with. *)
Definition bad_handle (st : State) (fd : Z) : bool :=
  (fd <? 0) || (fd >=? Z.of_nat (MAX_OPEN_FILES cfg))
  || (fc_os_fd (file st fd) =? -1).

(** *** vtpc_fsync *)

Definition cleaned (b : CacheBlock) : CacheBlock :=
  {| cb_data := cb_data b; cb_fd := cb_fd b;
     cb_block_index := cb_block_index b; cb_dirty := false;
     cb_frequency := cb_frequency b; cb_valid := cb_valid b |}.

Fixpoint fsync_blocks (os_fd : Z) (blocks : list CacheBlock) (w : OS)
  : Z * list CacheBlock * OS :=
  match blocks with
  | [] => (0, [], w)
  | b :: rest =>
      if cb_valid b && (cb_fd b =? os_fd) && cb_dirty b then
        let offset := cb_block_index b * BLOCK_SIZE cfg in
        let '(r, w) :=
          sys_pwrite w os_fd (take (Z.to_nat (BLOCK_SIZE cfg)) (cb_data b))
            offset in
        if r =? -1 then (-1, b :: rest, w)
        else
          let '(res, rest', w) := fsync_blocks os_fd rest w in
          (res, cleaned b :: rest', w)
      else
        let '(res, rest', w) := fsync_blocks os_fd rest w in
        (res, b :: rest', w)
  end.

Definition vtpc_fsync (st : State) (fd : Z) : Z * State :=
  if bad_handle st fd
  then (-1, set_world (set_errno EBADF (world st)) st)
  else
    let os_fd := fc_os_fd (file st fd) in
    let '(r, blocks, w) := fsync_blocks os_fd (cache st) (world st) in
    let st := set_world w (set_cache blocks st) in
    if r =? -1 then (-1, st)
    else
      let '(res, w) := sys_fsync (world st) os_fd in
      if res =? -1 then (-1, set_world w st)
      else
        let '(_, w) := sys_ftruncate w os_fd (fc_file_size (file st fd)) in
        (res, set_world w st).

(** *** vtpc_close *)

Definition dropped (os_fd : Z) (b : CacheBlock) : CacheBlock :=
  if cb_valid b && (cb_fd b =? os_fd) then
    {| cb_data := cb_data b; cb_fd := cb_fd b;
       cb_block_index := cb_block_index b; cb_dirty := false;
       cb_frequency := cb_frequency b; cb_valid := false |}
  else b.

Definition vtpc_close (st : State) (fd : Z) : Z * State :=
  if bad_handle st fd
  then (-1, set_world (set_errno EBADF (world st)) st)
  else
    let os_fd := fc_os_fd (file st fd) in
    let '(_, st) := vtpc_fsync st fd in
    let st := set_cache (dropped os_fd <$> cache st) st in
    let '(res, w) := sys_close (world st) os_fd in
    let f := file st fd in
    (res,
     set_file fd
       {| fc_os_fd := -1; fc_current_offset := fc_current_offset f;
          fc_file_size := fc_file_size f; fc_flags := fc_flags f |}
       (set_world w st)).

(** *** vtpc_lseek *)

Definition vtpc_lseek (st : State) (fd offset whence : Z) : Z * State :=
  if bad_handle st fd
  then (-1, set_world (set_errno EBADF (world st)) st)
  else
    let f := file st fd in
    let new_offset :=
      if whence =? SEEK_SET then Some offset
      else if whence =? SEEK_CUR then Some (fc_current_offset f + offset)
      else if whence =? SEEK_END then Some (fc_file_size f + offset)
      else None in
    match new_offset with
    | None => (-1, set_world (set_errno EINVAL (world st)) st)
    | Some new_offset =>
        if new_offset <? 0
        then (-1, set_world (set_errno EINVAL (world st)) st)
        else
          (new_offset,
           set_file fd
             {| fc_os_fd := fc_os_fd f; fc_current_offset := new_offset;
                fc_file_size := fc_file_size f; fc_flags := fc_flags f |} st)
    end.

(** *** The block a chunk resolves to

    Both loops look the block up and, on a miss, take the slot chosen by
    [evict_block] and fill it. *)

Definition touched (b : CacheBlock) : CacheBlock :=
  {| cb_data := cb_data b; cb_fd := cb_fd b;
     cb_block_index := cb_block_index b; cb_dirty := cb_dirty b;
     cb_frequency := u64 (cb_frequency b + 1); cb_valid := cb_valid b |}.

Definition loaded (data : list byte) (os_fd block_idx : Z) : CacheBlock :=
  {| cb_data := data; cb_fd := os_fd; cb_block_index := block_idx;
     cb_dirty := false; cb_frequency := 1; cb_valid := true |}.

(** Lines 192-213: [None] is the [return -1] after a failed [pread]. *)
Definition read_fetch (st : State) (os_fd block_idx : Z)
  : option Z * State :=
  let cache_idx := find_cache_block st os_fd block_idx in
  if cache_idx =? -1 then
    let '(cache_idx, st) := evict_block st in
    let disk_offset := block_idx * BLOCK_SIZE cfg in
    let '(r, got, w) :=
      sys_pread (world st) os_fd (BLOCK_SIZE cfg) disk_offset in
    let st := set_world w st in
    if r =? -1 then (None, st)
    else
      let data := memcpy (cb_data (slot st cache_idx)) 0 got in
      let data :=
        if r <? BLOCK_SIZE cfg then memset0 data r (BLOCK_SIZE cfg - r)
        else data in
      (Some cache_idx, set_slot cache_idx (loaded data os_fd block_idx) st)
  else
    (Some cache_idx, set_slot cache_idx (touched (slot st cache_idx)) st).

(** Lines 243-268. *)
Definition write_fetch (st : State) (os_fd block_idx to_copy : Z)
  : Z * State :=
  let cache_idx := find_cache_block st os_fd block_idx in
  if cache_idx =? -1 then
    let '(cache_idx, st) := evict_block st in
    let data := cb_data (slot st cache_idx) in
    let '(data, st) :=
      if to_copy <? BLOCK_SIZE cfg then
        let '(r, got, w) :=
          sys_pread (world st) os_fd (BLOCK_SIZE cfg)
            (block_idx * BLOCK_SIZE cfg) in
        let data :=
          if r =? -1 then memset0 data 0 (BLOCK_SIZE cfg)
          else if r <? BLOCK_SIZE cfg
          then memset0 (memcpy data 0 got) r (BLOCK_SIZE cfg - r)
          else memcpy data 0 got in
        (data, set_world w st)
      else (data, st) in
    (cache_idx, set_slot cache_idx (loaded data os_fd block_idx) st)
  else
    (cache_idx, set_slot cache_idx (touched (slot st cache_idx)) st).

(** *** vtpc_read *)

Inductive loop_exit :=
  | Returned (r : Z)     (* a return statement inside the loop *)
  | Finished (n : Z).    (* the loop condition became false *)

(** One turn of the loop, lines 186-218: the new [bytes_read], or [None]
    for the [return -1]. *)
Definition read_chunk (os_fd offset count bytes_read : Z)
    (user_buf : list byte) (st : State) : option Z * list byte * State :=
  let block_idx := s64 (u64 (offset + bytes_read) / BLOCK_SIZE cfg) in
  let offset_in_block := u64 (offset + bytes_read) mod BLOCK_SIZE cfg in
  let to_copy := BLOCK_SIZE cfg - offset_in_block in
  let to_copy :=
    if to_copy >? count - bytes_read then count - bytes_read else to_copy in
  match read_fetch st os_fd block_idx with
  | (None, st) => (None, user_buf, st)
  | (Some cache_idx, st) =>
      (Some (bytes_read + to_copy),
       user_buf ++ slice (cb_data (slot st cache_idx)) offset_in_block to_copy,
       st)
  end.

Fixpoint read_loop (fuel : nat) (os_fd offset count bytes_read : Z)
    (user_buf : list byte) (st : State)
  : option (loop_exit * list byte * State) :=
  if bytes_read <? count then
    match fuel with
    | O => None
    | S fuel' =>
        match read_chunk os_fd offset count bytes_read user_buf st with
        | (None, user_buf, st) => Some (Returned (-1), user_buf, st)
        | (Some bytes_read, user_buf, st) =>
            read_loop fuel' os_fd offset count bytes_read user_buf st
        end
    end
  else Some (Finished bytes_read, user_buf, st).

(** The result (a [size_t] returned as [ssize_t]), the bytes stored at the
    start of [buf], the new state. *)
Definition vtpc_read (st : State) (fd count : Z)
  : option (Z * list byte * State) :=
  if bad_handle st fd
  then Some (-1, [], set_world (set_errno EBADF (world st)) st)
  else
    let f := file st fd in
    let os_fd := fc_os_fd f in
    let offset := fc_current_offset f in
    let file_size := fc_file_size f in
    if offset >=? file_size then Some (0, [], st)
    else
      let count :=
        if u64 (offset + count) >? u64 file_size
        then u64 (file_size - offset)
        else count in
      match read_loop (Z.to_nat count) os_fd offset count 0 [] st with
      | None => None
      | Some (Returned r, user_buf, st) => Some (r, user_buf, st)
      | Some (Finished bytes_read, user_buf, st) =>
          let f := file st fd in
          Some (s64 bytes_read, user_buf,
                set_file fd
                  {| fc_os_fd := fc_os_fd f;
                     fc_current_offset :=
                       s64 (fc_current_offset f + bytes_read);
                     fc_file_size := fc_file_size f;
                     fc_flags := fc_flags f |} st)
      end.

(** *** vtpc_write *)

Definition stored (b : CacheBlock) (data : list byte) : CacheBlock :=
  {| cb_data := data; cb_fd := cb_fd b;
     cb_block_index := cb_block_index b; cb_dirty := true;
     cb_frequency := cb_frequency b; cb_valid := cb_valid b |}.

(** One turn of the loop, lines 237-276: the new [bytes_written]. *)
Definition write_chunk (os_fd offset count bytes_written : Z)
    (user_buf : list byte) (st : State) : Z * State :=
  let block_idx := s64 (u64 (offset + bytes_written) / BLOCK_SIZE cfg) in
  let offset_in_block := u64 (offset + bytes_written) mod BLOCK_SIZE cfg in
  let to_copy := BLOCK_SIZE cfg - offset_in_block in
  let to_copy :=
    if to_copy >? count - bytes_written then count - bytes_written
    else to_copy in
  let '(cache_idx, st) := write_fetch st os_fd block_idx to_copy in
  let b := slot st cache_idx in
  (bytes_written + to_copy,
   set_slot cache_idx
     (stored b
        (memcpy (cb_data b) offset_in_block
           (slice user_buf bytes_written to_copy))) st).

Fixpoint write_loop (fuel : nat) (os_fd offset count bytes_written : Z)
    (user_buf : list byte) (st : State) : option (Z * State) :=
  if bytes_written <? count then
    match fuel with
    | O => None
    | S fuel' =>
        let '(bytes_written, st) :=
          write_chunk os_fd offset count bytes_written user_buf st in
        write_loop fuel' os_fd offset count bytes_written user_buf st
    end
  else Some (bytes_written, st).

Definition vtpc_write (st : State) (fd : Z) (buf : list byte) (count : Z)
  : option (Z * State) :=
  if bad_handle st fd
  then Some (-1, set_world (set_errno EBADF (world st)) st)
  else
    let f := file st fd in
    let os_fd := fc_os_fd f in
    let offset := fc_current_offset f in
    match write_loop (Z.to_nat count) os_fd offset count 0 buf st with
    | None => None
    | Some (bytes_written, st) =>
        let f := file st fd in
        let current_offset := s64 (fc_current_offset f + bytes_written) in
        Some (s64 bytes_written,
              set_file fd
                {| fc_os_fd := fc_os_fd f;
                   fc_current_offset := current_offset;
                   fc_file_size :=
                     if current_offset >? fc_file_size f
                     then current_offset else fc_file_size f;
                   fc_flags := fc_flags f |} st)
    end.

End Vtpc.

(** ** Running the calls on small pools *)

Module Demo.

Definition tiny : Config :=
  {| BLOCK_SIZE := 4; CACHE_SIZE_BLOCKS := 2; MAX_OPEN_FILES := 2 |}.

(** A process with the three standard descriptors on a terminal. *)
Definition tty : FdEntry := {| fe_path := "/dev/tty"; fe_pos := 0 |}.

Definition boot : OS :=
  {| fs := {[ "/dev/tty"%string := [] ]};
     fds := <[0 := tty]> (<[1 := tty]> {[ 2 := tty ]});
     errno := 0; script := []; trace := []; junk := x2a |}.

Definition rw : Z := Z.lor 2 (Z.lor O_CREAT O_TRUNC).

End Demo.

(** ** Specification vocabulary *)

(** The first slot that is not valid, if any. *)
Definition first_invalid (blocks : list CacheBlock)
  : option (nat * CacheBlock) :=
  list_find (λ b, cb_valid b = false) blocks.

(** A valid dirty slot of descriptor [os_fd]: what [vtpc_fsync] writes. *)
Definition owned_dirty (os_fd : Z) (b : CacheBlock) : bool :=
  cb_valid b && (cb_fd b =? os_fd) && cb_dirty b.

(** A valid slot of descriptor [os_fd]. *)
Definition owned (os_fd : Z) (b : CacheBlock) : bool :=
  cb_valid b && (cb_fd b =? os_fd).

Definition flushed (os_fd : Z) (b : CacheBlock) : CacheBlock :=
  if owned_dirty os_fd b then cleaned b else b.

(** The [pwrite] calls that flush the slots of [os_fd] in [blocks]. *)
Definition write_backs (cfg : Config) (os_fd : Z) (blocks : list CacheBlock)
  : list syscall :=
  (λ b, SysPwrite os_fd (take (Z.to_nat (BLOCK_SIZE cfg)) (cb_data b))
          (cb_block_index b * BLOCK_SIZE cfg))
    <$> filter (λ b, owned_dirty os_fd b = true) blocks.

(** Slot [b] is valid and caches block [k] of descriptor [fd]: the test of
    [find_cache_block]. *)
Definition holds (fd k : Z) (b : CacheBlock) : bool :=
  cb_valid b && (cb_fd b =? fd) && (cb_block_index b =? k).

(** The pool invariant: no two valid slots cache the same block of the same
    descriptor. *)
Definition pool_inv (blocks : list CacheBlock) : Prop :=
  ∀ i j bi bj,
    blocks !! i = Some bi → blocks !! j = Some bj →
    cb_valid bi = true → cb_valid bj = true →
    cb_fd bi = cb_fd bj → cb_block_index bi = cb_block_index bj →
    i = j.

(** The same, as a test: a valid slot is not matched again further on. *)
Fixpoint pool_invb (blocks : list CacheBlock) : bool :=
  match blocks with
  | [] => true
  | b :: rest =>
      (negb (cb_valid b)
       || (find_from rest 0 (cb_fd b) (cb_block_index b) =? -1))
      && pool_invb rest
  end.

(** A slot after a step that did not give it a new block: either it is no
    longer valid, or it is as valid as before and caches the same block. *)
Definition keeps_key (b b' : CacheBlock) : Prop :=
  cb_valid b' = false
  ∨ (cb_valid b' = cb_valid b ∧ cb_fd b' = cb_fd b
     ∧ cb_block_index b' = cb_block_index b).

(** The block, the offset inside it and the length of the chunk that the
    loops of [vtpc_read] and [vtpc_write] handle when [n] bytes are done. *)
Definition chunk_block (cfg : Config) (offset n : Z) : Z :=
  s64 (u64 (offset + n) / BLOCK_SIZE cfg).
Definition chunk_offset (cfg : Config) (offset n : Z) : Z :=
  u64 (offset + n) mod BLOCK_SIZE cfg.
Definition chunk_len (cfg : Config) (offset count n : Z) : Z :=
  if BLOCK_SIZE cfg - chunk_offset cfg offset n >? count - n
  then count - n
  else BLOCK_SIZE cfg - chunk_offset cfg offset n.

(** ** What a descriptor reads: pool over backing file *)

(** The byte at position [q] of a file; zero beyond its end. *)
Definition byte_at (content : list byte) (q : Z) : byte :=
  default x00 (content !! Z.to_nat q).

(** Block [k] of a file, zero-filled to [BLOCK_SIZE] bytes. *)
Definition block_of (cfg : Config) (content : list byte) (k : Z)
  : list byte :=
  (λ j : nat, byte_at content (k * BLOCK_SIZE cfg + Z.of_nat j))
    <$> seq 0 (Z.to_nat (BLOCK_SIZE cfg)).

Definition content_of (w : OS) (fd : Z) : list byte :=
  match file_of w fd with
  | Some (_, _, content) => content
  | None => []
  end.

(** The buffer of the slot that caches block [k] of [fd], if there is one. *)
Definition cached (st : State) (fd k : Z) : option (list byte) :=
  let i := find_cache_block st fd k in
  if i =? -1 then None else Some (cb_data (slot st i)).

(** Block [k] as a read through the pool sees it. *)
Definition block_view (cfg : Config) (st : State) (fd k : Z) : list byte :=
  default (block_of cfg (content_of (world st) fd) k) (cached st fd k).

(** The byte at position [q] of the stream of descriptor [fd]. *)
Definition logical_byte (cfg : Config) (st : State) (fd q : Z) : byte :=
  byte_at (block_view cfg st fd (q / BLOCK_SIZE cfg)) (q mod BLOCK_SIZE cfg).

(** Descriptor [fd] is open on an existing file that no other descriptor
    of the process is open on. *)
Definition backed (w : OS) (fd : Z) : Prop :=
  ∃ fe content,
    fds w !! fd = Some fe ∧ fs w !! fe_path fe = Some content
    ∧ ∀ fd' fe', fds w !! fd' = Some fe' → fe_path fe' = fe_path fe →
        fd' = fd.

Definition backedb (w : OS) (fd : Z) : bool :=
  match fds w !! fd with
  | None => false
  | Some fe =>
      bool_decide (is_Some (fs w !! fe_path fe))
      && bool_decide
           (map_Forall (λ fd' fe', fe_path fe' = fe_path fe → fd' = fd)
              (fds w))
  end.

(** Every slot of [fd] caches a block at a non-negative index and, unless
    dirty, holds what the file holds. *)
Definition coherent (cfg : Config) (st : State) (fd : Z) : Prop :=
  ∀ i b, cache st !! i = Some b → owned fd b = true →
    0 ≤ cb_block_index b
    ∧ (cb_dirty b = true
       ∨ cb_data b
         = block_of cfg (content_of (world st) fd) (cb_block_index b)).

(** A system call on descriptor [fd0] took the world from [w] to [w']:
    every descriptor stays on its file, other descriptors keep their
    position, only the file of [fd0] may change, and a script that was
    exhausted stays so. *)
Definition confined (fd0 : Z) (w w' : OS) : Prop :=
  (∀ x, fe_path <$> fds w' !! x = fe_path <$> fds w !! x)
  ∧ (∀ p, (∀ fe, fds w !! fd0 = Some fe → fe_path fe ≠ p) →
       fs w' !! p = fs w !! p)
  ∧ (∀ p, is_Some (fs w !! p) → is_Some (fs w' !! p))
  ∧ (script w = [] → script w' = []).

(** The six calls. *)
Inductive call :=
  | Open (path : string) (flags mode : Z)
  | Close (fd : Z)
  | Read (fd count : Z)
  | Write (fd : Z) (buf : list byte) (count : Z)
  | Lseek (fd offset whence : Z)
  | Fsync (fd : Z).

(** The result and the state after a call; [None] when the model of a loop
    runs out of fuel. *)
Definition run (cfg : Config) (c : call) (st : State) : option (Z * State) :=
  match c with
  | Open path flags mode => Some (vtpc_open cfg st path flags mode)
  | Close fd => Some (vtpc_close cfg st fd)
  | Read fd count =>
      match vtpc_read cfg st fd count with
      | Some (r, _, st') => Some (r, st')
      | None => None
      end
  | Write fd buf count => vtpc_write cfg st fd buf count
  | Lseek fd offset whence => Some (vtpc_lseek cfg st fd offset whence)
  | Fsync fd => Some (vtpc_fsync cfg st fd)
  end.

(** A sequence of calls, each run on the state the previous one left. *)
Fixpoint run_all (cfg : Config) (calls : list call) (st : State)
  : option State :=
  match calls with
  | [] => Some st
  | c :: rest =>
      match run cfg c st with
      | Some (_, st') => run_all cfg rest st'
      | None => None
      end
  end.

(** Traffic that does not write through handle [h] nor through another
    handle on the same descriptor: any read or seek on [h] itself, and
    reads, seeks and writes on handles of other descriptors. *)
Definition elsewhere (st : State) (h : Z) (c : call) : Prop :=
  match c with
  | Read h' count =>
      0 ≤ count ≤ SSIZE_MAX
      ∧ (h' = h ∨ fc_os_fd (file st h') ≠ fc_os_fd (file st h))
  | Lseek h' _ _ =>
      h' = h ∨ fc_os_fd (file st h') ≠ fc_os_fd (file st h)
  | Write h' buf count =>
      count = Z.of_nat (length buf)
      ∧ fc_os_fd (file st h') ≠ fc_os_fd (file st h)
  | _ => False
  end.

(** The pool exists and every slot has its buffer of [BLOCK_SIZE] bytes, as
    after [init_cache]. *)
Definition wf_pool (cfg : Config) (st : State) : Prop :=
  (0 < length (cache st))%nat
  ∧ Forall (λ b, length (cb_data b) = Z.to_nat (BLOCK_SIZE cfg)) (cache st).

(** The state serves descriptor [fd] faithfully: buffers allocated, pool
    invariant, the descriptor on a file of its own, no injected outcome
    pending, and clean slots equal to the file. *)
Definition sound (cfg : Config) (st : State) (fd : Z) : Prop :=
  wf_pool cfg st ∧ pool_inv (cache st) ∧ backed (world st) fd
  ∧ script (world st) = [] ∧ coherent cfg st fd.

(** A state in which a handle can be opened afresh: the arrays have their
    sizes and, once [init_cache] has run, every slot has its buffer, the
    pool invariant holds and every valid slot belongs to a descriptor that
    is still open (the library closes a descriptor in [vtpc_close] only,
    after it has invalidated the slots of that descriptor). *)
Definition settled (cfg : Config) (st : State) : Prop :=
  length (cache st) = CACHE_SIZE_BLOCKS cfg
  ∧ length (open_files st) = MAX_OPEN_FILES cfg
  ∧ (cache_initialized st = true →
     wf_pool cfg st ∧ pool_inv (cache st)
     ∧ Forall (λ b, cb_valid b = true → is_Some (fds (world st) !! cb_fd b))
         (cache st)).

(** No descriptor of the process is open on [path], and the file there, if
    any, has a length that [off_t] holds. *)
Definition unopened (w : OS) (path : string) : Prop :=
  (∀ fd fe, fds w !! fd = Some fe → fe_path fe ≠ path)
  ∧ ∀ content, fs w !! path = Some content →
      Z.of_nat (length content) ≤ OFF_MAX.

Definition unopenedb (w : OS) (path : string) : bool :=
  bool_decide (map_Forall (λ _ fe, fe_path fe ≠ path) (fds w))
  && match fs w !! path with
     | Some content => bool_decide (Z.of_nat (length content) ≤ OFF_MAX)
     | None => true
     end.

(** The same state with a script of outcomes for the next system calls. *)
Definition with_script (s : list outcome) (st : State) : State :=
  set_world
    {| fs := fs (world st); fds := fds (world st);
       errno := errno (world st); script := s; trace := trace (world st);
       junk := junk (world st) |} st.

(** ** Sample runs used to exercise the theorems *)

Module Run.
Import Demo.

(** State after a call whose model result is [Some]. *)
Definition after {A} (r : option (A * State)) (otherwise : State) : State :=
  match r with Some (_, st) => st | None => otherwise end.

(** One handle open on a new file "a"; the pool is allocated and empty. *)
Definition st_open : State :=
  snd (vtpc_open tiny (static_state tiny boot) "a" rw 420).

Definition two_blocks : list byte := [x01; x02; x03; x04; x05; x06; x07; x08].

(** Two full blocks written through handle 0: both slots valid and dirty. *)
Definition st_full : State :=
  after (vtpc_write tiny st_open 0 two_blocks 8) st_open.

(** The same, with the second system call to come failing with EIO. *)
Definition st_flaky : State := with_script [IoOk; IoFail EIO] st_full.

(** The pool full of dirty blocks, and the next system call failing. *)
Definition st_close_fault : State := with_script [IoFail EIO] st_full.

Definition three_blocks : list byte :=
  [x01; x02; x03; x04; x05; x06; x07; x08; x09; x0a; x0b; x0c].

(** Three blocks written through a pool of two: block 0 went to the file,
    blocks 2 and 1 are dirty in the pool; the cursor is back at 0 and the
    [write] of the next eviction is going to fail. *)
Definition st_read_fault : State :=
  with_script [IoOk; IoFail EIO]
    (snd (vtpc_lseek tiny
            (after (vtpc_write tiny st_open 0 three_blocks 12) st_open)
            0 0 SEEK_SET)).

(** *** The same at the source's sizes: 1024 slots of 4096 bytes *)

(** One handle open on a new file "a". *)
Definition pool_open : State :=
  snd (vtpc_open vtpc_config (static_state vtpc_config boot) "a" rw 420).

(** One more block of [x] written at the cursor of handle 0. *)
Definition put_block (x : byte) (st : State) : State :=
  after (vtpc_write vtpc_config st 0 (replicate 4096 x) 4096) st.

(** 1024 blocks written: every slot of the pool is valid and dirty, and no
    byte has reached the file. *)
Definition pool_full : State := Nat.iter 1024 (put_block x01) pool_open.

(** The full pool, with the [write] of the next eviction failing (the
    [lseek] before it succeeds). *)
Definition pool_flaky : State := with_script [IoOk; IoFail EIO] pool_full.

(** The full pool, with the next system call failing. *)
Definition pool_close_fault : State := with_script [IoFail EIO] pool_full.

(** A 1025th block written (block 0 went to the file, block 1024 took its
    slot), the cursor back at 0, and the [write] of the next eviction
    failing. *)
Definition pool_read_fault : State :=
  with_script [IoOk; IoFail EIO]
    (snd (vtpc_lseek vtpc_config (put_block x02 pool_full) 0 0 SEEK_SET)).

End Run.

(** ** A handle as a file *)

(** The stream of handle [h]: the bytes below its tracked size, as a read
    through the pool sees them. *)
Definition stream (cfg : Config) (st : State) (h : Z) : list byte :=
  let f := file st h in
  (λ q : nat, logical_byte cfg st (fc_os_fd f) (Z.of_nat q))
    <$> seq 0 (Z.to_nat (fc_file_size f)).

(** At and beyond position [N] every byte of descriptor [fd] is zero, in
    the pool and in the file. *)
Definition zero_from (cfg : Config) (st : State) (fd N : Z) : Prop :=
  ∀ q, N ≤ q →
    logical_byte cfg st fd q = x00
    ∧ byte_at (content_of (world st) fd) q = x00.

(** Nothing lies beyond the tracked size of handle [h]. *)
Definition tail_zero (cfg : Config) (st : State) (h : Z) : Prop :=
  zero_from cfg st (fc_os_fd (file st h)) (fc_file_size (file st h)).

(** Handle [h] is open and well served: its descriptor is alone on its
    file, the backing store performs every call, clean slots equal the
    file, cursor and size are valid offsets, and nothing lies beyond the
    tracked size. *)
Definition tidy (cfg : Config) (st : State) (h : Z) : Prop :=
  length (open_files st) = MAX_OPEN_FILES cfg
  ∧ bad_handle cfg st h = false
  ∧ sound cfg st (fc_os_fd (file st h))
  ∧ 0 ≤ fc_current_offset (file st h)
  ∧ 0 ≤ fc_file_size (file st h) ≤ OFF_MAX
  ∧ tail_zero cfg st h.

(** What [open] finds at [path]: nothing for a new file or under O_TRUNC. *)
Definition opened_content (w : OS) (path : string) (flags : Z) : list byte :=
  match fs w !! path with
  | Some content => if Z.land flags O_TRUNC =? 0 then content else []
  | None => []
  end.

(** [open] flags that decide what a descriptor can be used for. *)
Definition O_ACCMODE : Z := 3.
Definition O_RDWR : Z := 2.
Definition O_APPEND : Z := 1024.

(** The handle was opened for reading and writing, and not for appending.
    The operating system above has no access modes: its [pread] and
    [pwrite] are those of a descriptor opened this way, and what is said of
    the file behind a handle is said under this condition. *)
Definition read_write (st : State) (h : Z) : Prop :=
  Z.land (fc_flags (file st h)) O_ACCMODE = O_RDWR
  ∧ Z.land (fc_flags (file st h)) O_APPEND = 0.

(** ** More sample states *)

Module More.
Import Demo.

(** A process whose standard input is redirected from a file of two bytes
    and has no other descriptor. *)
Definition piped : OS :=
  {| fs := {[ "in"%string := [x01; x02] ]};
     fds := {[ 0 := {| fe_path := "in"; fe_pos := 0 |} ]};
     errno := 0; script := []; trace := []; junk := x2a |}.

(** Before the first [vtpc_open], with the second allocation of the pool
    going to fail. *)
Definition st_no_memory : State :=
  with_script [IoOk; IoFail ENOMEM] (static_state tiny boot).

(** At the source's sizes: one block written through handle 0 and dirty in
    slot 0, and the next transfer going to move one byte only. *)
Definition pool_short : State :=
  with_script [IoShort 1] (Run.put_block x01 Run.pool_open).

(** The pool full of dirty blocks, and the [write] of the next eviction
    going to move one byte only. *)
Definition pool_full_short : State :=
  with_script [IoOk; IoShort 1] Run.pool_full.

(** At the source's sizes: eight bytes written through handle 0, which are
    in slot 0, and the cursor put at 1. *)
Definition pool_eight : State :=
  snd (vtpc_lseek vtpc_config
         (Run.after (vtpc_write vtpc_config Run.pool_open 0 Run.two_blocks 8)
            Run.pool_open) 0 1 SEEK_SET).

End More.

(** ** The disk loader, built with USE_VTPC

    [RunDiskIteration] in the loader under lab/vtpc/src is the caller of
    the library: with USE_VTPC defined its [my_open], [my_close], [my_read],
    [my_write], [my_lseek] and [my_fsync] are the six calls, and the
    [ftruncate] and [posix_fadvise] lines are compiled out.  A C++ exception
    is a result; the vector [buffer], passed by reference, is returned with
    the state. *)

Definition EINTR : Z := 4.

Record timespec := { tv_sec : Z; tv_nsec : Z }.

(** The process of the loader: the library over its operating system, and
    the outcomes of the coming calls of [clock_gettime] ([inl e]: the call
    returns -1 with [errno] e; a clock without outcomes left reads zero). *)
Record Bench := { lib : State; clock : list (Z + timespec) }.

Definition clock_gettime (p : Bench) : Z * timespec * Bench :=
  match clock p with
  | [] => (0, {| tv_sec := 0; tv_nsec := 0 |}, p)
  | inr t :: rest => (0, t, {| lib := lib p; clock := rest |})
  | inl e :: rest =>
      (-1, {| tv_sec := 0; tv_nsec := 0 |},
       {| lib := set_world (set_errno e (world (lib p))) (lib p);
          clock := rest |})
  end.

(** [std::runtime_error (what + std::strerror (err))], or with [what] alone
    when [err] is [None]. *)
Inductive exception := runtime_error (what : string) (err : option Z).

(** The difference of two readings as [TimespecToSeconds] normalises it:
    whole seconds and nanoseconds in [0, 10^9).  The function returns their
    sum [seconds + nanoseconds / 1e9] as a [double]; the model keeps the
    exact pair. *)
Definition TimespecToSeconds (start finish : timespec) : Z * Z :=
  let seconds := tv_sec finish - tv_sec start in
  let nanoseconds := tv_nsec finish - tv_nsec start in
  if nanoseconds <? 0 then (seconds - 1, nanoseconds + 1000000000)
  else (seconds, nanoseconds).

Section Loader.

Variable cfg : Config.

Definition my_open := vtpc_open cfg.
Definition my_close := vtpc_close cfg.
Definition my_read := vtpc_read cfg.
Definition my_write := vtpc_write cfg.
Definition my_lseek := vtpc_lseek cfg.
Definition my_fsync := vtpc_fsync cfg.

(** Lines 930-941: [None] when the fuel runs out, else the exception thrown,
    if any, and the state. *)
Fixpoint write_all (fuel : nat) (fd : Z) (buffer : list byte)
    (remaining : Z) (st : State) : option (option exception * State) :=
  if remaining >? 0 then
    match fuel with
    | O => None
    | S fuel' =>
        let chunk := Z.min (Z.of_nat (length buffer)) remaining in
        match my_write st fd buffer chunk with
        | None => None
        | Some (written, st) =>
            if written =? -1 then
              if errno (world st) =? EINTR
              then write_all fuel' fd buffer remaining st
              else Some (Some (runtime_error "write: "
                                 (Some (errno (world st)))), st)
            else write_all fuel' fd buffer (u64 (remaining - u64 written)) st
        end
    end
  else Some (None, st).

(** Lines 951-965: each [my_read] stores what it got at the start of
    [buffer]. *)
Fixpoint read_all (fuel : nat) (fd : Z) (buffer : list byte)
    (remaining : Z) (st : State)
  : option (option exception * list byte * State) :=
  if remaining >? 0 then
    match fuel with
    | O => None
    | S fuel' =>
        let chunk := Z.min (Z.of_nat (length buffer)) remaining in
        match my_read st fd chunk with
        | None => None
        | Some (received, got, st) =>
            let buffer := memcpy buffer 0 got in
            if received =? 0 then
              Some (Some (runtime_error
                            "Неожиданный конец файла при чтении" None),
                    buffer, st)
            else if received =? -1 then
              if errno (world st) =? EINTR
              then read_all fuel' fd buffer remaining st
              else Some (Some (runtime_error "read: "
                                 (Some (errno (world st)))), buffer, st)
            else read_all fuel' fd buffer (u64 (remaining - u64 received)) st
        end
    end
  else Some (None, buffer, st).

(** The exception thrown or the measured time, with [buffer] and the
    process as the call leaves them; [None] when a loop runs out of
    fuel. *)
Definition RunDiskIteration (fuel : nat) (p : Bench) (fd : Z)
    (buffer : list byte) (file_size : Z)
  : option ((exception + Z * Z) * list byte * Bench) :=
  let thrown what st rest :=
    Some (inl (runtime_error what (Some (errno (world st)))), buffer,
          {| lib := st; clock := rest |}) in
  let '(r, st) := my_lseek (lib p) fd 0 SEEK_SET in
  if r =? -1 then thrown "lseek: "%string st (clock p)
  else
    let '(r, start, p) := clock_gettime {| lib := st; clock := clock p |} in
    if r =? -1 then thrown "clock_gettime: "%string (lib p) (clock p)
    else
      match write_all fuel fd buffer file_size (lib p) with
      | None => None
      | Some (Some e, st) =>
          Some (inl e, buffer, {| lib := st; clock := clock p |})
      | Some (None, st) =>
          let '(r, st) := my_fsync st fd in
          if r =? -1 then thrown "fsync: "%string st (clock p)
          else
            let '(r, st) := my_lseek st fd 0 SEEK_SET in
            if r =? -1 then thrown "lseek: "%string st (clock p)
            else
              match read_all fuel fd buffer file_size st with
              | None => None
              | Some (Some e, buffer, st) =>
                  Some (inl e, buffer, {| lib := st; clock := clock p |})
              | Some (None, buffer, st) =>
                  let '(r, finish, p) :=
                    clock_gettime {| lib := st; clock := clock p |} in
                  if r =? -1
                  then Some (inl (runtime_error "clock_gettime: "
                                    (Some (errno (world (lib p))))),
                             buffer, p)
                  else Some (inr (TimespecToSeconds start finish), buffer, p)
              end
      end.

End Loader.

(** The first [n] bytes of [buffer] written over and over. *)
Definition repeated (buffer : list byte) (n : Z) : list byte :=
  (λ j : nat, byte_at buffer (Z.of_nat j mod Z.of_nat (length buffer)))
    <$> seq 0 (Z.to_nat n).

(** ** Sample runs of the loader *)

Module Loads.
Import Demo.

Definition t1 : timespec := {| tv_sec := 1; tv_nsec := 900000000 |}.
Definition t2 : timespec := {| tv_sec := 3; tv_nsec := 100000000 |}.

(** The loader over handle 0 with eight bytes in its stream. *)
Definition bench : Bench := {| lib := Run.st_full; clock := [inr t1; inr t2] |}.

(** The same with the [write] of the next eviction and the first [write] of
    the next [vtpc_fsync] failing. *)
Definition bench_faults : Bench :=
  {| lib := with_script [IoOk; IoFail EIO; IoOk; IoFail EIO] Run.st_full;
     clock := [inr t1; inr t2] |}.

End Loads.

(** ** The shell minish: how [main] takes a line apart

    A [std::string] is the list of its bytes.  The model covers what [main]
    does with one line that [std::getline] has read (lines 526-577); the
    prompt and the reading of the line are left out, and [ExecuteCommand],
    which creates a process, is a parameter acting on the world outside. *)

Module Minish.

(** [std::isspace] in the C locale, which the program never changes. *)
Definition isspace (ch : byte) : bool :=
  existsb (Byte.eqb ch) [x20; x09; x0a; x0b; x0c; x0d].

Fixpoint IsWhitespaceOnly (segment : list byte) : bool :=
  match segment with
  | [] => true
  | ch :: rest => if negb (isspace ch) then false else IsWhitespaceOnly rest
  end.

Definition amp : byte := x26.

(** Whether "&&" starts [s]. *)
Definition starts_amps (s : list byte) : bool :=
  match s with
  | a :: b :: _ => Byte.eqb a amp && Byte.eqb b amp
  | _ => false
  end.

(** [s.find ("&&")] on the string [s]: the first index at which "&&"
    starts, [None] for [npos]. *)
Fixpoint find_amps (s : list byte) : option nat :=
  match s with
  | [] => None
  | _ :: rest => if starts_amps s then Some O else S <$> find_amps rest
  end.

(** [line.find ("&&", pos)] *)
Definition find (line : list byte) (pos : nat) : option nat :=
  if decide (pos ≤ length line)%nat
  then (λ i, (pos + i)%nat) <$> find_amps (drop pos line)
  else None.

(** [s.substr (pos, n)] and [s.substr (pos)], for [pos] within [s]. *)
Definition substr (s : list byte) (pos n : nat) : list byte :=
  take n (drop pos s).
Definition substr_from (s : list byte) (pos : nat) : list byte := drop pos s.

(** Lines 531-540: [None] when the fuel runs out. *)
Fixpoint split_loop (fuel : nat) (line : list byte) (pos : nat)
    (segments : list (list byte)) : option (list (list byte)) :=
  match fuel with
  | O => None
  | S fuel' =>
      match find line pos with
      | None => Some (segments ++ [substr_from line pos])
      | Some next =>
          split_loop fuel' line (next + 2)
            (segments ++ [substr line pos (next - pos)])
      end
  end.

(** [while (iss >> token) tokens.push_back (token)] over the characters
    [s] left in the stream; [token] holds the characters of the token being
    extracted. *)
Fixpoint extract (s : list byte) (token : list byte) : list (list byte) :=
  match s with
  | [] => match token with [] => [] | _ => [token] end
  | ch :: rest =>
      if isspace ch
      then match token with
           | [] => extract rest []
           | _ => token :: extract rest []
           end
      else extract rest (token ++ [ch])
  end.

Definition tokens_of (segment : list byte) : list (list byte) :=
  extract segment [].

Definition empty_near_amps : string :=
  "minish: синтаксическая ошибка: пустая команда рядом с '&&'".
Definition empty_command : string :=
  "minish: синтаксическая ошибка: пустая команда".

(** "&&" starts at index [j] of [s]. *)
Definition amps_at (s : list byte) (j : nat) : Prop :=
  s !! j = Some amp ∧ s !! S j = Some amp.

(** A token: not empty and free of whitespace. *)
Definition word (token : list byte) : Prop :=
  token ≠ [] ∧ Forall (λ ch, isspace ch = false) token.

(** The segments joined by "&&". *)
Fixpoint join (segments : list (list byte)) : list byte :=
  match segments with
  | [] => []
  | [segment] => segment
  | segment :: rest => segment ++ [amp; amp] ++ join rest
  end.

Section Shell.

(** The world outside and what running a command does to it. *)
Variable W : Type.
Variable ExecuteCommand : list (list byte) → W → bool * W.

(** Lines 563-577: the message that [main] prints, if any, and the world. *)
Fixpoint run_segments (segments : list (list byte)) (w : W)
  : option string * W :=
  match segments with
  | [] => (None, w)
  | segment :: rest =>
      let tokens := tokens_of segment in
      match tokens with
      | [] => (Some empty_command, w)
      | _ =>
          let '(ok, w) := ExecuteCommand tokens w in
          if negb ok then (None, w) else run_segments rest w
      end
  end.

(** Lines 529-577, one turn of the loop of [main] after the line is read. *)
Definition main_line (fuel : nat) (line : list byte) (w : W)
  : option (option string * W) :=
  match split_loop fuel line 0 [] with
  | None => None
  | Some segments =>
      let all_whitespace := forallb IsWhitespaceOnly segments in
      if all_whitespace then Some (None, w)
      else
        let syntax_error := existsb IsWhitespaceOnly segments in
        if syntax_error then Some (Some empty_near_amps, w)
        else Some (run_segments segments w)
  end.

End Shell.

(** A world that records the commands run; a command succeeds unless its
    name is "/f". *)
Definition logged (tokens : list (list byte)) (w : list (list (list byte)))
  : bool * list (list (list byte)) :=
  (negb (bool_decide (head tokens = Some [x2f; x66])), w ++ [tokens]).

End Minish.

(** * Properties *)

(** ** Integers and buffers *)

Lemma u64_small x : 0 ≤ x < 2 ^ 64 → u64 x = x.
Proof. intros H. unfold u64. by apply Z.mod_small. Qed.

Lemma s64_small x : - 2 ^ 63 ≤ x < 2 ^ 63 → s64 x = x.
Proof. intros H. unfold s64. rewrite Z.mod_small; lia. Qed.

(** ** Eviction *)

Section Eviction.

Variable cfg : Config.

Lemma evict_scan_first_invalid blocks n b i c m :
  first_invalid blocks = Some (n, b) →
  evict_scan blocks i c m = inl (i + Z.of_nat n).
Proof.
  unfold first_invalid. revert n i c m.
  induction blocks as [|x rest IH]; intros n i c m H; [done|].
  cbn in H. cbn [evict_scan]. case_decide as Hx.
  - simplify_eq. rewrite Hx. cbn. f_equal. lia.
  - destruct (cb_valid x) eqn:Hv; [|done]. cbn.
    destruct (list_find _ rest) as [[k y]|] eqn:Hf; [|done].
    cbn in H. simplify_eq.
    destruct ((c =? -1) || (cb_frequency x >? m));
      erewrite IH by done; f_equal; lia.
Qed.

(** A scan over valid slots that starts with a candidate keeps it unless a
    later slot has a strictly larger counter, and then takes the first slot
    that reaches the largest counter. *)
Lemma evict_scan_valid blocks i c m :
  first_invalid blocks = None → 0 ≤ i → c ≠ -1 →
  ∃ c' m', evict_scan blocks i c m = inr (c', m')
    ∧ m ≤ m'
    ∧ (∀ j b, blocks !! j = Some b → cb_frequency b ≤ m')
    ∧ ((c' = c ∧ m' = m)
       ∨ ∃ n b, c' = i + Z.of_nat n ∧ blocks !! n = Some b
           ∧ cb_frequency b = m' ∧ m < m'
           ∧ ∀ j b', (j < n)%nat → blocks !! j = Some b' →
               cb_frequency b' < m').
Proof.
  unfold first_invalid. revert i c m.
  induction blocks as [|x rest IH]; intros i c m H Hi Hc.
  { exists c, m. cbn. split_and!; [done|lia|by intros ? ? ?|by left]. }
  cbn in H. case_decide as Hx; [done|].
  destruct (cb_valid x) eqn:Hv; [|done].
  destruct (list_find _ rest) as [[k y]|] eqn:Hf; [done|].
  cbn [evict_scan]. rewrite Hv. cbn [negb].
  replace (c =? -1) with false by (symmetry; apply Z.eqb_neq; done).
  cbn [orb]. destruct (cb_frequency x >? m) eqn:Hgt.
  - apply Z.gtb_lt in Hgt.
    destruct (IH (i + 1) i (cb_frequency x))
      as (c' & m' & -> & Hm & Hall & Hsel); [done|lia|lia|].
    exists c', m'. split_and!; [done|lia| |].
    + intros [|j] b Hb; cbn in Hb; [simplify_eq; lia|eauto].
    + right. destruct Hsel as [[-> ->]|(n & b & -> & Hn & Hb & Hlt & Hbefore)].
      * exists 0%nat, x. split_and!; [lia|done|done|lia|lia].
      * exists (S n), b. split_and!; [lia|done|done|lia|].
        intros [|j] b' Hj Hb'; cbn in Hb'; [simplify_eq; lia|].
        apply (Hbefore j); [lia|done].
  - assert (cb_frequency x ≤ m) as Hle.
    { destruct (Z.gtb_spec (cb_frequency x) m); [done|lia]. }
    destruct (IH (i + 1) c m) as (c' & m' & -> & Hm & Hall & Hsel);
      [done|lia|done|].
    exists c', m'. split_and!; [done|done| |].
    + intros [|j] b Hb; cbn in Hb; [simplify_eq; lia|eauto].
    + destruct Hsel as [[-> ->]|(n & b & -> & Hn & Hb & Hlt & Hbefore)];
        [by left|right].
      exists (S n), b. split_and!; [lia|done|done|lia|].
      intros [|j] b' Hj Hb'; cbn in Hb'; [simplify_eq; lia|].
      apply (Hbefore j); [lia|done].
Qed.

(** On a pool of valid slots the scan ends on the slot with the highest
    counter, the lowest-indexed one among equals. *)
Lemma evict_scan_all_valid blocks :
  first_invalid blocks = None → blocks ≠ [] →
  ∃ n bn m, evict_scan blocks 0 (-1) 0 = inr (Z.of_nat n, m)
    ∧ blocks !! n = Some bn ∧ cb_frequency bn = m
    ∧ ∀ j b, blocks !! j = Some b →
        cb_frequency b ≤ cb_frequency bn
        ∧ ((j < n)%nat → cb_frequency b < cb_frequency bn).
Proof.
  destruct blocks as [|x rest]; [done|]. intros H _.
  unfold first_invalid in *. cbn in H. case_decide as Hx; [done|].
  destruct (cb_valid x) eqn:Hv; [|done].
  destruct (list_find _ rest) as [[k y]|] eqn:Hf; [done|].
  cbn [evict_scan]. rewrite Hv. cbn [negb Z.eqb orb].
  destruct (evict_scan_valid rest (0 + 1) 0 (cb_frequency x))
    as (c' & m' & -> & Hm & Hall & Hsel); [done|lia|lia|].
  destruct Hsel as [[-> ->]|(n & b & -> & Hn & Hb & Hlt & Hbefore)].
  - exists 0%nat, x, (cb_frequency x). split_and!; [done..|].
    intros [|j] b Hb; cbn in Hb; [simplify_eq; lia|].
    split; [eauto|lia].
  - exists (S n), b, m'. split_and!; [f_equal; f_equal; lia|done|done|].
    intros [|j] b' Hb'; cbn in Hb'.
    + simplify_eq. lia.
    + split; [rewrite Hb; eauto|]. intros Hj. rewrite Hb.
      apply (Hbefore j); [lia|done].
Qed.

End Eviction.

Section EvictBlock.

Variable cfg : Config.

Lemma first_invalid_lt blocks n b :
  first_invalid blocks = Some (n, b) → (n < length blocks)%nat.
Proof.
  unfold first_invalid. intros H. apply list_find_Some in H as (H & _).
  by eapply lookup_lt_Some.
Qed.

(** With an invalid slot in the pool [evict_block] returns the first one at
    once, before any write-back. *)
Lemma evict_block_first_invalid st n b :
  first_invalid (cache st) = Some (n, b) →
  evict_block cfg st = (Z.of_nat n, st).
Proof.
  intros H. unfold evict_block.
  by rewrite (evict_scan_first_invalid _ n b 0 (-1) 0 H).
Qed.

(** With every slot valid it returns the scan's candidate. *)
Lemma evict_block_all_valid st :
  first_invalid (cache st) = None → cache st ≠ [] →
  ∃ n bn, fst (evict_block cfg st) = Z.of_nat n
    ∧ cache st !! n = Some bn
    ∧ ∀ j b, cache st !! j = Some b →
        cb_frequency b ≤ cb_frequency bn
        ∧ ((j < n)%nat → cb_frequency b < cb_frequency bn).
Proof.
  intros H Hne.
  destruct (evict_scan_all_valid (cache st))
    as (n & bn & m & Hs & Hn & _ & Hmax); [done..|].
  exists n, bn. unfold evict_block. rewrite Hs.
  replace (Z.of_nat n =? -1) with false by (symmetry; apply Z.eqb_neq; lia).
  cbn [negb]. by destruct (cb_dirty _).
Qed.

(** ** C5 *)

(** C5. When some slot is invalid, [evict_block] returns the first such slot
    and leaves the whole state, the backing store included, as it was (no
    write-back).  When every slot is valid it selects the slot whose access
    counter is the highest, and among slots with that counter the one with
    the lowest index. *)
Theorem evict_block_selection (st : State) :
  (∀ n b, first_invalid (cache st) = Some (n, b) →
     evict_block cfg st = (Z.of_nat n, st))
  ∧ (first_invalid (cache st) = None → (0 < length (cache st))%nat →
     ∃ n bn, fst (evict_block cfg st) = Z.of_nat n
       ∧ cache st !! n = Some bn
       ∧ ∀ j b, cache st !! j = Some b →
           cb_frequency b ≤ cb_frequency bn
           ∧ ((j < n)%nat → cb_frequency b < cb_frequency bn)).
Proof.
  split.
  - intros n b. apply evict_block_first_invalid.
  - intros H Hlen. apply evict_block_all_valid; [done|].
    intros E. rewrite E in Hlen. cbn in Hlen. lia.
Qed.

(** ** C9 *)

(** C9. With a pool of at least one slot, [evict_block] returns an index
    inside the pool: the first invalid slot when there is one; and the scan
    never ends without a candidate, so the final [return 0] is not reached. *)
Theorem evict_block_in_range (st : State) :
  length (cache st) = CACHE_SIZE_BLOCKS cfg →
  (0 < CACHE_SIZE_BLOCKS cfg)%nat →
  0 ≤ fst (evict_block cfg st) < Z.of_nat (CACHE_SIZE_BLOCKS cfg)
  ∧ (∀ n b, first_invalid (cache st) = Some (n, b) →
       fst (evict_block cfg st) = Z.of_nat n)
  ∧ (∀ c m, evict_scan (cache st) 0 (-1) 0 = inr (c, m) → c ≠ -1).
Proof.
  intros Hlen Hpos.
  assert (cache st ≠ []) as Hne.
  { intros E. rewrite E in Hlen. cbn in Hlen. lia. }
  destruct (first_invalid (cache st)) as [[n b]|] eqn:Hf.
  - pose proof (first_invalid_lt _ _ _ Hf).
    pose proof (evict_block_first_invalid st n b Hf) as He.
    split; [|split].
    + rewrite He. cbn. lia.
    + intros n' b' ?. simplify_eq. by rewrite He.
    + intros c m Hs.
      by rewrite (evict_scan_first_invalid _ n b 0 (-1) 0 Hf) in Hs.
  - destruct (evict_block_all_valid st Hf Hne) as (n & bn & He & Hn & _).
    apply lookup_lt_Some in Hn. split; [|split].
    + rewrite He. lia.
    + intros n' b' ?. simplify_eq.
    + intros c m Hs.
      destruct (evict_scan_all_valid (cache st))
        as (n' & ? & m' & Hs' & _); [done..|].
      rewrite Hs' in Hs. simplify_eq. lia.
Qed.

End EvictBlock.

Lemma evict_block_selection_witness :
  evict_block Demo.tiny Run.st_open = (0, Run.st_open)
  ∧ ∃ n bn, fst (evict_block Demo.tiny Run.st_full) = Z.of_nat n
      ∧ cache Run.st_full !! n = Some bn
      ∧ ∀ j b, cache Run.st_full !! j = Some b →
          cb_frequency b ≤ cb_frequency bn
          ∧ ((j < n)%nat → cb_frequency b < cb_frequency bn).
Proof.
  split.
  - apply (proj1 (evict_block_selection Demo.tiny Run.st_open) 0%nat
             (default zero_block (cache Run.st_open !! 0%nat))).
    vm_compute. reflexivity.
  - apply (proj2 (evict_block_selection Demo.tiny Run.st_full)).
    + vm_compute. reflexivity.
    + vm_compute. lia.
Defined.

Lemma evict_block_in_range_witness :
  0 ≤ fst (evict_block Demo.tiny Run.st_full) < 2
  ∧ (∀ n b, first_invalid (cache Run.st_full) = Some (n, b) →
       fst (evict_block Demo.tiny Run.st_full) = Z.of_nat n)
  ∧ (∀ c m, evict_scan (cache Run.st_full) 0 (-1) 0 = inr (c, m) → c ≠ -1).
Proof.
  apply (evict_block_in_range Demo.tiny Run.st_full).
  - vm_compute. reflexivity.
  - vm_compute. lia.
Defined.


(** ** C10 *)

Section Lseek.

Variable cfg : Config.

(** C10. [vtpc_lseek] returns -1 exactly for a bad handle, for a [whence]
    other than SEEK_SET, SEEK_CUR and SEEK_END, and for a negative resulting
    offset; the last two set [errno] to EINVAL.  When it returns -1 the pool,
    the handle table (cursor and tracked size of every handle) and the
    backing store are unchanged: only [errno] is written. *)
Theorem vtpc_lseek_failure (st : State) (fd offset whence : Z) :
  fst (vtpc_lseek cfg st fd offset whence) = -1 →
  let st' := snd (vtpc_lseek cfg st fd offset whence) in
  cache st' = cache st
  ∧ open_files st' = open_files st
  ∧ st' = set_world (set_errno (errno (world st')) (world st)) st
  ∧ ((bad_handle cfg st fd = true ∧ errno (world st') = EBADF)
     ∨ (bad_handle cfg st fd = false ∧ errno (world st') = EINVAL
        ∧ ((whence ≠ SEEK_SET ∧ whence ≠ SEEK_CUR ∧ whence ≠ SEEK_END)
           ∨ (whence = SEEK_SET ∧ offset < 0)
           ∨ (whence = SEEK_CUR
              ∧ fc_current_offset (file st fd) + offset < 0)
           ∨ (whence = SEEK_END
              ∧ fc_file_size (file st fd) + offset < 0)))).
Proof.
  unfold vtpc_lseek. destruct (bad_handle cfg st fd) eqn:Hbad.
  { cbn. intros _. split_and!; [done..|]. by left. }
  destruct (Z.eqb_spec whence SEEK_SET) as [->|Hset].
  { destruct (Z.ltb_spec offset 0); cbn; [|lia].
    intros _. split_and!; [done..|]. right. split_and!; [done..|].
    right. left. done. }
  destruct (Z.eqb_spec whence SEEK_CUR) as [->|Hcur].
  { destruct (Z.ltb_spec (fc_current_offset (file st fd) + offset) 0);
      cbn; [|lia].
    intros _. split_and!; [done..|]. right. split_and!; [done..|].
    right. right. left. done. }
  destruct (Z.eqb_spec whence SEEK_END) as [->|Hend].
  { destruct (Z.ltb_spec (fc_file_size (file st fd) + offset) 0);
      cbn; [|lia].
    intros _. split_and!; [done..|]. right. split_and!; [done..|].
    right. right. right. done. }
  cbn. intros _. split_and!; [done..|]. right. split_and!; [done..|].
  by left.
Qed.

(** The three rejections do occur, and every other call moves the cursor. *)
Lemma vtpc_lseek_result (st : State) (fd offset whence : Z) :
  bad_handle cfg st fd = false →
  let target :=
    if whence =? SEEK_SET then offset
    else if whence =? SEEK_CUR then fc_current_offset (file st fd) + offset
    else fc_file_size (file st fd) + offset in
  0 ≤ whence ≤ 2 → 0 ≤ target →
  vtpc_lseek cfg st fd offset whence =
    (target,
     set_file fd
       {| fc_os_fd := fc_os_fd (file st fd); fc_current_offset := target;
          fc_file_size := fc_file_size (file st fd);
          fc_flags := fc_flags (file st fd) |} st).
Proof.
  intros Hbad target Hw Ht. unfold vtpc_lseek. rewrite Hbad.
  subst target. unfold SEEK_SET, SEEK_CUR, SEEK_END in *.
  destruct (whence =? 0) eqn:E0;
    [|destruct (whence =? 1) eqn:E1; [|destruct (whence =? 2) eqn:E2; [|lia]]];
    (rewrite (proj2 (Z.ltb_ge _ 0)) by lia; done).
Qed.

End Lseek.

Lemma vtpc_lseek_failure_witness :
  let st' := snd (vtpc_lseek Demo.tiny Run.st_full 0 (-9) SEEK_END) in
  cache st' = cache Run.st_full ∧ open_files st' = open_files Run.st_full.
Proof.
  pose proof (vtpc_lseek_failure Demo.tiny Run.st_full 0 (-9) SEEK_END) as H.
  cbv zeta in H. destruct H as (Hc & Hf & _); [vm_compute; reflexivity|].
  split; [exact Hc|exact Hf].
Defined.


(** ** C4 *)

Section Fsync.

Variable cfg : Config.

Lemma enter_trace c w : trace (snd (enter c w)) = trace w ++ [c].
Proof. unfold enter. by destruct (script w). Qed.

Lemma sys_pwrite_trace w fd data off :
  trace (snd (sys_pwrite w fd data off)) = trace w ++ [SysPwrite fd data off].
Proof.
  unfold sys_pwrite.
  pose proof (enter_trace (SysPwrite fd data off) w) as H.
  destruct (enter _ w) as [o w1]. cbn in H.
  destruct o; cbn; try done;
    destruct (file_of w1 fd) as [[[p pos] c]|]; cbn; try done;
    destruct (off <? 0); done.
Qed.

Lemma write_backs_app os_fd l1 l2 :
  write_backs cfg os_fd (l1 ++ l2)
  = write_backs cfg os_fd l1 ++ write_backs cfg os_fd l2.
Proof. unfold write_backs. by rewrite filter_app, fmap_app. Qed.

Lemma write_backs_cons os_fd b l :
  write_backs cfg os_fd (b :: l)
  = (if owned_dirty os_fd b
     then [SysPwrite os_fd (take (Z.to_nat (BLOCK_SIZE cfg)) (cb_data b))
             (cb_block_index b * BLOCK_SIZE cfg)]
     else []) ++ write_backs cfg os_fd l.
Proof.
  unfold write_backs. rewrite filter_cons.
  destruct (owned_dirty os_fd b); by case_decide.
Qed.

Lemma flushed_cons os_fd x l :
  flushed os_fd <$> (x :: l)
  = (if owned_dirty os_fd x then cleaned x else x) :: (flushed os_fd <$> l).
Proof. done. Qed.

(** The flush loop either cleans every slot of the descriptor, or stops at
    the first slot whose [pwrite] returns -1, leaving that slot and all
    later ones as they were and the world as that [pwrite] left it. *)
Lemma fsync_blocks_spec os_fd blocks w r blocks' w' :
  fsync_blocks cfg os_fd blocks w = (r, blocks', w') →
  (r = 0 ∧ blocks' = flushed os_fd <$> blocks
   ∧ trace w' = trace w ++ write_backs cfg os_fd blocks)
  ∨ (r = -1 ∧ ∃ pre b post w1,
       blocks = pre ++ b :: post
       ∧ owned_dirty os_fd b = true
       ∧ fsync_blocks cfg os_fd pre w = (0, flushed os_fd <$> pre, w1)
       ∧ sys_pwrite w1 os_fd (take (Z.to_nat (BLOCK_SIZE cfg)) (cb_data b))
           (cb_block_index b * BLOCK_SIZE cfg) = (-1, w')
       ∧ blocks' = (flushed os_fd <$> pre) ++ b :: post
       ∧ trace w' = trace w ++ write_backs cfg os_fd (pre ++ [b])).
Proof.
  revert w r blocks' w'.
  induction blocks as [|x rest IH]; intros w r blocks' w' H.
  { cbn in H. simplify_eq. left. unfold write_backs. cbn.
    by rewrite app_nil_r. }
  cbn [fsync_blocks] in H.
  change (cb_valid x && (cb_fd x =? os_fd) && cb_dirty x)
    with (owned_dirty os_fd x) in H.
  destruct (owned_dirty os_fd x) eqn:Hx.
  - pose proof (sys_pwrite_trace w os_fd
      (take (Z.to_nat (BLOCK_SIZE cfg)) (cb_data x))
      (cb_block_index x * BLOCK_SIZE cfg)) as Ht.
    destruct (sys_pwrite w os_fd _ _) as [rx wx] eqn:Hp. cbn in Ht.
    destruct (Z.eqb_spec rx (-1)) as [->|Hrx].
    + simplify_eq. right. split; [done|].
      exists [], x, rest, w. split_and!; try done.
      cbn [app]. rewrite write_backs_cons, Hx. by rewrite Ht.
    + destruct (fsync_blocks cfg os_fd rest wx) as [[r1 rest1] w1] eqn:Hrec.
      simplify_eq.
      destruct (IH _ _ _ _ Hrec) as
        [(-> & -> & Htr)|(-> & pre & b & post & wm & -> & Hb & Hpre & Hfail & -> & Htr)].
      * left. split_and!; [done| |].
        -- by rewrite flushed_cons, Hx.
        -- rewrite Htr, Ht, write_backs_cons, Hx. by rewrite <- app_assoc.
      * right. split; [done|].
        exists (x :: pre), b, post, wm. split_and!; try done.
        -- cbn [fsync_blocks].
           change (cb_valid x && (cb_fd x =? os_fd) && cb_dirty x)
             with (owned_dirty os_fd x).
           rewrite Hx, Hp.
           replace (rx =? -1) with false by (symmetry; by apply Z.eqb_neq).
           by rewrite Hpre, flushed_cons, Hx.
        -- by rewrite flushed_cons, Hx.
        -- rewrite Htr, Ht. rewrite <- app_comm_cons.
           rewrite (write_backs_cons _ x), Hx. by rewrite <- app_assoc.
  - destruct (fsync_blocks cfg os_fd rest w) as [[r1 rest1] w1] eqn:Hrec.
    simplify_eq.
    destruct (IH _ _ _ _ Hrec) as
      [(-> & -> & Htr)|(-> & pre & b & post & wm & -> & Hb & Hpre & Hfail & -> & Htr)].
    + left. split_and!; [done| |].
      * by rewrite flushed_cons, Hx.
      * by rewrite write_backs_cons, Hx.
    + right. split; [done|].
      exists (x :: pre), b, post, wm. split_and!; try done.
      * cbn [fsync_blocks].
        change (cb_valid x && (cb_fd x =? os_fd) && cb_dirty x)
          with (owned_dirty os_fd x).
        by rewrite Hx, Hpre, flushed_cons, Hx.
      * by rewrite flushed_cons, Hx.
      * rewrite Htr. rewrite <- app_comm_cons.
        by rewrite (write_backs_cons _ x), Hx.
Qed.

Lemma sys_fsync_result w fd :
  (fst (sys_fsync w fd) = 0 ∨ fst (sys_fsync w fd) = -1)
  ∧ trace (snd (sys_fsync w fd)) = trace w ++ [SysFsync fd].
Proof.
  unfold sys_fsync. pose proof (enter_trace (SysFsync fd) w) as H.
  destruct (enter _ w) as [o w1]. cbn in H.
  destruct o; cbn; try (by auto);
    destruct (file_of w1 fd) as [[[p pos] c]|]; cbn; by auto.
Qed.

Lemma sys_ftruncate_trace w fd len :
  trace (snd (sys_ftruncate w fd len)) = trace w ++ [SysFtruncate fd len].
Proof.
  unfold sys_ftruncate. pose proof (enter_trace (SysFtruncate fd len) w) as H.
  destruct (enter _ w) as [o w1]. cbn in H.
  destruct o; cbn; try done;
    destruct (file_of w1 fd) as [[[p pos] c]|]; cbn; try done;
    destruct (len <? 0); done.
Qed.

(** The flush as the code decides it, where a [pwrite] has failed when it
    returns -1 and is accepted otherwise, whatever it moved.
    [vtpc_fsync] on an open handle walks the pool in order and issues
    [pwrite (os_fd, data, BLOCK_SIZE, block_index * BLOCK_SIZE)] for every
    valid dirty slot of the handle's descriptor.  Either every [pwrite] is
    accepted: the dirty flag of exactly those slots is cleared, the barrier
    [fsync] follows and, when it succeeds, [ftruncate] to the tracked size.
    Or the [pwrite] of some slot returns -1: the call returns -1, the slots
    before it are flushed and clean, that slot and every later slot are
    unchanged (still dirty), and the world is the one the failed [pwrite]
    left, so neither [fsync] nor [ftruncate] was called. *)
Theorem vtpc_fsync_flush (st : State) (fd : Z) :
  bad_handle cfg st fd = false →
  let os_fd := fc_os_fd (file st fd) in
  let r := fst (vtpc_fsync cfg st fd) in
  let st' := snd (vtpc_fsync cfg st fd) in
  open_files st' = open_files st
  ∧ ((cache st' = flushed os_fd <$> cache st
      ∧ ∃ calls,
          trace (world st') =
            trace (world st) ++ write_backs cfg os_fd (cache st)
              ++ SysFsync os_fd :: calls
          ∧ ((r = -1 ∧ calls = [])
             ∨ (r = 0
                ∧ calls = [SysFtruncate os_fd (fc_file_size (file st fd))])))
     ∨ (r = -1 ∧ ∃ pre b post w1,
          cache st = pre ++ b :: post
          ∧ owned_dirty os_fd b = true
          ∧ fsync_blocks cfg os_fd pre (world st)
            = (0, flushed os_fd <$> pre, w1)
          ∧ sys_pwrite w1 os_fd
              (take (Z.to_nat (BLOCK_SIZE cfg)) (cb_data b))
              (cb_block_index b * BLOCK_SIZE cfg) = (-1, world st')
          ∧ cache st' = (flushed os_fd <$> pre) ++ b :: post
          ∧ trace (world st') =
              trace (world st) ++ write_backs cfg os_fd (pre ++ [b]))).
Proof.
  intros Hbad os_fd. unfold vtpc_fsync. rewrite Hbad. fold os_fd.
  destruct (fsync_blocks cfg os_fd (cache st) (world st))
    as [[r blocks] w] eqn:Hloop.
  destruct (fsync_blocks_spec _ _ _ _ _ _ Hloop) as
    [(-> & -> & Htr)|(-> & pre & b & post & wm & Hsplit & Hb & Hpre & Hfail & -> & Htr)].
  - cbn [Z.eqb world set_world set_cache cache open_files].
    pose proof (sys_fsync_result w os_fd) as [Hres Htr2].
    destruct (sys_fsync w os_fd) as [res w2]. cbn in Hres, Htr2.
    change (file (set_world w (set_cache (flushed os_fd <$> cache st) st)) fd)
      with (file st fd).
    pose proof (sys_ftruncate_trace w2 os_fd (fc_file_size (file st fd)))
      as Htr3.
    destruct (sys_ftruncate w2 os_fd _) as [r3 w3]. cbn in Htr3.
    destruct Hres as [->| ->]; cbn.
    + split; [done|]. left. split; [done|].
      eexists. split; [|right; split; reflexivity].
      rewrite Htr3, Htr2, Htr. by rewrite <- !app_assoc.
    + split; [done|]. left. split; [done|].
      exists []. split; [|by left].
      rewrite Htr2, Htr. by rewrite <- !app_assoc.
  - cbn. split; [done|]. right. split; [done|].
    exists pre, b, post, wm. by split_and!.
Qed.

End Fsync.

Lemma vtpc_fsync_flush_witness :
  bad_handle Demo.tiny Run.st_flaky 0 = false
  ∧ open_files (snd (vtpc_fsync Demo.tiny Run.st_flaky 0))
    = open_files Run.st_flaky.
Proof.
  split; [reflexivity|].
  apply (vtpc_fsync_flush Demo.tiny Run.st_flaky 0). reflexivity.
Defined.

(** The run behind the witness: the first dirty slot is flushed, the
    [pwrite] of the second fails, and no barrier follows. *)
Example vtpc_fsync_aborts :
  let r := vtpc_fsync Demo.tiny Run.st_flaky 0 in
  fst r = -1
  ∧ cb_dirty <$> cache (snd r) = [false; true]
  ∧ drop (length (trace (world Run.st_flaky))) (trace (world (snd r)))
    = [SysPwrite 3 [x01; x02; x03; x04] 0; SysPwrite 3 [x05; x06; x07; x08] 4].
Proof. vm_compute. done. Qed.

(** ** Handles and slots *)

Section Tables.

Variable cfg : Config.

Lemma bad_handle_false st fd :
  bad_handle cfg st fd = false →
  0 ≤ fd < Z.of_nat (MAX_OPEN_FILES cfg) ∧ fc_os_fd (file st fd) ≠ -1.
Proof.
  unfold bad_handle. intros H.
  apply orb_false_elim in H as [H H3]. apply orb_false_elim in H as [H1 H2].
  apply Z.ltb_ge in H1. rewrite Z.geb_leb in H2. apply Z.leb_gt in H2.
  apply Z.eqb_neq in H3. lia.
Qed.

Lemma file_set_file st fd f :
  (Z.to_nat fd < length (open_files st))%nat → file (set_file fd f st) fd = f.
Proof.
  intros H. unfold file, set_file. cbn.
  by rewrite list_lookup_insert_eq.
Qed.

Lemma find_free_handle_free files i n f :
  files !! n = Some f → fc_os_fd f = -1 → 0 ≤ i →
  0 ≤ find_free_handle files i ≤ i + Z.of_nat n.
Proof.
  revert i n. induction files as [|x rest IH]; intros i n Hn Hf Hi; [done|].
  cbn [find_free_handle]. destruct (Z.eqb_spec (fc_os_fd x) (-1)); [lia|].
  destruct n as [|n]; cbn in Hn; [congruence|].
  specialize (IH (i + 1) n Hn Hf). lia.
Qed.

Lemma find_free_handle_released files n f k :
  (n < length files)%nat → (n < k)%nat → fc_os_fd f = -1 →
  0 ≤ find_free_handle (take k (<[n := f]> files)) 0 ≤ Z.of_nat n.
Proof.
  intros Hn Hk Hf.
  apply (find_free_handle_free _ 0 n f); [|done|lia].
  rewrite lookup_take_lt by done. by apply list_lookup_insert_eq.
Qed.

End Tables.

(** ** Closing a handle *)

Section Close.

Variable cfg : Config.

Lemma vtpc_fsync_open_files st fd :
  open_files (snd (vtpc_fsync cfg st fd)) = open_files st.
Proof.
  unfold vtpc_fsync. destruct (bad_handle cfg st fd); [done|].
  destruct (fsync_blocks _ _ _ _) as [[r blocks] w].
  destruct (r =? -1); [done|]. cbn [world set_world].
  destruct (sys_fsync _ _) as [res w2].
  destruct (res =? -1); [done|].
  by destruct (sys_ftruncate _ _ _).
Qed.

Lemma dropped_not_owned os_fd b : owned os_fd (dropped os_fd b) = false.
Proof.
  unfold dropped, owned.
  destruct (cb_valid b && (cb_fd b =? os_fd)) eqn:H; [done|exact H].
Qed.

Lemma sys_close_trace w fd :
  trace (snd (sys_close w fd)) = trace w ++ [SysClose fd].
Proof.
  unfold sys_close. pose proof (enter_trace (SysClose fd) w) as H.
  destruct (enter _ w) as [o w1]. cbn in H.
  destruct (fds w1 !! fd); [|done]. by destruct o.
Qed.

(** Whatever the flush did, [vtpc_close] on an open handle invalidates every
    slot of the descriptor, closes the raw descriptor as its last system
    call, returns what that [close] returned and frees the handle, so that
    the next [vtpc_open] finds a free handle no higher than this one. *)
Lemma vtpc_close_releases (st : State) (fd : Z) :
  bad_handle cfg st fd = false →
  length (open_files st) = MAX_OPEN_FILES cfg →
  let os_fd := fc_os_fd (file st fd) in
  let st' := snd (vtpc_close cfg st fd) in
  fst (vtpc_close cfg st fd)
  = fst (sys_close (world (snd (vtpc_fsync cfg st fd))) os_fd)
  ∧ (∀ b, b ∈ cache st' → owned os_fd b = false)
  ∧ fc_os_fd (file st' fd) = -1
  ∧ last (trace (world st')) = Some (SysClose os_fd)
  ∧ 0 ≤ find_free_handle (take (MAX_OPEN_FILES cfg) (open_files st')) 0 ≤ fd.
Proof.
  intros Hbad Hlen os_fd. pose proof (bad_handle_false _ _ _ Hbad) as [Hfd _].
  unfold vtpc_close. rewrite Hbad. fold os_fd.
  pose proof (vtpc_fsync_open_files st fd) as Hof.
  destruct (vtpc_fsync cfg st fd) as [r st1]. cbn in Hof.
  cbn [world set_cache snd].
  pose proof (sys_close_trace (world st1) os_fd) as Htr.
  destruct (sys_close (world st1) os_fd) as [res w]. cbn in Htr.
  cbn [fst snd]. split; [done|]. split; [|split; [|split]].
  - cbn. intros b Hb. apply list_elem_of_fmap in Hb as (b0 & -> & _).
    apply dropped_not_owned.
  - rewrite file_set_file; [done|]. cbn. rewrite Hof. lia.
  - cbn. rewrite Htr. by rewrite last_snoc.
  - cbn [set_file open_files set_open_files set_world set_cache].
    rewrite Hof.
    match goal with
    | |- 0 ≤ find_free_handle (take ?k (<[?n := ?f]> ?l)) 0 ≤ _ =>
        pose proof (find_free_handle_released l n f k) as H
    end.
    cbn in H. lia.
Qed.

End Close.

(** ** Buffers keep their size *)

Lemma length_memcpy dst off src :
  (Z.to_nat off + length src ≤ length dst)%nat →
  length (memcpy dst off src) = length dst.
Proof.
  intros H. unfold memcpy.
  rewrite !length_app, length_take, length_drop. lia.
Qed.

Lemma length_memset0 dst off n :
  (Z.to_nat off + Z.to_nat n ≤ length dst)%nat →
  length (memset0 dst off n) = length dst.
Proof.
  intros H. unfold memset0.
  rewrite !length_app, length_take, length_replicate, length_drop. lia.
Qed.

Lemma length_slice src off len :
  (Z.to_nat off + Z.to_nat len ≤ length src)%nat →
  length (slice src off len) = Z.to_nat len.
Proof.
  intros H. unfold slice. rewrite length_take, length_drop. lia.
Qed.

Lemma length_slice_le src off len :
  (length (slice src off len) ≤ Z.to_nat len)%nat.
Proof. unfold slice. rewrite length_take. lia. Qed.

Lemma length_limit o data : (length (limit o data) ≤ length data)%nat.
Proof. destruct o; cbn; [done|done|]. rewrite length_take. lia. Qed.

(** ** A pool whose buffers are allocated *)

Section Pool.

Variable cfg : Config.

Lemma slot_lookup st n b :
  cache st !! n = Some b → slot st (Z.of_nat n) = b.
Proof. intros H. unfold slot. by rewrite Nat2Z.id, H. Qed.

Lemma slot_set_slot st i b :
  (Z.to_nat i < length (cache st))%nat → slot (set_slot i b st) i = b.
Proof.
  intros H. unfold slot, set_slot. cbn. by rewrite list_lookup_insert_eq.
Qed.

Lemma wf_pool_set_slot st i b :
  wf_pool cfg st → length (cb_data b) = Z.to_nat (BLOCK_SIZE cfg) →
  wf_pool cfg (set_slot i b st).
Proof.
  intros [Hlen Hall] Hb. split; cbn.
  - by rewrite length_insert.
  - apply Forall_insert; done.
Qed.

Lemma wf_pool_slot st i :
  wf_pool cfg st → (Z.to_nat i < length (cache st))%nat →
  length (cb_data (slot st i)) = Z.to_nat (BLOCK_SIZE cfg).
Proof.
  intros [_ Hall] Hi. unfold slot.
  destruct (lookup_lt_is_Some_2 _ _ Hi) as [b Hb]. rewrite Hb. cbn.
  by eapply (Forall_lookup_1 _ _ _ _ Hall).
Qed.

(** What [evict_block] does to a pool with at least one slot. *)
Lemma evict_block_cases st :
  (0 < length (cache st))%nat →
  ∃ n b, cache st !! n = Some b
    ∧ fst (evict_block cfg st) = Z.of_nat n
    ∧ ((cb_valid b = false ∧ snd (evict_block cfg st) = st)
       ∨ (cb_valid b = true
          ∧ snd (evict_block cfg st)
            = set_slot (Z.of_nat n) (invalidated b)
                (if cb_dirty b
                 then set_world (evict_write_back cfg b (world st)) st
                 else st))).
Proof.
  intros Hlen. unfold evict_block.
  destruct (first_invalid (cache st)) as [[n b]|] eqn:Hf.
  - rewrite (evict_scan_first_invalid _ n b 0 (-1) 0 Hf).
    apply list_find_Some in Hf as (Hn & Hv & _).
    exists n, b. cbn. split_and!; [done|lia|]. by left.
  - destruct (evict_scan_all_valid (cache st)) as (n & bn & m & -> & Hn & _);
      [done|intros E; rewrite E in Hlen; cbn in Hlen; lia|].
    replace (Z.of_nat n =? -1) with false by (symmetry; apply Z.eqb_neq; lia).
    cbn [negb]. rewrite (slot_lookup _ _ _ Hn).
    exists n, bn. split_and!; [done|done|]. right. split; [|done].
    apply list_find_None in Hf. rewrite Forall_forall in Hf.
    specialize (Hf bn (list_elem_of_lookup_2 _ _ _ Hn)).
    by destruct (cb_valid bn).
Qed.

(** The slot handed out by [evict_block] is in the pool and not valid; no
    other slot changes. *)
Lemma evict_block_slot st :
  (0 < length (cache st))%nat →
  ∃ n b, cache st !! n = Some b
    ∧ fst (evict_block cfg st) = Z.of_nat n
    ∧ cache (snd (evict_block cfg st))
      = <[n := if cb_valid b then invalidated b else b]> (cache st)
    ∧ open_files (snd (evict_block cfg st)) = open_files st
    ∧ cache_initialized (snd (evict_block cfg st)) = cache_initialized st.
Proof.
  intros Hlen.
  destruct (evict_block_cases st Hlen) as (n & b & Hn & Hi & Hcase).
  exists n, b. split_and!; [done|done|..];
    destruct Hcase as [[Hv ->]|[Hv ->]]; try rewrite Hv; try done.
  - by rewrite list_insert_id.
  - unfold set_slot. cbn. rewrite Nat2Z.id. by destruct (cb_dirty b).
  - by destruct (cb_dirty b).
  - by destruct (cb_dirty b).
Qed.

End Pool.

(** ** Lookup *)

Lemma holds_true fd k b :
  holds fd k b = true
  ↔ cb_valid b = true ∧ cb_fd b = fd ∧ cb_block_index b = k.
Proof.
  unfold holds. rewrite !andb_true_iff, !Z.eqb_eq. tauto.
Qed.

Lemma find_from_miss blocks i fd k :
  0 ≤ i →
  find_from blocks i fd k = -1 ↔ ∀ b, b ∈ blocks → holds fd k b = false.
Proof.
  revert i. induction blocks as [|x rest IH]; intros i Hi; cbn.
  { split; [|done]. intros _ b Hb. by apply elem_of_nil in Hb. }
  change (cb_valid x && (cb_fd x =? fd) && (cb_block_index x =? k))
    with (holds fd k x).
  destruct (holds fd k x) eqn:Hx.
  - split; [lia|]. intros H. specialize (H x (list_elem_of_here _ _)).
    congruence.
  - rewrite IH by lia. split.
    + intros H b Hb. apply elem_of_cons in Hb as [->|Hb]; auto.
    + intros H b Hb. apply H. by apply list_elem_of_further.
Qed.

Lemma find_from_hit blocks i fd k :
  0 ≤ i → find_from blocks i fd k ≠ -1 →
  ∃ n b, find_from blocks i fd k = i + Z.of_nat n
    ∧ blocks !! n = Some b ∧ holds fd k b = true.
Proof.
  revert i. induction blocks as [|x rest IH]; intros i Hi; cbn; [done|].
  change (cb_valid x && (cb_fd x =? fd) && (cb_block_index x =? k))
    with (holds fd k x).
  destruct (holds fd k x) eqn:Hx.
  - intros _. exists 0%nat, x. split_and!; [lia|done|done].
  - intros H. destruct (IH (i + 1)) as (n & b & -> & Hn & Hb); [lia|done|].
    exists (S n), b. split_and!; [lia|done|done].
Qed.

Lemma find_from_unique blocks i fd k n b :
  pool_inv blocks → blocks !! n = Some b → holds fd k b = true →
  find_from blocks i fd k = i + Z.of_nat n.
Proof.
  revert i n. induction blocks as [|x rest IH]; intros i n Hinv Hn Hb; [done|].
  cbn [find_from].
  change (cb_valid x && (cb_fd x =? fd) && (cb_block_index x =? k))
    with (holds fd k x).
  destruct n as [|n]; cbn in Hn.
  - simplify_eq. rewrite Hb. lia.
  - destruct (holds fd k x) eqn:Hx.
    + apply holds_true in Hx as (? & ? & ?). apply holds_true in Hb as (? & ? & ?).
      assert (0%nat = S n); [|done].
      apply (Hinv 0%nat (S n) x b); cbn; congruence.
    + rewrite (IH (i + 1) n); [lia| |done|done].
      intros i' j' bi bj Hi' Hj'. intros.
      assert (S i' = S j'); [|lia].
      by apply (Hinv (S i') (S j') bi bj).
Qed.

Lemma pool_invb_sound blocks : pool_invb blocks = true → pool_inv blocks.
Proof.
  induction blocks as [|x rest IH]; intros H.
  { by intros i j bi bj Hi. }
  cbn in H. apply andb_true_iff in H as [Hx Hrest].
  specialize (IH Hrest).
  assert (cb_valid x = true → ∀ b, b ∈ rest →
          holds (cb_fd x) (cb_block_index x) b = false) as Hfresh.
  { intros Hv. apply (find_from_miss rest 0); [lia|].
    rewrite Hv in Hx. cbn in Hx. by apply Z.eqb_eq. }
  intros [|i] [|j] bi bj Hi Hj Hvi Hvj Hfd Hk; cbn in Hi, Hj.
  - done.
  - simplify_eq. specialize (Hfresh Hvi bj (list_elem_of_lookup_2 _ _ _ Hj)).
    assert (holds (cb_fd bi) (cb_block_index bi) bj = true); [|congruence].
    by apply holds_true.
  - simplify_eq. specialize (Hfresh Hvj bi (list_elem_of_lookup_2 _ _ _ Hi)).
    assert (holds (cb_fd bj) (cb_block_index bj) bi = true); [|congruence].
    by apply holds_true.
  - f_equal. by apply (IH i j bi bj).
Qed.

(** Storing a slot keeps the invariant when the slot is not valid, or when
    no other valid slot caches the same block. *)
Lemma pool_inv_insert blocks n b :
  pool_inv blocks →
  (cb_valid b = true →
   ∀ j bj, blocks !! j = Some bj → j ≠ n →
     holds (cb_fd b) (cb_block_index b) bj = false) →
  pool_inv (<[n := b]> blocks).
Proof.
  intros Hinv Hb i j bi bj Hi Hj Hvi Hvj Hfd Hk.
  destruct (decide (i = j)) as [|Hij]; [done|exfalso].
  apply list_lookup_insert_Some in Hi as [(-> & -> & Hlt)|[Hne Hi]];
  apply list_lookup_insert_Some in Hj as [(? & ? & Hlt')|[Hne' Hj]];
    simplify_eq.
  - specialize (Hb Hvi j bj Hj ltac:(done)).
    assert (holds (cb_fd bi) (cb_block_index bi) bj = true); [|congruence].
    by apply holds_true.
  - specialize (Hb Hvj i bi Hi ltac:(done)).
    assert (holds (cb_fd bj) (cb_block_index bj) bi = true); [|congruence].
    by apply holds_true.
  - by apply Hij, (Hinv i j bi bj).
Qed.

Lemma pool_inv_insert_invalid blocks n b :
  pool_inv blocks → cb_valid b = false → pool_inv (<[n := b]> blocks).
Proof. intros H Hv. apply pool_inv_insert; [done|]. by rewrite Hv. Qed.

(** Updating a valid slot in place, keeping what it caches. *)
Lemma pool_inv_insert_same blocks n b0 b :
  pool_inv blocks → blocks !! n = Some b0 → cb_valid b0 = true →
  cb_fd b = cb_fd b0 → cb_block_index b = cb_block_index b0 →
  pool_inv (<[n := b]> blocks).
Proof.
  intros Hinv Hn Hv0 Hfd Hk. apply pool_inv_insert; [done|].
  intros Hv j bj Hj Hne.
  destruct (holds (cb_fd b) (cb_block_index b) bj) eqn:Hh; [|done].
  apply holds_true in Hh as (? & ? & ?).
  destruct Hne. apply (Hinv j n bj b0); congruence.
Qed.

(** ** Steps that keep what the slots cache *)

Lemma keeps_key_refl b : keeps_key b b.
Proof. right. done. Qed.

Lemma keeps_key_trans b1 b2 b3 :
  keeps_key b1 b2 → keeps_key b2 b3 → keeps_key b1 b3.
Proof.
  intros [H1|(H1 & H1' & H1'')] [H2|(H2 & H2' & H2'')].
  - by left.
  - left. congruence.
  - by left.
  - right. split_and!; congruence.
Qed.

Lemma Forall2_keeps_refl l : Forall2 keeps_key l l.
Proof. apply Forall2_same_length_lookup. split; [done|].
  intros i x y ? ?. simplify_eq. apply keeps_key_refl. Qed.

Lemma Forall2_keeps_trans l1 l2 l3 :
  Forall2 keeps_key l1 l2 → Forall2 keeps_key l2 l3 → Forall2 keeps_key l1 l3.
Proof.
  intros H1 H2. revert l3 H2.
  induction H1 as [|x y l l' Hxy _ IH]; intros l3 H2.
  - by inversion H2.
  - inversion H2; subst. constructor; [by eapply keeps_key_trans|by apply IH].
Qed.

Lemma Forall2_keeps_insert l n b b' :
  l !! n = Some b → keeps_key b b' → Forall2 keeps_key l (<[n := b']> l).
Proof.
  intros Hn Hb. apply Forall2_same_length_lookup. split.
  - by rewrite length_insert.
  - intros i x y Hx Hy.
    apply list_lookup_insert_Some in Hy as [(-> & -> & _)|[_ Hy]].
    + by simplify_eq.
    + simplify_eq. apply keeps_key_refl.
Qed.

Lemma Forall2_keeps_fmap (f : CacheBlock → CacheBlock) l :
  (∀ b, keeps_key b (f b)) → Forall2 keeps_key l (f <$> l).
Proof.
  intros Hf. induction l; cbn; constructor; auto.
Qed.

Lemma pool_inv_keeps l l' :
  pool_inv l → Forall2 keeps_key l l' → pool_inv l'.
Proof.
  intros Hinv HR i j bi' bj' Hi Hj Hvi Hvj Hfd Hk.
  destruct (Forall2_lookup_r _ _ _ _ _ HR Hi) as (bi & Hbi & Ri).
  destruct (Forall2_lookup_r _ _ _ _ _ HR Hj) as (bj & Hbj & Rj).
  destruct Ri as [?|(? & ? & ?)]; [congruence|].
  destruct Rj as [?|(? & ? & ?)]; [congruence|].
  apply (Hinv i j bi bj); congruence.
Qed.

Lemma miss_keeps l l' fd k :
  Forall2 keeps_key l l' →
  (∀ b, b ∈ l → holds fd k b = false) →
  ∀ b', b' ∈ l' → holds fd k b' = false.
Proof.
  intros HR Hmiss b' Hb'.
  apply list_elem_of_lookup in Hb' as [i Hi].
  destruct (Forall2_lookup_r _ _ _ _ _ HR Hi) as (b & Hb & R).
  specialize (Hmiss b (list_elem_of_lookup_2 _ _ _ Hb)).
  destruct (holds fd k b') eqn:Hh; [|done].
  apply holds_true in Hh as (? & ? & ?).
  destruct R as [?|(? & ? & ?)]; [congruence|].
  assert (holds fd k b = true); [|congruence].
  apply holds_true. split_and!; congruence.
Qed.

Section Steps.

Variable cfg : Config.

Lemma evict_block_keeps st :
  Forall2 keeps_key (cache st) (cache (snd (evict_block cfg st))).
Proof.
  destruct (cache st) as [|x rest] eqn:Hc.
  { unfold evict_block. rewrite Hc. cbn. by rewrite Hc. }
  destruct (evict_block_slot cfg st) as (n & b & Hn & _ & -> & _).
  { rewrite Hc. cbn. lia. }
  rewrite <- Hc. apply (Forall2_keeps_insert _ _ b); [done|].
  destruct (cb_valid b); [by left|apply keeps_key_refl].
Qed.

Lemma evict_block_length st :
  length (cache (snd (evict_block cfg st))) = length (cache st).
Proof. symmetry. eapply Forall2_length, evict_block_keeps. Qed.

Lemma evict_block_open_files st :
  open_files (snd (evict_block cfg st)) = open_files st.
Proof.
  unfold evict_block. destruct (evict_scan _ _ _ _) as [i|[c m]]; [done|].
  destruct (negb _); [|done]. cbn. by destruct (cb_dirty _).
Qed.

Lemma fsync_blocks_keeps os_fd blocks w :
  Forall2 keeps_key blocks (fsync_blocks cfg os_fd blocks w).1.2.
Proof.
  revert w. induction blocks as [|x rest IH]; intros w; cbn; [constructor|].
  destruct (cb_valid x && (cb_fd x =? os_fd) && cb_dirty x).
  - destruct (sys_pwrite _ _ _ _) as [r w1]. destruct (r =? -1); cbn.
    + apply Forall2_keeps_refl.
    + specialize (IH w1). destruct (fsync_blocks _ _ _ _) as [[? ?] ?].
      cbn in *. constructor; [by right|done].
  - specialize (IH w). destruct (fsync_blocks _ _ _ _) as [[? ?] ?].
    cbn in *. constructor; [apply keeps_key_refl|done].
Qed.

Lemma vtpc_fsync_keeps st fd :
  Forall2 keeps_key (cache st) (cache (snd (vtpc_fsync cfg st fd))).
Proof.
  unfold vtpc_fsync. destruct (bad_handle cfg st fd).
  { apply Forall2_keeps_refl. }
  pose proof (fsync_blocks_keeps (fc_os_fd (file st fd)) (cache st) (world st))
    as H.
  destruct (fsync_blocks _ _ _ _) as [[r blocks] w]. cbn in H.
  destruct (r =? -1); [done|]. cbn [world set_world].
  destruct (sys_fsync _ _) as [res w2]. destruct (res =? -1); [done|].
  by destruct (sys_ftruncate _ _ _).
Qed.

Lemma dropped_keeps os_fd b : keeps_key b (dropped os_fd b).
Proof.
  unfold dropped. destruct (cb_valid b && _); [by left|apply keeps_key_refl].
Qed.

Lemma vtpc_close_keeps st fd :
  Forall2 keeps_key (cache st) (cache (snd (vtpc_close cfg st fd))).
Proof.
  unfold vtpc_close. destruct (bad_handle cfg st fd).
  { apply Forall2_keeps_refl. }
  pose proof (vtpc_fsync_keeps st fd) as H.
  destruct (vtpc_fsync cfg st fd) as [r st1]. cbn in H.
  cbn [world set_cache]. destruct (sys_close _ _) as [res w]. cbn.
  eapply Forall2_keeps_trans; [done|].
  apply Forall2_keeps_fmap, dropped_keeps.
Qed.

Lemma init_blocks_keeps blocks w :
  Forall2 keeps_key blocks (init_blocks cfg blocks w).1.2.
Proof.
  revert w. induction blocks as [|x rest IH]; intros w; cbn; [constructor|].
  destruct (sys_posix_memalign _ _) as [[r buf] w1].
  destruct (negb (r =? 0)); cbn; [apply Forall2_keeps_refl|].
  specialize (IH w1). destruct (init_blocks _ _ _) as [[? ?] ?]. cbn in *.
  constructor; [by left|done].
Qed.

Lemma vtpc_open_keeps st path flags mode :
  Forall2 keeps_key (cache st)
    (cache (snd (vtpc_open cfg st path flags mode))).
Proof.
  unfold vtpc_open, init_cache.
  destruct (cache_initialized st) eqn:Hi; cbn [negb].
  - cbn [Z.eqb]. destruct (find_free_handle _ _ =? -1);
      [apply Forall2_keeps_refl|].
    destruct (sys_open _ _ _ _) as [os_fd w].
    destruct (os_fd =? -1); [apply Forall2_keeps_refl|].
    destruct (sys_fstat _ _) as [[r sz] w1]. destruct (r =? -1).
    + destruct (sys_close _ _). apply Forall2_keeps_refl.
    + apply Forall2_keeps_refl.
  - pose proof (init_blocks_keeps (cache st) (world st)) as H.
    destruct (init_blocks _ _ _) as [[r blocks] w]. cbn in H.
    destruct (Z.eqb_spec r (-1)) as [->|Hr]; [done|].
    cbn [Z.eqb open_files].
    destruct (find_free_handle _ _ =? -1); [done|]. cbn [world].
    destruct (sys_open _ _ _ _) as [os_fd w1].
    destruct (os_fd =? -1); [done|].
    destruct (sys_fstat _ _) as [[r1 sz] w2]. destruct (r1 =? -1).
    + by destruct (sys_close _ _).
    + done.
Qed.

Lemma vtpc_lseek_cache st fd offset whence :
  cache (snd (vtpc_lseek cfg st fd offset whence)) = cache st.
Proof.
  unfold vtpc_lseek. destruct (bad_handle cfg st fd); [done|].
  destruct (if whence =? SEEK_SET then _ else _) as [t|]; [|done].
  by destruct (t <? 0).
Qed.

End Steps.

(** ** The loops *)

Section Loops.

Variable cfg : Config.

Lemma chunk_offset_range offset n :
  0 < BLOCK_SIZE cfg → 0 ≤ chunk_offset cfg offset n < BLOCK_SIZE cfg.
Proof. intros H. unfold chunk_offset. by apply Z.mod_pos_bound. Qed.

Lemma chunk_len_range offset count n :
  0 < BLOCK_SIZE cfg → n < count →
  1 ≤ chunk_len cfg offset count n
  ∧ chunk_len cfg offset count n ≤ count - n
  ∧ chunk_offset cfg offset n + chunk_len cfg offset count n
    ≤ BLOCK_SIZE cfg.
Proof.
  intros H Hn. pose proof (chunk_offset_range offset n H).
  unfold chunk_len.
  destruct (Z.gtb_spec (BLOCK_SIZE cfg - chunk_offset cfg offset n)
              (count - n)); lia.
Qed.

Lemma write_chunk_unfold os_fd offset count n buf st :
  write_chunk cfg os_fd offset count n buf st
  = let '(i, st1) :=
      write_fetch cfg st os_fd (chunk_block cfg offset n)
        (chunk_len cfg offset count n) in
    (n + chunk_len cfg offset count n,
     set_slot i
       (stored (slot st1 i)
          (memcpy (cb_data (slot st1 i)) (chunk_offset cfg offset n)
             (slice buf n (chunk_len cfg offset count n)))) st1).
Proof. reflexivity. Qed.

Lemma read_chunk_unfold os_fd offset count n buf st :
  read_chunk cfg os_fd offset count n buf st
  = match read_fetch cfg st os_fd (chunk_block cfg offset n) with
    | (None, st1) => (None, buf, st1)
    | (Some i, st1) =>
        (Some (n + chunk_len cfg offset count n),
         buf ++ slice (cb_data (slot st1 i)) (chunk_offset cfg offset n)
                  (chunk_len cfg offset count n),
         st1)
    end.
Proof. reflexivity. Qed.

Lemma write_chunk_fst os_fd offset count n buf st :
  fst (write_chunk cfg os_fd offset count n buf st)
  = n + chunk_len cfg offset count n.
Proof.
  rewrite write_chunk_unfold. by destruct (write_fetch _ _ _ _ _).
Qed.

(** The write loop ends, having written [count] bytes, and carries along
    every property that each turn preserves. *)
Lemma write_loop_inv (P : Z → State → Prop) fuel os_fd offset count buf n st :
  0 < BLOCK_SIZE cfg → n ≤ count → count - n ≤ Z.of_nat fuel →
  P n st →
  (∀ n st, n < count → P n st →
     P (n + chunk_len cfg offset count n)
       (snd (write_chunk cfg os_fd offset count n buf st))) →
  ∃ st', write_loop cfg fuel os_fd offset count n buf st = Some (count, st')
    ∧ P count st'.
Proof.
  intros HBS Hn Hfuel HP Hstep. revert n st Hn Hfuel HP.
  induction fuel as [|fuel IH]; intros n st Hn Hfuel HP.
  - assert (n = count) as -> by lia. cbn. rewrite Z.ltb_irrefl. eauto.
  - cbn [write_loop]. destruct (Z.ltb_spec n count) as [Hlt|Hge].
    + pose proof (chunk_len_range offset count n HBS Hlt) as (? & ? & ?).
      pose proof (write_chunk_fst os_fd offset count n buf st) as Hfst.
      specialize (Hstep n st Hlt HP).
      destruct (write_chunk cfg os_fd offset count n buf st) as [n' st1].
      cbn in Hfst, Hstep. subst n'. apply IH; [lia|lia|done].
    + assert (n = count) as -> by lia. eauto.
Qed.

(** The read loop ends: either a turn returned -1, or [count] bytes were
    copied. *)
Lemma read_loop_inv (P : Z → list byte → State → Prop)
    (Q : list byte → State → Prop) fuel os_fd offset count n buf st :
  0 < BLOCK_SIZE cfg → n ≤ count → count - n ≤ Z.of_nat fuel →
  P n buf st →
  (∀ n buf st, n < count → P n buf st →
     match read_chunk cfg os_fd offset count n buf st with
     | (None, buf', st') => Q buf' st'
     | (Some n', buf', st') =>
         n' = n + chunk_len cfg offset count n ∧ P n' buf' st'
     end) →
  ∃ e buf' st',
    read_loop cfg fuel os_fd offset count n buf st = Some (e, buf', st')
    ∧ ((e = Returned (-1) ∧ Q buf' st')
       ∨ (e = Finished count ∧ P count buf' st')).
Proof.
  intros HBS Hn Hfuel HP Hstep. revert n buf st Hn Hfuel HP.
  induction fuel as [|fuel IH]; intros n buf st Hn Hfuel HP.
  - assert (n = count) as -> by lia. cbn. rewrite Z.ltb_irrefl.
    eexists _, _, _. split; [done|]. by right.
  - cbn [read_loop]. destruct (Z.ltb_spec n count) as [Hlt|Hge].
    + pose proof (chunk_len_range offset count n HBS Hlt) as (? & ? & ?).
      specialize (Hstep n buf st Hlt HP).
      destruct (read_chunk cfg os_fd offset count n buf st)
        as [[[n'|] buf1] st1].
      * destruct Hstep as [-> HP1]. apply IH; [lia|lia|done].
      * eexists _, _, _. split; [done|]. by left.
    + assert (n = count) as -> by lia.
      eexists _, _, _. split; [done|]. by right.
Qed.

End Loops.


(** ** C8 *)

Section PoolInvariant.

Variable cfg : Config.

Lemma set_slot_keeps st i b' :
  keeps_key (slot st i) b' →
  Forall2 keeps_key (cache st) (cache (set_slot i b' st)).
Proof.
  intros H. unfold set_slot. cbn.
  destruct (cache st !! Z.to_nat i) as [b|] eqn:Hb.
  - apply (Forall2_keeps_insert _ _ b); [done|].
    unfold slot in H. by rewrite Hb in H.
  - rewrite list_insert_ge; [apply Forall2_keeps_refl|].
    by apply lookup_ge_None.
Qed.

Lemma find_cache_block_miss st fd k :
  find_cache_block st fd k = -1 ↔ ∀ b, b ∈ cache st → holds fd k b = false.
Proof. apply find_from_miss. lia. Qed.

Lemma read_fetch_pool_inv st os_fd k :
  pool_inv (cache st) → pool_inv (cache (snd (read_fetch cfg st os_fd k))).
Proof.
  intros Hinv. unfold read_fetch.
  destruct (Z.eqb_spec (find_cache_block st os_fd k) (-1)) as [Hmiss|Hhit].
  - pose proof (evict_block_keeps cfg st) as Hk.
    destruct (evict_block cfg st) as [i st1]. cbn in Hk.
    destruct (sys_pread _ _ _ _) as [[r got] w].
    destruct (r =? -1); cbn; [by eapply pool_inv_keeps|].
    apply pool_inv_insert; [by eapply pool_inv_keeps|].
    cbn. intros _ j bj Hj _.
    eapply (miss_keeps _ _ _ _ Hk); [by apply find_cache_block_miss|].
    by eapply list_elem_of_lookup_2.
  - cbn. eapply pool_inv_keeps; [done|].
    apply set_slot_keeps. by right.
Qed.

Lemma write_fetch_pool_inv st os_fd k to_copy :
  pool_inv (cache st) →
  pool_inv (cache (snd (write_fetch cfg st os_fd k to_copy))).
Proof.
  intros Hinv. unfold write_fetch.
  destruct (Z.eqb_spec (find_cache_block st os_fd k) (-1)) as [Hmiss|Hhit].
  - pose proof (evict_block_keeps cfg st) as Hk.
    destruct (evict_block cfg st) as [i st1]. cbn in Hk.
    assert (∀ data st2, cache st2 = cache st1 →
      pool_inv (cache (set_slot i (loaded data os_fd k) st2))) as Hload.
    { intros data st2 Hc. cbn. rewrite Hc.
      apply pool_inv_insert; [by eapply pool_inv_keeps|].
      cbn. intros _ j bj Hj _.
      eapply (miss_keeps _ _ _ _ Hk); [by apply find_cache_block_miss|].
      by eapply list_elem_of_lookup_2. }
    destruct (to_copy <? BLOCK_SIZE cfg).
    + destruct (sys_pread _ _ _ _) as [[r got] w]. cbn [snd].
      by apply Hload.
    + cbn [snd]. by apply Hload.
  - cbn. eapply pool_inv_keeps; [done|].
    apply set_slot_keeps. by right.
Qed.

Lemma write_chunk_pool_inv os_fd offset count n buf st :
  pool_inv (cache st) →
  pool_inv (cache (snd (write_chunk cfg os_fd offset count n buf st))).
Proof.
  intros Hinv. rewrite write_chunk_unfold.
  pose proof (write_fetch_pool_inv st os_fd (chunk_block cfg offset n)
                (chunk_len cfg offset count n) Hinv) as H.
  destruct (write_fetch _ _ _ _ _) as [i st1]. cbn in *.
  eapply pool_inv_keeps; [exact H|].
  apply (set_slot_keeps st1). by right.
Qed.

Lemma read_chunk_pool_inv os_fd offset count n buf st :
  pool_inv (cache st) →
  pool_inv (cache (snd (read_chunk cfg os_fd offset count n buf st))).
Proof.
  intros Hinv. rewrite read_chunk_unfold.
  pose proof (read_fetch_pool_inv st os_fd (chunk_block cfg offset n) Hinv)
    as H.
  by destruct (read_fetch _ _ _ _) as [[i|] st1].
Qed.

Lemma vtpc_write_pool_inv st fd buf count :
  0 < BLOCK_SIZE cfg → pool_inv (cache st) →
  ∃ r st', vtpc_write cfg st fd buf count = Some (r, st')
    ∧ pool_inv (cache st').
Proof.
  intros HBS Hinv. unfold vtpc_write.
  destruct (bad_handle cfg st fd); [by eexists _, _|].
  destruct (Z.le_gt_cases 0 count) as [Hc|Hc].
  - destruct (write_loop_inv cfg (λ _ s, pool_inv (cache s)) (Z.to_nat count)
      (fc_os_fd (file st fd)) (fc_current_offset (file st fd))
      count buf 0 st) as (st' & -> & H); [done|lia|lia|done| |].
    { intros n s _ Hs. by apply write_chunk_pool_inv. }
    by eexists _, _.
  - replace (Z.to_nat count) with 0%nat by lia. cbn.
    replace (0 <? count) with false by (symmetry; apply Z.ltb_ge; lia).
    by eexists _, _.
Qed.

Lemma vtpc_read_pool_inv st fd count :
  0 < BLOCK_SIZE cfg → pool_inv (cache st) →
  ∃ r buf st', vtpc_read cfg st fd count = Some (r, buf, st')
    ∧ pool_inv (cache st').
Proof.
  intros HBS Hinv. unfold vtpc_read.
  destruct (bad_handle cfg st fd); [by eexists _, _, _|].
  destruct (_ >=? _); [by eexists _, _, _|].
  set (count' := if _ >? _ then _ else count).
  destruct (Z.le_gt_cases 0 count') as [Hc|Hc].
  - destruct (read_loop_inv cfg (λ _ _ s, pool_inv (cache s))
      (λ _ s, pool_inv (cache s)) (Z.to_nat count')
      (fc_os_fd (file st fd)) (fc_current_offset (file st fd))
      count' 0 [] st) as (e & buf' & st' & -> & H); [done|lia|lia|done| |].
    { intros n b s _ Hs.
      pose proof (read_chunk_pool_inv (fc_os_fd (file st fd))
        (fc_current_offset (file st fd)) count' n b s Hs) as H.
      rewrite read_chunk_unfold in *.
      by destruct (read_fetch _ _ _ _) as [[i|] s1]. }
    destruct H as [[-> H]|[-> H]]; by eexists _, _, _.
  - replace (Z.to_nat count') with 0%nat by lia. cbn.
    replace (0 <? count') with false by (symmetry; apply Z.ltb_ge; lia).
    by eexists _, _, _.
Qed.

Lemma vtpc_close_invalidates st fd b :
  bad_handle cfg st fd = false →
  b ∈ cache (snd (vtpc_close cfg st fd)) →
  owned (fc_os_fd (file st fd)) b = false.
Proof.
  intros Hbad. unfold vtpc_close. rewrite Hbad.
  destruct (vtpc_fsync cfg st fd) as [r st1]. cbn [world set_cache].
  destruct (sys_close _ _) as [res w]. cbn.
  intros Hb. apply list_elem_of_fmap in Hb as (b0 & -> & _).
  apply dropped_not_owned.
Qed.

Lemma evict_block_invalid st :
  (0 < length (cache st))%nat →
  cb_valid (slot (snd (evict_block cfg st)) (fst (evict_block cfg st)))
  = false.
Proof.
  intros Hlen.
  destruct (evict_block_slot cfg st Hlen) as (n & b & Hn & -> & Hc & _).
  unfold slot. rewrite Hc, Nat2Z.id.
  rewrite list_lookup_insert_eq by (by eapply lookup_lt_Some).
  cbn. by destruct (cb_valid b) eqn:Hv.
Qed.

(** C8. Each of the six calls ends and leaves a pool in which no two valid
    slots cache the same block of the same descriptor, if that held before.
    In particular the slot that [evict_block] hands to a miss is not valid
    when it is handed over, and after [vtpc_close] no valid slot belongs to
    the closed descriptor. *)
Theorem pool_invariant_preserved (c : call) (st : State) :
  0 < BLOCK_SIZE cfg →
  pool_inv (cache st) →
  (∃ r st', run cfg c st = Some (r, st') ∧ pool_inv (cache st'))
  ∧ pool_inv (cache (snd (evict_block cfg st)))
  ∧ ((0 < length (cache st))%nat →
     cb_valid (slot (snd (evict_block cfg st)) (fst (evict_block cfg st)))
     = false)
  ∧ (∀ fd b, bad_handle cfg st fd = false →
       b ∈ cache (snd (vtpc_close cfg st fd)) →
       owned (fc_os_fd (file st fd)) b = false).
Proof.
  intros HBS Hinv. split; [|split; [|split]].
  - destruct c as [path flags mode|fd|fd count|fd buf count|fd off wh|fd]; cbn.
    + eexists _, _. split; [f_equal; apply surjective_pairing|].
      eapply pool_inv_keeps; [done|apply vtpc_open_keeps].
    + eexists _, _. split; [f_equal; apply surjective_pairing|].
      eapply pool_inv_keeps; [done|apply vtpc_close_keeps].
    + destruct (vtpc_read_pool_inv st fd count HBS Hinv)
        as (r & buf & st' & -> & H).
      by eexists _, _.
    + by apply vtpc_write_pool_inv.
    + eexists _, _. split; [f_equal; apply surjective_pairing|].
      by rewrite vtpc_lseek_cache.
    + eexists _, _. split; [f_equal; apply surjective_pairing|].
      eapply pool_inv_keeps; [done|apply vtpc_fsync_keeps].
  - eapply pool_inv_keeps; [done|apply evict_block_keeps].
  - apply evict_block_invalid.
  - intros fd b. apply vtpc_close_invalidates.
Qed.

End PoolInvariant.

Lemma pool_invariant_preserved_witness :
  ∃ r st',
    run Demo.tiny (Write 0 Run.three_blocks 12) Run.st_full = Some (r, st')
    ∧ pool_inv (cache st').
Proof.
  apply (pool_invariant_preserved Demo.tiny
           (Write 0 Run.three_blocks 12) Run.st_full).
  - vm_compute. reflexivity.
  - apply pool_invb_sound. vm_compute. reflexivity.
Defined.


(** ** The loops keep the buffers allocated *)

Lemma sys_pread_result w fd len off :
  let '(r, got, w') := sys_pread w fd len off in
  (r = -1 ∧ got = [])
  ∨ (r = Z.of_nat (length got) ∧ (length got ≤ Z.to_nat len)%nat).
Proof.
  unfold sys_pread. destruct (enter _ w) as [o w1].
  assert (∀ o', let got := limit o' (slice
            (match file_of w1 fd with Some (_, _, c) => c | None => [] end)
            off len) in (length got ≤ Z.to_nat len)%nat) as Hlim.
  { intros o'. cbn. etrans; [apply length_limit|apply length_slice_le]. }
  destruct o; cbn; try (by left);
    destruct (file_of w1 fd) as [[[p pos] c]|]; cbn; try (by left);
    destruct (off <? 0); try (by left); right; split; try done.
  - apply (Hlim IoOk).
  - apply (Hlim (IoShort n)).
Qed.

Section Allocated.

Variable cfg : Config.

Lemma evict_block_wf st :
  wf_pool cfg st →
  wf_pool cfg (snd (evict_block cfg st))
  ∧ 0 ≤ fst (evict_block cfg st) < Z.of_nat (length (cache st)).
Proof.
  intros [Hlen Hall].
  destruct (evict_block_slot cfg st Hlen) as (n & b & Hn & -> & Hc & _).
  split; [split|].
  - by rewrite evict_block_length.
  - rewrite Hc. apply Forall_insert; [done|].
    pose proof (Forall_lookup_1 _ _ _ _ Hall Hn). by destruct (cb_valid b).
  - apply lookup_lt_Some in Hn. lia.
Qed.

(** The buffer of a slot after [pread] and the zero fill of a short read. *)
Lemma length_filled data r got :
  length data = Z.to_nat (BLOCK_SIZE cfg) →
  r = Z.of_nat (length got) → (length got ≤ Z.to_nat (BLOCK_SIZE cfg))%nat →
  length (if r <? BLOCK_SIZE cfg
          then memset0 (memcpy data 0 got) r (BLOCK_SIZE cfg - r)
          else memcpy data 0 got)
  = Z.to_nat (BLOCK_SIZE cfg).
Proof.
  intros Hd -> Hg.
  assert (length (memcpy data 0 got) = length data) as Hm.
  { apply length_memcpy. cbn. lia. }
  destruct (Z.ltb_spec (Z.of_nat (length got)) (BLOCK_SIZE cfg)); [|lia].
  rewrite length_memset0; lia.
Qed.

Lemma read_fetch_wf st os_fd k :
  wf_pool cfg st →
  let '(r, st') := read_fetch cfg st os_fd k in
  wf_pool cfg st'
  ∧ open_files st' = open_files st
  ∧ length (cache st') = length (cache st)
  ∧ ∀ i, r = Some i → 0 ≤ i < Z.of_nat (length (cache st)).
Proof.
  intros Hwf. unfold read_fetch.
  destruct (Z.eqb_spec (find_cache_block st os_fd k) (-1)) as [Hmiss|Hhit].
  - pose proof (evict_block_wf st Hwf) as [Hwf1 Hi].
    pose proof (evict_block_open_files cfg st) as Hof.
    pose proof (evict_block_length cfg st) as Hlen.
    destruct (evict_block cfg st) as [i st1]. cbn in Hwf1, Hi, Hof, Hlen.
    pose proof (sys_pread_result (world st1) os_fd (BLOCK_SIZE cfg)
                  (k * BLOCK_SIZE cfg)) as Hp.
    destruct (sys_pread _ _ _ _) as [[r got] w].
    destruct (Z.eqb_spec r (-1)) as [->|Hr].
    + split_and!; [exact Hwf1|done|done|done].
    + destruct Hp as [[? _]|[-> Hg]]; [done|].
      split_and!; [|done|by cbn; rewrite length_insert|by intros ? [= <-]].
      apply (wf_pool_set_slot cfg (set_world w st1)); [exact Hwf1|].
      cbn [loaded cb_data]. apply length_filled; [|done|done].
      apply (wf_pool_slot cfg st1); [done|lia].
  - unfold find_cache_block in *.
    destruct (find_from_hit (cache st) 0 os_fd k) as (n & b & Hf & Hn & _);
      [lia|done|].
    rewrite Hf. rewrite Z.add_0_l.
    split_and!; [|done|by cbn; rewrite length_insert|].
    + apply wf_pool_set_slot; [done|]. cbn.
      apply wf_pool_slot; [done|]. apply lookup_lt_Some in Hn. lia.
    + intros ? [= <-]. apply lookup_lt_Some in Hn. lia.
Qed.

Lemma write_fetch_wf st os_fd k to_copy :
  wf_pool cfg st →
  let '(i, st') := write_fetch cfg st os_fd k to_copy in
  wf_pool cfg st'
  ∧ open_files st' = open_files st
  ∧ length (cache st') = length (cache st)
  ∧ 0 ≤ i < Z.of_nat (length (cache st)).
Proof.
  intros Hwf. unfold write_fetch.
  destruct (Z.eqb_spec (find_cache_block st os_fd k) (-1)) as [Hmiss|Hhit].
  - pose proof (evict_block_wf st Hwf) as [Hwf1 Hi].
    pose proof (evict_block_open_files cfg st) as Hof.
    pose proof (evict_block_length cfg st) as Hlen.
    destruct (evict_block cfg st) as [i st1]. cbn in Hwf1, Hi, Hof, Hlen.
    assert (length (cb_data (slot st1 i)) = Z.to_nat (BLOCK_SIZE cfg)) as Hd.
    { apply (wf_pool_slot cfg st1); [done|lia]. }
    destruct (to_copy <? BLOCK_SIZE cfg).
    + pose proof (sys_pread_result (world st1) os_fd (BLOCK_SIZE cfg)
                    (k * BLOCK_SIZE cfg)) as Hp.
      destruct (sys_pread _ _ _ _) as [[r got] w].
      split_and!; [|done|by cbn; rewrite length_insert|lia|lia].
      apply (wf_pool_set_slot cfg (set_world w st1)); [exact Hwf1|].
      cbn [loaded cb_data].
      destruct (Z.eqb_spec r (-1)) as [->|Hr].
      * rewrite length_memset0; lia.
      * destruct Hp as [[? _]|[-> Hg]]; [done|].
        by apply length_filled.
    + split_and!; [|done|by cbn; rewrite length_insert|lia|lia].
      by apply wf_pool_set_slot.
  - unfold find_cache_block in *.
    destruct (find_from_hit (cache st) 0 os_fd k) as (n & b & Hf & Hn & _);
      [lia|done|].
    rewrite Hf. rewrite Z.add_0_l. apply lookup_lt_Some in Hn.
    split_and!; [|done|by cbn; rewrite length_insert|lia|lia].
    apply wf_pool_set_slot; [done|]. cbn.
    apply wf_pool_slot; [done|]. lia.
Qed.

Lemma write_chunk_wf os_fd offset count n buf st :
  0 < BLOCK_SIZE cfg → n < count → (Z.to_nat count ≤ length buf)%nat →
  0 ≤ n →
  wf_pool cfg st →
  wf_pool cfg (snd (write_chunk cfg os_fd offset count n buf st))
  ∧ open_files (snd (write_chunk cfg os_fd offset count n buf st))
    = open_files st.
Proof.
  intros HBS Hn Hbuf H0 Hwf. rewrite write_chunk_unfold.
  pose proof (chunk_len_range cfg offset count n HBS Hn) as (Hl1 & Hl2 & Hl3).
  pose proof (chunk_offset_range cfg offset n HBS) as Ho.
  pose proof (write_fetch_wf st os_fd (chunk_block cfg offset n)
                (chunk_len cfg offset count n) Hwf) as H.
  destruct (write_fetch _ _ _ _ _) as [i st1].
  destruct H as (Hwf1 & Hof & Hlen & Hi). cbn [snd]. split; [|done].
  apply wf_pool_set_slot; [done|]. cbn [stored cb_data].
  assert (length (cb_data (slot st1 i)) = Z.to_nat (BLOCK_SIZE cfg)) as Hd.
  { apply wf_pool_slot; [done|lia]. }
  rewrite length_memcpy; [done|].
  rewrite length_slice; lia.
Qed.

Lemma read_chunk_wf os_fd offset count n buf st :
  0 < BLOCK_SIZE cfg → n < count →
  wf_pool cfg st →
  let '(r, buf', st') := read_chunk cfg os_fd offset count n buf st in
  wf_pool cfg st'
  ∧ open_files st' = open_files st
  ∧ (r = None → buf' = buf)
  ∧ (∀ n', r = Some n' →
       Z.of_nat (length buf')
       = Z.of_nat (length buf) + chunk_len cfg offset count n).
Proof.
  intros HBS Hn Hwf. rewrite read_chunk_unfold.
  pose proof (chunk_len_range cfg offset count n HBS Hn) as (Hl1 & Hl2 & Hl3).
  pose proof (chunk_offset_range cfg offset n HBS) as Ho.
  pose proof (read_fetch_wf st os_fd (chunk_block cfg offset n) Hwf) as H.
  destruct (read_fetch _ _ _ _) as [[i|] st1];
    destruct H as (Hwf1 & Hof & Hlen & Hi).
  - split_and!; [done|done|done|]. intros n' _.
    specialize (Hi i eq_refl).
    assert (length (cb_data (slot st1 i)) = Z.to_nat (BLOCK_SIZE cfg)) as Hd.
    { apply wf_pool_slot; [done|lia]. }
    rewrite length_app, length_slice; lia.
  - by split_and!.
Qed.

End Allocated.


(** ** C7 *)

Section ReadClamp.

Variable cfg : Config.

Lemma file_same_open_files st st' fd :
  open_files st' = open_files st → file st' fd = file st fd.
Proof. intros H. unfold file. by rewrite H. Qed.

(** The clamp where the sum of cursor and [count] does not wrap.  On an
    open handle whose cursor and tracked size are valid [off_t] values and
    for a [count] that the [ssize_t] result can represent:
    with the cursor at or past the tracked size [vtpc_read] returns 0,
    copies nothing and changes nothing; otherwise it works on
    [min count (size - cursor)] bytes and either returns that number, having
    copied exactly that many bytes and advanced the cursor by it (the
    tracked size unchanged), or returns -1 after a failed [pread], having
    copied fewer bytes than that and moved no cursor. *)
Theorem vtpc_read_clamped (st : State) (fd count : Z) :
  0 < BLOCK_SIZE cfg →
  wf_pool cfg st →
  length (open_files st) = MAX_OPEN_FILES cfg →
  bad_handle cfg st fd = false →
  0 ≤ fc_current_offset (file st fd) →
  fc_file_size (file st fd) ≤ OFF_MAX →
  0 ≤ count ≤ SSIZE_MAX →
  let cur := fc_current_offset (file st fd) in
  let size := fc_file_size (file st fd) in
  ∃ r buf st', vtpc_read cfg st fd count = Some (r, buf, st')
    ∧ ((size ≤ cur ∧ r = 0 ∧ buf = [] ∧ st' = st)
       ∨ (cur < size
          ∧ ((r = Z.min count (size - cur)
              ∧ Z.of_nat (length buf) = r
              ∧ fc_current_offset (file st' fd) = cur + r
              ∧ fc_file_size (file st' fd) = size)
             ∨ (r = -1
                ∧ Z.of_nat (length buf) < Z.min count (size - cur)
                ∧ open_files st' = open_files st)))).
Proof.
  intros HBS Hwf Hlen Hbad Hcur Hsize Hcount cur size.
  pose proof (bad_handle_false _ _ _ Hbad) as [Hfd _].
  unfold vtpc_read. rewrite Hbad. fold cur size.
  destruct (Z.geb_spec cur size) as [Hge|Hlt].
  { eexists _, _, _. split; [done|]. left. split_and!; [lia|done..]. }
  unfold OFF_MAX, SSIZE_MAX in *.
  rewrite (u64_small (cur + count)), (u64_small size),
    (u64_small (size - cur)) by lia.
  set (count' := if cur + count >? size then size - cur else count).
  assert (count' = Z.min count (size - cur)) as Hcount'.
  { subst count'. destruct (Z.gtb_spec (cur + count) size); lia. }
  destruct (read_loop_inv cfg
    (λ n buf s, wf_pool cfg s ∧ open_files s = open_files st
                ∧ Z.of_nat (length buf) = n)
    (λ buf s, open_files s = open_files st
              ∧ Z.of_nat (length buf) < count')
    (Z.to_nat count') (fc_os_fd (file st fd)) cur count' 0 [] st)
    as (e & buf & st' & -> & Hend); [done|lia|lia|done| |].
  { intros n b s Hn (Hwfs & Hofs & Hb).
    pose proof (read_chunk_wf cfg (fc_os_fd (file st fd)) cur count' n b s
                  HBS Hn Hwfs) as H.
    pose proof (read_chunk_unfold cfg (fc_os_fd (file st fd)) cur count' n b s)
      as Hu.
    destruct (read_chunk _ _ _ _ _ _ _) as [[[n'|] b'] s'];
      destruct H as (Hwf' & Hof' & Hnone & Hsome).
    - destruct (read_fetch _ _ _ _) as [[i|] s1]; [|done].
      injection Hu as -> _ _.
      split; [done|]. split_and!; [done|congruence|].
      rewrite (Hsome _ eq_refl). lia.
    - split; [congruence|]. rewrite (Hnone eq_refl). lia. }
  destruct Hend as [[-> [Hof Hb]]|[-> (Hwf' & Hof & Hb)]].
  - eexists _, _, _. split; [done|]. right. split; [done|]. right.
    split_and!; [done|lia|done].
  - eexists _, _, _. split; [done|]. right. split; [done|]. left.
    rewrite file_set_file by (rewrite Hof; lia).
    cbn [fc_current_offset fc_file_size].
    rewrite (file_same_open_files _ _ _ Hof). fold cur size.
    rewrite !s64_small by lia.
    split_and!; [lia|lia|lia|done].
Qed.

End ReadClamp.

Lemma vtpc_read_clamped_witness :
  ∃ r buf st', vtpc_read Demo.tiny Run.st_read_fault 0 100 = Some (r, buf, st')
    ∧ ((12 ≤ 0 ∧ r = 0 ∧ buf = [] ∧ st' = Run.st_read_fault)
       ∨ (0 < 12
          ∧ ((r = Z.min 100 (12 - 0)
              ∧ Z.of_nat (length buf) = r
              ∧ fc_current_offset (file st' 0) = 0 + r
              ∧ fc_file_size (file st' 0) = 12)
             ∨ (r = -1
                ∧ Z.of_nat (length buf) < Z.min 100 (12 - 0)
                ∧ open_files st' = open_files Run.st_read_fault)))).
Proof.
  apply (vtpc_read_clamped Demo.tiny Run.st_read_fault 0 100).
  - vm_compute. reflexivity.
  - split; [vm_compute; lia|]. repeat constructor.
  - vm_compute. reflexivity.
  - vm_compute. reflexivity.
  - vm_compute. discriminate.
  - vm_compute. discriminate.
  - vm_compute. split; discriminate.
Defined.


(** ** File contents, block by block *)

Lemma lookup_write_at (c d : list byte) (o i : nat) :
  (take o (c ++ replicate (o - length c) x00) ++ d ++ drop (o + length d) c)
    !! i
  = if decide (i < o)%nat then Some (default x00 (c !! i))
    else if decide (i < o + length d)%nat then d !! (i - o)%nat
    else c !! i.
Proof.
  assert (length (take o (c ++ replicate (o - length c) x00)) = o) as Hlen.
  { rewrite length_take, length_app, length_replicate. lia. }
  case_decide as H1.
  - rewrite lookup_app_l by lia. rewrite lookup_take_lt by lia.
    destruct (decide (i < length c)%nat) as [Hc|Hc].
    + rewrite lookup_app_l by lia.
      destruct (lookup_lt_is_Some_2 c i Hc) as [x ->]. done.
    + rewrite lookup_app_r by lia. rewrite lookup_replicate_2 by lia.
      rewrite (lookup_ge_None_2 c i) by lia. done.
  - rewrite lookup_app_r by lia. rewrite Hlen. case_decide as H2.
    + by rewrite lookup_app_l by lia.
    + rewrite lookup_app_r by lia. rewrite lookup_drop. f_equal. lia.
Qed.

Lemma byte_at_write_at c off d q :
  0 ≤ off → 0 ≤ q →
  byte_at (write_at c off d) q
  = if decide (off ≤ q < off + Z.of_nat (length d))
    then byte_at d (q - off) else byte_at c q.
Proof.
  intros Hoff Hq. unfold byte_at, write_at. rewrite lookup_write_at.
  repeat case_decide; try lia; try done.
  by replace (Z.to_nat (q - off)) with (Z.to_nat q - Z.to_nat off)%nat by lia.
Qed.

Lemma memcpy_0 (old got : list byte) :
  memcpy old 0 got = got ++ drop (length got) old.
Proof. reflexivity. Qed.

Section Blocks.

Variable cfg : Config.

Lemma length_block_of c k :
  length (block_of cfg c k) = Z.to_nat (BLOCK_SIZE cfg).
Proof. unfold block_of. by rewrite length_fmap, length_seq. Qed.

Lemma block_of_lookup c k j :
  (j < Z.to_nat (BLOCK_SIZE cfg))%nat →
  block_of cfg c k !! j
  = Some (byte_at c (k * BLOCK_SIZE cfg + Z.of_nat j)).
Proof.
  intros Hj. unfold block_of. rewrite list_lookup_fmap.
  by rewrite lookup_seq_lt.
Qed.

(** A buffer of [BLOCK_SIZE] bytes is block [k] of a file when it agrees
    with the file byte by byte. *)
Lemma block_of_eq c k (l : list byte) :
  length l = Z.to_nat (BLOCK_SIZE cfg) →
  (∀ j, (j < Z.to_nat (BLOCK_SIZE cfg))%nat →
     byte_at l (Z.of_nat j) = byte_at c (k * BLOCK_SIZE cfg + Z.of_nat j)) →
  l = block_of cfg c k.
Proof.
  intros Hl H. apply list_eq. intros j.
  destruct (decide (j < Z.to_nat (BLOCK_SIZE cfg))%nat) as [Hj|Hj].
  - rewrite block_of_lookup by done. specialize (H j Hj).
    unfold byte_at in H at 1. rewrite Nat2Z.id in H.
    destruct (lookup_lt_is_Some_2 l j ltac:(lia)) as [x Hx].
    rewrite Hx in *. cbn in H. by rewrite H.
  - rewrite !lookup_ge_None_2; [done|rewrite length_block_of; lia|lia].
Qed.

Lemma byte_at_block_of c k j :
  0 ≤ j < BLOCK_SIZE cfg →
  byte_at (block_of cfg c k) j = byte_at c (k * BLOCK_SIZE cfg + j).
Proof.
  intros Hj. unfold byte_at at 1. rewrite block_of_lookup by lia.
  cbn. f_equal. lia.
Qed.

Lemma block_of_write_at_same c k d :
  0 ≤ k → 0 < BLOCK_SIZE cfg →
  length d = Z.to_nat (BLOCK_SIZE cfg) →
  block_of cfg (write_at c (k * BLOCK_SIZE cfg) d) k = d.
Proof.
  intros Hk HBS Hd. symmetry. apply block_of_eq; [done|].
  intros j Hj. rewrite byte_at_write_at by nia.
  case_decide as H; [|lia]. f_equal. lia.
Qed.

Lemma block_of_write_at_other c k k' d :
  0 ≤ k → 0 ≤ k' → k ≠ k' → 0 < BLOCK_SIZE cfg →
  length d = Z.to_nat (BLOCK_SIZE cfg) →
  block_of cfg (write_at c (k' * BLOCK_SIZE cfg) d) k = block_of cfg c k.
Proof.
  intros Hk Hk' Hne HBS Hd. symmetry. apply block_of_eq.
  { apply length_block_of. }
  intros j Hj. rewrite byte_at_block_of by lia.
  rewrite byte_at_write_at by nia.
  case_decide as H; [exfalso; nia|done].
Qed.

(** What [pread] followed by the zero fill leaves in a buffer. *)
Lemma filled_block c k old :
  0 ≤ k → 0 < BLOCK_SIZE cfg →
  length old = Z.to_nat (BLOCK_SIZE cfg) →
  let got := slice c (k * BLOCK_SIZE cfg) (BLOCK_SIZE cfg) in
  let r := Z.of_nat (length got) in
  (if r <? BLOCK_SIZE cfg
   then memset0 (memcpy old 0 got) r (BLOCK_SIZE cfg - r)
   else memcpy old 0 got)
  = block_of cfg c k.
Proof.
  intros Hk HBS Hold got r.
  assert (length got = Nat.min (Z.to_nat (BLOCK_SIZE cfg))
            (length c - Z.to_nat (k * BLOCK_SIZE cfg))) as Hgot.
  { unfold got, slice. by rewrite length_take, length_drop. }
  assert (∀ j, (j < length got)%nat →
          got !! j = c !! (Z.to_nat (k * BLOCK_SIZE cfg) + j)%nat) as Hgj.
  { intros j Hj. unfold got, slice.
    rewrite lookup_take_lt by lia. by rewrite lookup_drop. }
  apply block_of_eq.
  { apply (length_filled cfg old r got Hold eq_refl). lia. }
  intros j Hj. unfold byte_at. rewrite Nat2Z.id.
  replace (Z.to_nat (k * BLOCK_SIZE cfg + Z.of_nat j))
    with (Z.to_nat (k * BLOCK_SIZE cfg) + j)%nat by lia.
  destruct (Z.ltb_spec r (BLOCK_SIZE cfg)) as [Hr|Hr]; subst r.
  - rewrite memcpy_0. unfold memset0.
    rewrite Nat2Z.id. rewrite take_app_length.
    destruct (decide (j < length got)%nat) as [Hjg|Hjg].
    + rewrite lookup_app_l by done. by rewrite Hgj.
    + rewrite lookup_app_r by lia. rewrite lookup_app_l
        by (rewrite length_replicate; lia).
      rewrite lookup_replicate_2 by lia.
      rewrite (lookup_ge_None_2 c) by lia. done.
  - rewrite memcpy_0.
    rewrite lookup_app_l by lia. rewrite Hgj by lia. done.
Qed.

End Blocks.


(** ** System calls on a world without injected outcomes *)

Lemma enter_files c w :
  fs (snd (enter c w)) = fs w ∧ fds (snd (enter c w)) = fds w
  ∧ (script w = [] → fst (enter c w) = IoOk ∧ script (snd (enter c w)) = []).
Proof.
  unfold enter. destruct (script w); cbn; split_and!; try done.
Qed.

Lemma content_of_same w w' fd :
  fs w' = fs w → fds w' = fds w → content_of w' fd = content_of w fd.
Proof. intros H1 H2. unfold content_of, file_of. by rewrite H1, H2. Qed.

Lemma backed_same w w' fd :
  fs w' = fs w → fds w' = fds w → backed w fd → backed w' fd.
Proof. intros H1 H2. unfold backed. by rewrite H1, H2. Qed.

Lemma backedb_sound w fd : backedb w fd = true → backed w fd.
Proof.
  unfold backedb. destruct (fds w !! fd) as [fe|] eqn:Hfe; [|done].
  intros H. apply andb_true_iff in H as [H1 H2].
  apply bool_decide_eq_true in H1 as [content Hc].
  apply bool_decide_eq_true in H2.
  exists fe, content. split_and!; [done|done|].
  intros fd' fe' Hfd'. by apply (H2 fd' fe').
Qed.

Lemma backed_content w fd :
  backed w fd →
  ∃ fe, fds w !! fd = Some fe
    ∧ fs w !! fe_path fe = Some (content_of w fd)
    ∧ file_of w fd = Some (fe_path fe, fe_pos fe, content_of w fd).
Proof.
  intros (fe & content & Hfe & Hc & _). exists fe.
  unfold content_of, file_of. by rewrite Hfe, Hc.
Qed.

Lemma confined_refl fd0 w : confined fd0 w w.
Proof. by split_and!. Qed.

Lemma confined_trans fd0 w1 w2 w3 :
  confined fd0 w1 w2 → confined fd0 w2 w3 → confined fd0 w1 w3.
Proof.
  intros (A1 & A2 & A3 & A4) (B1 & B2 & B3 & B4). split_and!.
  - intros x. by rewrite B1.
  - intros p Hp. rewrite B2; [by apply A2|].
    intros fe Hfe Hpath. specialize (A1 fd0). rewrite Hfe in A1. cbn in A1.
    destruct (fds w1 !! fd0) as [fe1|] eqn:H1; [|done]. cbn in A1.
    apply (Hp fe1); [done|]. congruence.
  - intros p Hp. by apply B3, A3.
  - intros H. by apply B4, A4.
Qed.

Lemma confined_same fd0 w w' :
  fs w' = fs w → fds w' = fds w → (script w = [] → script w' = []) →
  confined fd0 w w'.
Proof. intros H1 H2 H3. unfold confined. rewrite H1, H2. by split_and!. Qed.

Lemma confined_set_errno fd0 w e : confined fd0 w (set_errno e w).
Proof. by apply confined_same. Qed.

(** A call on another descriptor leaves the file of [fd] alone. *)
Lemma backed_confined w w' fd fd0 :
  backed w fd → confined fd0 w w' → fd0 ≠ fd →
  backed w' fd ∧ content_of w' fd = content_of w fd.
Proof.
  intros (fe & content & Hfe & Hc & Halone) (A1 & A2 & A3 & A4) Hne.
  pose proof (A1 fd) as Hp. rewrite Hfe in Hp. cbn in Hp.
  destruct (fds w' !! fd) as [fe'|] eqn:Hfe'; [|done]. cbn in Hp.
  injection Hp as Hp.
  assert (fs w' !! fe_path fe = Some content) as Hc'.
  { rewrite A2; [done|]. intros fe0 Hfe0 Hpath.
    by apply Hne, (Halone fd0 fe0). }
  split.
  - exists fe', content. rewrite Hp. split_and!; [done|done|].
    intros fd' fe'' Hfd' Hpath. specialize (A1 fd'). rewrite Hfd' in A1.
    cbn in A1. destruct (fds w !! fd') as [fe0|] eqn:H0; [|done].
    cbn in A1. apply (Halone fd' fe0); [done|]. congruence.
  - unfold content_of, file_of. by rewrite Hfe, Hfe', Hp, Hc, Hc'.
Qed.

Lemma sys_pread_files w fd len off :
  fs (sys_pread w fd len off).2 = fs w
  ∧ fds (sys_pread w fd len off).2 = fds w
  ∧ (script w = [] → script (sys_pread w fd len off).2 = []).
Proof.
  unfold sys_pread. pose proof (enter_files (SysPread fd len off) w) as H.
  destruct (enter _ w) as [o w1]. cbn in H. destruct H as (H1 & H2 & H3).
  assert (script w = [] → script w1 = []) as H4 by (intros ?; by apply H3).
  destruct o; cbn; try done;
    destruct (file_of w1 fd) as [[[p pos] c]|]; cbn; try done;
    destruct (off <? 0); done.
Qed.

Lemma sys_pread_backed w fd len off :
  script w = [] → backed w fd → 0 ≤ off →
  (sys_pread w fd len off).1
  = (Z.of_nat (length (slice (content_of w fd) off len)),
     slice (content_of w fd) off len).
Proof.
  intros Hs Hb Hoff.
  destruct (backed_content w fd Hb) as (fe & Hfe & Hc & Hfile).
  unfold sys_pread. pose proof (enter_files (SysPread fd len off) w) as H.
  destruct (enter _ w) as [o w1]. cbn in H. destruct H as (H1 & H2 & H3).
  destruct (H3 Hs) as [-> _].
  assert (file_of w1 fd = file_of w fd) as ->.
  { unfold file_of. by rewrite H1, H2. }
  rewrite Hfile. by replace (off <? 0) with false
    by (symmetry; apply Z.ltb_ge; lia).
Qed.

Lemma sys_lseek_confined w fd off whence :
  confined fd w (sys_lseek w fd off whence).2.
Proof.
  unfold sys_lseek.
  pose proof (enter_files (SysLseek fd off whence) w) as H.
  destruct (enter _ w) as [o w1]. cbn in H. destruct H as (H1 & H2 & H3).
  assert (confined fd w w1) as Hw1.
  { apply confined_same; [done|done|]. intros ?. by apply H3. }
  assert (∀ e, confined fd w (set_errno e w1)) as He.
  { intros e. eapply confined_trans; [done|apply confined_set_errno]. }
  assert (∀ path pos c t, file_of w1 fd = Some (path, pos, c) →
    confined fd w
      (set_fds (<[fd := {| fe_path := path; fe_pos := t |}]> (fds w1)) w1))
    as Hset.
  { intros path pos c t Hf. eapply confined_trans; [done|].
    unfold file_of in Hf. destruct (fds w1 !! fd) as [fe|] eqn:Hfe; [|done].
    destruct (fs w1 !! fe_path fe); [|done]. simplify_eq.
    split_and!; try done. intros x. cbn.
    destruct (decide (x = fd)) as [->|Hx].
    - by rewrite lookup_insert_eq, Hfe.
    - by rewrite lookup_insert_ne. }
  destruct o; cbn; try done;
    destruct (file_of w1 fd) as [[[p pos] c]|] eqn:Hf; cbn; try done;
    (destruct (if whence =? SEEK_SET then _ else _) as [t|]; [|done]);
    (destruct (t <? 0); [done|]); by eapply Hset.
Qed.

Lemma sys_write_confined w fd data :
  confined fd w (sys_write w fd data).2.
Proof.
  unfold sys_write.
  pose proof (enter_files (SysWrite fd data) w) as H.
  destruct (enter _ w) as [o w1]. cbn in H. destruct H as (H1 & H2 & H3).
  assert (confined fd w w1) as Hw1.
  { apply confined_same; [done|done|]. intros ?. by apply H3. }
  assert (∀ e, confined fd w (set_errno e w1)) as He.
  { intros e. eapply confined_trans; [done|apply confined_set_errno]. }
  assert (∀ path pos c t c', file_of w1 fd = Some (path, pos, c) →
    confined fd w
      (set_fds (<[fd := {| fe_path := path; fe_pos := t |}]> (fds w1))
         (set_fs (<[path := c']> (fs w1)) w1))) as Hset.
  { intros path pos c t c' Hf. eapply confined_trans; [done|].
    unfold file_of in Hf. destruct (fds w1 !! fd) as [fe|] eqn:Hfe; [|done].
    destruct (fs w1 !! fe_path fe); [|done]. simplify_eq.
    split_and!; try done.
    - intros x. cbn. destruct (decide (x = fd)) as [->|Hx].
      + by rewrite lookup_insert_eq, Hfe.
      + by rewrite lookup_insert_ne.
    - intros p Hp. cbn. rewrite lookup_insert_ne; [done|].
      by apply (Hp fe).
    - intros p Hp. cbn. destruct (decide (p = fe_path fe)) as [->|Hne].
      + by rewrite lookup_insert_eq.
      + by rewrite lookup_insert_ne. }
  destruct o; cbn; try done;
    destruct (file_of w1 fd) as [[[p pos] c]|] eqn:Hf; cbn; try done;
    by eapply Hset.
Qed.

Lemma sys_perror_confined fd0 w msg : confined fd0 w (sys_perror w msg).
Proof. by apply confined_same. Qed.

Section WriteBack.

Variable cfg : Config.

Lemma evict_write_back_confined b w :
  confined (cb_fd b) w (evict_write_back cfg b w).
Proof.
  unfold evict_write_back.
  pose proof (sys_lseek_confined w (cb_fd b)
    (cb_block_index b * BLOCK_SIZE cfg) SEEK_SET) as H1.
  destruct (sys_lseek _ _ _ _) as [r1 w1]. cbn in H1.
  pose proof (sys_write_confined w1 (cb_fd b)
    (take (Z.to_nat (BLOCK_SIZE cfg)) (cb_data b))) as H2.
  destruct (sys_write _ _ _) as [r2 w2]. cbn in H2.
  destruct (negb _).
  - eapply confined_trans; [done|]. eapply confined_trans; [done|].
    apply sys_perror_confined.
  - by eapply confined_trans.
Qed.

(** The forced flush of a slot of [fd] stores its buffer at the offset of
    its block. *)
Lemma evict_write_back_same b w fd :
  script w = [] → backed w fd → cb_fd b = fd →
  0 ≤ cb_block_index b → 0 < BLOCK_SIZE cfg →
  length (cb_data b) = Z.to_nat (BLOCK_SIZE cfg) →
  let w' := evict_write_back cfg b w in
  script w' = [] ∧ backed w' fd
  ∧ content_of w' fd
    = write_at (content_of w fd) (cb_block_index b * BLOCK_SIZE cfg)
        (cb_data b).
Proof.
  intros Hs Hb Hfd Hk HBS Hlen.
  destruct Hb as (fe & content & Hfe & Hc & Halone).
  assert (content_of w fd = content) as Hcontent.
  { unfold content_of, file_of. by rewrite Hfe, Hc. }
  unfold evict_write_back. rewrite Hfd.
  rewrite take_ge by lia.
  set (off := cb_block_index b * BLOCK_SIZE cfg).
  assert (0 ≤ off) as Hoff by (subst off; nia).
  (* lseek *)
  unfold sys_lseek.
  pose proof (enter_files (SysLseek fd off SEEK_SET) w) as H.
  destruct (enter _ w) as [o w1]. cbn in H. destruct H as (H1 & H2 & H3).
  destruct (H3 Hs) as [-> Hs1].
  assert (file_of w1 fd = Some (fe_path fe, fe_pos fe, content)) as ->.
  { unfold file_of. by rewrite H1, H2, Hfe, Hc. }
  cbn [Z.eqb SEEK_SET].
  replace (off <? 0) with false by (symmetry; apply Z.ltb_ge; lia).
  set (w2 := set_fds _ w1).
  (* write *)
  unfold sys_write.
  pose proof (enter_files (SysWrite fd (cb_data b)) w2) as H.
  destruct (enter _ w2) as [o w3]. cbn in H. destruct H as (H4 & H5 & H6).
  destruct (H6 Hs1) as [-> Hs3].
  assert (file_of w3 fd = Some (fe_path fe, off, content)) as ->.
  { unfold file_of. rewrite H4, H5. subst w2. cbn.
    rewrite lookup_insert_eq. cbn. by rewrite H1, Hc. }
  cbn [limit].
  replace (Z.of_nat (length (cb_data b)) =? BLOCK_SIZE cfg) with true
    by (symmetry; apply Z.eqb_eq; lia).
  cbn [negb]. cbn [script set_fds set_fs].
  split; [done|]. split.
  - exists {| fe_path := fe_path fe;
              fe_pos := off + Z.of_nat (length (cb_data b)) |},
           (write_at content off (cb_data b)).
    cbn [fds fs set_fds set_fs fe_path].
    rewrite !lookup_insert_eq. split_and!; [done|done|].
    intros fd' fe' Hfd' Hpath.
    destruct (decide (fd' = fd)) as [|Hne]; [done|].
    rewrite lookup_insert_ne in Hfd' by done.
    rewrite H5 in Hfd'. subst w2. cbn [fds set_fds] in Hfd'.
    rewrite lookup_insert_ne in Hfd' by done. rewrite H2 in Hfd'.
    by apply (Halone fd' fe').
  - rewrite Hcontent. unfold content_of, file_of. cbn [fds fs set_fds set_fs].
    rewrite lookup_insert_eq. cbn [fe_path fe_pos].
    by rewrite lookup_insert_eq.
Qed.

End WriteBack.


(** ** What the pool caches *)

Lemma holds_owned fd k b :
  holds fd k b = owned fd b && (cb_block_index b =? k).
Proof. done. Qed.

Lemma cached_miss st fd k :
  (∀ b, b ∈ cache st → holds fd k b = false) → cached st fd k = None.
Proof.
  intros H. unfold cached.
  by rewrite (proj2 (find_cache_block_miss st fd k) H).
Qed.

Lemma cached_hit st fd k n b :
  pool_inv (cache st) → cache st !! n = Some b → holds fd k b = true →
  cached st fd k = Some (cb_data b).
Proof.
  intros Hinv Hn Hb. unfold cached, find_cache_block.
  rewrite (find_from_unique _ 0 fd k n b Hinv Hn Hb), Z.add_0_l.
  replace (Z.of_nat n =? -1) with false by (symmetry; apply Z.eqb_neq; lia).
  by rewrite (slot_lookup _ _ _ Hn).
Qed.

Lemma cached_None st fd k :
  cached st fd k = None → ∀ b, b ∈ cache st → holds fd k b = false.
Proof.
  unfold cached. destruct (Z.eqb_spec (find_cache_block st fd k) (-1)); [|done].
  intros _. by apply find_cache_block_miss.
Qed.

Lemma cached_Some st fd k d :
  cached st fd k = Some d →
  ∃ n b, cache st !! n = Some b ∧ holds fd k b = true ∧ cb_data b = d.
Proof.
  unfold cached, find_cache_block.
  destruct (Z.eqb_spec (find_from (cache st) 0 fd k) (-1)) as [|Hne]; [done|].
  destruct (find_from_hit _ 0 fd k ltac:(lia) Hne) as (n & b & -> & Hn & Hb).
  rewrite Z.add_0_l, (slot_lookup _ _ _ Hn). intros [= <-]. eauto.
Qed.

(** The effect of storing a slot on what is cached. *)
Lemma cached_set_slot st n b0 b' fd k :
  pool_inv (cache st) → pool_inv (<[n := b']> (cache st)) →
  cache st !! n = Some b0 →
  cached (set_slot (Z.of_nat n) b' st) fd k
  = if holds fd k b' then Some (cb_data b')
    else if holds fd k b0 then None
    else cached st fd k.
Proof.
  intros Hinv Hinv' Hn.
  assert (cache (set_slot (Z.of_nat n) b' st) = <[n := b']> (cache st)) as Hc.
  { unfold set_slot. cbn. by rewrite Nat2Z.id. }
  assert (n < length (cache st))%nat as Hlt by (by eapply lookup_lt_Some).
  destruct (holds fd k b') eqn:Hb'.
  { apply (cached_hit _ _ _ n); [by rewrite Hc| |done].
    rewrite Hc. by apply list_lookup_insert_eq. }
  destruct (holds fd k b0) eqn:Hb0.
  { apply cached_miss. rewrite Hc. intros b Hb.
    apply list_elem_of_lookup in Hb as [j Hj].
    apply list_lookup_insert_Some in Hj as [(-> & -> & _)|[Hne Hj]]; [done|].
    destruct (holds fd k b) eqn:Hh; [|done].
    apply holds_true in Hh as (? & ? & ?).
    apply holds_true in Hb0 as (? & ? & ?).
    destruct Hne. apply (Hinv n j b0 b); congruence. }
  destruct (cached st fd k) as [d|] eqn:Hcd.
  - apply cached_Some in Hcd as (j & b & Hj & Hb & <-).
    apply (cached_hit _ _ _ j); [by rewrite Hc| |done].
    rewrite Hc. rewrite list_lookup_insert_ne; [done|].
    intros ->. congruence.
  - apply cached_miss. rewrite Hc. intros b Hb.
    apply list_elem_of_lookup in Hb as [j Hj].
    apply list_lookup_insert_Some in Hj as [(-> & -> & _)|[Hne Hj]]; [done|].
    apply (cached_None _ _ _ Hcd). by eapply list_elem_of_lookup_2.
Qed.

Section Eviction2.

Variable cfg : Config.

(** Eviction loses nothing: the stream of every well-served descriptor
    reads the same before and after. *)
Lemma evict_block_sound st fd :
  0 < BLOCK_SIZE cfg → sound cfg st fd →
  let st1 := snd (evict_block cfg st) in
  sound cfg st1 fd
  ∧ (∀ k, 0 ≤ k → block_view cfg st1 fd k = block_view cfg st fd k)
  ∧ (∀ k, cached st fd k = None → cached st1 fd k = None).
Proof.
  intros HBS (Hwf & Hinv & Hback & Hcalm & Hcoh) st1.
  pose proof (evict_block_wf cfg st Hwf) as [Hwf1 _].
  pose proof (pool_inv_keeps _ _ Hinv (evict_block_keeps cfg st)) as Hinv1.
  fold st1 in Hwf1, Hinv1.
  destruct (evict_block_cases cfg st (proj1 Hwf)) as (n & b & Hn & _ & Hcase).
  destruct Hcase as [[Hv Hst]|[Hv Hst]]; fold st1 in Hst.
  { rewrite Hst. by split_and!. }
  set (stw := if cb_dirty b
              then set_world (evict_write_back cfg b (world st)) st
              else st) in Hst.
  assert (cache stw = cache st) as Hcw by (subst stw; by destruct (cb_dirty b)).
  assert (world st1 = world stw) as Hw1 by (by rewrite Hst).
  assert (cache st1 = <[n := invalidated b]> (cache st)) as Hc1.
  { rewrite Hst. unfold set_slot. cbn. by rewrite Nat2Z.id, Hcw. }
  assert (length (cb_data b) = Z.to_nat (BLOCK_SIZE cfg)) as Hlen.
  { by eapply (Forall_lookup_1 _ _ _ _ (proj2 Hwf)). }
  set (c := content_of (world st) fd).
  set (c1 := content_of (world st1) fd).
  assert (script (world st1) = [] ∧ backed (world st1) fd
          ∧ ∀ k, 0 ≤ k →
              (holds fd k b = false → block_of cfg c1 k = block_of cfg c k)
              ∧ (holds fd k b = true → block_of cfg c1 k = cb_data b))
    as (Hcalm1 & Hback1 & Hdisk).
  { subst c1. rewrite Hw1. subst stw.
    destruct (cb_dirty b) eqn:Hd.
    - cbn [world set_world].
      destruct (decide (cb_fd b = fd)) as [Hfd|Hfd].
      + assert (owned fd b = true) as Hown.
        { unfold owned. rewrite Hv. cbn. by apply Z.eqb_eq. }
        destruct (Hcoh n b Hn Hown) as [Hk _].
        destruct (evict_write_back_same cfg b (world st) fd)
          as (Hs' & Hb' & Hc'); [done..|].
        split_and!; [done|done|]. intros k Hk0. rewrite Hc'. split.
        * intros Hh. apply block_of_write_at_other; [done|done| |done|done].
          intros ->. rewrite holds_owned, Hown, Z.eqb_refl in Hh. done.
        * intros Hh. apply holds_true in Hh as (_ & _ & <-).
          by apply block_of_write_at_same.
      + pose proof (evict_write_back_confined cfg b (world st)) as Hconf.
        destruct (backed_confined _ _ fd _ Hback Hconf Hfd) as [Hb' Hc'].
        split_and!; [by apply Hconf|done|].
        intros k Hk0. rewrite Hc'. split; [done|].
        intros Hh. apply holds_true in Hh as (_ & ? & _). done.
    - split_and!; [done|done|]. intros k Hk0. split; [done|].
      intros Hh. pose proof Hh as Hh'.
      apply holds_true in Hh' as (_ & _ & <-).
      rewrite holds_owned in Hh. apply andb_true_iff in Hh as [Hown _].
      destruct (Hcoh n b Hn Hown) as [_ [?|HH]]; [congruence|]. exact (eq_sym HH). }
  assert (∀ k, cached st1 fd k
               = if holds fd k b then None else cached st fd k) as Hcached.
  { intros k. rewrite Hst.
    assert (cached stw fd k = cached st fd k) as <-.
    { subst stw. by destruct (cb_dirty b). }
    rewrite (cached_set_slot stw n b (invalidated b)); [done| | |].
    - by rewrite Hcw.
    - rewrite Hcw, <- Hc1. done.
    - by rewrite Hcw. }
  split_and!.
  - split_and!; [done..|].
    intros j bj Hj Hown. rewrite Hc1 in Hj.
    apply list_lookup_insert_Some in Hj as [(-> & <- & _)|[Hne Hj]].
    { unfold owned in Hown. cbn in Hown. done. }
    destruct (Hcoh j bj Hj Hown) as [Hk Hdata]. split; [done|].
    destruct Hdata as [?|Hdata]; [by left|right].
    rewrite Hdata. fold c c1. symmetry. apply Hdisk; [done|].
    destruct (holds fd (cb_block_index bj) b) eqn:Hh; [|done].
    apply holds_true in Hh as (? & ? & ?).
    unfold owned in Hown. apply andb_true_iff in Hown as [? Hfd%Z.eqb_eq].
    destruct Hne. apply (Hinv n j b bj); congruence.
  - intros k Hk. unfold block_view. rewrite Hcached. fold c c1.
    destruct (holds fd k b) eqn:Hh.
    + rewrite (cached_hit st fd k n b Hinv Hn Hh). cbn.
      by apply Hdisk.
    + destruct (cached st fd k); [done|]. cbn. by apply Hdisk.
  - intros k Hk. rewrite Hcached, Hk. by destruct (holds fd k b).
Qed.

End Eviction2.


(** ** Storing a slot in a well-served pool *)

Lemma set_slot_set_slot i b1 b2 st :
  set_slot i b2 (set_slot i b1 st) = set_slot i b2 st.
Proof. unfold set_slot, set_cache. cbn. by rewrite list_insert_insert_eq. Qed.

Lemma set_slot_set_world i b w st :
  set_slot i b (set_world w st) = set_world w (set_slot i b st).
Proof. done. Qed.

Lemma memcpy_full (dst src : list byte) :
  length src = length dst → memcpy dst 0 src = src.
Proof.
  intros H. rewrite memcpy_0. rewrite drop_ge by lia. apply app_nil_r.
Qed.

Section Store.

Variable cfg : Config.

Lemma length_block_view st fd k :
  wf_pool cfg st →
  length (block_view cfg st fd k) = Z.to_nat (BLOCK_SIZE cfg).
Proof.
  intros [_ Hall]. unfold block_view.
  destruct (cached st fd k) as [d|] eqn:Hc; cbn.
  - apply cached_Some in Hc as (n & b & Hn & _ & <-).
    by eapply (Forall_lookup_1 _ _ _ _ Hall).
  - apply length_block_of.
Qed.

Lemma sound_store st fd n b0 F w' :
  sound cfg st fd → cache st !! n = Some b0 →
  pool_inv (<[n := F]> (cache st)) →
  length (cb_data F) = Z.to_nat (BLOCK_SIZE cfg) →
  fs w' = fs (world st) → fds w' = fds (world st) → script w' = [] →
  (owned fd F = true →
     0 ≤ cb_block_index F
     ∧ (cb_dirty F = true
        ∨ cb_data F
          = block_of cfg (content_of (world st) fd) (cb_block_index F))) →
  let st' := set_world w' (set_slot (Z.of_nat n) F st) in
  sound cfg st' fd
  ∧ ∀ k, block_view cfg st' fd k
         = if holds fd k F then cb_data F
           else if holds fd k b0
                then block_of cfg (content_of (world st) fd) k
                else block_view cfg st fd k.
Proof.
  intros (Hwf & Hinv & Hback & Hcalm & Hcoh) Hn Hinv' HlenF Hfs Hfds Hs HF st'.
  assert (cache st' = <[n := F]> (cache st)) as Hc'.
  { subst st'. unfold set_slot. cbn. by rewrite Nat2Z.id. }
  assert (content_of (world st') fd = content_of (world st) fd) as Hcont.
  { by apply content_of_same. }
  split.
  - split_and!.
    + apply (wf_pool_set_slot cfg st (Z.of_nat n) F Hwf HlenF).
    + by rewrite Hc'.
    + by apply (backed_same (world st)).
    + done.
    + intros j bj Hj Hown. rewrite Hcont. rewrite Hc' in Hj.
      apply list_lookup_insert_Some in Hj as [(-> & <- & _)|[Hne Hj]].
      * by apply HF.
      * by apply (Hcoh j bj).
  - intros k. unfold block_view. rewrite Hcont.
    assert (cached st' fd k = cached (set_slot (Z.of_nat n) F st) fd k) as ->
      by done.
    rewrite (cached_set_slot st n b0 F fd k Hinv Hinv' Hn).
    destruct (holds fd k F); [done|]. by destruct (holds fd k b0).
Qed.

End Store.


(** ** One turn of the write loop *)

Lemma set_world_id st : set_world (world st) st = st.
Proof. by destruct st. Qed.

Section WriteChunk.

Variable cfg : Config.

Lemma holds_iff fd k b fd' k' :
  cb_valid b = true → cb_fd b = fd' → cb_block_index b = k' →
  holds fd k b = true ↔ fd' = fd ∧ k = k'.
Proof.
  intros Hv Hfd Hk. rewrite holds_true. split.
  - intros (_ & ? & ?). split; congruence.
  - intros [? ?]. split_and!; congruence.
Qed.

Lemma write_chunk_sound st fd fd_op offset count n buf :
  0 < BLOCK_SIZE cfg → sound cfg st fd →
  n < count → 0 ≤ n → (Z.to_nat count ≤ length buf)%nat →
  (fd_op = fd → 0 ≤ chunk_block cfg offset n) →
  let st' := snd (write_chunk cfg fd_op offset count n buf st) in
  sound cfg st' fd
  ∧ ∀ k, 0 ≤ k →
      block_view cfg st' fd k
      = if decide (fd_op = fd ∧ k = chunk_block cfg offset n)
        then memcpy (block_view cfg st fd k) (chunk_offset cfg offset n)
               (slice buf n (chunk_len cfg offset count n))
        else block_view cfg st fd k.
Proof.
  intros HBS Hsound Hn Hn0 Hbuf Hk0.
  pose proof (chunk_len_range cfg offset count n HBS Hn) as (Hl1 & Hl2 & Hl3).
  pose proof (chunk_offset_range cfg offset n HBS) as Ho.
  set (k0 := chunk_block cfg offset n) in *.
  set (oib := chunk_offset cfg offset n) in *.
  set (len := chunk_len cfg offset count n) in *.
  set (chunk := slice buf n len).
  assert (length chunk = Z.to_nat len) as Hchunk.
  { subst chunk. apply length_slice. lia. }
  rewrite write_chunk_unfold. fold k0 oib len chunk. unfold write_fetch.
  destruct (Z.eqb_spec (find_cache_block st fd_op k0) (-1)) as [Hmiss|Hhit].
  - (* miss *)
    destruct (evict_block_sound cfg st fd HBS Hsound) as (Hs1 & Hv1 & Hnone).
    pose proof (evict_block_wf cfg st (proj1 Hsound)) as [Hwf1 Hi].
    pose proof (evict_block_invalid cfg st (proj1 (proj1 Hsound))) as Hinval.
    pose proof (evict_block_length cfg st) as Hlen1.
    pose proof (miss_keeps _ _ fd_op k0 (evict_block_keeps cfg st)
      (proj1 (find_cache_block_miss st fd_op k0) Hmiss)) as Hmiss1.
    destruct (evict_block cfg st) as [i st1].
    cbn [fst snd] in Hs1, Hv1, Hnone, Hwf1, Hi, Hinval, Hlen1, Hmiss1.
    destruct (lookup_lt_is_Some_2 (cache st1) (Z.to_nat i) ltac:(lia))
      as [b1 Hb1].
    assert (slot st1 i = b1) as Hslot1 by (unfold slot; by rewrite Hb1).
    rewrite Hslot1 in Hinval.
    assert (length (cb_data b1) = Z.to_nat (BLOCK_SIZE cfg)) as Hlb1.
    { by eapply (Forall_lookup_1 _ _ _ _ (proj2 Hwf1)). }
    assert (∀ data w,
      length data = Z.to_nat (BLOCK_SIZE cfg) →
      fs w = fs (world st1) → fds w = fds (world st1) → script w = [] →
      (fd_op = fd →
         memcpy data oib chunk
         = memcpy (block_view cfg st fd k0) oib chunk) →
      let F := stored (loaded data fd_op k0) (memcpy data oib chunk) in
      let st' := set_world w (set_slot (Z.of_nat (Z.to_nat i)) F st1) in
      sound cfg st' fd
      ∧ ∀ k, 0 ≤ k →
          block_view cfg st' fd k
          = if decide (fd_op = fd ∧ k = k0)
            then memcpy (block_view cfg st fd k) oib chunk
            else block_view cfg st fd k) as Hstore.
    { intros data w Hdata Hfs Hfds Hsw Hsame F st'.
      destruct (sound_store cfg st1 fd (Z.to_nat i) b1 F w) as [Hs' Hv'];
        [done|done| |by cbn; rewrite length_memcpy by lia|done|done|done| |].
      - apply pool_inv_insert; [by apply Hs1|]. cbn.
        intros _ j bj Hj _. apply Hmiss1. by eapply list_elem_of_lookup_2.
      - intros Hown. cbn. split; [|by left].
        apply Hk0. unfold owned in Hown. cbn in Hown. by apply Z.eqb_eq.
      - split; [done|]. intros k Hk. rewrite Hv'.
        assert (holds fd k b1 = false) as ->.
        { unfold holds. by rewrite Hinval. }
        case_decide as Hd.
        + destruct Hd as [-> ->].
          rewrite (proj2 (holds_iff fd k0 F fd k0 eq_refl eq_refl eq_refl))
            by done.
          cbn. by apply Hsame.
        + destruct (holds fd k F) eqn:HF; [|by apply Hv1].
          apply (holds_iff fd k F fd_op k0) in HF; done. }
    rewrite Z2Nat.id in Hstore by lia.
    destruct (Z.ltb_spec len (BLOCK_SIZE cfg)) as [Hpart|Hfull].
    + (* the block is read before the partial store *)
      pose proof (sys_pread_files (world st1) fd_op (BLOCK_SIZE cfg)
                    (k0 * BLOCK_SIZE cfg)) as (Hf1 & Hf2 & Hf3).
      pose proof (sys_pread_result (world st1) fd_op (BLOCK_SIZE cfg)
                    (k0 * BLOCK_SIZE cfg)) as Hres.
      pose proof (λ H0 : fd_op = fd,
        sys_pread_backed (world st1) fd_op (BLOCK_SIZE cfg)
          (k0 * BLOCK_SIZE cfg) (proj1 (proj2 (proj2 (proj2 Hs1)))))
        as Hpb.
      destruct (sys_pread _ _ _ _) as [[r got] w].
      cbn [fst snd] in Hf1, Hf2, Hf3, Hpb.
      cbn [snd]. rewrite Hslot1.
      rewrite slot_set_slot by (cbn; lia).
      rewrite set_slot_set_slot, set_slot_set_world.
      cbn [loaded cb_data].
      apply Hstore; [|done|done|by apply Hf3, Hs1|].
      * destruct (Z.eqb_spec r (-1)) as [->|Hr].
        -- rewrite length_memset0; lia.
        -- destruct Hres as [[? _]|[-> Hg]]; [done|].
           by apply length_filled.
      * intros ->. f_equal.
        rewrite <- Hv1 by (by apply Hk0).
        unfold block_view.
        rewrite (Hnone k0) by (apply cached_miss;
          by apply find_cache_block_miss).
        cbn [default].
        specialize (Hpb eq_refl). destruct Hs1 as (_ & _ & Hb1' & _).
        specialize (Hpb Hb1' ltac:(specialize (Hk0 eq_refl); nia)).
        injection Hpb as -> ->.
        replace (Z.of_nat _ =? -1) with false
          by (symmetry; apply Z.eqb_neq; lia).
        by apply filled_block; [apply Hk0|..].
    + (* a whole block: nothing is read *)
      assert (len = BLOCK_SIZE cfg ∧ oib = 0) as [Hlen' Hoib] by lia.
      cbn [snd]. rewrite Hslot1.
      rewrite slot_set_slot by lia.
      rewrite set_slot_set_slot. cbn [loaded cb_data].
      rewrite <- (set_world_id (set_slot i _ st1)).
      rewrite <- set_slot_set_world. rewrite set_slot_set_world.
      apply Hstore; [done|done|done|by apply Hs1|].
      intros ->. rewrite Hoib.
      rewrite !memcpy_full; [done| |lia].
      rewrite length_block_view by apply Hsound. lia.
  - (* hit *)
    unfold find_cache_block in *.
    destruct (find_from_hit (cache st) 0 fd_op k0 ltac:(lia) Hhit)
      as (n0 & b0 & Hf & Hslot0 & Hb0).
    rewrite Hf, Z.add_0_l. cbn [snd].
    pose proof (lookup_lt_Some _ _ _ Hslot0) as Hlt.
    rewrite (slot_lookup _ _ _ Hslot0).
    rewrite slot_set_slot by (rewrite Nat2Z.id; done).
    rewrite set_slot_set_slot. cbn [touched cb_data].
    set (F := stored (touched b0) (memcpy (cb_data b0) oib chunk)).
    rewrite <- (set_world_id (set_slot _ F st)).
    pose proof Hb0 as Hb0'. apply holds_true in Hb0' as (Hv0 & Hfd0 & Hidx0).
    destruct Hsound as (Hwf & Hinv & Hback & Hcalm & Hcoh).
    assert (length (cb_data b0) = Z.to_nat (BLOCK_SIZE cfg)) as Hlb0.
    { by eapply (Forall_lookup_1 _ _ _ _ (proj2 Hwf)). }
    destruct (sound_store cfg st fd n0 b0 F (world st)) as [Hs' Hv'];
      [done|done| |by cbn; rewrite length_memcpy by lia|done|done|done| |].
    + by apply (pool_inv_insert_same _ _ b0).
    + intros Hown. cbn. split; [|by left].
      apply (Hcoh n0 b0 Hslot0). exact Hown.
    + split; [done|]. intros k Hk. rewrite Hv'.
      assert (holds fd k F = holds fd k b0) as -> by done.
      case_decide as Hd.
      * destruct Hd as [-> ->]. rewrite Hb0. cbn.
        unfold block_view. by rewrite (cached_hit st fd k0 n0 b0).
      * destruct (holds fd k b0) eqn:Hh; [|done].
        apply (holds_iff fd k b0 fd_op k0) in Hh; done.
Qed.

End WriteChunk.


(** ** One turn of the read loop *)

Lemma slot_set_world w st i : slot (set_world w st) i = slot st i.
Proof. done. Qed.

Section ReadChunk.

Variable cfg : Config.

Lemma read_chunk_sound st fd fd_op offset count n buf :
  0 < BLOCK_SIZE cfg → sound cfg st fd → n < count →
  (fd_op = fd → 0 ≤ chunk_block cfg offset n) →
  let '(r, buf', st') := read_chunk cfg fd_op offset count n buf st in
  sound cfg st' fd
  ∧ (∀ k, 0 ≤ k → block_view cfg st' fd k = block_view cfg st fd k)
  ∧ (fd_op = fd →
     r = Some (n + chunk_len cfg offset count n)
     ∧ buf' = buf ++ slice (block_view cfg st fd (chunk_block cfg offset n))
                       (chunk_offset cfg offset n)
                       (chunk_len cfg offset count n)).
Proof.
  intros HBS Hsound Hn Hk0.
  set (k0 := chunk_block cfg offset n) in *.
  set (oib := chunk_offset cfg offset n) in *.
  set (len := chunk_len cfg offset count n) in *.
  rewrite read_chunk_unfold. fold k0 oib len. unfold read_fetch.
  destruct (Z.eqb_spec (find_cache_block st fd_op k0) (-1)) as [Hmiss|Hhit].
  - (* miss *)
    destruct (evict_block_sound cfg st fd HBS Hsound) as (Hs1 & Hv1 & Hnone).
    pose proof (evict_block_wf cfg st (proj1 Hsound)) as [Hwf1 Hi].
    pose proof (evict_block_invalid cfg st (proj1 (proj1 Hsound))) as Hinval.
    pose proof (evict_block_length cfg st) as Hlen1.
    pose proof (miss_keeps _ _ fd_op k0 (evict_block_keeps cfg st)
      (proj1 (find_cache_block_miss st fd_op k0) Hmiss)) as Hmiss1.
    destruct (evict_block cfg st) as [i st1].
    cbn [fst snd] in Hs1, Hv1, Hnone, Hwf1, Hi, Hinval, Hlen1, Hmiss1.
    assert (∃ n1, i = Z.of_nat n1) as [n1 ->] by (exists (Z.to_nat i); lia).
    destruct (lookup_lt_is_Some_2 (cache st1) n1 ltac:(lia)) as [b1 Hb1].
    assert (slot st1 (Z.of_nat n1) = b1) as Hslot1 by (by apply slot_lookup).
    rewrite Hslot1 in Hinval.
    assert (length (cb_data b1) = Z.to_nat (BLOCK_SIZE cfg)) as Hlb1.
    { by eapply (Forall_lookup_1 _ _ _ _ (proj2 Hwf1)). }
    pose proof (sys_pread_files (world st1) fd_op (BLOCK_SIZE cfg)
                  (k0 * BLOCK_SIZE cfg)) as (Hf1 & Hf2 & Hf3).
    pose proof (sys_pread_result (world st1) fd_op (BLOCK_SIZE cfg)
                  (k0 * BLOCK_SIZE cfg)) as Hres.
    pose proof (λ H0 : fd_op = fd,
      sys_pread_backed (world st1) fd_op (BLOCK_SIZE cfg)
        (k0 * BLOCK_SIZE cfg) (proj1 (proj2 (proj2 (proj2 Hs1)))))
      as Hpb.
    destruct (sys_pread _ _ _ _) as [[r got] w].
    cbn [fst snd] in Hf1, Hf2, Hf3, Hpb.
    assert (fd_op = fd →
      r = Z.of_nat (length got)
      ∧ (if r <? BLOCK_SIZE cfg
         then memset0 (memcpy (cb_data b1) 0 got) r (BLOCK_SIZE cfg - r)
         else memcpy (cb_data b1) 0 got)
        = block_of cfg (content_of (world st1) fd) k0) as Hfill.
    { intros ->. specialize (Hpb eq_refl). destruct Hs1 as (_ & _ & Hb1' & _).
      specialize (Hpb Hb1' ltac:(specialize (Hk0 eq_refl); nia)).
      injection Hpb as -> ->. split; [done|].
      by apply filled_block; [apply Hk0|..]. }
    destruct (Z.eqb_spec r (-1)) as [->|Hr].
    + (* pread failed *)
      split_and!.
      * destruct Hs1 as (? & ? & ? & ? & Hcoh1). split_and!; try done.
        -- by apply (backed_same (world st1)).
        -- by apply Hf3.
        -- intros j bj Hj Hown. cbn [world set_world].
           rewrite (content_of_same (world st1) w fd Hf1 Hf2).
           by apply (Hcoh1 j bj).
      * intros k Hk. rewrite <- Hv1 by done. unfold block_view.
        cbn [world set_world].
        by rewrite (content_of_same (world st1) w fd Hf1 Hf2).
      * intros Hfd. destruct (Hfill Hfd) as [Hneg _]. lia.
    + (* the slot is filled from the file *)
      destruct Hres as [[? _]|[-> Hg]]; [done|].
      change (slot (set_world w st1) (Z.of_nat n1))
        with (slot st1 (Z.of_nat n1)).
      rewrite Hslot1.
      set (data := if _ <? _ then _ else _) in *.
      assert (length data = Z.to_nat (BLOCK_SIZE cfg)) as Hdata.
      { subst data. by apply length_filled. }
      set (F := loaded data fd_op k0).
      rewrite set_slot_set_world.
      destruct (sound_store cfg st1 fd n1 b1 F w) as [Hs' Hv'];
        [done|done| |done|done|done|by apply Hf3, Hs1| |].
      * apply pool_inv_insert; [by apply Hs1|]. cbn.
        intros _ j bj Hj _. apply Hmiss1. by eapply list_elem_of_lookup_2.
      * intros Hown. cbn.
        assert (fd_op = fd) as Hfd.
        { unfold owned in Hown. cbn in Hown. by apply Z.eqb_eq. }
        split; [by apply Hk0|]. right. by apply Hfill.
      * assert (∀ k, 0 ≤ k →
          block_view cfg (set_world w (set_slot (Z.of_nat n1) F st1)) fd k
          = block_view cfg st fd k) as Hviews.
        { intros k Hk. rewrite Hv'.
          assert (holds fd k b1 = false) as ->.
          { unfold holds. by rewrite Hinval. }
          destruct (holds fd k F) eqn:HF; [|by apply Hv1].
          apply (holds_iff fd k F fd_op k0) in HF as [Hfd ->]; [|done..].
          cbn. rewrite <- Hv1 by done. unfold block_view.
          rewrite (Hnone k0).
          - cbn. by apply Hfill.
          - apply cached_miss. subst fd_op.
            by apply find_cache_block_miss. }
        split_and!; [done|done|].
        intros Hfd. split; [done|]. f_equal.
        rewrite slot_set_world, slot_set_slot by (rewrite Nat2Z.id; lia).
        cbn [F loaded cb_data].
        rewrite <- (Hviews k0) by (by apply Hk0).
        rewrite Hv'.
        rewrite (proj2 (holds_iff fd k0 F fd_op k0 eq_refl eq_refl eq_refl))
          by done.
        done.
  - (* hit *)
    unfold find_cache_block in *.
    destruct (find_from_hit (cache st) 0 fd_op k0 ltac:(lia) Hhit)
      as (n0 & b0 & Hf & Hslot0 & Hb0).
    rewrite Hf, Z.add_0_l.
    pose proof (lookup_lt_Some _ _ _ Hslot0) as Hlt.
    rewrite (slot_lookup _ _ _ Hslot0).
    rewrite slot_set_slot by (rewrite Nat2Z.id; done).
    cbn [touched cb_data].
    rewrite <- (set_world_id (set_slot _ (touched b0) st)).
    pose proof Hb0 as Hb0'. apply holds_true in Hb0' as (Hv0 & Hfd0 & Hidx0).
    pose proof Hsound as (Hwf & Hinv & Hback & Hcalm & Hcoh).
    assert (length (cb_data b0) = Z.to_nat (BLOCK_SIZE cfg)) as Hlb0.
    { by eapply (Forall_lookup_1 _ _ _ _ (proj2 Hwf)). }
    destruct (sound_store cfg st fd n0 b0 (touched b0) (world st))
      as [Hs' Hv']; [done|done| |done|done|done|done| |].
    + by apply (pool_inv_insert_same _ _ b0).
    + intros Hown. apply (Hcoh n0 b0 Hslot0). exact Hown.
    + split_and!; [done| |].
      * intros k Hk. rewrite Hv'.
        assert (holds fd k (touched b0) = holds fd k b0) as -> by done.
        destruct (holds fd k b0) eqn:Hh; [|done]. cbn.
        unfold block_view. by rewrite (cached_hit st fd k n0 b0).
      * intros <-. split; [done|]. f_equal.
        unfold block_view. by rewrite (cached_hit st fd_op k0 n0 b0).
Qed.

End ReadChunk.


(** ** Positions, blocks and bytes *)

Lemma pos_split (B p : Z) :
  0 < B → 0 ≤ p →
  p = p / B * B + p mod B ∧ 0 ≤ p mod B < B ∧ 0 ≤ p / B.
Proof.
  intros HB Hp. pose proof (Z.div_mod p B ltac:(lia)).
  pose proof (Z.mod_pos_bound p B HB).
  pose proof (Z.div_pos p B Hp HB). lia.
Qed.

Lemma pos_unique (B k j q : Z) :
  0 < B → 0 ≤ j < B → q = k * B + j → q / B = k ∧ q mod B = j.
Proof.
  intros HB Hj ->. split.
  - symmetry. apply (Z.div_unique _ _ k j); lia.
  - symmetry. apply (Z.mod_unique _ _ k j); lia.
Qed.

Lemma byte_at_memcpy (dst src : list byte) off j :
  0 ≤ off → 0 ≤ j →
  (Z.to_nat off + length src ≤ length dst)%nat →
  byte_at (memcpy dst off src) j
  = if decide (off ≤ j < off + Z.of_nat (length src))
    then byte_at src (j - off) else byte_at dst j.
Proof.
  intros Hoff Hj Hlen. unfold byte_at, memcpy.
  case_decide as H.
  - rewrite lookup_app_r by (rewrite length_take; lia).
    rewrite length_take. rewrite lookup_app_l by lia.
    f_equal. f_equal. lia.
  - destruct (decide (j < off)) as [Hlt|Hge].
    + rewrite lookup_app_l by (rewrite length_take; lia).
      by rewrite lookup_take_lt by lia.
    + rewrite lookup_app_r by (rewrite length_take; lia).
      rewrite length_take. rewrite lookup_app_r by lia.
      rewrite lookup_drop. f_equal. f_equal. lia.
Qed.

Lemma lookup_slice (src : list byte) off len j :
  0 ≤ off → (j < Z.to_nat len)%nat →
  (Z.to_nat off + Z.to_nat len ≤ length src)%nat →
  slice src off len !! j = Some (byte_at src (off + Z.of_nat j)).
Proof.
  intros Hoff Hj Hlen. unfold slice, byte_at.
  rewrite lookup_take_lt by done. rewrite lookup_drop.
  replace (Z.to_nat (off + Z.of_nat j)) with (Z.to_nat off + j)%nat by lia.
  destruct (lookup_lt_is_Some_2 src (Z.to_nat off + j) ltac:(lia)) as [x ->].
  done.
Qed.

Lemma byte_at_slice (src : list byte) off len j :
  0 ≤ off → 0 ≤ j < len →
  (Z.to_nat off + Z.to_nat len ≤ length src)%nat →
  byte_at (slice src off len) j = byte_at src (off + j).
Proof.
  intros Hoff Hj Hlen. unfold byte_at at 1.
  rewrite lookup_slice by lia. cbn. f_equal. lia.
Qed.

Section Position.

Variable cfg : Config.

Lemma chunk_block_small offset n :
  0 < BLOCK_SIZE cfg → 0 ≤ offset + n ≤ OFF_MAX →
  chunk_block cfg offset n = (offset + n) / BLOCK_SIZE cfg
  ∧ chunk_offset cfg offset n = (offset + n) mod BLOCK_SIZE cfg
  ∧ 0 ≤ chunk_block cfg offset n.
Proof.
  intros HBS Hp. unfold chunk_block, chunk_offset, OFF_MAX in *.
  rewrite u64_small by lia.
  destruct (pos_split (BLOCK_SIZE cfg) (offset + n) HBS ltac:(lia))
    as (Hsplit & Hmod & Hdiv).
  rewrite s64_small by nia. done.
Qed.

End Position.


(** ** vtpc_write through a well-served pool *)

Section WriteLoop.

Variable cfg : Config.

Lemma write_chunk_bytes st fd offset count n buf :
  0 < BLOCK_SIZE cfg → sound cfg st fd →
  n < count → 0 ≤ n → 0 ≤ offset → offset + count ≤ OFF_MAX →
  (Z.to_nat count ≤ length buf)%nat →
  let st' := snd (write_chunk cfg fd offset count n buf st) in
  sound cfg st' fd
  ∧ open_files st' = open_files st
  ∧ ∀ q, 0 ≤ q →
      logical_byte cfg st' fd q
      = if decide (offset + n ≤ q
                   < offset + n + chunk_len cfg offset count n)
        then byte_at buf (q - offset)
        else logical_byte cfg st fd q.
Proof.
  intros HBS Hsound Hn Hn0 Hoff Hmax Hbuf st'.
  pose proof (chunk_len_range cfg offset count n HBS Hn) as (Hl1 & Hl2 & Hl3).
  destruct (chunk_block_small cfg offset n HBS ltac:(lia)) as (Hk & Ho & Hk0).
  destruct (write_chunk_sound cfg st fd fd offset count n buf)
    as [Hs' Hv']; [done..|].
  destruct (write_chunk_wf cfg fd offset count n buf st) as [_ Hof];
    [done|done|done|done|apply Hsound|].
  fold st' in Hs', Hv', Hof. split_and!; [done|done|].
  intros q Hq. unfold logical_byte.
  destruct (pos_split (BLOCK_SIZE cfg) q HBS Hq) as (Hsplit & Hmod & Hdiv).
  destruct (pos_split (BLOCK_SIZE cfg) (offset + n) HBS ltac:(lia))
    as (Hsplit0 & Hmod0 & Hdiv0).
  rewrite Hv' by done. rewrite Hk, Ho in *.
  set (len := chunk_len cfg offset count n) in *.
  destruct (decide (fd = fd ∧ q / BLOCK_SIZE cfg
                             = (offset + n) / BLOCK_SIZE cfg))
    as [[_ Hblock]|Hblock].
  - rewrite byte_at_memcpy; [|lia|lia|].
    2:{ rewrite length_block_view by apply Hsound.
        rewrite length_slice; lia. }
    rewrite length_slice by lia. rewrite Z2Nat.id by lia.
    rewrite Hblock in *.
    destruct (decide (offset + n ≤ q < offset + n + len)) as [Hin|Hin];
      (destruct (decide ((offset + n) `mod` BLOCK_SIZE cfg
                         ≤ q `mod` BLOCK_SIZE cfg
                         < (offset + n) `mod` BLOCK_SIZE cfg + len))
        as [Hin'|Hin']); try (exfalso; lia).
    + rewrite byte_at_slice by lia. f_equal. lia.
    + done.
  - destruct (decide (offset + n ≤ q < offset + n + len)) as [Hin|Hin];
      [|done].
    exfalso. apply Hblock. split; [done|].
    apply (pos_unique (BLOCK_SIZE cfg) _
             (q - (offset + n) / BLOCK_SIZE cfg * BLOCK_SIZE cfg)); lia.
Qed.

Lemma write_loop_sound st fd offset count buf :
  0 < BLOCK_SIZE cfg → sound cfg st fd →
  0 ≤ offset → 0 ≤ count → offset + count ≤ OFF_MAX →
  (Z.to_nat count ≤ length buf)%nat →
  ∃ st',
    write_loop cfg (Z.to_nat count) fd offset count 0 buf st
    = Some (count, st')
    ∧ sound cfg st' fd
    ∧ open_files st' = open_files st
    ∧ ∀ q, 0 ≤ q →
        logical_byte cfg st' fd q
        = if decide (offset ≤ q < offset + count)
          then byte_at buf (q - offset)
          else logical_byte cfg st fd q.
Proof.
  intros HBS Hsound Hoff Hcount Hmax Hbuf.
  destruct (write_loop_inv cfg
    (λ n s, 0 ≤ n ∧ sound cfg s fd ∧ open_files s = open_files st
            ∧ ∀ q, 0 ≤ q →
                logical_byte cfg s fd q
                = if decide (offset ≤ q < offset + n)
                  then byte_at buf (q - offset)
                  else logical_byte cfg st fd q)
    (Z.to_nat count) fd offset count buf 0 st)
    as (st' & Hrun & _ & Hs' & Hof & Hbytes); [done|lia|lia| | |].
  - split_and!; [lia|done|done|]. intros q Hq. case_decide; [lia|done].
  - intros n s Hn (Hn0 & Hs & Hof & Hb).
    pose proof (chunk_len_range cfg offset count n HBS Hn) as (Hl1 & Hl2 & _).
    destruct (write_chunk_bytes s fd offset count n buf)
      as (Hs' & Hof' & Hb'); [done..|].
    split_and!; [lia|done|congruence|].
    intros q Hq. rewrite Hb' by done. rewrite Hb by done.
    repeat case_decide; try lia; done.
  - by exists st'.
Qed.

(** [vtpc_write] on an open handle of a well-served descriptor stores the
    buffer in the stream at the cursor and moves the cursor past it. *)
Lemma vtpc_write_sound st h buf count :
  0 < BLOCK_SIZE cfg →
  bad_handle cfg st h = false →
  length (open_files st) = MAX_OPEN_FILES cfg →
  let f := file st h in
  sound cfg st (fc_os_fd f) →
  0 ≤ fc_current_offset f → 0 ≤ count →
  fc_current_offset f + count ≤ OFF_MAX →
  (Z.to_nat count ≤ length buf)%nat →
  ∃ st',
    vtpc_write cfg st h buf count = Some (count, st')
    ∧ sound cfg st' (fc_os_fd f)
    ∧ file st' h
      = {| fc_os_fd := fc_os_fd f;
           fc_current_offset := fc_current_offset f + count;
           fc_file_size :=
             Z.max (fc_file_size f) (fc_current_offset f + count);
           fc_flags := fc_flags f |}
    ∧ length (open_files st') = length (open_files st)
    ∧ (∀ h', h' ≠ h → 0 ≤ h' → file st' h' = file st h')
    ∧ ∀ q, 0 ≤ q →
        logical_byte cfg st' (fc_os_fd f) q
        = if decide (fc_current_offset f ≤ q < fc_current_offset f + count)
          then byte_at buf (q - fc_current_offset f)
          else logical_byte cfg st (fc_os_fd f) q.
Proof.
  intros HBS Hbad Hlen f Hsound Hcur Hcount Hmax Hbuf.
  pose proof (bad_handle_false _ _ _ Hbad) as [Hh _].
  unfold vtpc_write. rewrite Hbad. fold f.
  destruct (write_loop_sound st (fc_os_fd f) (fc_current_offset f) count buf)
    as (st1 & -> & Hs1 & Hof & Hbytes); [done..|].
  rewrite (file_same_open_files _ _ _ Hof). fold f.
  unfold OFF_MAX in *. rewrite !s64_small by lia.
  eexists. split; [done|].
  split_and!.
  - destruct Hs1 as (? & ? & ? & ? & ?). by split_and!.
  - rewrite file_set_file by (rewrite Hof; lia). f_equal.
    destruct (Z.gtb_spec (fc_current_offset f + count) (fc_file_size f)); lia.
  - cbn. by rewrite length_insert, Hof.
  - intros h' Hne Hh'. unfold file, set_file. cbn.
    rewrite list_lookup_insert_ne by lia. by rewrite Hof.
  - intros q Hq. by rewrite <- Hbytes.
Qed.

End WriteLoop.


(** ** vtpc_read through a well-served pool *)

Section ReadLoop.

Variable cfg : Config.

Lemma read_loop_sound st fd offset count :
  0 < BLOCK_SIZE cfg → sound cfg st fd →
  0 ≤ offset → 0 ≤ count → offset + count ≤ OFF_MAX →
  ∃ out st',
    read_loop cfg (Z.to_nat count) fd offset count 0 [] st
    = Some (Finished count, out, st')
    ∧ sound cfg st' fd
    ∧ open_files st' = open_files st
    ∧ (∀ k, 0 ≤ k → block_view cfg st' fd k = block_view cfg st fd k)
    ∧ Z.of_nat (length out) = count
    ∧ ∀ j, (j < length out)%nat →
        out !! j = Some (logical_byte cfg st fd (offset + Z.of_nat j)).
Proof.
  intros HBS Hsound Hoff Hcount Hmax.
  destruct (read_loop_inv cfg
    (λ n out s,
       0 ≤ n ∧ sound cfg s fd ∧ open_files s = open_files st
       ∧ (∀ k, 0 ≤ k → block_view cfg s fd k = block_view cfg st fd k)
       ∧ Z.of_nat (length out) = n
       ∧ ∀ j, (j < length out)%nat →
           out !! j = Some (logical_byte cfg st fd (offset + Z.of_nat j)))
    (λ _ _, False)
    (Z.to_nat count) fd offset count 0 [] st)
    as (e & out & st' & Hrun & Hend); [done|lia|lia| | |].
  - split_and!; [lia|done|done|done|done|]. intros j Hj. cbn in Hj. lia.
  - intros n out s Hn (Hn0 & Hs & Hof & Hv & Hlen & Hout).
    pose proof (chunk_len_range cfg offset count n HBS Hn) as (Hl1 & Hl2 & Hl3).
    pose proof (chunk_offset_range cfg offset n HBS) as Horange.
    destruct (chunk_block_small cfg offset n HBS ltac:(lia)) as (Hk & Ho & Hk0).
    pose proof (read_chunk_sound cfg s fd fd offset count n out HBS Hs Hn
                  (λ _, Hk0)) as Hstep.
    pose proof (read_chunk_wf cfg fd offset count n out s HBS Hn (proj1 Hs))
      as Hwf.
    destruct (read_chunk cfg fd offset count n out s) as [[r out'] s'].
    destruct Hstep as (Hs' & Hv' & Hres). destruct (Hres eq_refl) as [-> ->].
    destruct Hwf as (_ & Hof' & _ & _).
    split; [done|]. split_and!; [lia|done|congruence| | |].
    + intros k Hk'. rewrite Hv' by done. by apply Hv.
    + rewrite length_app, length_slice;
        [lia|rewrite length_block_view by apply Hs; lia].
    + intros j Hj.
      rewrite length_app, length_slice in Hj
        by (rewrite length_block_view by apply Hs; lia).
      destruct (decide (j < length out)%nat) as [Hlt|Hge].
      * rewrite lookup_app_l by done. by apply Hout.
      * rewrite lookup_app_r by lia.
        rewrite lookup_slice;
          [|lia|lia|rewrite length_block_view by apply Hs; lia].
        f_equal. unfold logical_byte.
        rewrite Hk, Ho in *.
        destruct (pos_split (BLOCK_SIZE cfg) (offset + n) HBS ltac:(lia))
          as (Hsplit0 & Hmod0 & Hdiv0).
        destruct (pos_unique (BLOCK_SIZE cfg)
                    ((offset + n) / BLOCK_SIZE cfg)
                    ((offset + n) mod BLOCK_SIZE cfg
                     + Z.of_nat (j - length out))
                    (offset + Z.of_nat j) HBS) as [-> ->]; [lia|lia|].
        by rewrite Hv.
  - destruct Hend as [[_ []]|[-> (_ & Hs' & Hof & Hv & Hlen & Hout)]].
    exists out, st'. by split_and!.
Qed.

(** [vtpc_read] on an open handle of a well-served descriptor returns the
    bytes of the stream from the cursor on, up to the tracked size. *)
Lemma vtpc_read_sound st h count :
  0 < BLOCK_SIZE cfg →
  bad_handle cfg st h = false →
  length (open_files st) = MAX_OPEN_FILES cfg →
  let f := file st h in
  sound cfg st (fc_os_fd f) →
  0 ≤ fc_current_offset f → fc_file_size f ≤ OFF_MAX →
  0 ≤ count ≤ SSIZE_MAX →
  let r := Z.max 0 (Z.min count (fc_file_size f - fc_current_offset f)) in
  ∃ out st',
    vtpc_read cfg st h count = Some (r, out, st')
    ∧ sound cfg st' (fc_os_fd f)
    ∧ file st' h
      = {| fc_os_fd := fc_os_fd f;
           fc_current_offset := fc_current_offset f + r;
           fc_file_size := fc_file_size f;
           fc_flags := fc_flags f |}
    ∧ length (open_files st') = length (open_files st)
    ∧ (∀ h', h' ≠ h → 0 ≤ h' → file st' h' = file st h')
    ∧ (∀ k, 0 ≤ k →
         block_view cfg st' (fc_os_fd f) k = block_view cfg st (fc_os_fd f) k)
    ∧ Z.of_nat (length out) = r
    ∧ ∀ j, (j < length out)%nat →
        out !! j
        = Some (logical_byte cfg st (fc_os_fd f)
                  (fc_current_offset f + Z.of_nat j)).
Proof.
  intros HBS Hbad Hlen f Hsound Hcur Hsize Hcount r.
  pose proof (bad_handle_false _ _ _ Hbad) as [Hh _].
  unfold vtpc_read. rewrite Hbad. fold f.
  destruct (Z.geb_spec (fc_current_offset f) (fc_file_size f)) as [Hge|Hlt].
  { assert (r = 0) as -> by lia. exists [], st.
    split_and!; try done.
    - destruct f eqn:Hf. cbn in *. by rewrite Z.add_0_r.
    - intros j Hj. cbn in Hj. lia. }
  unfold OFF_MAX, SSIZE_MAX in *.
  rewrite (u64_small (_ + count)), (u64_small (fc_file_size f)),
    (u64_small (_ - _)) by lia.
  set (count' := if _ >? _ then _ else count).
  assert (count' = r) as Hcount'.
  { subst count' r.
    destruct (Z.gtb_spec (fc_current_offset f + count) (fc_file_size f)); lia. }
  rewrite Hcount'.
  destruct (read_loop_sound st (fc_os_fd f) (fc_current_offset f) r)
    as (out & st1 & -> & Hs1 & Hof & Hv & Hlo & Hout);
    [done|done|done|lia|unfold OFF_MAX; lia|].
  rewrite (file_same_open_files _ _ _ Hof). fold f.
  rewrite !s64_small by lia.
  exists out. eexists. split; [done|]. split_and!; try done.
  - by rewrite file_set_file by (rewrite Hof; lia).
  - cbn. by rewrite length_insert, Hof.
  - intros h' Hne Hh'. unfold file, set_file. cbn.
    rewrite list_lookup_insert_ne by lia. by rewrite Hof.
Qed.

End ReadLoop.


(** ** Opening a handle *)

Section Open.

Variable cfg : Config.

Lemma lowest_free_ge tab n k : k ≤ lowest_free tab n k.
Proof.
  revert k. induction n as [|n IH]; intros k; cbn; [lia|].
  destruct (tab !! k); [specialize (IH (k + 1)); lia|lia].
Qed.

Lemma lowest_free_ext tab tab' n k :
  (∀ x, k ≤ x → tab !! x = tab' !! x) →
  lowest_free tab n k = lowest_free tab' n k.
Proof.
  revert k. induction n as [|n IH]; intros k H; cbn; [done|].
  rewrite <- (H k) by lia. destruct (tab !! k); [|done].
  apply IH. intros x Hx. apply H. lia.
Qed.

(** [open] returns a descriptor that was not in use. *)
Lemma lowest_free_fresh tab n k :
  (size tab ≤ n)%nat → tab !! lowest_free tab n k = None.
Proof.
  revert tab k. induction n as [|n IH]; intros tab k Hs; cbn.
  - assert (tab = ∅) as -> by (apply map_size_empty_inv; lia).
    apply lookup_empty.
  - destruct (tab !! k) eqn:Hk; [|done].
    rewrite (lowest_free_ext tab (delete k tab) n (k + 1)).
    2:{ intros x Hx. rewrite lookup_delete_ne by lia. done. }
    pose proof (lowest_free_ge (delete k tab) n (k + 1)).
    rewrite <- (lookup_delete_ne tab k) by lia.
    apply IH. rewrite map_size_delete_Some by eauto. lia.
Qed.

Lemma unopenedb_sound w path : unopenedb w path = true → unopened w path.
Proof.
  unfold unopenedb. intros H. apply andb_true_iff in H as [H1 H2].
  apply bool_decide_eq_true in H1. split.
  - intros fd fe Hfd. exact (H1 fd fe Hfd).
  - intros content Hc. rewrite Hc in H2. by apply bool_decide_eq_true in H2.
Qed.

Lemma init_blocks_calm blocks w :
  script w = [] →
  ∃ blocks' w', init_blocks cfg blocks w = (0, blocks', w')
    ∧ length blocks' = length blocks
    ∧ Forall (λ b, cb_valid b = false
                   ∧ length (cb_data b) = Z.to_nat (BLOCK_SIZE cfg)) blocks'
    ∧ fs w' = fs w ∧ fds w' = fds w ∧ script w' = [].
Proof.
  revert w. induction blocks as [|b rest IH]; intros w Hw; cbn.
  { exists [], w. by split_and!. }
  unfold sys_posix_memalign.
  pose proof (enter_files (SysPosixMemalign (BLOCK_SIZE cfg)) w)
    as (Hfs & Hfds & Hcalm).
  destruct (Hcalm Hw) as [Ho Hs].
  destruct (enter _ w) as [o w1]. cbn in Hfs, Hfds, Ho, Hs. subst o.
  cbn. destruct (IH w1 Hs) as (blocks' & w' & -> & Hlen & Hall & ? & ? & ?).
  eexists _, w'. split; [done|]. split_and!; try done; try congruence.
  - cbn. by rewrite Hlen.
  - constructor; [|done]. cbn. split; [done|]. by rewrite length_replicate.
Qed.

Lemma sys_open_calm w path flags mode os_fd w' :
  script w = [] → sys_open w path flags mode = (os_fd, w') → os_fd ≠ -1 →
  ∃ content,
    fds w !! os_fd = None ∧ 0 ≤ os_fd
    ∧ fds w' = <[os_fd := {| fe_path := path; fe_pos := 0 |}]> (fds w)
    ∧ fs w' = <[path := content]> (fs w)
    ∧ (content = [] ∨ fs w !! path = Some content)
    ∧ script w' = [].
Proof.
  intros Hw. unfold sys_open.
  pose proof (enter_files (SysOpen path flags mode) w) as (Hfs & Hfds & Hcalm).
  destruct (Hcalm Hw) as [Ho Hs].
  destruct (enter _ w) as [o w1]. cbn in Hfs, Hfds, Ho, Hs. subst o.
  pose proof (lowest_free_fresh (fds w1) (size (fds w1)) 0 ltac:(lia)) as Hfree.
  pose proof (lowest_free_ge (fds w1) (size (fds w1)) 0) as Hge.
  rewrite Hfds in Hfree, Hge.
  destruct (fs w1 !! path) as [content|] eqn:Hp.
  - intros [= <- <-] _. rewrite Hfds.
    exists (if Z.land flags O_TRUNC =? 0 then content else []).
    cbn. rewrite Hfs. split_and!; try done.
    destruct (_ =? 0); [right|by left]. by rewrite <- Hfs.
  - destruct (Z.land flags O_CREAT =? 0); [by intros [= <- <-]|].
    intros [= <- <-] _. rewrite Hfds. exists []. cbn. rewrite Hfs.
    split_and!; try done. by left.
Qed.

Lemma sys_fstat_calm w fd fe content :
  script w = [] → fds w !! fd = Some fe → fs w !! fe_path fe = Some content →
  ∃ w', sys_fstat w fd = (0, Z.of_nat (length content), w')
    ∧ fds w' = fds w ∧ fs w' = fs w ∧ script w' = [].
Proof.
  intros Hw Hfd Hp. unfold sys_fstat.
  pose proof (enter_files (SysFstat fd) w) as (Hfs & Hfds & Hcalm).
  destruct (Hcalm Hw) as [Ho Hs].
  destruct (enter _ w) as [o w1]. cbn in Hfs, Hfds, Ho, Hs. subst o.
  unfold file_of. rewrite Hfds, Hfd, Hfs, Hp. by exists w1.
Qed.

Lemma find_free_handle_range files i :
  find_free_handle files i = -1
  ∨ i ≤ find_free_handle files i < i + Z.of_nat (length files).
Proof.
  revert i. induction files as [|f rest IH]; intros i; cbn [find_free_handle];
    [by left|].
  destruct (fc_os_fd f =? -1); [right; cbn [length]; lia|].
  destruct (IH (i + 1)) as [->|H]; [by left|right; cbn [length]; lia].
Qed.

(** A handle that [vtpc_open] has just returned: its cursor is at 0, its
    descriptor is new, owns no slot and is alone on its file, and the pool
    is allocated. *)
Lemma vtpc_open_fresh st0 path flags mode h st :
  0 < BLOCK_SIZE cfg → (0 < CACHE_SIZE_BLOCKS cfg)%nat →
  settled cfg st0 → unopened (world st0) path → script (world st0) = [] →
  vtpc_open cfg st0 path flags mode = (h, st) → h ≠ -1 →
  wf_pool cfg st ∧ pool_inv (cache st)
  ∧ length (open_files st) = MAX_OPEN_FILES cfg
  ∧ bad_handle cfg st h = false
  ∧ fc_current_offset (file st h) = 0
  ∧ 0 ≤ fc_file_size (file st h) ≤ OFF_MAX
  ∧ Forall (λ b, owned (fc_os_fd (file st h)) b = false) (cache st)
  ∧ backed (world st) (fc_os_fd (file st h))
  ∧ script (world st) = [].
Proof.
  intros HBS HCS (Hclen & Hflen & Hinit) [Hnone Hsmall] Hcalm Hopen Hh.
  (* the pool after the initialisation, if it was needed *)
  assert (∃ sta, (if negb (cache_initialized st0) then init_cache cfg st0
                  else (0, st0)) = (0, sta)
            ∧ wf_pool cfg sta ∧ pool_inv (cache sta)
            ∧ Forall (λ b, cb_valid b = true
                           → is_Some (fds (world sta) !! cb_fd b)) (cache sta)
            ∧ length (open_files sta) = MAX_OPEN_FILES cfg
            ∧ fs (world sta) = fs (world st0)
            ∧ fds (world sta) = fds (world st0)
            ∧ script (world sta) = [])
    as (sta & Hsta & Hwf & Hinv & Horph & Hlen & Hfs & Hfds & Hs).
  { destruct (cache_initialized st0) eqn:Hi; cbn [negb].
    - destruct (Hinit eq_refl) as (? & ? & ?). exists st0. by split_and!.
    - unfold init_cache. rewrite Hi.
      destruct (init_blocks_calm (cache st0) (world st0) Hcalm)
        as (blocks & w & -> & Hbl & Hall & ? & ? & ?).
      cbn [Z.eqb]. eexists. split; [done|]. cbn.
      split_and!; try done.
      + split; cbn; [lia|]. eapply Forall_impl; [exact Hall|].
        by intros b [_ ?].
      + intros i j bi bj Hi' _ Hv.
        pose proof (Forall_lookup_1 _ _ _ _ Hall Hi') as [Hv' _]. congruence.
      + eapply Forall_impl; [exact Hall|]. intros b [Hv _] Hv'. congruence.
      + by rewrite length_fmap. }
  unfold vtpc_open in Hopen. rewrite Hsta in Hopen. cbn [Z.eqb] in Hopen.
  pose proof (find_free_handle_range
                (take (MAX_OPEN_FILES cfg) (open_files sta)) 0) as Hrange.
  destruct (Z.eqb_spec (find_free_handle
              (take (MAX_OPEN_FILES cfg) (open_files sta)) 0) (-1)) as [E|E].
  { injection Hopen as <- _. done. }
  destruct Hrange as [?|Hrange]; [done|].
  rewrite length_take in Hrange.
  destruct (sys_open (world sta) path (Z.lor flags O_DIRECT) mode)
    as [os_fd w1] eqn:Hsys.
  destruct (Z.eqb_spec os_fd (-1)) as [E1|E1].
  { injection Hopen as <- _. done. }
  destruct (sys_open_calm _ _ _ _ _ _ Hs Hsys E1)
    as (content & Hfree & Hpos & Hfds1 & Hfs1 & Hcontent & Hs1).
  destruct (sys_fstat_calm w1 os_fd {| fe_path := path; fe_pos := 0 |} content)
    as (w2 & Hstat & Hfds2 & Hfs2 & Hs2); [done| | |].
  { rewrite Hfds1. apply lookup_insert_eq. }
  { rewrite Hfs1. apply lookup_insert_eq. }
  rewrite Hstat in Hopen. cbn [Z.eqb] in Hopen.
  injection Hopen as <- <-.
  set (h := find_free_handle _ _) in *.
  assert (file (set_file h
            {| fc_os_fd := os_fd; fc_current_offset := 0;
               fc_file_size := Z.of_nat (length content); fc_flags := flags |}
            (set_world w2 sta)) h
          = {| fc_os_fd := os_fd; fc_current_offset := 0;
               fc_file_size := Z.of_nat (length content); fc_flags := flags |})
    as Hfile.
  { apply file_set_file. cbn. lia. }
  rewrite Hfile. cbn [fc_os_fd fc_current_offset fc_file_size].
  split_and!; try done.
  - cbn. rewrite length_insert. done.
  - unfold bad_handle. rewrite Hfile. cbn [fc_os_fd].
    rewrite (proj2 (Z.ltb_ge h 0)) by lia.
    replace (h >=? Z.of_nat (MAX_OPEN_FILES cfg)) with false
      by (symmetry; rewrite Z.geb_leb; apply Z.leb_gt; lia).
    cbn. by apply Z.eqb_neq.
  - lia.
  - destruct Hcontent as [->|Hc]; [cbn; unfold OFF_MAX; lia|].
    apply Hsmall. by rewrite <- Hfs.
  - cbn. eapply Forall_impl; [exact Horph|]. intros b Hb. unfold owned.
    destruct (cb_valid b) eqn:Hv; [|done]. cbn.
    apply Z.eqb_neq. intros Hfd.
    destruct (Hb Hv) as [fe Hfe]. congruence.
  - cbn. exists {| fe_path := path; fe_pos := 0 |}, content.
    rewrite Hfds2, Hfs2, Hfds1, Hfs1. split_and!.
    + apply lookup_insert_eq.
    + apply lookup_insert_eq.
    + intros fd' fe' Hfd' Hpath.
      destruct (decide (fd' = os_fd)) as [|Hne]; [done|].
      rewrite lookup_insert_ne in Hfd' by done.
      rewrite Hfds in Hfd'. by destruct (Hnone fd' fe' Hfd').
Qed.

End Open.

(** ** C1 *)

Section RoundTrip.

Variable cfg : Config.

Lemma sound_set_file st h f fd :
  sound cfg st fd → sound cfg (set_file h f st) fd.
Proof. done. Qed.

Lemma fresh_sound st fd :
  wf_pool cfg st → pool_inv (cache st) →
  backed (world st) fd → script (world st) = [] →
  Forall (λ b, owned fd b = false) (cache st) →
  sound cfg st fd.
Proof.
  intros Hwf Hinv Hback Hcalm Hfresh. split_and!; try done.
  intros i b Hi Hown.
  pose proof (Forall_lookup_1 _ _ _ _ Hfresh Hi) as H. cbn in H. congruence.
Qed.

Lemma bad_handle_file st st' h :
  fc_os_fd (file st' h) = fc_os_fd (file st h) →
  bad_handle cfg st' h = bad_handle cfg st h.
Proof. intros H. unfold bad_handle. by rewrite H. Qed.

Lemma vtpc_lseek_set st fd offset :
  bad_handle cfg st fd = false → 0 ≤ offset →
  vtpc_lseek cfg st fd offset SEEK_SET
  = (offset,
     set_file fd
       {| fc_os_fd := fc_os_fd (file st fd); fc_current_offset := offset;
          fc_file_size := fc_file_size (file st fd);
          fc_flags := fc_flags (file st fd) |} st).
Proof.
  intros Hbad Hoff. unfold vtpc_lseek. rewrite Hbad. cbn.
  by rewrite (proj2 (Z.ltb_ge offset 0)) by lia.
Qed.

Lemma byte_at_lookup (l : list byte) j x :
  l !! j = Some x → byte_at l (Z.of_nat j) = x.
Proof. intros H. unfold byte_at. by rewrite Nat2Z.id, H. Qed.

(** On an open handle with the cursor at 0 whose descriptor owns no pool
    slot yet, is open on a file of its own and meets a backing store that
    performs every call: writing any buffer of [L] bytes, seeking back to 0
    and reading [L] bytes returns [L] and the very bytes written. *)
Lemma round_trip (st : State) (h : Z) (buf : list byte) :
  0 < BLOCK_SIZE cfg →
  wf_pool cfg st →
  pool_inv (cache st) →
  length (open_files st) = MAX_OPEN_FILES cfg →
  bad_handle cfg st h = false →
  fc_current_offset (file st h) = 0 →
  0 ≤ fc_file_size (file st h) ≤ OFF_MAX →
  Forall (λ b, owned (fc_os_fd (file st h)) b = false) (cache st) →
  backed (world st) (fc_os_fd (file st h)) →
  script (world st) = [] →
  Z.of_nat (length buf) ≤ SSIZE_MAX →
  let L := Z.of_nat (length buf) in
  ∃ st1 st2 st3,
    vtpc_write cfg st h buf L = Some (L, st1)
    ∧ vtpc_lseek cfg st1 h 0 SEEK_SET = (0, st2)
    ∧ vtpc_read cfg st2 h L = Some (L, buf, st3).
Proof.
  intros HBS Hwf Hinv Hlen Hbad Hcur Hsize Hfresh Hback Hcalm HL L.
  set (f := file st h) in *. set (fd := fc_os_fd f) in *.
  pose proof (fresh_sound st fd Hwf Hinv Hback Hcalm Hfresh) as Hsound.
  unfold SSIZE_MAX, OFF_MAX in *.
  (* write *)
  destruct (vtpc_write_sound cfg st h buf L HBS Hbad Hlen)
    as (st1 & Hw & Hs1 & Hf1 & Hlen1 & _ & Hbytes);
    [done|fold f; lia|lia|fold f; unfold OFF_MAX; lia|lia|].
  fold f fd in Hs1, Hf1, Hbytes. rewrite Hcur in Hf1, Hbytes.
  (* lseek *)
  assert (bad_handle cfg st1 h = false) as Hbad1.
  { rewrite <- Hbad. apply bad_handle_file. by rewrite Hf1. }
  pose proof (vtpc_lseek_set st1 h 0 Hbad1 ltac:(lia)) as Hseek.
  rewrite Hf1 in Hseek. cbn [fc_os_fd fc_file_size fc_flags] in Hseek.
  set (f2 := {| fc_os_fd := fd; fc_current_offset := 0;
                fc_file_size := Z.max (fc_file_size f) (0 + L);
                fc_flags := fc_flags f |}) in *.
  set (st2 := set_file h f2 st1) in *.
  pose proof (bad_handle_false _ _ _ Hbad) as [Hh _].
  assert (file st2 h = f2) as Hf2.
  { apply file_set_file. lia. }
  (* read *)
  assert (bad_handle cfg st2 h = false) as Hbad2.
  { rewrite <- Hbad. apply bad_handle_file. by rewrite Hf2. }
  destruct (vtpc_read_sound cfg st2 h L HBS Hbad2)
    as (out & st3 & Hr & _ & _ & _ & _ & _ & Hlo & Hout).
  { subst st2. cbn. rewrite length_insert. lia. }
  { rewrite Hf2. cbn. by apply sound_set_file. }
  { rewrite Hf2. cbn. lia. }
  { rewrite Hf2. cbn. unfold OFF_MAX. lia. }
  { unfold SSIZE_MAX. lia. }
  rewrite Hf2 in Hr, Hlo, Hout.
  cbn [fc_os_fd fc_current_offset fc_file_size f2] in Hr, Hlo, Hout.
  replace (Z.max 0 (Z.min L (Z.max (fc_file_size f) (0 + L) - 0))) with L
    in Hr, Hlo by lia.
  assert (out = buf) as ->.
  { apply list_eq. intros j.
    destruct (decide (j < length buf)%nat) as [Hj|Hj].
    - rewrite Hout by lia.
      change (logical_byte cfg st2 fd (0 + Z.of_nat j))
        with (logical_byte cfg st1 fd (0 + Z.of_nat j)).
      rewrite Hbytes by lia.
      destruct (decide (0 ≤ 0 + Z.of_nat j < 0 + L)) as [_|Hn]; [|lia].
      destruct (lookup_lt_is_Some_2 buf j Hj) as [x Hx]. rewrite Hx.
      f_equal. replace (0 + Z.of_nat j - 0) with (Z.of_nat j) by lia.
      by apply byte_at_lookup.
    - rewrite !lookup_ge_None_2; [done|lia|lia]. }
  exists st1, st2, st3. by split_and!.
Qed.

(** C1. On a handle that [vtpc_open] has just returned, with a backing
    store that performs every call and a file that no other descriptor of
    the process is open on: writing any buffer of [L] bytes at offset 0,
    seeking back to 0 with SEEK_SET and reading [L] bytes returns [L] and the
    very bytes written; each of the three calls ends.  [L] is any length,
    below, equal to or above [BLOCK_SIZE] and the pool capacity. *)
Theorem write_read_round_trip (st0 : State) (path : string) (flags mode : Z)
    (buf : list byte) (h : Z) (st : State) :
  0 < BLOCK_SIZE cfg → (0 < CACHE_SIZE_BLOCKS cfg)%nat →
  settled cfg st0 → unopened (world st0) path → script (world st0) = [] →
  vtpc_open cfg st0 path flags mode = (h, st) → h ≠ -1 →
  Z.of_nat (length buf) ≤ SSIZE_MAX →
  let L := Z.of_nat (length buf) in
  ∃ st1 st2 st3,
    vtpc_write cfg st h buf L = Some (L, st1)
    ∧ vtpc_lseek cfg st1 h 0 SEEK_SET = (0, st2)
    ∧ vtpc_read cfg st2 h L = Some (L, buf, st3).
Proof.
  intros HBS HCS Hst0 Hpath Hcalm Hopen Hh HL.
  destruct (vtpc_open_fresh cfg st0 path flags mode h st)
    as (? & ? & ? & ? & ? & ? & ? & ? & ?); [done..|].
  by apply round_trip.
Qed.

End RoundTrip.

Lemma write_read_round_trip_witness :
  ∃ st1 st2 st3,
    vtpc_write Demo.tiny Run.st_open 0 Run.three_blocks 12 = Some (12, st1)
    ∧ vtpc_lseek Demo.tiny st1 0 0 SEEK_SET = (0, st2)
    ∧ vtpc_read Demo.tiny st2 0 12 = Some (12, Run.three_blocks, st3).
Proof.
  apply (write_read_round_trip Demo.tiny (static_state Demo.tiny Demo.boot)
           "a" Demo.rw 420 Run.three_blocks 0 Run.st_open).
  - vm_compute. reflexivity.
  - vm_compute. lia.
  - split; [vm_compute; reflexivity|].
    split; [vm_compute; reflexivity|]. vm_compute. discriminate.
  - apply unopenedb_sound. vm_compute. reflexivity.
  - vm_compute. reflexivity.
  - vm_compute. reflexivity.
  - vm_compute. discriminate.
  - vm_compute. discriminate.
Defined.


(** ** Traffic on other descriptors *)

Section Elsewhere.

Variable cfg : Config.

Lemma sound_set_errno st fd e :
  sound cfg st fd →
  sound cfg (set_world (set_errno e (world st)) st) fd.
Proof. done. Qed.

Lemma file_set_file_os_fd st h f x :
  fc_os_fd f = fc_os_fd (file st h) →
  fc_os_fd (file (set_file h f st) x) = fc_os_fd (file st x).
Proof.
  intros Hf. unfold file, set_file. cbn.
  destruct (decide (Z.to_nat h = Z.to_nat x)) as [Heq|Hne].
  - rewrite <- Heq.
    destruct (open_files st !! Z.to_nat h) as [f0|] eqn:H0.
    + rewrite list_lookup_insert_eq by (by eapply lookup_lt_Some).
      cbn. unfold file in Hf. by rewrite H0 in Hf.
    + rewrite list_insert_ge by (by apply lookup_ge_None). by rewrite H0.
  - by rewrite list_lookup_insert_ne.
Qed.

Lemma file_set_file_ne st h f x :
  Z.to_nat h ≠ Z.to_nat x → file (set_file h f st) x = file st x.
Proof.
  intros Hne. unfold file, set_file. cbn. by rewrite list_lookup_insert_ne.
Qed.

(** A write through a handle of another descriptor leaves the stream of
    [fd] as it was. *)
Lemma vtpc_write_elsewhere st h' buf fd :
  0 < BLOCK_SIZE cfg → sound cfg st fd →
  (bad_handle cfg st h' = false → fc_os_fd (file st h') ≠ fd) →
  ∃ r st',
    vtpc_write cfg st h' buf (Z.of_nat (length buf)) = Some (r, st')
    ∧ sound cfg st' fd
    ∧ (∀ k, 0 ≤ k → block_view cfg st' fd k = block_view cfg st fd k)
    ∧ length (open_files st') = length (open_files st)
    ∧ (∀ x, fc_os_fd (file st' x) = fc_os_fd (file st x))
    ∧ (∀ x, 0 ≤ x → x ≠ h' → file st' x = file st x).
Proof.
  intros HBS Hsound Hne. unfold vtpc_write.
  destruct (bad_handle cfg st h') eqn:Hbad.
  { eexists _, _. split; [done|]. by split_and!. }
  specialize (Hne eq_refl).
  pose proof (bad_handle_false _ _ _ Hbad) as [Hh _].
  set (os_fd := fc_os_fd (file st h')) in *.
  set (count := Z.of_nat (length buf)).
  destruct (write_loop_inv cfg
    (λ n s, 0 ≤ n ∧ sound cfg s fd ∧ open_files s = open_files st
            ∧ ∀ k, 0 ≤ k → block_view cfg s fd k = block_view cfg st fd k)
    (Z.to_nat count) os_fd (fc_current_offset (file st h')) count buf 0 st)
    as (st1 & -> & _ & Hs1 & Hof & Hv); [done|lia|lia|by split_and!| |].
  { intros n s Hn (Hn0 & Hs & Hofs & Hvs).
    pose proof (chunk_len_range cfg (fc_current_offset (file st h')) count n
                  HBS Hn) as (Hl1 & _).
    destruct (write_chunk_sound cfg s fd os_fd
                (fc_current_offset (file st h')) count n buf)
      as [Hs' Hv']; [done|done|done|done|lia|done|].
    destruct (write_chunk_wf cfg os_fd (fc_current_offset (file st h'))
                count n buf s) as [_ Hof'];
      [done|done|lia|done|apply Hs|].
    split_and!; [lia|done|congruence|].
    intros k Hk. rewrite Hv' by done.
    destruct (decide (os_fd = fd ∧ _)) as [[? _]|_]; [done|by apply Hvs]. }
  eexists _, _. split; [done|]. split_and!.
  - by apply sound_set_file.
  - intros k Hk. by rewrite <- Hv.
  - cbn. by rewrite length_insert, Hof.
  - intros x. rewrite file_set_file_os_fd by done.
    by rewrite (file_same_open_files _ _ _ Hof).
  - intros x Hx Hxh. rewrite file_set_file_ne by lia.
    by apply file_same_open_files.
Qed.

(** A read through a handle of another descriptor likewise; it may fail. *)
Lemma vtpc_read_elsewhere st h' count fd :
  0 < BLOCK_SIZE cfg → sound cfg st fd →
  (bad_handle cfg st h' = false → fc_os_fd (file st h') ≠ fd) →
  ∃ r out st',
    vtpc_read cfg st h' count = Some (r, out, st')
    ∧ sound cfg st' fd
    ∧ (∀ k, 0 ≤ k → block_view cfg st' fd k = block_view cfg st fd k)
    ∧ length (open_files st') = length (open_files st)
    ∧ (∀ x, fc_os_fd (file st' x) = fc_os_fd (file st x))
    ∧ (∀ x, 0 ≤ x → x ≠ h' → file st' x = file st x).
Proof.
  intros HBS Hsound Hne. unfold vtpc_read.
  destruct (bad_handle cfg st h') eqn:Hbad.
  { eexists _, _, _. split; [done|]. by split_and!. }
  specialize (Hne eq_refl).
  pose proof (bad_handle_false _ _ _ Hbad) as [Hh _].
  set (os_fd := fc_os_fd (file st h')) in *.
  destruct (_ >=? _).
  { eexists _, _, _. split; [done|]. by split_and!. }
  set (count' := if _ >? _ then _ else count).
  assert (∃ e out st1,
    read_loop cfg (Z.to_nat count') os_fd (fc_current_offset (file st h'))
      count' 0 [] st = Some (e, out, st1)
    ∧ sound cfg st1 fd ∧ open_files st1 = open_files st
    ∧ ∀ k, 0 ≤ k → block_view cfg st1 fd k = block_view cfg st fd k)
    as (e & out & st1 & -> & Hs1 & Hof & Hv).
  { destruct (Z.le_gt_cases 0 count') as [Hc|Hc].
    - destruct (read_loop_inv cfg
        (λ n _ s, sound cfg s fd ∧ open_files s = open_files st
           ∧ ∀ k, 0 ≤ k → block_view cfg s fd k = block_view cfg st fd k)
        (λ _ s, sound cfg s fd ∧ open_files s = open_files st
           ∧ ∀ k, 0 ≤ k → block_view cfg s fd k = block_view cfg st fd k)
        (Z.to_nat count') os_fd (fc_current_offset (file st h')) count'
        0 [] st) as (e & out & st1 & Hrun & Hend);
        [done|lia|lia|by split_and!| |].
      + intros n out s Hn (Hs & Hofs & Hvs).
        pose proof (read_chunk_sound cfg s fd os_fd
          (fc_current_offset (file st h')) count' n out HBS Hs Hn
          ltac:(done)) as Hstep.
        pose proof (read_chunk_wf cfg os_fd (fc_current_offset (file st h'))
          count' n out s HBS Hn (proj1 Hs)) as Hwf.
        pose proof (read_chunk_unfold cfg os_fd
          (fc_current_offset (file st h')) count' n out s) as Hu.
        destruct (read_chunk _ _ _ _ _ _ _) as [[[n'|] out'] s'];
          destruct Hstep as (Hs' & Hv' & _);
          destruct Hwf as (_ & Hof' & _ & _).
        * destruct (read_fetch _ _ _ _) as [[i|] s1]; [|done].
          injection Hu as -> _ _. split; [done|].
          split_and!; [done|congruence|].
          intros k Hk. rewrite Hv' by done. by apply Hvs.
        * split_and!; [done|congruence|].
          intros k Hk. rewrite Hv' by done. by apply Hvs.
      + exists e, out, st1. split; [done|].
        by destruct Hend as [[_ ?]|[_ ?]].
    - replace (Z.to_nat count') with 0%nat by lia. cbn.
      replace (0 <? count') with false by (symmetry; apply Z.ltb_ge; lia).
      eexists _, _, _. split; [done|]. by split_and!. }
  destruct e as [r|n].
  - eexists _, _, _. split; [done|]. split_and!; try done.
    + by rewrite Hof.
    + intros x. by rewrite (file_same_open_files _ _ _ Hof).
    + intros x _ _. by apply file_same_open_files.
  - eexists _, _, _. split; [done|]. split_and!.
    + by apply sound_set_file.
    + intros k Hk. by rewrite <- Hv.
    + cbn. by rewrite length_insert, Hof.
    + intros x. rewrite file_set_file_os_fd by done.
      by rewrite (file_same_open_files _ _ _ Hof).
    + intros x Hx Hxh. rewrite file_set_file_ne by lia.
      by apply file_same_open_files.
Qed.

(** A seek changes one cursor, to a non-negative offset, and nothing else. *)
Lemma vtpc_lseek_quiet st h' offset whence fd :
  sound cfg st fd →
  let st' := snd (vtpc_lseek cfg st h' offset whence) in
  sound cfg st' fd
  ∧ (∀ k, block_view cfg st' fd k = block_view cfg st fd k)
  ∧ length (open_files st') = length (open_files st)
  ∧ (∀ x, fc_os_fd (file st' x) = fc_os_fd (file st x))
  ∧ (∀ x, fc_file_size (file st' x) = fc_file_size (file st x))
  ∧ (∀ x, 0 ≤ fc_current_offset (file st x) →
          0 ≤ fc_current_offset (file st' x)).
Proof.
  intros Hsound. unfold vtpc_lseek.
  destruct (bad_handle cfg st h') eqn:Hbad; [by split_and!|].
  destruct (if whence =? SEEK_SET then _ else _) as [t|]; [|by split_and!].
  destruct (Z.ltb_spec t 0); [by split_and!|].
  cbn [snd]. split_and!; try done.
  - cbn. by rewrite length_insert.
  - intros x. by rewrite file_set_file_os_fd.
  - intros x. unfold file, set_file. cbn.
    destruct (decide (Z.to_nat h' = Z.to_nat x)) as [Heq|Hne].
    + rewrite <- Heq.
      destruct (open_files st !! Z.to_nat h') as [f0|] eqn:H0.
      * by rewrite list_lookup_insert_eq by (by eapply lookup_lt_Some).
      * rewrite list_insert_ge by (by apply lookup_ge_None). by rewrite H0.
    + by rewrite list_lookup_insert_ne.
  - intros x Hx.
    destruct (decide (Z.to_nat h' = Z.to_nat x)) as [Heq|Hne].
    + unfold file, set_file. cbn. rewrite <- Heq.
      destruct (open_files st !! Z.to_nat h') as [f0|] eqn:H0.
      * rewrite list_lookup_insert_eq by (by eapply lookup_lt_Some).
        cbn. lia.
      * rewrite list_insert_ge by (by apply lookup_ge_None).
        rewrite H0. cbn. lia.
    + by rewrite file_set_file_ne.
Qed.

End Elsewhere.


(** ** C6 *)

Section PartialWrite.

Variable cfg : Config.

Lemma logical_byte_views st st' fd q :
  0 < BLOCK_SIZE cfg → 0 ≤ q →
  (∀ k, 0 ≤ k → block_view cfg st' fd k = block_view cfg st fd k) →
  logical_byte cfg st' fd q = logical_byte cfg st fd q.
Proof.
  intros HBS Hq Hv. unfold logical_byte. rewrite Hv; [done|].
  by apply Z.div_pos.
Qed.

(** What traffic elsewhere keeps true of handle [h] of state [st0]. *)
Lemma elsewhere_step st0 h (size0 : Z) (V : Z → list byte) c st :
  0 < BLOCK_SIZE cfg →
  bad_handle cfg st0 h = false →
  elsewhere st0 h c →
  let fd := fc_os_fd (file st0 h) in
  let J := λ s,
    sound cfg s fd
    ∧ length (open_files s) = MAX_OPEN_FILES cfg
    ∧ (∀ x, 0 ≤ x → fc_os_fd (file s x) = fc_os_fd (file st0 x))
    ∧ 0 ≤ fc_current_offset (file s h)
    ∧ fc_file_size (file s h) = size0
    ∧ size0 ≤ OFF_MAX
    ∧ ∀ k, 0 ≤ k → block_view cfg s fd k = V k in
  J st → ∃ r st', run cfg c st = Some (r, st') ∧ J st'.
Proof.
  intros HBS Hbad0 Hc fd J (Hs & Hlen & Hfd & Hcur & Hsz & Hmax & Hv).
  pose proof (bad_handle_false _ _ _ Hbad0) as [Hh Hopen].
  assert (bad_handle cfg st h = false) as Hbad.
  { rewrite <- Hbad0. apply bad_handle_file. apply Hfd. lia. }
  assert (∀ h', h' ≠ h → bad_handle cfg st h' = false →
          fc_os_fd (file st0 h') ≠ fd → fc_os_fd (file st h') ≠ fd) as Hfar.
  { intros h' _ Hb' Hne. apply bad_handle_false in Hb' as [? _].
    rewrite Hfd by lia. done. }
  destruct c as [| |h' count|h' buf count|h' off wh|]; cbn in Hc; try done.
  - (* Read *)
    destruct Hc as [Hcount [->|Hne]].
    + destruct (vtpc_read_sound cfg st h count HBS Hbad Hlen)
        as (out & st' & Hr & Hs' & Hf' & Hlen' & Hoth & Hv' & _);
        [by rewrite Hfd by lia|done|by rewrite Hsz|done|].
      rewrite Hfd in Hs', Hv' by lia. fold fd in Hs', Hv'.
      cbn. rewrite Hr. eexists _, _. split; [done|].
      split_and!; [done|congruence| |by rewrite Hf'; cbn; lia
                  |by rewrite Hf'|done|].
      * intros x Hx. destruct (decide (x = h)) as [->|Hxh].
        -- rewrite Hf'. cbn. by apply Hfd.
        -- rewrite Hoth by done. by apply Hfd.
      * intros k Hk. rewrite Hv' by done. by apply Hv.
    + destruct (vtpc_read_elsewhere cfg st h' count fd HBS Hs)
        as (r & out & st' & Hr & Hs' & Hv' & Hlen' & Hfd' & Hoth).
      { intros Hb'. destruct (decide (h' = h)) as [->|Hh'].
        - apply bad_handle_false in Hb' as [? _]. by rewrite Hfd in * by lia.
        - by apply Hfar. }
      assert (h' ≠ h) as Hh' by (intros ->; done).
      cbn. rewrite Hr. eexists _, _. split; [done|].
      split_and!; [done|congruence| |by rewrite Hoth by (done || lia)
                  |by rewrite Hoth by (done || lia)|done|].
      * intros x Hx. rewrite Hfd'. by apply Hfd.
      * intros k Hk. rewrite Hv' by done. by apply Hv.
  - (* Write *)
    destruct Hc as [-> Hne].
    assert (h' ≠ h) as Hh' by (intros ->; done).
    destruct (vtpc_write_elsewhere cfg st h' buf fd HBS Hs)
      as (r & st' & Hr & Hs' & Hv' & Hlen' & Hfd' & Hoth).
    { intros Hb'. by apply Hfar. }
    cbn. rewrite Hr. eexists _, _. split; [done|].
    split_and!; [done|congruence| |by rewrite Hoth by (done || lia)
                |by rewrite Hoth by (done || lia)|done|].
    + intros x Hx. rewrite Hfd'. by apply Hfd.
    + intros k Hk. rewrite Hv' by done. by apply Hv.
  - (* Lseek *)
    destruct (vtpc_lseek_quiet cfg st h' off wh fd Hs)
      as (Hs' & Hv' & Hlen' & Hfd' & Hsz' & Hcur').
    cbn. eexists _, _. split; [f_equal; apply surjective_pairing|].
    split_and!; [done|congruence| |by apply Hcur'|by rewrite Hsz'|done|].
    + intros x Hx. rewrite Hfd'. by apply Hfd.
    + intros k Hk. rewrite Hv'. by apply Hv.
Qed.

Lemma elsewhere_run st0 h (size0 : Z) (V : Z → list byte) mid st :
  0 < BLOCK_SIZE cfg →
  bad_handle cfg st0 h = false →
  Forall (elsewhere st0 h) mid →
  let fd := fc_os_fd (file st0 h) in
  let J := λ s,
    sound cfg s fd
    ∧ length (open_files s) = MAX_OPEN_FILES cfg
    ∧ (∀ x, 0 ≤ x → fc_os_fd (file s x) = fc_os_fd (file st0 x))
    ∧ 0 ≤ fc_current_offset (file s h)
    ∧ fc_file_size (file s h) = size0
    ∧ size0 ≤ OFF_MAX
    ∧ ∀ k, 0 ≤ k → block_view cfg s fd k = V k in
  J st → ∃ st', run_all cfg mid st = Some st' ∧ J st'.
Proof.
  intros HBS Hbad0 Hmid fd J. revert st.
  induction Hmid as [|c mid Hc _ IH]; intros st HJ.
  - by exists st.
  - destruct (elsewhere_step st0 h size0 V c st HBS Hbad0 Hc HJ)
      as (r & st1 & Hrun & HJ1).
    cbn [run_all]. rewrite Hrun. by apply IH.
Qed.

Lemma fresh_coherent st fd :
  Forall (λ b, owned fd b = false) (cache st) → coherent cfg st fd.
Proof.
  intros Hfresh i b Hi Hown.
  pose proof (Forall_lookup_1 _ _ _ _ Hfresh Hi) as H. cbn in H. congruence.
Qed.

Lemma file_moved st h offset :
  (Z.to_nat h < length (open_files st))%nat →
  let f := file st h in
  file (set_file h
          {| fc_os_fd := fc_os_fd f; fc_current_offset := offset;
             fc_file_size := fc_file_size f; fc_flags := fc_flags f |} st) h
  = {| fc_os_fd := fc_os_fd f; fc_current_offset := offset;
       fc_file_size := fc_file_size f; fc_flags := fc_flags f |}.
Proof. intros H f. by apply file_set_file. Qed.

(** C6. On an open handle of a well-served descriptor: write a whole block
    [D] at the block-aligned offset [k * BLOCK_SIZE]; let any traffic
    [mid] run that does not write to this descriptor (reads and seeks on
    the handle, reads, seeks and writes on other descriptors), which may
    evict the block; write [piece] at offset [o] inside the block; read the
    block back.  Every call ends, and the read returns [BLOCK_SIZE] bytes:
    [D] with [piece] laid over it at [o], that is the bytes of [D] before
    [o] and from [o + length piece] on, and [piece] in between. *)
Theorem partial_write_preserved (st : State) (h k o : Z)
    (D piece : list byte) (mid : list call) :
  0 < BLOCK_SIZE cfg →
  wf_pool cfg st →
  pool_inv (cache st) →
  length (open_files st) = MAX_OPEN_FILES cfg →
  bad_handle cfg st h = false →
  backed (world st) (fc_os_fd (file st h)) →
  script (world st) = [] →
  coherent cfg st (fc_os_fd (file st h)) →
  fc_file_size (file st h) ≤ OFF_MAX →
  0 ≤ k → (k + 1) * BLOCK_SIZE cfg ≤ OFF_MAX →
  length D = Z.to_nat (BLOCK_SIZE cfg) →
  0 ≤ o → o + Z.of_nat (length piece) ≤ BLOCK_SIZE cfg →
  Forall (elsewhere st h) mid →
  let at_block := k * BLOCK_SIZE cfg in
  ∃ st1 st2 st3 st4 st5 st6 st7,
    vtpc_lseek cfg st h at_block SEEK_SET = (at_block, st1)
    ∧ vtpc_write cfg st1 h D (BLOCK_SIZE cfg) = Some (BLOCK_SIZE cfg, st2)
    ∧ run_all cfg mid st2 = Some st3
    ∧ vtpc_lseek cfg st3 h (at_block + o) SEEK_SET = (at_block + o, st4)
    ∧ vtpc_write cfg st4 h piece (Z.of_nat (length piece))
      = Some (Z.of_nat (length piece), st5)
    ∧ vtpc_lseek cfg st5 h at_block SEEK_SET = (at_block, st6)
    ∧ vtpc_read cfg st6 h (BLOCK_SIZE cfg)
      = Some (BLOCK_SIZE cfg, memcpy D o piece, st7).
Proof.
  intros HBS Hwf Hinv Hlen Hbad Hback Hcalm Hcoh Hsize Hk Hmax HD Ho Hpiece
    Hmid at_block.
  set (B := BLOCK_SIZE cfg) in *.
  set (f := file st h) in *. set (fd := fc_os_fd f) in *.
  assert (sound cfg st fd) as Hsound by (by split_and!).
  pose proof (bad_handle_false _ _ _ Hbad) as [Hh _].
  assert (0 ≤ at_block) as Hat by (subst at_block; nia).
  unfold OFF_MAX in *.
  (* seek to the block *)
  pose proof (vtpc_lseek_set cfg st h at_block Hbad Hat) as Hseek1.
  set (st1 := set_file h _ st) in Hseek1.
  assert (file st1 h = {| fc_os_fd := fd; fc_current_offset := at_block;
                          fc_file_size := fc_file_size f;
                          fc_flags := fc_flags f |}) as Hf1.
  { apply file_moved. lia. }
  assert (bad_handle cfg st1 h = false) as Hbad1.
  { rewrite <- Hbad. apply bad_handle_file. by rewrite Hf1. }
  assert (length (open_files st1) = MAX_OPEN_FILES cfg) as Hlen1.
  { subst st1. cbn. by rewrite length_insert. }
  (* write the whole block *)
  destruct (vtpc_write_sound cfg st1 h D B HBS Hbad1 Hlen1)
    as (st2 & Hw2 & Hs2 & Hf2 & Hlen2 & Hoth2 & Hbytes2).
  { rewrite Hf1. cbn. by apply sound_set_file. }
  { rewrite Hf1. cbn. lia. }
  { lia. }
  { rewrite Hf1. cbn. unfold OFF_MAX. lia. }
  { lia. }
  rewrite Hf1 in Hs2, Hf2, Hbytes2.
  cbn [fc_os_fd fc_current_offset fc_file_size fc_flags] in Hs2, Hf2, Hbytes2.
  assert (bad_handle cfg st2 h = false) as Hbad2.
  { rewrite <- Hbad. apply bad_handle_file. by rewrite Hf2. }
  set (size2 := Z.max (fc_file_size f) (at_block + B)) in *.
  (* traffic elsewhere *)
  destruct (elsewhere_run st h size2 (λ k, block_view cfg st2 fd k) mid st2
              HBS Hbad Hmid)
    as (st3 & Hrun & Hs3 & Hlen3 & Hfd3 & Hcur3 & Hsz3 & _ & Hv3).
  { fold f fd. split_and!; [done|congruence| |by rewrite Hf2; cbn; lia
                           |by rewrite Hf2|unfold OFF_MAX; lia|done].
    intros x Hx. destruct (decide (x = h)) as [->|Hxh].
    - by rewrite Hf2.
    - rewrite Hoth2 by done. subst st1.
      rewrite file_set_file_ne; [done|lia]. }
  fold f fd in Hs3, Hv3.
  assert (bad_handle cfg st3 h = false) as Hbad3.
  { rewrite <- Hbad. apply bad_handle_file. apply Hfd3. lia. }
  (* seek into the block *)
  pose proof (vtpc_lseek_set cfg st3 h (at_block + o) Hbad3 ltac:(lia))
    as Hseek4.
  set (st4 := set_file h _ st3) in Hseek4.
  assert (file st4 h = {| fc_os_fd := fd; fc_current_offset := at_block + o;
                          fc_file_size := size2;
                          fc_flags := fc_flags (file st3 h) |}) as Hf4.
  { subst st4. rewrite file_moved by lia. f_equal; [|done].
    apply Hfd3. lia. }
  assert (bad_handle cfg st4 h = false) as Hbad4.
  { rewrite <- Hbad. apply bad_handle_file. by rewrite Hf4. }
  assert (length (open_files st4) = MAX_OPEN_FILES cfg) as Hlen4.
  { subst st4. cbn. by rewrite length_insert. }
  (* write the piece *)
  destruct (vtpc_write_sound cfg st4 h piece (Z.of_nat (length piece))
              HBS Hbad4 Hlen4)
    as (st5 & Hw5 & Hs5 & Hf5 & Hlen5 & _ & Hbytes5).
  { rewrite Hf4. cbn. by apply sound_set_file. }
  { rewrite Hf4. cbn. lia. }
  { lia. }
  { rewrite Hf4. cbn. unfold OFF_MAX. lia. }
  { lia. }
  rewrite Hf4 in Hs5, Hf5, Hbytes5.
  cbn [fc_os_fd fc_current_offset fc_file_size fc_flags] in Hs5, Hf5, Hbytes5.
  assert (bad_handle cfg st5 h = false) as Hbad5.
  { rewrite <- Hbad. apply bad_handle_file. by rewrite Hf5. }
  (* seek back *)
  pose proof (vtpc_lseek_set cfg st5 h at_block Hbad5 Hat) as Hseek6.
  set (st6 := set_file h _ st5) in Hseek6.
  assert (file st6 h
          = {| fc_os_fd := fd; fc_current_offset := at_block;
               fc_file_size :=
                 Z.max size2 (at_block + o + Z.of_nat (length piece));
               fc_flags := fc_flags (file st3 h) |}) as Hf6.
  { subst st6. rewrite file_moved by lia. by rewrite Hf5. }
  assert (bad_handle cfg st6 h = false) as Hbad6.
  { rewrite <- Hbad. apply bad_handle_file. by rewrite Hf6. }
  (* read the block *)
  destruct (vtpc_read_sound cfg st6 h B HBS Hbad6)
    as (out & st7 & Hr & _ & _ & _ & _ & _ & Hlo & Hout).
  { subst st6. cbn. rewrite length_insert. lia. }
  { rewrite Hf6. cbn. by apply sound_set_file. }
  { rewrite Hf6. cbn. lia. }
  { rewrite Hf6. cbn. unfold OFF_MAX. lia. }
  { unfold SSIZE_MAX. nia. }
  rewrite Hf6 in Hr, Hlo, Hout.
  cbn [fc_os_fd fc_current_offset fc_file_size] in Hr, Hlo, Hout.
  replace (Z.max 0 (Z.min B (Z.max size2 (at_block + o
             + Z.of_nat (length piece)) - at_block))) with B
    in Hr, Hlo by lia.
  assert (out = memcpy D o piece) as ->.
  { apply list_eq. intros j.
    assert (length (memcpy D o piece) = length D) as HlenM.
    { apply length_memcpy. lia. }
    destruct (decide (j < Z.to_nat B)%nat) as [Hj|Hj].
    - rewrite Hout by lia.
      change (logical_byte cfg st6 fd (at_block + Z.of_nat j))
        with (logical_byte cfg st5 fd (at_block + Z.of_nat j)).
      rewrite Hbytes5 by lia.
      change (logical_byte cfg st4 fd (at_block + Z.of_nat j))
        with (logical_byte cfg st3 fd (at_block + Z.of_nat j)).
      rewrite (logical_byte_views st2 st3) by (done || lia).
      rewrite Hbytes2 by lia.
      destruct (lookup_lt_is_Some_2 (memcpy D o piece) j ltac:(lia))
        as [x Hx].
      rewrite Hx. f_equal. apply byte_at_lookup in Hx. rewrite <- Hx.
      rewrite byte_at_memcpy by lia.
      destruct (decide (at_block + o ≤ at_block + Z.of_nat j
                        < at_block + o + Z.of_nat (length piece)))
        as [Hin|Hin];
        (destruct (decide (o ≤ Z.of_nat j < o + Z.of_nat (length piece)))
           as [Hin'|Hin']); try lia.
      + f_equal. lia.
      + destruct (decide (at_block ≤ at_block + Z.of_nat j < at_block + B))
          as [_|Hn]; [|lia].
        f_equal. lia.
    - rewrite !lookup_ge_None_2; [done|lia|lia]. }
  exists st1, st2, st3, st4, st5, st6, st7. by split_and!.
Qed.

End PartialWrite.

Lemma partial_write_preserved_witness :
  ∃ st1 st2 st3 st4 st5 st6 st7,
    vtpc_lseek Demo.tiny Run.st_open 0 (2 * 4) SEEK_SET = (2 * 4, st1)
    ∧ vtpc_write Demo.tiny st1 0 [x01; x02; x03; x04] 4 = Some (4, st2)
    ∧ run_all Demo.tiny [Lseek 0 0 SEEK_SET; Read 0 8] st2 = Some st3
    ∧ vtpc_lseek Demo.tiny st3 0 (2 * 4 + 1) SEEK_SET = (2 * 4 + 1, st4)
    ∧ vtpc_write Demo.tiny st4 0 [x09; x0a] 2 = Some (2, st5)
    ∧ vtpc_lseek Demo.tiny st5 0 (2 * 4) SEEK_SET = (2 * 4, st6)
    ∧ vtpc_read Demo.tiny st6 0 4 = Some (4, [x01; x09; x0a; x04], st7).
Proof.
  apply (partial_write_preserved Demo.tiny Run.st_open 0 2 1
           [x01; x02; x03; x04] [x09; x0a] [Lseek 0 0 SEEK_SET; Read 0 8]).
  - vm_compute. reflexivity.
  - split; [vm_compute; lia|]. repeat constructor.
  - apply pool_invb_sound. vm_compute. reflexivity.
  - vm_compute. reflexivity.
  - vm_compute. reflexivity.
  - apply backedb_sound. vm_compute. reflexivity.
  - vm_compute. reflexivity.
  - apply fresh_coherent. repeat constructor.
  - vm_compute. discriminate.
  - lia.
  - vm_compute. discriminate.
  - vm_compute. reflexivity.
  - lia.
  - vm_compute. discriminate.
  - repeat constructor; try (by left); vm_compute; discriminate.
Defined.

(** In the run of the witness the block is evicted by the traffic in
    between (it is written to the file and leaves the pool), and the write
    of the piece reads it back before storing into it. *)
Example partial_write_after_eviction :
  let st1 := snd (vtpc_lseek Demo.tiny Run.st_open 0 8 SEEK_SET) in
  let st2 := Run.after (vtpc_write Demo.tiny st1 0 [x01; x02; x03; x04] 4)
               st1 in
  let st3 := default st2
               (run_all Demo.tiny [Lseek 0 0 SEEK_SET; Read 0 8] st2) in
  let st4 := snd (vtpc_lseek Demo.tiny st3 0 9 SEEK_SET) in
  let st5 := Run.after (vtpc_write Demo.tiny st4 0 [x09; x0a] 2) st4 in
  find_cache_block st2 3 2 = 0
  ∧ find_cache_block st3 3 2 = -1
  ∧ fs (world st3) !! "a"%string
    = Some [x00; x00; x00; x00; x00; x00; x00; x00; x01; x02; x03; x04]
  ∧ last (trace (world st5)) = Some (SysPread 3 4 8)
  ∧ cb_data (slot st5 (find_cache_block st5 3 2)) = [x01; x09; x0a; x04].
Proof. vm_compute. done. Qed.


(** ** C3 *)

(** C3. A failing input, at the source's sizes: the 1024 slots hold dirty
    blocks of the handle and the first [pwrite] of the flush fails with EIO.
    The flush reports -1, yet [vtpc_close] returns 0: it returns the result
    of the raw [close] only.  The slots are invalidated and the handle is
    freed, and the bytes written through the handle never reach the file. *)
Example vtpc_close_hides_flush_failure :
  bad_handle vtpc_config Run.pool_close_fault 0 = false
  ∧ fst (vtpc_fsync vtpc_config Run.pool_close_fault 0) = -1
  ∧ fst (vtpc_close vtpc_config Run.pool_close_fault 0) = 0
  ∧ (let st' := snd (vtpc_close vtpc_config Run.pool_close_fault 0) in
     cb_valid <$> cache st' = replicate 1024 false
     ∧ fc_os_fd (file st' 0) = -1
     ∧ fc_file_size (file st' 0) = 4194304
     ∧ fs (world st') !! "a"%string = Some []).
Proof. vm_compute. split_and!; reflexivity. Qed.

(** ** C2 *)

Section Unreported.

Variable cfg : Config.

(** [vtpc_write] on an open handle has no failing exit: it returns [count]
    whatever the system calls under it did. *)
Lemma vtpc_write_never_fails st fd buf count :
  0 < BLOCK_SIZE cfg → bad_handle cfg st fd = false →
  0 ≤ count ≤ SSIZE_MAX →
  ∃ st', vtpc_write cfg st fd buf count = Some (count, st').
Proof.
  intros HBS Hbad Hcount. unfold vtpc_write. rewrite Hbad.
  destruct (write_loop_inv cfg (λ _ _, True) (Z.to_nat count)
    (fc_os_fd (file st fd)) (fc_current_offset (file st fd))
    count buf 0 st) as (st' & -> & _); [done|lia|lia|done|done|].
  unfold SSIZE_MAX in Hcount. rewrite (s64_small count) by lia. eauto.
Qed.

End Unreported.

(** C2. Failing inputs, at the source's sizes: the pool is full of dirty
    blocks and the [write] that flushes the evicted slot fails with EIO.
    [evict_block] prints a message and hands the slot over; the triggering
    [vtpc_write] returns the full count, the triggering [vtpc_read] returns
    the bytes asked for, and the evicted block is in neither the pool nor
    the file. *)
Example eviction_failure_not_reported :
  (let st := Run.pool_flaky in
   let r := vtpc_write vtpc_config st 0 (replicate 4096 x02) 4096 in
   first_invalid (cache st) = None
   ∧ fst (evict_block vtpc_config st) = 0
   ∧ (cb_dirty (slot st 0), cb_fd (slot st 0), cb_block_index (slot st 0))
     = (true, 3, 0)
   ∧ fst <$> r = Some 4096
   ∧ last (trace (world (Run.after r st)))
     = Some (SysPerror "vtpc: eviction write failed")
   ∧ find_cache_block (Run.after r st) 3 0 = -1
   ∧ fs (world (Run.after r st)) !! "a"%string = Some [])
  ∧ (let st := Run.pool_read_fault in
     let r := vtpc_read vtpc_config st 0 4096 in
     first_invalid (cache st) = None
     ∧ fst (evict_block vtpc_config st) = 0
     ∧ (cb_dirty (slot st 0), cb_fd (slot st 0), cb_block_index (slot st 0))
       = (true, 3, 1024)
     ∧ (λ x, (fst (fst x), snd (fst x))) <$> r
       = Some (4096, replicate 4096 x01)
     ∧ take 2 (reverse (trace (world (Run.after r st))))
       = [SysPread 3 4096 0; SysPerror "vtpc: eviction write failed"]
     ∧ find_cache_block (Run.after r st) 3 1024 = -1
     ∧ fs (world (Run.after r st)) !! "a"%string
       = Some (replicate 4096 x01)).
Proof. vm_compute. split_and!; reflexivity. Qed.

(** ** C4 *)

(** C4. A failing input, at the source's sizes: slot 0 holds the one dirty
    block of the handle and the [pwrite] of the flush moves one byte of it.
    [vtpc_fsync] compares the result of [pwrite] with -1 only, so the block
    counts as written: its dirty flag is cleared, [fsync] and [ftruncate]
    follow and the call returns 0, while 4095 bytes of the block are not in
    the file.  [evict_block], the other write-back of the library, compares
    the result of its [write] with BLOCK_SIZE and reports the same short
    transfer. *)
Example vtpc_fsync_accepts_short_write :
  (let st := More.pool_short in
   let r := vtpc_fsync vtpc_config st 0 in
   bad_handle vtpc_config st 0 = false
   ∧ (cb_valid (slot st 0), cb_dirty (slot st 0), cb_fd (slot st 0),
      cb_block_index (slot st 0)) = (true, true, 3, 0)
   ∧ cb_data (slot st 0) = replicate 4096 x01
   ∧ fs (world st) !! "a"%string = Some []
   ∧ fst r = 0
   ∧ cb_dirty (slot (snd r) 0) = false
   ∧ drop (length (trace (world st))) (trace (world (snd r)))
     = [SysPwrite 3 (replicate 4096 x01) 0; SysFsync 3; SysFtruncate 3 4096]
   ∧ fs (world (snd r)) !! "a"%string = Some (x01 :: replicate 4095 x00))
  ∧ (let st := More.pool_full_short in
     take 2 (reverse (trace (world (snd (evict_block vtpc_config st)))))
     = [SysPerror "vtpc: eviction write failed";
        SysWrite 3 (replicate 4096 x01)]).
Proof. vm_compute. split_and!; reflexivity. Qed.

(** ** C7 *)

Section ClampWraps.

Variable cfg : Config.

(** [vtpc_read] when the clamp is not applied, the first turn of the loop
    succeeds and the second one fails. *)
Lemma vtpc_read_second_turn_fails st h count n1 :
  bad_handle cfg st h = false →
  let f := file st h in
  fc_current_offset f < fc_file_size f →
  (u64 (fc_current_offset f + count) >? u64 (fc_file_size f)) = false →
  let t1 := read_chunk cfg (fc_os_fd f) (fc_current_offset f) count 0 [] st in
  fst (fst t1) = Some n1 → 0 < n1 < count →
  let t2 :=
    read_chunk cfg (fc_os_fd f) (fc_current_offset f) count n1
      (snd (fst t1)) (snd t1) in
  fst (fst t2) = None →
  vtpc_read cfg st h count = Some (-1, snd (fst t2), snd t2).
Proof.
  intros Hbad f Hlt Hclamp t1 H1 Hn1 t2 H2.
  unfold vtpc_read. rewrite Hbad. fold f.
  replace (fc_current_offset f >=? fc_file_size f) with false
    by (symmetry; rewrite Z.geb_leb; apply Z.leb_gt; lia).
  rewrite Hclamp.
  destruct (Z.to_nat count) as [|[|fuel]] eqn:Hfuel; [lia|lia|].
  cbn [read_loop].
  replace (0 <? count) with true by (symmetry; apply Z.ltb_lt; lia).
  fold t1. destruct t1 as [[r1 b1] s1]. cbn [fst snd] in *. subst r1.
  replace (n1 <? count) with true by (symmetry; apply Z.ltb_lt; lia).
  fold t2. destruct t2 as [[r2 b2] s2]. cbn [fst snd] in *. by subst r2.
Qed.

End ClampWraps.

(** C7. A failing input, at the source's sizes: the handle has tracked size
    8 and its cursor at 1, so 7 bytes remain, and [count] is 2^64 - 1.
    The sum of cursor and [count] wraps to 0 in the unsigned comparison
    with the tracked size, the clamp is not applied, and the first turn of
    the loop copies 4095 bytes of the block to the caller: the 7 bytes
    that remain and 4088 bytes from beyond the tracked size.  The loop
    goes on from there; when the [pread] of its next turn fails, the call
    returns -1 with those 4095 bytes in the caller's buffer. *)
Example vtpc_read_clamp_wraps :
  let st := More.pool_eight in
  let count := 2 ^ 64 - 1 in
  let got := [x02; x03; x04; x05; x06; x07; x08] ++ replicate 4088 x00 in
  bad_handle vtpc_config st 0 = false
  ∧ (fc_os_fd (file st 0), fc_current_offset (file st 0),
     fc_file_size (file st 0)) = (3, 1, 8)
  ∧ (u64 (1 + count) >? u64 8) = false
  ∧ (let t := read_chunk vtpc_config 3 1 count 0 [] st in
     (fst (fst t), snd (fst t)) = (Some 4095, got))
  ∧ (λ x, (fst (fst x), snd (fst x)))
      <$> vtpc_read vtpc_config (with_script [IoFail EIO] st) 0 count
    = Some (-1, got).
Proof.
  cbv zeta. split_and!; [vm_compute; reflexivity..|].
  rewrite (vtpc_read_second_turn_fails vtpc_config
             (with_script [IoFail EIO] More.pool_eight) 0 (2 ^ 64 - 1) 4095).
  - vm_compute. reflexivity.
  - vm_compute. reflexivity.
  - vm_compute. reflexivity.
  - vm_compute. reflexivity.
  - vm_compute. reflexivity.
  - vm_compute. split; reflexivity.
  - vm_compute. reflexivity.
Qed.

(** ** What reaches the file *)

Section Disk.

Variable cfg : Config.

Lemma byte_at_blocks c q :
  0 < BLOCK_SIZE cfg → 0 ≤ q →
  byte_at c q
  = byte_at (block_of cfg c (q / BLOCK_SIZE cfg)) (q mod BLOCK_SIZE cfg).
Proof.
  intros HBS Hq. destruct (pos_split (BLOCK_SIZE cfg) q HBS Hq) as (E & ? & ?).
  rewrite byte_at_block_of by done. f_equal. lia.
Qed.

(** Two files with the same blocks hold the same bytes. *)
Lemma byte_at_block_eq c c' q :
  0 < BLOCK_SIZE cfg → 0 ≤ q →
  block_of cfg c' (q / BLOCK_SIZE cfg) = block_of cfg c (q / BLOCK_SIZE cfg) →
  byte_at c' q = byte_at c q.
Proof.
  intros HBS Hq H. rewrite (byte_at_blocks c), (byte_at_blocks c') by done.
  by rewrite H.
Qed.

Lemma sys_pwrite_backed w fd data off :
  script w = [] → backed w fd → 0 ≤ off →
  ∃ w', sys_pwrite w fd data off = (Z.of_nat (length data), w')
    ∧ script w' = [] ∧ backed w' fd ∧ fds w' = fds w
    ∧ content_of w' fd = write_at (content_of w fd) off data.
Proof.
  intros Hw Hback Hoff.
  destruct Hback as (fe & content & Hfe & Hc & Halone).
  assert (content_of w fd = content) as Hcontent.
  { unfold content_of, file_of. by rewrite Hfe, Hc. }
  unfold sys_pwrite.
  pose proof (enter_files (SysPwrite fd data off) w) as (Hfs & Hfds & Hcalm).
  destruct (Hcalm Hw) as [Ho Hs].
  destruct (enter _ w) as [o w1]. cbn in Hfs, Hfds, Ho, Hs. subst o.
  assert (file_of w1 fd = Some (fe_path fe, fe_pos fe, content)) as ->.
  { unfold file_of. by rewrite Hfs, Hfds, Hfe, Hc. }
  rewrite (proj2 (Z.ltb_ge off 0)) by lia. cbn [limit].
  eexists. split; [done|]. cbn [script fds fs set_fs].
  split_and!; [done| |done|].
  - exists fe, (write_at content off data). cbn [fds fs set_fs].
    rewrite lookup_insert_eq, Hfds. split_and!; [done|done|].
    intros fd' fe' Hfd' Hpath. by apply (Halone fd' fe').
  - rewrite Hcontent. unfold content_of, file_of. cbn [fds fs set_fs].
    rewrite Hfds, Hfe. by rewrite lookup_insert_eq.
Qed.

(** What an eviction leaves in the file of a well-served descriptor: block
    by block, either what was there or what the pool held. *)
Lemma evict_block_disk st fd :
  0 < BLOCK_SIZE cfg → sound cfg st fd →
  let st1 := snd (evict_block cfg st) in
  ∀ k, 0 ≤ k →
    block_of cfg (content_of (world st1) fd) k
    = block_of cfg (content_of (world st) fd) k
    ∨ block_of cfg (content_of (world st1) fd) k = block_view cfg st fd k.
Proof.
  intros HBS (Hwf & Hinv & Hback & Hcalm & Hcoh) st1 k Hk.
  destruct (evict_block_cases cfg st (proj1 Hwf)) as (n & b & Hn & _ & Hcase).
  destruct Hcase as [[Hv Hst]|[Hv Hst]]; fold st1 in Hst.
  { rewrite Hst. by left. }
  assert (world st1
          = if cb_dirty b then evict_write_back cfg b (world st)
            else world st) as Hw1.
  { rewrite Hst. by destruct (cb_dirty b). }
  rewrite Hw1. destruct (cb_dirty b) eqn:Hd; [|by left].
  assert (length (cb_data b) = Z.to_nat (BLOCK_SIZE cfg)) as Hlen.
  { by eapply (Forall_lookup_1 _ _ _ _ (proj2 Hwf)). }
  destruct (decide (cb_fd b = fd)) as [Hfd|Hfd].
  - assert (owned fd b = true) as Hown.
    { unfold owned. rewrite Hv. cbn. by apply Z.eqb_eq. }
    destruct (Hcoh n b Hn Hown) as [Hkb _].
    destruct (evict_write_back_same cfg b (world st) fd)
      as (_ & _ & Hc'); [done..|].
    rewrite Hc'.
    destruct (decide (k = cb_block_index b)) as [->|Hne].
    + right. rewrite block_of_write_at_same by done.
      unfold block_view.
      rewrite (cached_hit st fd (cb_block_index b) n b); [done|done|done|].
      rewrite holds_owned, Hown. cbn. apply Z.eqb_refl.
    + left. by apply block_of_write_at_other.
  - pose proof (evict_write_back_confined cfg b (world st)) as Hconf.
    destruct (backed_confined _ _ fd _ Hback Hconf Hfd) as [_ Hc'].
    left. by rewrite Hc'.
Qed.

Lemma write_fetch_disk st fd fd_op k0 to_copy :
  0 < BLOCK_SIZE cfg → sound cfg st fd →
  let st1 := snd (write_fetch cfg st fd_op k0 to_copy) in
  ∀ k, 0 ≤ k →
    block_of cfg (content_of (world st1) fd) k
    = block_of cfg (content_of (world st) fd) k
    ∨ block_of cfg (content_of (world st1) fd) k = block_view cfg st fd k.
Proof.
  intros HBS Hsound st1 k Hk. subst st1. unfold write_fetch.
  destruct (find_cache_block st fd_op k0 =? -1); [|by left].
  pose proof (evict_block_disk st fd HBS Hsound k Hk) as H.
  destruct (evict_block cfg st) as [i st1]. cbn [snd] in H.
  destruct (to_copy <? BLOCK_SIZE cfg); [|exact H].
  pose proof (sys_pread_files (world st1) fd_op (BLOCK_SIZE cfg)
                (k0 * BLOCK_SIZE cfg)) as (Hfs & Hfds & _).
  destruct (sys_pread _ _ _ _) as [[r got] w]. cbn in Hfs, Hfds. cbn.
  by rewrite (content_of_same (world st1) w).
Qed.

Lemma write_chunk_disk os_fd offset count n buf st fd :
  0 < BLOCK_SIZE cfg → sound cfg st fd →
  let st1 := snd (write_chunk cfg os_fd offset count n buf st) in
  ∀ k, 0 ≤ k →
    block_of cfg (content_of (world st1) fd) k
    = block_of cfg (content_of (world st) fd) k
    ∨ block_of cfg (content_of (world st1) fd) k = block_view cfg st fd k.
Proof.
  intros HBS Hsound st1 k Hk. subst st1. rewrite write_chunk_unfold.
  pose proof (write_fetch_disk st fd os_fd (chunk_block cfg offset n)
                (chunk_len cfg offset count n) HBS Hsound k Hk) as H.
  by destruct (write_fetch _ _ _ _ _) as [i st1].
Qed.

Lemma read_chunk_disk os_fd offset count n buf st fd :
  0 < BLOCK_SIZE cfg → sound cfg st fd →
  let st1 := snd (read_chunk cfg os_fd offset count n buf st) in
  ∀ k, 0 ≤ k →
    block_of cfg (content_of (world st1) fd) k
    = block_of cfg (content_of (world st) fd) k
    ∨ block_of cfg (content_of (world st1) fd) k = block_view cfg st fd k.
Proof.
  intros HBS Hsound st1 k Hk. subst st1. rewrite read_chunk_unfold.
  unfold read_fetch.
  destruct (find_cache_block st os_fd _ =? -1); [|by left].
  pose proof (evict_block_disk st fd HBS Hsound k Hk) as H.
  destruct (evict_block cfg st) as [i st1]. cbn [snd] in H.
  pose proof (sys_pread_files (world st1) os_fd (BLOCK_SIZE cfg)
                (chunk_block cfg offset n * BLOCK_SIZE cfg)) as (Hfs & Hfds & _).
  destruct (sys_pread _ _ _ _) as [[r got] w]. cbn in Hfs, Hfds.
  destruct (r =? -1); cbn; by rewrite (content_of_same (world st1) w).
Qed.

End Disk.

(** ** The tail beyond the tracked size stays zero *)

Section Tail.

Variable cfg : Config.

Lemma zero_from_step st st' fd N :
  0 < BLOCK_SIZE cfg → 0 ≤ N → zero_from cfg st fd N →
  (∀ q, N ≤ q → logical_byte cfg st' fd q = logical_byte cfg st fd q) →
  (∀ k, 0 ≤ k →
     block_of cfg (content_of (world st') fd) k
     = block_of cfg (content_of (world st) fd) k
     ∨ block_of cfg (content_of (world st') fd) k = block_view cfg st fd k) →
  zero_from cfg st' fd N.
Proof.
  intros HBS HN Hz Hlog Hdisk q Hq. destruct (Hz q Hq) as [Hl Hd].
  split; [by rewrite Hlog|].
  destruct (pos_split (BLOCK_SIZE cfg) q HBS ltac:(lia)) as (_ & _ & Hk).
  rewrite (byte_at_blocks cfg _ q) by (done || lia).
  destruct (Hdisk _ Hk) as [->| ->].
  - by rewrite <- byte_at_blocks by (done || lia).
  - exact Hl.
Qed.

Lemma zero_from_mono st fd N N' :
  N ≤ N' → zero_from cfg st fd N → zero_from cfg st fd N'.
Proof. intros H Hz q Hq. apply Hz. lia. Qed.

Lemma write_loop_tail st fd offset count buf N :
  0 < BLOCK_SIZE cfg → sound cfg st fd →
  0 ≤ offset → 0 ≤ count → offset + count ≤ OFF_MAX →
  (Z.to_nat count ≤ length buf)%nat →
  offset + count ≤ N → zero_from cfg st fd N →
  ∃ st',
    write_loop cfg (Z.to_nat count) fd offset count 0 buf st
    = Some (count, st')
    ∧ zero_from cfg st' fd N.
Proof.
  intros HBS Hsound Hoff Hcount Hmax Hbuf HN Hz.
  destruct (write_loop_inv cfg
    (λ n s, 0 ≤ n ∧ sound cfg s fd ∧ zero_from cfg s fd N)
    (Z.to_nat count) fd offset count buf 0 st)
    as (st' & Hloop & _ & _ & Hz'); [done|lia|lia|by split_and!| |by eauto].
  intros n s Hn (Hn0 & Hs & Hzs).
  pose proof (chunk_len_range cfg offset count n HBS Hn) as (? & ? & ?).
  destruct (write_chunk_bytes cfg s fd offset count n buf)
    as (Hs' & _ & Hbytes); [done..|].
  split_and!; [lia|done|].
  apply (zero_from_step s); [done|lia|done| |].
  - intros q Hq. rewrite Hbytes by lia.
    destruct (decide (_ ≤ q < _)); [lia|done].
  - by apply write_chunk_disk.
Qed.

Lemma read_loop_tail st fd offset count N :
  0 < BLOCK_SIZE cfg → sound cfg st fd →
  0 ≤ offset → 0 ≤ count → offset + count ≤ OFF_MAX →
  0 ≤ N → zero_from cfg st fd N →
  ∃ e out st',
    read_loop cfg (Z.to_nat count) fd offset count 0 [] st
    = Some (e, out, st')
    ∧ zero_from cfg st' fd N.
Proof.
  intros HBS Hsound Hoff Hcount Hmax HN Hz.
  destruct (read_loop_inv cfg
    (λ n _ s, 0 ≤ n ∧ sound cfg s fd ∧ zero_from cfg s fd N)
    (λ _ _, False)
    (Z.to_nat count) fd offset count 0 [] st)
    as (e & out & st' & Hloop & Hend); [done|lia|lia|by split_and!| |].
  - intros n b s Hn (Hn0 & Hs & Hzs).
    pose proof (chunk_len_range cfg offset count n HBS Hn) as (? & ? & ?).
    pose proof (read_chunk_sound cfg s fd fd offset count n b HBS Hs Hn) as Hrc.
    pose proof (read_chunk_disk cfg fd offset count n b s fd HBS Hs) as Hd.
    destruct (read_chunk cfg fd offset count n b s) as [[r b'] s'].
    cbn [snd] in Hd.
    destruct Hrc as (Hs' & Hv & Hr).
    { intros _. apply chunk_block_small; [done|lia]. }
    destruct (Hr eq_refl) as [-> _].
    split; [done|]. split_and!; [lia|done|].
    apply (zero_from_step s); [done|done|done| |done].
    intros q Hq. apply logical_byte_views; [done|lia|done].
  - destruct Hend as [[_ []]|[_ (_ & _ & Hz')]]. eauto.
Qed.

End Tail.

(** ** The calls, seen on the stream of a handle *)

Section Stream.

Variable cfg : Config.

Lemma length_stream st h :
  length (stream cfg st h) = Z.to_nat (fc_file_size (file st h)).
Proof. unfold stream. by rewrite length_fmap, length_seq. Qed.

Lemma stream_lookup st h j :
  (j < Z.to_nat (fc_file_size (file st h)))%nat →
  stream cfg st h !! j
  = Some (logical_byte cfg st (fc_os_fd (file st h)) (Z.of_nat j)).
Proof.
  intros Hj. unfold stream. rewrite list_lookup_fmap, lookup_seq_lt by done.
  done.
Qed.

Lemma byte_at_stream st h q :
  tail_zero cfg st h → 0 ≤ q →
  byte_at (stream cfg st h) q
  = logical_byte cfg st (fc_os_fd (file st h)) q.
Proof.
  intros Hz Hq. unfold byte_at.
  destruct (decide (q < fc_file_size (file st h))) as [Hlt|Hge].
  - rewrite stream_lookup by lia. cbn. f_equal. lia.
  - rewrite lookup_ge_None_2 by (rewrite length_stream; lia).
    cbn. symmetry. apply Hz. lia.
Qed.

Lemma byte_at_ext (l l' : list byte) :
  length l = length l' →
  (∀ q, 0 ≤ q < Z.of_nat (length l) → byte_at l q = byte_at l' q) →
  l = l'.
Proof.
  intros Hlen H. apply list_eq. intros j.
  destruct (decide (j < length l)%nat) as [Hj|Hj].
  - destruct (lookup_lt_is_Some_2 l j Hj) as [x Hx].
    destruct (lookup_lt_is_Some_2 l' j ltac:(lia)) as [y Hy].
    specialize (H (Z.of_nat j) ltac:(lia)). unfold byte_at in H.
    rewrite Nat2Z.id, Hx, Hy in H. cbn in H. by rewrite Hx, Hy, H.
  - by rewrite !lookup_ge_None_2 by lia.
Qed.

Lemma length_write_at c off d :
  length (write_at c off d)
  = ((Z.to_nat off + length d) `max` length c)%nat.
Proof.
  unfold write_at.
  rewrite !length_app, length_take, length_app, length_replicate, length_drop.
  lia.
Qed.

Lemma same_views_stream st st' h :
  0 < BLOCK_SIZE cfg →
  file st' h = file st h →
  (∀ k, 0 ≤ k → block_view cfg st' (fc_os_fd (file st h)) k
                = block_view cfg st (fc_os_fd (file st h)) k) →
  stream cfg st' h = stream cfg st h.
Proof.
  intros HBS Hf Hv. unfold stream. rewrite Hf.
  apply list_fmap_ext. intros i q Hq.
  apply logical_byte_views; [done|lia|done].
Qed.

(** [vtpc_write] stores the first [count] bytes of the buffer in the stream
    at the cursor, as [pwrite] does in a file, zero-filling a gap after the
    old end. *)
Lemma vtpc_write_tidy_n st h buf count :
  0 < BLOCK_SIZE cfg → tidy cfg st h →
  0 ≤ count ≤ Z.of_nat (length buf) →
  fc_current_offset (file st h) + count ≤ OFF_MAX →
  let f := file st h in
  ∃ st',
    vtpc_write cfg st h buf count = Some (count, st')
    ∧ tidy cfg st' h
    ∧ file st' h
      = {| fc_os_fd := fc_os_fd f;
           fc_current_offset := fc_current_offset f + count;
           fc_file_size :=
             Z.max (fc_file_size f) (fc_current_offset f + count);
           fc_flags := fc_flags f |}
    ∧ (∀ h', h' ≠ h → 0 ≤ h' → file st' h' = file st h')
    ∧ stream cfg st' h
      = write_at (stream cfg st h) (fc_current_offset f)
          (take (Z.to_nat count) buf).
Proof.
  intros HBS (Hlen & Hbad & Hsound & Hcur & Hsize & Hz) Hcount Hmax f.
  destruct (vtpc_write_sound cfg st h buf count HBS Hbad Hlen)
    as (st' & Hw & Hs' & Hf' & Hlen' & Hoth & Hbytes);
    [done|done|lia|done|lia|].
  fold f in Hsound, Hcur, Hsize, Hmax. unfold tail_zero in Hz. fold f in Hz.
  set (fd := fc_os_fd f) in *. set (cur := fc_current_offset f) in *.
  set (N := Z.max (fc_file_size f) (cur + count)).
  fold f fd cur in Hs', Hf', Hbytes. fold N in Hf'.
  assert (zero_from cfg st' fd N) as Hz'.
  { unfold vtpc_write in Hw. rewrite Hbad in Hw. fold f fd cur in Hw.
    destruct (write_loop_tail cfg st fd cur count buf N)
      as (st1 & Hloop & Hz1); [done|done|done|lia|done|lia|lia| |].
    { apply (zero_from_mono cfg st fd (fc_file_size f)); [lia|done]. }
    rewrite Hloop in Hw. injection Hw as _ <-. exact Hz1. }
  pose proof (bad_handle_false _ _ _ Hbad) as [Hh _].
  exists st'. split; [done|]. split_and!; [|done|done|].
  - split_and!.
    + lia.
    + rewrite <- Hbad. apply bad_handle_file. by rewrite Hf'.
    + by rewrite Hf'.
    + rewrite Hf'. cbn. lia.
    + rewrite Hf'. cbn. lia.
    + rewrite Hf'. cbn. lia.
    + unfold tail_zero. rewrite Hf'. exact Hz'.
  - assert (tail_zero cfg st' h) as Htz.
    { unfold tail_zero. rewrite Hf'. exact Hz'. }
    apply byte_at_ext.
    + rewrite length_write_at, length_take, !length_stream, Hf'. cbn.
      fold f. lia.
    + intros q Hq. rewrite byte_at_stream by (done || lia).
      rewrite Hf'. cbn [fc_os_fd]. rewrite Hbytes by lia.
      rewrite byte_at_write_at by lia. rewrite length_take.
      replace (Z.of_nat (Z.to_nat count `min` length buf)) with count by lia.
      destruct (decide (cur ≤ q < cur + count)).
      * unfold byte_at. by rewrite lookup_take_lt by lia.
      * rewrite byte_at_stream by (done || lia). done.
Qed.

Lemma vtpc_write_tidy st h buf :
  0 < BLOCK_SIZE cfg → tidy cfg st h →
  fc_current_offset (file st h) + Z.of_nat (length buf) ≤ OFF_MAX →
  let f := file st h in
  let L := Z.of_nat (length buf) in
  ∃ st',
    vtpc_write cfg st h buf L = Some (L, st')
    ∧ tidy cfg st' h
    ∧ file st' h
      = {| fc_os_fd := fc_os_fd f;
           fc_current_offset := fc_current_offset f + L;
           fc_file_size := Z.max (fc_file_size f) (fc_current_offset f + L);
           fc_flags := fc_flags f |}
    ∧ (∀ h', h' ≠ h → 0 ≤ h' → file st' h' = file st h')
    ∧ stream cfg st' h = write_at (stream cfg st h) (fc_current_offset f) buf.
Proof.
  intros HBS Htidy Hmax f L.
  destruct (vtpc_write_tidy_n st h buf L HBS Htidy ltac:(lia) Hmax)
    as (st' & ? & ? & ? & ? & Hs).
  exists st'. split_and!; try done.
  rewrite Hs. subst L. by rewrite Nat2Z.id, firstn_all.
Qed.

(** [vtpc_read] returns the bytes of the stream from the cursor on, as many
    as were asked for or as are left, and moves the cursor past them. *)
Lemma vtpc_read_tidy st h count :
  0 < BLOCK_SIZE cfg → tidy cfg st h → 0 ≤ count ≤ SSIZE_MAX →
  let f := file st h in
  ∃ out st',
    vtpc_read cfg st h count = Some (Z.of_nat (length out), out, st')
    ∧ out = slice (stream cfg st h) (fc_current_offset f) count
    ∧ tidy cfg st' h
    ∧ file st' h
      = {| fc_os_fd := fc_os_fd f;
           fc_current_offset := fc_current_offset f + Z.of_nat (length out);
           fc_file_size := fc_file_size f;
           fc_flags := fc_flags f |}
    ∧ (∀ h', h' ≠ h → 0 ≤ h' → file st' h' = file st h')
    ∧ stream cfg st' h = stream cfg st h.
Proof.
  intros HBS (Hlen & Hbad & Hsound & Hcur & Hsize & Hz) Hcount f.
  destruct (vtpc_read_sound cfg st h count HBS Hbad Hlen)
    as (out & st' & Hr & Hs' & Hf' & Hlen' & Hoth & Hv & Hlo & Hout);
    [done|done|lia|done|].
  fold f in Hsound, Hcur, Hsize. unfold tail_zero in Hz. fold f in Hz.
  set (fd := fc_os_fd f) in *. set (cur := fc_current_offset f) in *.
  set (size := fc_file_size f) in *.
  fold f fd cur size in Hr, Hs', Hf', Hv, Hlo, Hout.
  set (r := Z.max 0 (Z.min count (size - cur))) in *.
  assert (zero_from cfg st' fd size) as Hz'.
  { unfold vtpc_read in Hr. rewrite Hbad in Hr. fold f fd cur size in Hr.
    destruct (Z.geb_spec cur size) as [Hge|Hlt].
    { injection Hr as _ _ <-. done. }
    unfold OFF_MAX, SSIZE_MAX in *.
    rewrite (u64_small (cur + count)), (u64_small size),
      (u64_small (size - cur)) in Hr by lia.
    set (count' := if _ >? _ then _ else count) in Hr.
    assert (count' = r) as Hcount'.
    { subst count' r. destruct (Z.gtb_spec (cur + count) size); lia. }
    rewrite Hcount' in Hr.
    destruct (read_loop_tail cfg st fd cur r size)
      as (e & out1 & st1 & Hloop & Hz1);
      [done|done|done|lia|unfold OFF_MAX; lia|lia|done|].
    rewrite Hloop in Hr. destruct e; injection Hr as _ _ <-; exact Hz1. }
  rewrite <- Hlo in Hr, Hf'.
  exists out, st'. split; [done|]. split_and!; [| |done|done|].
  - apply list_eq. intros j.
    destruct (decide (j < length out)%nat) as [Hj|Hj].
    + rewrite Hout by done. unfold slice.
      rewrite lookup_take_lt by lia. rewrite lookup_drop.
      rewrite stream_lookup by (fold f size; lia).
      fold f fd. do 2 f_equal. lia.
    + rewrite !lookup_ge_None_2; [done| |lia].
      unfold slice. rewrite length_take, length_drop, length_stream.
      fold f size. lia.
  - split_and!.
    + lia.
    + rewrite <- Hbad. apply bad_handle_file. by rewrite Hf'.
    + by rewrite Hf'.
    + rewrite Hf'. cbn. lia.
    + rewrite Hf'. cbn. lia.
    + rewrite Hf'. cbn. lia.
    + unfold tail_zero. rewrite Hf'. exact Hz'.
  - unfold stream. rewrite Hf'. cbn [fc_os_fd fc_file_size]. fold f fd size.
    apply list_fmap_ext. intros i q Hq.
    apply logical_byte_views; [done|lia|done].
Qed.

(** A successful [vtpc_lseek] moves the cursor and nothing else. *)
Lemma vtpc_lseek_tidy st h offset :
  tidy cfg st h → 0 ≤ offset →
  let f := file st h in
  ∃ st',
    vtpc_lseek cfg st h offset SEEK_SET = (offset, st')
    ∧ tidy cfg st' h
    ∧ file st' h
      = {| fc_os_fd := fc_os_fd f; fc_current_offset := offset;
           fc_file_size := fc_file_size f; fc_flags := fc_flags f |}
    ∧ (∀ h', h' ≠ h → 0 ≤ h' → file st' h' = file st h')
    ∧ cache st' = cache st ∧ world st' = world st
    ∧ stream cfg st' h = stream cfg st h.
Proof.
  intros (Hlen & Hbad & Hsound & Hcur & Hsize & Hz) Hoff f.
  pose proof (bad_handle_false _ _ _ Hbad) as [Hh _].
  rewrite (vtpc_lseek_set cfg st h offset Hbad Hoff).
  fold f. fold f in Hsound, Hcur, Hsize.
  set (st' := set_file h _ st).
  assert (file st' h
          = {| fc_os_fd := fc_os_fd f; fc_current_offset := offset;
               fc_file_size := fc_file_size f; fc_flags := fc_flags f |})
    as Hf'.
  { apply file_set_file. lia. }
  exists st'. split; [done|]. split_and!; try done.
  - split_and!.
    + subst st'. cbn. rewrite length_insert. done.
    + rewrite <- Hbad. apply bad_handle_file. by rewrite Hf'.
    + rewrite Hf'. cbn. by apply sound_set_file.
    + rewrite Hf'. cbn. done.
    + rewrite Hf'. cbn. lia.
    + rewrite Hf'. cbn. lia.
    + unfold tail_zero. rewrite Hf'. exact Hz.
  - intros h' Hne Hh'. apply file_set_file_ne. lia.
  - unfold stream. rewrite Hf'. done.
Qed.

End Stream.

(** ** Flushing a handle *)

Section Flush.

Variable cfg : Config.

Lemma byte_at_truncate_to c len q :
  0 ≤ q →
  byte_at (truncate_to c len) q = if decide (q < len) then byte_at c q else x00.
Proof.
  intros Hq. unfold byte_at, truncate_to.
  destruct (decide (q < len)) as [Hlt|Hge].
  - destruct (decide (Z.to_nat q < length c)%nat) as [Hin|Hout].
    + rewrite lookup_app_l by (rewrite length_take; lia).
      by rewrite lookup_take_lt by lia.
    + rewrite (lookup_ge_None_2 c) by lia.
      rewrite lookup_app_r by (rewrite length_take; lia).
      rewrite length_take.
      rewrite lookup_replicate_2 by lia. done.
  - rewrite lookup_ge_None_2; [done|].
    rewrite length_app, length_take, length_replicate. lia.
Qed.

Lemma length_truncate_to c len :
  length (truncate_to c len) = Z.to_nat len.
Proof.
  unfold truncate_to. rewrite length_app, length_take, length_replicate. lia.
Qed.

Lemma sys_fsync_backed w fd :
  script w = [] → backed w fd →
  ∃ w', sys_fsync w fd = (0, w')
    ∧ script w' = [] ∧ fs w' = fs w ∧ fds w' = fds w.
Proof.
  intros Hw Hback. unfold sys_fsync.
  pose proof (enter_files (SysFsync fd) w) as (Hfs & Hfds & Hcalm).
  destruct (Hcalm Hw) as [Ho Hs].
  destruct (enter _ w) as [o w1]. cbn in Hfs, Hfds, Ho, Hs. subst o.
  assert (backed w1 fd) as Hback1 by (by apply (backed_same w)).
  destruct (backed_content w1 fd Hback1) as (fe & _ & _ & ->).
  by exists w1.
Qed.

Lemma sys_ftruncate_backed w fd len :
  script w = [] → backed w fd → 0 ≤ len →
  ∃ w', sys_ftruncate w fd len = (0, w')
    ∧ script w' = [] ∧ backed w' fd ∧ fds w' = fds w
    ∧ content_of w' fd = truncate_to (content_of w fd) len.
Proof.
  intros Hw Hback Hlen.
  destruct Hback as (fe & content & Hfe & Hc & Halone).
  assert (content_of w fd = content) as Hcontent.
  { unfold content_of, file_of. by rewrite Hfe, Hc. }
  unfold sys_ftruncate.
  pose proof (enter_files (SysFtruncate fd len) w) as (Hfs & Hfds & Hcalm).
  destruct (Hcalm Hw) as [Ho Hs].
  destruct (enter _ w) as [o w1]. cbn in Hfs, Hfds, Ho, Hs. subst o.
  assert (file_of w1 fd = Some (fe_path fe, fe_pos fe, content)) as ->.
  { unfold file_of. by rewrite Hfs, Hfds, Hfe, Hc. }
  rewrite (proj2 (Z.ltb_ge len 0)) by lia.
  eexists. split; [done|]. cbn [script fds fs set_fs].
  split_and!; [done| |done|].
  - exists fe, (truncate_to content len). cbn [fds fs set_fs].
    rewrite lookup_insert_eq, Hfds. split_and!; [done|done|].
    intros fd' fe' Hfd' Hpath. by apply (Halone fd' fe').
  - rewrite Hcontent. unfold content_of, file_of. cbn [fds fs set_fs].
    rewrite Hfds, Hfe. by rewrite lookup_insert_eq.
Qed.

(** On a backing store that performs every call the flush loop writes each
    dirty slot of the descriptor into its block of the file and leaves the
    other blocks of the file alone. *)
Lemma fsync_blocks_flush fd blocks w :
  0 < BLOCK_SIZE cfg → script w = [] → backed w fd →
  (∀ b, b ∈ blocks → owned_dirty fd b = true →
     0 ≤ cb_block_index b
     ∧ length (cb_data b) = Z.to_nat (BLOCK_SIZE cfg)) →
  (∀ i j bi bj, blocks !! i = Some bi → blocks !! j = Some bj →
     owned_dirty fd bi = true → owned_dirty fd bj = true →
     cb_block_index bi = cb_block_index bj → i = j) →
  ∃ w', fsync_blocks cfg fd blocks w = (0, flushed fd <$> blocks, w')
    ∧ script w' = [] ∧ backed w' fd ∧ fds w' = fds w
    ∧ ∀ k, 0 ≤ k →
        (∀ b, b ∈ blocks → owned_dirty fd b = true → cb_block_index b = k →
           block_of cfg (content_of w' fd) k = cb_data b)
        ∧ ((∀ b, b ∈ blocks → owned_dirty fd b = true →
              cb_block_index b ≠ k) →
           block_of cfg (content_of w' fd) k
           = block_of cfg (content_of w fd) k).
Proof.
  intros HBS. revert w.
  induction blocks as [|x rest IH]; intros w Hw Hback Hok Huniq.
  { exists w. cbn. split_and!; try done. intros k Hk. split; [|done].
    intros b Hb. by apply elem_of_nil in Hb. }
  assert (∀ b, b ∈ rest → owned_dirty fd b = true →
            0 ≤ cb_block_index b
            ∧ length (cb_data b) = Z.to_nat (BLOCK_SIZE cfg)) as Hok'.
  { intros b Hb. apply Hok. by right. }
  assert (∀ i j bi bj, rest !! i = Some bi → rest !! j = Some bj →
            owned_dirty fd bi = true → owned_dirty fd bj = true →
            cb_block_index bi = cb_block_index bj → i = j) as Huniq'.
  { intros i j bi bj Hi Hj H1 H2 H3.
    assert (S i = S j) by (by apply (Huniq (S i) (S j) bi bj)). lia. }
  cbn [fsync_blocks].
  change (cb_valid x && (cb_fd x =? fd) && cb_dirty x)
    with (owned_dirty fd x).
  rewrite fmap_cons. unfold flushed at 1.
  destruct (owned_dirty fd x) eqn:Hx.
  - destruct (Hok x ltac:(by left) Hx) as [Hkx Hlenx].
    rewrite take_ge by lia.
    destruct (sys_pwrite_backed w fd (cb_data x)
                (cb_block_index x * BLOCK_SIZE cfg))
      as (w1 & -> & Hs1 & Hb1 & Hfds1 & Hc1); [done|done|nia|].
    replace (Z.of_nat (length (cb_data x)) =? -1) with false
      by (symmetry; apply Z.eqb_neq; lia).
    destruct (IH w1 Hs1 Hb1 Hok' Huniq')
      as (w' & -> & Hs' & Hb' & Hfds' & Hdisk).
    exists w'. split_and!; [done|done|done|congruence|].
    intros k Hk. destruct (Hdisk k Hk) as [Hin Hout].
    assert (∀ b, b ∈ rest → owned_dirty fd b = true →
              cb_block_index b ≠ cb_block_index x) as Hnot.
    { intros b Hb Hbd Heq. apply list_elem_of_lookup in Hb as [j Hj].
      assert (S j = 0%nat) by (by apply (Huniq (S j) 0%nat b x)). lia. }
    split.
    + intros b Hb Hbd Hbk. apply elem_of_cons in Hb as [->|Hb].
      * subst k. destruct (Hdisk (cb_block_index x) Hkx) as [_ Hout'].
        rewrite Hout' by done. rewrite Hc1.
        by apply block_of_write_at_same.
      * by apply Hin.
    + intros Hnone. rewrite Hout.
      * rewrite Hc1. apply block_of_write_at_other; try done.
        intros ->. apply (Hnone x); [by left|done|done].
      * intros b Hb. apply Hnone. by right.
  - destruct (IH w Hw Hback Hok' Huniq')
      as (w' & -> & Hs' & Hb' & Hfds' & Hdisk).
    exists w'. split_and!; [done..|].
    intros k Hk. destruct (Hdisk k Hk) as [Hin Hout]. split.
    + intros b Hb Hbd Hbk. apply elem_of_cons in Hb as [->|Hb];
        [congruence|by apply Hin].
    + intros Hnone. apply Hout. intros b Hb. apply Hnone. by right.
Qed.

Lemma find_from_flushed fd0 blocks i fd k :
  find_from (flushed fd0 <$> blocks) i fd k = find_from blocks i fd k.
Proof.
  revert i. induction blocks as [|x rest IH]; intros i; [done|].
  cbn. rewrite IH. unfold flushed. by destruct (owned_dirty fd0 x).
Qed.

Lemma flushed_data fd0 b : cb_data (flushed fd0 b) = cb_data b.
Proof. unfold flushed. by destruct (owned_dirty fd0 b). Qed.

Lemma flushed_owned fd0 fd b : owned fd (flushed fd0 b) = owned fd b.
Proof. unfold flushed. by destruct (owned_dirty fd0 b). Qed.

Lemma flushed_index fd0 b :
  cb_block_index (flushed fd0 b) = cb_block_index b.
Proof. unfold flushed. by destruct (owned_dirty fd0 b). Qed.

Lemma flushed_clean fd b : owned_dirty fd (flushed fd b) = false.
Proof.
  unfold flushed. destruct (owned_dirty fd b) eqn:H; [|done].
  unfold owned_dirty. cbn. apply andb_false_r.
Qed.

Lemma cached_flushed st fd0 w fd k :
  cached (set_world w (set_cache (flushed fd0 <$> cache st) st)) fd k
  = cached st fd k.
Proof.
  unfold cached, find_cache_block. cbn [cache set_world set_cache].
  rewrite find_from_flushed.
  destruct (find_from (cache st) 0 fd k =? -1); [done|].
  f_equal. unfold slot. cbn [cache set_world set_cache].
  rewrite list_lookup_fmap.
  destruct (cache st !! _); cbn; [by rewrite flushed_data|done].
Qed.

(** [vtpc_fsync] on a well-served handle: every dirty slot of the handle
    reaches the file, which then is the stream byte for byte and in length;
    reads through the handle are not affected. *)
Lemma vtpc_fsync_tidy st h :
  0 < BLOCK_SIZE cfg → tidy cfg st h →
  let fd := fc_os_fd (file st h) in
  ∃ st',
    vtpc_fsync cfg st h = (0, st')
    ∧ tidy cfg st' h
    ∧ open_files st' = open_files st
    ∧ cache st' = flushed fd <$> cache st
    ∧ cache_initialized st' = cache_initialized st
    ∧ fds (world st') = fds (world st)
    ∧ content_of (world st') fd = stream cfg st h
    ∧ stream cfg st' h = stream cfg st h.
Proof.
  intros HBS (Hlen & Hbad & Hsound & Hcur & Hsize & Hz) fd.
  fold fd in Hsound. unfold tail_zero in Hz. fold fd in Hz.
  destruct Hsound as (Hwf & Hinv & Hback & Hcalm & Hcoh).
  set (size := fc_file_size (file st h)) in *.
  set (c := content_of (world st) fd).
  unfold vtpc_fsync. rewrite Hbad. fold fd size.
  destruct (fsync_blocks_flush fd (cache st) (world st))
    as (w1 & -> & Hs1 & Hb1 & Hfds1 & Hdisk1); [done|done|done| | |].
  { intros b Hb Hbd. apply list_elem_of_lookup in Hb as [i Hi].
    unfold owned_dirty in Hbd. apply andb_true_iff in Hbd as [Hown _].
    split; [by apply (Hcoh i b)|].
    by eapply (Forall_lookup_1 _ _ _ _ (proj2 Hwf)). }
  { intros i j bi bj Hi Hj Hbi Hbj Hk.
    unfold owned_dirty in Hbi, Hbj.
    apply andb_true_iff in Hbi as [Hbi _].
    apply andb_true_iff in Hbj as [Hbj _].
    apply andb_true_iff in Hbi as [Hvi Hfi%Z.eqb_eq].
    apply andb_true_iff in Hbj as [Hvj Hfj%Z.eqb_eq].
    apply (Hinv i j bi bj); congruence. }
  cbn [Z.eqb world set_world set_cache].
  destruct (sys_fsync_backed w1 fd Hs1 Hb1) as (w2 & -> & Hs2 & Hfs2 & Hfds2).
  assert (backed w2 fd) as Hb2 by (by apply (backed_same w1)).
  cbn [Z.eqb].
  change (file (set_world w1 (set_cache (flushed fd <$> cache st) st)) h)
    with (file st h). fold size.
  destruct (sys_ftruncate_backed w2 fd size Hs2 Hb2 ltac:(lia))
    as (w3 & -> & Hs3 & Hb3 & Hfds3 & Hc3).
  set (st' := set_world w3 (set_world w1 (set_cache _ st))).
  set (c1 := content_of w1 fd) in *.
  rewrite (content_of_same w1 w2) in Hc3 by done. fold c1 in Hc3.
  (* the file after the flush loop is the pool's view *)
  assert (∀ k, 0 ≤ k → block_of cfg c1 k = block_view cfg st fd k) as Hview1.
  { intros k Hk. destruct (Hdisk1 k Hk) as [Hin Hout]. unfold block_view.
    destruct (cached st fd k) as [d|] eqn:Hca; cbn.
    - destruct (cached_Some st fd k d Hca) as (n & b & Hn & Hh & <-).
      pose proof Hh as Hh'. apply holds_true in Hh' as (Hv & Hfd & Hkb).
      destruct (cb_dirty b) eqn:Hd.
      + apply Hin; [by eapply list_elem_of_lookup_2| |done].
        unfold owned_dirty. rewrite Hv, Hd. cbn.
        rewrite andb_true_r. by apply Z.eqb_eq.
      + rewrite Hout.
        * assert (owned fd b = true) as Hown.
          { unfold owned. rewrite Hv. cbn. by apply Z.eqb_eq. }
          destruct (Hcoh n b Hn Hown) as [_ [?|Hdata]]; [congruence|].
          fold c in Hdata. by rewrite Hdata, Hkb.
        * intros b' Hb' Hbd' Hkb'.
          apply list_elem_of_lookup in Hb' as [j Hj].
          unfold owned_dirty in Hbd'.
          apply andb_true_iff in Hbd' as [Hown' Hd'].
          apply andb_true_iff in Hown' as [Hv' Hf'%Z.eqb_eq].
          assert (j = n) as -> by (apply (Hinv j n b' b); congruence).
          congruence.
    - rewrite Hout; [done|].
      intros b' Hb' Hbd' Hkb'.
      pose proof (cached_None st fd k Hca b' Hb') as Hh.
      unfold owned_dirty in Hbd'. apply andb_true_iff in Hbd' as [Hown' _].
      rewrite holds_owned in Hh. unfold owned in Hh. rewrite Hown' in Hh.
      cbn in Hh.
      apply Z.eqb_neq in Hh. done. }
  (* truncation to the tracked size cuts zeros only *)
  assert (∀ q, 0 ≤ q →
            byte_at (content_of w3 fd) q = logical_byte cfg st fd q) as Hbyte3.
  { intros q Hq. rewrite Hc3, byte_at_truncate_to by done.
    destruct (decide (q < size)) as [Hlt|Hge].
    - rewrite (byte_at_blocks cfg c1 q) by done.
      destruct (pos_split (BLOCK_SIZE cfg) q HBS Hq) as (_ & _ & Hk).
      by rewrite Hview1.
    - symmetry. apply Hz. lia. }
  assert (∀ k, 0 ≤ k → block_of cfg (content_of w3 fd) k
                        = block_view cfg st fd k) as Hview3.
  { intros k Hk. symmetry. apply block_of_eq.
    - by apply length_block_view.
    - intros j Hj. rewrite Hbyte3 by nia.
      unfold logical_byte.
      destruct (pos_unique (BLOCK_SIZE cfg) k (Z.of_nat j)
                  (k * BLOCK_SIZE cfg + Z.of_nat j) HBS ltac:(lia) eq_refl)
        as [-> ->].
      done. }
  assert (∀ k, 0 ≤ k → block_view cfg st' fd k = block_view cfg st fd k)
    as Hviews.
  { intros k Hk. unfold block_view at 1. subst st'. cbn [world set_world].
    change (cached (set_world w3 (set_world w1
                      (set_cache (flushed fd <$> cache st) st))) fd k)
      with (cached (set_world w1
                      (set_cache (flushed fd <$> cache st) st)) fd k).
    rewrite cached_flushed. rewrite Hview3 by done.
    unfold block_view. by destruct (cached st fd k). }
  assert (file st' h = file st h) as Hf' by done.
  assert (stream cfg st' h = stream cfg st h) as Hstream.
  { by apply same_views_stream. }
  exists st'. split; [done|]. split_and!; [|done|done|done| | |done].
  - split_and!; [done|done| |done|rewrite Hf'; lia|rewrite Hf'; lia|].
    + rewrite Hf'. fold fd. split_and!.
      * split; [cbn; rewrite length_fmap; apply Hwf|].
        cbn. apply Forall_fmap. eapply Forall_impl; [exact (proj2 Hwf)|].
        intros b Hb. cbn. by rewrite flushed_data.
      * apply (pool_inv_keeps (cache st)); [done|].
        cbn. apply Forall2_keeps_fmap. intros b. unfold flushed.
        destruct (owned_dirty fd b); [right; by split_and!|apply keeps_key_refl].
      * done.
      * done.
      * intros i b' Hi Hown. cbn in Hi.
        apply list_lookup_fmap_Some in Hi as (b & -> & Hi).
        rewrite flushed_owned in Hown.
        destruct (Hcoh i b Hi Hown) as [Hk _].
        rewrite flushed_index, flushed_data. split; [done|]. right.
        cbn [world set_world]. rewrite Hview3 by done.
        unfold block_view.
        rewrite (cached_hit st fd (cb_block_index b) i b); [done|done|done|].
        rewrite holds_owned, Hown. cbn. apply Z.eqb_refl.
    + unfold tail_zero. rewrite Hf'. fold fd size. intros q Hq. split.
      * rewrite (logical_byte_views cfg st st') by (done || lia).
        apply Hz. done.
      * cbn [world set_world]. rewrite Hbyte3 by lia. by apply Hz.
  - cbn. congruence.
  - change (content_of (world st') fd) with (content_of w3 fd).
    apply byte_at_ext.
    + rewrite Hc3, length_truncate_to, length_stream. done.
    + intros q Hq. rewrite Hbyte3 by lia.
      rewrite byte_at_stream; [done| |lia]. exact Hz.
Qed.

End Flush.

(** ** Opening and closing, seen on the stream *)

Section OpenClose.

Variable cfg : Config.

Lemma land_direct_trunc flags :
  Z.land (Z.lor flags O_DIRECT) O_TRUNC = Z.land flags O_TRUNC.
Proof.
  rewrite Z.land_lor_distr_l.
  change (Z.land O_DIRECT O_TRUNC) with 0. apply Z.lor_0_r.
Qed.

Lemma opened_content_direct w path flags :
  opened_content w path (Z.lor flags O_DIRECT) = opened_content w path flags.
Proof. unfold opened_content. by rewrite land_direct_trunc. Qed.

Lemma sys_open_exact w path flags mode os_fd w' :
  script w = [] → sys_open w path flags mode = (os_fd, w') → os_fd ≠ -1 →
  fds w !! os_fd = None ∧ 0 ≤ os_fd
  ∧ fds w' = <[os_fd := {| fe_path := path; fe_pos := 0 |}]> (fds w)
  ∧ fs w' = <[path := opened_content w path flags]> (fs w)
  ∧ script w' = [].
Proof.
  intros Hw. unfold sys_open, opened_content.
  pose proof (enter_files (SysOpen path flags mode) w) as (Hfs & Hfds & Hcalm).
  destruct (Hcalm Hw) as [Ho Hs].
  destruct (enter _ w) as [o w1]. cbn in Hfs, Hfds, Ho, Hs. subst o.
  pose proof (lowest_free_fresh (fds w1) (size (fds w1)) 0 ltac:(lia)) as Hfree.
  pose proof (lowest_free_ge (fds w1) (size (fds w1)) 0) as Hge.
  rewrite Hfds in Hfree, Hge. rewrite <- Hfs.
  destruct (fs w1 !! path) as [content|] eqn:Hp.
  - intros [= <- <-] _. rewrite Hfds. cbn. by split_and!.
  - destruct (Z.land flags O_CREAT =? 0); [by intros [= <- <-]|].
    intros [= <- <-] _. rewrite Hfds. cbn. by split_and!.
Qed.

Lemma sys_close_calm w fd fe :
  script w = [] → fds w !! fd = Some fe →
  ∃ w', sys_close w fd = (0, w')
    ∧ fds w' = delete fd (fds w) ∧ fs w' = fs w ∧ script w' = [].
Proof.
  intros Hw Hfd. unfold sys_close.
  pose proof (enter_files (SysClose fd) w) as (Hfs & Hfds & Hcalm).
  destruct (Hcalm Hw) as [Ho Hs].
  destruct (enter _ w) as [o w1]. cbn in Hfs, Hfds, Ho, Hs. subst o.
  rewrite Hfds, Hfd. eexists. split; [done|]. cbn. by split_and!.
Qed.

(** What a successful [vtpc_open] leaves in the handle and in the world. *)
Lemma vtpc_open_world st0 path flags mode h st :
  length (open_files st0) = MAX_OPEN_FILES cfg →
  script (world st0) = [] →
  vtpc_open cfg st0 path flags mode = (h, st) → h ≠ -1 →
  let content := opened_content (world st0) path flags in
  ∃ os_fd,
    file st h
    = {| fc_os_fd := os_fd; fc_current_offset := 0;
         fc_file_size := Z.of_nat (length content); fc_flags := flags |}
    ∧ fds (world st0) !! os_fd = None
    ∧ fds (world st)
      = <[os_fd := {| fe_path := path; fe_pos := 0 |}]> (fds (world st0))
    ∧ fs (world st) = <[path := content]> (fs (world st0))
    ∧ cache_initialized st = true
    ∧ length (cache st) = length (cache st0)
    ∧ (if cache_initialized st0 then cache st = cache st0
       else Forall (λ b, cb_valid b = false) (cache st))
    ∧ (∀ h', h' ≠ h → 0 ≤ h' →
         fc_os_fd (file st h') = fc_os_fd (file st0 h')
         ∨ cache_initialized st0 = false ∧ fc_os_fd (file st h') = -1).
Proof.
  intros Hflen Hcalm Hopen Hh content.
  assert (∃ sta, (if negb (cache_initialized st0) then init_cache cfg st0
                  else (0, st0)) = (0, sta)
            ∧ cache_initialized sta = true
            ∧ length (cache sta) = length (cache st0)
            ∧ (if cache_initialized st0 then cache sta = cache st0
               else Forall (λ b, cb_valid b = false) (cache sta))
            ∧ length (open_files sta) = MAX_OPEN_FILES cfg
            ∧ fs (world sta) = fs (world st0)
            ∧ fds (world sta) = fds (world st0)
            ∧ script (world sta) = []
            ∧ ∀ h', fc_os_fd (file sta h') = fc_os_fd (file st0 h')
                   ∨ cache_initialized st0 = false
                     ∧ (0 ≤ h' < Z.of_nat (MAX_OPEN_FILES cfg) →
                        fc_os_fd (file sta h') = -1))
    as (sta & Hsta & Hi & Hcl & Hca & Hlen & Hfs & Hfds & Hs & Hothers).
  { destruct (cache_initialized st0) eqn:Hi; cbn [negb].
    - exists st0. split_and!; try done. by left.
    - unfold init_cache. rewrite Hi.
      destruct (init_blocks_calm cfg (cache st0) (world st0) Hcalm)
        as (blocks & w & -> & Hbl & Hall & ? & ? & ?).
      cbn [Z.eqb]. eexists. split; [done|]. cbn.
      split_and!; try done.
      + eapply Forall_impl; [exact Hall|]. by intros b [? _].
      + by rewrite length_fmap.
      + intros h'. right. split; [done|]. intros Hh'.
        unfold file. cbn. rewrite list_lookup_fmap.
        destruct (lookup_lt_is_Some_2 (open_files st0) (Z.to_nat h')
                    ltac:(lia)) as [f ->].
        done. }
  unfold vtpc_open in Hopen. rewrite Hsta in Hopen. cbn [Z.eqb] in Hopen.
  pose proof (find_free_handle_range
                (take (MAX_OPEN_FILES cfg) (open_files sta)) 0) as Hrange.
  destruct (Z.eqb_spec (find_free_handle
              (take (MAX_OPEN_FILES cfg) (open_files sta)) 0) (-1)) as [E|E].
  { injection Hopen as <- _. done. }
  destruct Hrange as [?|Hrange]; [done|].
  rewrite length_take in Hrange.
  destruct (sys_open (world sta) path (Z.lor flags O_DIRECT) mode)
    as [os_fd w1] eqn:Hsys.
  destruct (Z.eqb_spec os_fd (-1)) as [E1|E1].
  { injection Hopen as <- _. done. }
  destruct (sys_open_exact _ _ _ _ _ _ Hs Hsys E1)
    as (Hfree & Hpos & Hfds1 & Hfs1 & Hs1).
  rewrite opened_content_direct in Hfs1.
  assert (opened_content (world sta) path flags = content) as Hcontent.
  { subst content. unfold opened_content. by rewrite Hfs. }
  rewrite Hcontent in Hfs1.
  destruct (sys_fstat_calm w1 os_fd {| fe_path := path; fe_pos := 0 |} content)
    as (w2 & Hstat & Hfds2 & Hfs2 & Hs2); [done| | |].
  { rewrite Hfds1. apply lookup_insert_eq. }
  { rewrite Hfs1. apply lookup_insert_eq. }
  rewrite Hstat in Hopen. cbn [Z.eqb] in Hopen.
  injection Hopen as <- <-.
  set (h := find_free_handle _ _) in *.
  exists os_fd. split_and!.
  - apply file_set_file. cbn. lia.
  - by rewrite <- Hfds.
  - cbn. by rewrite Hfds2, Hfds1, Hfds.
  - cbn. by rewrite Hfs2, Hfs1, Hfs.
  - done.
  - done.
  - exact Hca.
  - intros h' Hne Hh'.
    rewrite file_set_file_ne by lia.
    change (file (set_world w2 sta) h') with (file sta h').
    destruct (Hothers h') as [?|[? Hm]]; [by left|].
    destruct (decide (h' < Z.of_nat (MAX_OPEN_FILES cfg))) as [Hin|Hout].
    + right. split; [done|]. apply Hm. lia.
    + left. unfold file. rewrite !lookup_ge_None_2 by lia. done.
Qed.

(** Nothing of a descriptor is in the pool: its stream is its file. *)
Lemma uncached_view st fd k :
  Forall (λ b, owned fd b = false) (cache st) →
  block_view cfg st fd k = block_of cfg (content_of (world st) fd) k.
Proof.
  intros Hfresh. unfold block_view. rewrite cached_miss; [done|].
  intros b Hb. rewrite holds_owned.
  rewrite Forall_forall in Hfresh. by rewrite (Hfresh b Hb).
Qed.

Lemma uncached_byte st fd q :
  0 < BLOCK_SIZE cfg → 0 ≤ q →
  Forall (λ b, owned fd b = false) (cache st) →
  logical_byte cfg st fd q = byte_at (content_of (world st) fd) q.
Proof.
  intros HBS Hq Hfresh. unfold logical_byte.
  rewrite uncached_view by done. by rewrite <- byte_at_blocks.
Qed.

(** A handle that [vtpc_open] has just returned is well served, its cursor
    is at 0 and its stream is the file as [open] found it. *)
Lemma vtpc_open_tidy st0 path flags mode h st :
  0 < BLOCK_SIZE cfg → (0 < CACHE_SIZE_BLOCKS cfg)%nat →
  settled cfg st0 → unopened (world st0) path → script (world st0) = [] →
  vtpc_open cfg st0 path flags mode = (h, st) → h ≠ -1 →
  tidy cfg st h
  ∧ fc_current_offset (file st h) = 0
  ∧ stream cfg st h = opened_content (world st0) path flags
  ∧ settled cfg st ∧ cache_initialized st = true.
Proof.
  intros HBS HCS Hst0 Hpath Hcalm Hopen Hh.
  destruct (vtpc_open_fresh cfg st0 path flags mode h st)
    as (Hwf & Hinv & Hlen & Hbad & Hcur & Hsize & Hfresh & Hback & Hs);
    [done..|].
  destruct Hst0 as (Hclen & Hflen & Hinit).
  destruct (vtpc_open_world st0 path flags mode h st Hflen Hcalm Hopen Hh)
    as (os_fd & Hf & Hfree & Hfds & Hfs & Hi & Hcl & Hca & Hoth).
  set (content := opened_content (world st0) path flags) in *.
  rewrite Hf in Hfresh, Hback. cbn [fc_os_fd] in Hfresh, Hback.
  assert (content_of (world st) os_fd = content) as Hcontent.
  { unfold content_of, file_of. rewrite Hfds, Hfs, lookup_insert_eq.
    cbn. by rewrite lookup_insert_eq. }
  assert (tail_zero cfg st h) as Hz.
  { unfold tail_zero. rewrite Hf. cbn [fc_os_fd fc_file_size].
    intros q Hq. rewrite uncached_byte by (done || lia).
    rewrite Hcontent. split; unfold byte_at; by rewrite lookup_ge_None_2 by lia. }
  split_and!.
  - split_and!; try done; try lia.
    rewrite Hf. cbn [fc_os_fd]. split_and!; try done.
    by apply fresh_coherent.
  - done.
  - apply byte_at_ext.
    + rewrite length_stream, Hf. cbn. lia.
    + intros q Hq. rewrite byte_at_stream by (done || lia).
      rewrite Hf. cbn [fc_os_fd]. rewrite uncached_byte by (done || lia).
      by rewrite Hcontent.
  - split_and!; [congruence|done|]. intros _. split_and!; [done|done|].
    destruct (cache_initialized st0) eqn:Hi0.
    + rewrite Hca. destruct (Hinit eq_refl) as (_ & _ & Horph).
      eapply Forall_impl; [exact Horph|]. intros b Hb Hv.
      destruct (Hb Hv) as [fe Hfe]. rewrite Hfds.
      destruct (decide (cb_fd b = os_fd)) as [Heq|Hne].
      { rewrite Heq, lookup_insert_eq. eauto. }
      rewrite lookup_insert_ne by done. eauto.
    + eapply Forall_impl; [exact Hca|]. intros b Hb Hv. congruence.
  - done.
Qed.

(** [vtpc_close] on a well-served handle returns 0 and leaves the stream
    in the file, which no descriptor is open on any more. *)
Lemma vtpc_close_tidy st h :
  0 < BLOCK_SIZE cfg → tidy cfg st h →
  settled cfg st → cache_initialized st = true →
  let fd := fc_os_fd (file st h) in
  ∃ st' fe,
    vtpc_close cfg st h = (0, st')
    ∧ fds (world st) !! fd = Some fe
    ∧ fds (world st') = delete fd (fds (world st))
    ∧ fs (world st') !! fe_path fe = Some (stream cfg st h)
    ∧ unopened (world st') (fe_path fe)
    ∧ script (world st') = []
    ∧ settled cfg st' ∧ cache_initialized st' = true
    ∧ fc_os_fd (file st' h) = -1
    ∧ (∀ h', h' ≠ h → 0 ≤ h' → file st' h' = file st h').
Proof.
  intros HBS Htidy (Hclen & Hflen & Hinit) Hi fd.
  destruct (Hinit Hi) as (_ & _ & Horph).
  destruct (vtpc_fsync_tidy cfg st h HBS Htidy)
    as (st1 & Hfsync & Htidy1 & Hof1 & Hc1 & Hi1 & Hfds1 & Hcontent1 & _).
  fold fd in Hc1, Hcontent1.
  destruct Htidy as (Hlen & Hbad & Hsound & Hcur & Hsize & Hz).
  destruct Htidy1 as (Hlen1 & Hbad1 & Hsound1 & _).
  assert (file st1 h = file st h) as Hf1 by (by apply file_same_open_files).
  rewrite Hf1 in Hsound1. fold fd in Hsound1.
  destruct Hsound1 as (Hwf1 & Hinv1 & Hback1 & Hs1 & _).
  destruct (backed_content _ _ Hback1) as (fe & Hfe & Hpath & _).
  pose proof (bad_handle_false _ _ _ Hbad) as [Hh _].
  unfold vtpc_close. rewrite Hbad, Hfsync. fold fd. cbn [world set_cache].
  destruct (sys_close_calm (world st1) fd fe Hs1 Hfe)
    as (w' & -> & Hfds' & Hfs' & Hs').
  eexists _, fe. split; [done|]. cbn [world set_file set_open_files set_world].
  split_and!.
  - by rewrite <- Hfds1.
  - by rewrite Hfds', Hfds1.
  - by rewrite Hfs', Hpath, Hcontent1.
  - split.
    + intros fd' fe' Hfd' Hp. rewrite Hfds' in Hfd'.
      apply lookup_delete_Some in Hfd' as [Hne Hfd'].
      destruct Hback1 as (fe1 & c1 & Hfe1 & _ & Halone).
      assert (fe1 = fe) as -> by congruence.
      apply Hne. symmetry. by apply (Halone fd' fe').
    + intros content Hc. rewrite Hfs', Hpath, Hcontent1 in Hc.
      injection Hc as <-. rewrite length_stream. lia.
  - done.
  - split_and!.
    + cbn. rewrite length_fmap, Hc1, length_fmap. done.
    + cbn. rewrite length_insert, Hof1. done.
    + intros _. split_and!.
      * split; [cbn; rewrite length_fmap; apply Hwf1|].
        cbn. apply Forall_fmap. eapply Forall_impl; [exact (proj2 Hwf1)|].
        intros b Hb. cbn. unfold dropped.
        by destruct (cb_valid b && (cb_fd b =? fd)).
      * cbn. apply (pool_inv_keeps (cache st1)); [done|].
        apply Forall2_keeps_fmap. apply dropped_keeps.
      * cbn. rewrite Hc1. rewrite <- list_fmap_compose.
        apply Forall_fmap. eapply Forall_impl; [exact Horph|].
        intros b Hb. cbn. unfold dropped.
        destruct (cb_valid (flushed fd b) && (cb_fd (flushed fd b) =? fd))
          eqn:Hown; [done|].
        intros Hv.
        assert (cb_valid b = true ∧ cb_fd (flushed fd b) = cb_fd b)
          as [Hvb Hfdb].
        { revert Hv. unfold flushed. by destruct (owned_dirty fd b). }
        rewrite Hv, Hfdb in Hown. cbn in Hown. apply Z.eqb_neq in Hown.
        rewrite Hfdb, Hfds', Hfds1. rewrite lookup_delete_ne by done.
        by apply Hb.
  - cbn. congruence.
  - rewrite file_set_file; [done|]. cbn. rewrite Hof1. lia.
  - intros h' Hne Hh'. rewrite file_set_file_ne by lia.
    by apply file_same_open_files.
Qed.

End OpenClose.

(** ** A handle behaves as a file *)

Section AsFile.

Variable cfg : Config.

(** X1. A handle that [vtpc_open] has just returned (backing store without
    faults, no other descriptor on the file) is well served: its cursor is
    at 0 and its stream is the content that [open] found, which is empty
    for a new file and under O_TRUNC. *)
Theorem vtpc_open_gives_file (st0 : State) (path : string) (flags mode : Z)
    (h : Z) (st : State) :
  0 < BLOCK_SIZE cfg → (0 < CACHE_SIZE_BLOCKS cfg)%nat →
  settled cfg st0 → unopened (world st0) path → script (world st0) = [] →
  vtpc_open cfg st0 path flags mode = (h, st) → h ≠ -1 →
  tidy cfg st h
  ∧ fc_current_offset (file st h) = 0
  ∧ stream cfg st h = opened_content (world st0) path flags
  ∧ settled cfg st ∧ cache_initialized st = true.
Proof. apply vtpc_open_tidy. Qed.

(** X2. On a well-served handle [vtpc_write] returns the length of the
    buffer and changes the stream as [pwrite] at the cursor changes a file:
    the buffer replaces the bytes from the cursor on, a gap between the old
    end and the cursor reads as zeros, and the tracked size becomes the
    larger of the old size and the new cursor. *)
Theorem vtpc_write_as_file (st : State) (h : Z) (buf : list byte) :
  0 < BLOCK_SIZE cfg → tidy cfg st h →
  fc_current_offset (file st h) + Z.of_nat (length buf) ≤ OFF_MAX →
  let f := file st h in
  let L := Z.of_nat (length buf) in
  ∃ st',
    vtpc_write cfg st h buf L = Some (L, st')
    ∧ tidy cfg st' h
    ∧ file st' h
      = {| fc_os_fd := fc_os_fd f;
           fc_current_offset := fc_current_offset f + L;
           fc_file_size := Z.max (fc_file_size f) (fc_current_offset f + L);
           fc_flags := fc_flags f |}
    ∧ (∀ h', h' ≠ h → 0 ≤ h' → file st' h' = file st h')
    ∧ stream cfg st' h = write_at (stream cfg st h) (fc_current_offset f) buf.
Proof. apply vtpc_write_tidy. Qed.

(** X3. On a well-served handle [vtpc_read] returns the bytes of the stream
    from the cursor on, [count] of them or as many as are left, moves the
    cursor past them and leaves the stream as it was. *)
Theorem vtpc_read_as_file (st : State) (h count : Z) :
  0 < BLOCK_SIZE cfg → tidy cfg st h → 0 ≤ count ≤ SSIZE_MAX →
  let f := file st h in
  ∃ out st',
    vtpc_read cfg st h count = Some (Z.of_nat (length out), out, st')
    ∧ out = slice (stream cfg st h) (fc_current_offset f) count
    ∧ tidy cfg st' h
    ∧ file st' h
      = {| fc_os_fd := fc_os_fd f;
           fc_current_offset := fc_current_offset f + Z.of_nat (length out);
           fc_file_size := fc_file_size f;
           fc_flags := fc_flags f |}
    ∧ (∀ h', h' ≠ h → 0 ≤ h' → file st' h' = file st h')
    ∧ stream cfg st' h = stream cfg st h.
Proof. apply vtpc_read_tidy. Qed.

(** X4. On a well-served handle that was opened for reading and writing
    (and not for appending) [vtpc_fsync] returns 0, and afterwards the
    file of the descriptor is the stream of the handle, byte for byte and
    in length; no slot of the descriptor is dirty any more, and the stream
    is what it was. *)
Theorem vtpc_fsync_makes_durable (st : State) (h : Z) :
  0 < BLOCK_SIZE cfg → tidy cfg st h → read_write st h →
  let fd := fc_os_fd (file st h) in
  ∃ st',
    vtpc_fsync cfg st h = (0, st')
    ∧ tidy cfg st' h
    ∧ open_files st' = open_files st
    ∧ content_of (world st') fd = stream cfg st h
    ∧ (∀ b, b ∈ cache st' → owned_dirty fd b = false)
    ∧ stream cfg st' h = stream cfg st h.
Proof.
  intros HBS Htidy _ fd.
  destruct (vtpc_fsync_tidy cfg st h HBS Htidy)
    as (st' & Hr & Ht & Hof & Hc & _ & _ & Hcontent & Hstream).
  exists st'. split_and!; try done.
  intros b Hb. fold fd in Hc. rewrite Hc in Hb.
  apply list_elem_of_fmap in Hb as (b0 & -> & _). apply flushed_clean.
Qed.

(** X5. Closing a well-served handle that was opened for reading and
    writing (and not for appending) returns 0 and leaves the stream in the
    file; whenever opening the same path again without O_TRUNC succeeds,
    it gives a handle with the cursor at 0 and the same stream: what was
    written through a handle is there after close and reopen. *)
Theorem close_reopen_persists (st : State) (h flags mode : Z) :
  0 < BLOCK_SIZE cfg → (0 < CACHE_SIZE_BLOCKS cfg)%nat →
  tidy cfg st h → settled cfg st → cache_initialized st = true →
  read_write st h →
  Z.land flags O_TRUNC = 0 →
  ∃ st1 fe,
    vtpc_close cfg st h = (0, st1)
    ∧ fds (world st) !! fc_os_fd (file st h) = Some fe
    ∧ fs (world st1) !! fe_path fe = Some (stream cfg st h)
    ∧ ∀ h' st2,
        vtpc_open cfg st1 (fe_path fe) flags mode = (h', st2) →
        h' ≠ -1 →
        tidy cfg st2 h'
        ∧ fc_current_offset (file st2 h') = 0
        ∧ stream cfg st2 h' = stream cfg st h.
Proof.
  intros HBS HCS Htidy Hsettled Hi _ Htrunc.
  destruct (vtpc_close_tidy cfg st h HBS Htidy Hsettled Hi)
    as (st1 & fe & Hclose & Hfe & Hfds1 & Hfs1 & Hun1 & Hs1 & Hset1 & Hi1
        & Hfree & _).
  destruct Hset1 as (Hclen1 & Hflen1 & Hinit1).
  exists st1, fe. split_and!; try done.
  intros h' st2 Hopen Hok.
  destruct (vtpc_open_tidy cfg st1 (fe_path fe) flags mode h' st2)
    as (Htidy2 & Hcur2 & Hstream2 & _); [done|done|by split_and!|done..|].
  split_and!; try done.
  rewrite Hstream2. unfold opened_content. by rewrite Hfs1, Htrunc.
Qed.

End AsFile.

(** The handle of the sample runs is well served when it is opened and
    after its first write. *)
Lemma st_open_tidy : tidy Demo.tiny Run.st_open 0.
Proof.
  apply (vtpc_open_tidy Demo.tiny (static_state Demo.tiny Demo.boot)
           "a" Demo.rw 420 0 Run.st_open).
  - vm_compute. reflexivity.
  - vm_compute. lia.
  - split; [vm_compute; reflexivity|].
    split; [vm_compute; reflexivity|]. vm_compute. discriminate.
  - apply unopenedb_sound. vm_compute. reflexivity.
  - vm_compute. reflexivity.
  - vm_compute. reflexivity.
  - vm_compute. discriminate.
Qed.

Lemma st_full_tidy : tidy Demo.tiny Run.st_full 0.
Proof.
  destruct (vtpc_write_tidy Demo.tiny Run.st_open 0 Run.two_blocks)
    as (st' & Hw & Ht & _);
    [vm_compute; reflexivity|apply st_open_tidy|vm_compute; discriminate|].
  unfold Run.st_full. change (Z.of_nat (length Run.two_blocks)) with 8 in Hw.
  by rewrite Hw.
Qed.

Lemma st_full_settled :
  settled Demo.tiny Run.st_full ∧ cache_initialized Run.st_full = true.
Proof.
  split; [|vm_compute; reflexivity].
  split; [vm_compute; reflexivity|]. split; [vm_compute; reflexivity|].
  intros _. split; [apply st_full_tidy|].
  split; [apply st_full_tidy|].
  repeat constructor; intros _; vm_compute; eauto.
Qed.

Lemma vtpc_open_gives_file_witness :
  tidy Demo.tiny Run.st_open 0
  ∧ stream Demo.tiny Run.st_open 0 = [].
Proof.
  destruct (vtpc_open_gives_file Demo.tiny (static_state Demo.tiny Demo.boot)
              "a" Demo.rw 420 0 Run.st_open)
    as (Ht & _ & Hs & _).
  - vm_compute. reflexivity.
  - vm_compute. lia.
  - split; [vm_compute; reflexivity|].
    split; [vm_compute; reflexivity|]. vm_compute. discriminate.
  - apply unopenedb_sound. vm_compute. reflexivity.
  - vm_compute. reflexivity.
  - vm_compute. reflexivity.
  - vm_compute. discriminate.
  - split; [exact Ht|]. rewrite Hs. vm_compute. reflexivity.
Defined.

Lemma vtpc_write_as_file_witness :
  ∃ st', vtpc_write Demo.tiny Run.st_open 0 Run.three_blocks 12
         = Some (12, st')
    ∧ stream Demo.tiny st' 0 = Run.three_blocks.
Proof.
  destruct (vtpc_write_as_file Demo.tiny Run.st_open 0 Run.three_blocks)
    as (st' & Hw & _ & _ & _ & Hs).
  - vm_compute. reflexivity.
  - apply st_open_tidy.
  - vm_compute. discriminate.
  - exists st'. split; [exact Hw|]. rewrite Hs. vm_compute. reflexivity.
Defined.

Lemma vtpc_read_as_file_witness :
  ∃ st', vtpc_read Demo.tiny
           (snd (vtpc_lseek Demo.tiny Run.st_full 0 0 SEEK_SET)) 0 100
         = Some (8, Run.two_blocks, st').
Proof.
  destruct (vtpc_read_as_file Demo.tiny
              (snd (vtpc_lseek Demo.tiny Run.st_full 0 0 SEEK_SET)) 0 100)
    as (out & st' & Hr & Ho & _).
  - vm_compute. reflexivity.
  - destruct (vtpc_lseek_tidy Demo.tiny Run.st_full 0 0 st_full_tidy)
      as (st1 & Hl & Ht & _); [lia|]. by rewrite Hl.
  - vm_compute. split; discriminate.
  - exists st'. rewrite Hr, Ho. vm_compute. reflexivity.
Defined.

Lemma vtpc_fsync_makes_durable_witness :
  ∃ st', vtpc_fsync Demo.tiny Run.st_full 0 = (0, st')
    ∧ content_of (world st') 3 = Run.two_blocks.
Proof.
  destruct (vtpc_fsync_makes_durable Demo.tiny Run.st_full 0)
    as (st' & Hr & _ & _ & Hc & _).
  - vm_compute. reflexivity.
  - apply st_full_tidy.
  - vm_compute. split; reflexivity.
  - exists st'. split; [exact Hr|].
    change (fc_os_fd (file Run.st_full 0)) with 3 in Hc. rewrite Hc.
    vm_compute. reflexivity.
Defined.

Lemma close_reopen_persists_witness :
  let st1 := snd (vtpc_close Demo.tiny Run.st_full 0) in
  let r := vtpc_open Demo.tiny st1 "a" 2 0 in
  fst (vtpc_close Demo.tiny Run.st_full 0) = 0
  ∧ fst r = 0
  ∧ stream Demo.tiny (snd r) (fst r) = Run.two_blocks.
Proof.
  intros st1' r.
  destruct (close_reopen_persists Demo.tiny Run.st_full 0 2 0)
    as (st1 & fe & Hc & Hfe & _ & Hre).
  - vm_compute. reflexivity.
  - vm_compute. lia.
  - apply st_full_tidy.
  - apply st_full_settled.
  - apply st_full_settled.
  - vm_compute. split; reflexivity.
  - vm_compute. reflexivity.
  - vm_compute in Hfe. injection Hfe as <-.
    assert (st1 = st1') as -> by (subst st1'; by rewrite Hc).
    destruct (Hre (fst r) (snd r)) as (_ & _ & Hs).
    + subst r. apply surjective_pairing.
    + vm_compute. discriminate.
    + split_and!; [by rewrite Hc|vm_compute; reflexivity|].
      rewrite Hs. vm_compute. reflexivity.
Defined.

(** ** Handles: the guard, the table and its edges *)

Section Handles.

Variable cfg : Config.

Lemma bad_handle_closed st h :
  fc_os_fd (file st h) = -1 → bad_handle cfg st h = true.
Proof.
  intros H. unfold bad_handle. rewrite H. cbn. apply orb_true_r.
Qed.

(** X6. After [vtpc_close] on an open handle, whatever the flush and the
    raw [close] did, the handle is refused by every call: each returns -1,
    sets [errno] to EBADF and changes nothing else (no system call). *)
Theorem use_after_close (st : State) (h : Z) (buf : list byte)
    (count offset whence : Z) :
  bad_handle cfg st h = false →
  length (open_files st) = MAX_OPEN_FILES cfg →
  let st' := snd (vtpc_close cfg st h) in
  let refused := set_world (set_errno EBADF (world st')) st' in
  vtpc_close cfg st' h = (-1, refused)
  ∧ vtpc_read cfg st' h count = Some (-1, [], refused)
  ∧ vtpc_write cfg st' h buf count = Some (-1, refused)
  ∧ vtpc_lseek cfg st' h offset whence = (-1, refused)
  ∧ vtpc_fsync cfg st' h = (-1, refused).
Proof.
  intros Hbad Hlen st' refused.
  destruct (vtpc_close_releases cfg st h Hbad Hlen) as (_ & _ & Hfree & _).
  fold st' in Hfree. pose proof (bad_handle_closed st' h Hfree) as Hbad'.
  unfold vtpc_close, vtpc_read, vtpc_write, vtpc_lseek, vtpc_fsync.
  rewrite !Hbad'. by split_and!.
Qed.

Lemma find_free_handle_first files i :
  0 ≤ i →
  (find_free_handle files i = -1
   ∧ ∀ f, f ∈ files → fc_os_fd f ≠ -1)
  ∨ ∃ n f, find_free_handle files i = i + Z.of_nat n
      ∧ files !! n = Some f ∧ fc_os_fd f = -1
      ∧ ∀ j fj, (j < n)%nat → files !! j = Some fj → fc_os_fd fj ≠ -1.
Proof.
  revert i. induction files as [|x rest IH]; intros i Hi; cbn [find_free_handle].
  { left. split; [done|]. intros f Hf. by apply elem_of_nil in Hf. }
  destruct (Z.eqb_spec (fc_os_fd x) (-1)) as [Hx|Hx].
  - right. exists 0%nat, x. split_and!; [lia|done|done|]. intros j fj Hj. lia.
  - destruct (IH (i + 1) ltac:(lia)) as [[-> Hall]|(n & f & -> & Hn & Hf & Hbefore)].
    + left. split; [done|]. intros f Hf.
      apply elem_of_cons in Hf as [->|Hf]; [done|by apply Hall].
    + right. exists (S n), f. split_and!; [lia|done|done|].
      intros [|j] fj Hj Hfj; cbn in Hfj; [by simplify_eq|].
      apply (Hbefore j fj); [lia|done].
Qed.

(** X7. When the pool is initialised, a successful [vtpc_open] returns the
    lowest handle that was free; it stores the raw descriptor, cursor 0 and
    the flags as given (without O_DIRECT) there, and leaves every other
    handle and the pool as they were. *)
Theorem vtpc_open_lowest_handle (st : State) (path : string)
    (flags mode h : Z) (st' : State) :
  cache_initialized st = true →
  length (open_files st) = MAX_OPEN_FILES cfg →
  vtpc_open cfg st path flags mode = (h, st') → h ≠ -1 →
  0 ≤ h < Z.of_nat (MAX_OPEN_FILES cfg)
  ∧ fc_os_fd (file st h) = -1
  ∧ (∀ i, 0 ≤ i < h → fc_os_fd (file st i) ≠ -1)
  ∧ fc_os_fd (file st' h) ≠ -1
  ∧ fc_current_offset (file st' h) = 0
  ∧ fc_flags (file st' h) = flags
  ∧ (∀ i, i ≠ h → 0 ≤ i → file st' i = file st i)
  ∧ cache st' = cache st.
Proof.
  intros Hi Hlen Hopen Hh. unfold vtpc_open in Hopen.
  rewrite Hi in Hopen. cbn [negb Z.eqb] in Hopen.
  rewrite take_ge in Hopen by lia.
  destruct (find_free_handle_first (open_files st) 0 ltac:(lia))
    as [[E _]|(n & f & E & Hn & Hf & Hbefore)]; rewrite E in Hopen.
  { cbn in Hopen. injection Hopen as <- _. done. }
  pose proof (lookup_lt_Some _ _ _ Hn) as Hnlt.
  replace (0 + Z.of_nat n =? -1) with false in Hopen
    by (symmetry; apply Z.eqb_neq; lia).
  destruct (sys_open _ _ _ _) as [os_fd w].
  destruct (Z.eqb_spec os_fd (-1)) as [E1|E1].
  { injection Hopen as <- _. done. }
  destruct (sys_fstat w os_fd) as [[r sz] w1].
  destruct (r =? -1).
  { destruct (sys_close _ _). injection Hopen as <- _. done. }
  injection Hopen as <- <-.
  assert (file (set_file (0 + Z.of_nat n)
            {| fc_os_fd := os_fd; fc_current_offset := 0;
               fc_file_size := sz; fc_flags := flags |} (set_world w1 st))
            (0 + Z.of_nat n)
          = {| fc_os_fd := os_fd; fc_current_offset := 0;
               fc_file_size := sz; fc_flags := flags |}) as Hfile.
  { apply file_set_file. cbn. lia. }
  rewrite Hfile. cbn [fc_os_fd fc_current_offset fc_flags].
  split_and!; try done; try lia.
  - unfold file. replace (Z.to_nat (0 + Z.of_nat n)) with n by lia.
    by rewrite Hn.
  - intros i Hirange. unfold file.
    destruct (lookup_lt_is_Some_2 (open_files st) (Z.to_nat i) ltac:(lia))
      as [fi Hfi].
    rewrite Hfi. cbn. apply (Hbefore (Z.to_nat i) fi); [lia|done].
  - intros i Hne Hi0. rewrite file_set_file_ne by lia. done.
Qed.

Lemma sys_open_fds w path flags mode :
  let r := sys_open w path flags mode in
  (r.1 = -1 ∧ fds r.2 = fds w)
  ∨ (0 ≤ r.1 ∧ fds w !! r.1 = None
     ∧ fds r.2 = <[r.1 := {| fe_path := path; fe_pos := 0 |}]> (fds w)).
Proof.
  unfold sys_open.
  pose proof (enter_files (SysOpen path flags mode) w) as (_ & Hfds & _).
  destruct (enter _ w) as [o w1]. cbn in Hfds.
  pose proof (lowest_free_fresh (fds w1) (size (fds w1)) 0 ltac:(lia)) as Hfree.
  pose proof (lowest_free_ge (fds w1) (size (fds w1)) 0) as Hge.
  rewrite Hfds in Hfree, Hge.
  destruct o; cbn; try (by left);
    (destruct (fs w1 !! path); [|destruct (_ =? 0); [by left|]]);
    right; cbn; rewrite Hfds; by split_and!.
Qed.

Lemma sys_fstat_fds w fd : fds (sys_fstat w fd).2 = fds w.
Proof.
  unfold sys_fstat.
  pose proof (enter_files (SysFstat fd) w) as (_ & Hfds & _).
  destruct (enter _ w) as [o w1]. cbn in Hfds.
  destruct o; cbn; try done;
    by destruct (file_of w1 fd) as [[[? ?] ?]|].
Qed.

Lemma sys_close_fds w fd : fds (sys_close w fd).2 = delete fd (fds w).
Proof.
  unfold sys_close.
  pose proof (enter_files (SysClose fd) w) as (_ & Hfds & _).
  destruct (enter _ w) as [o w1]. cbn in Hfds.
  destruct (fds w1 !! fd) eqn:Hfd.
  - destruct o; cbn; by rewrite Hfds.
  - cbn. rewrite Hfds. rewrite Hfds in Hfd. by rewrite delete_id.
Qed.

(** X8. When the pool is initialised, a failed [vtpc_open] takes no handle
    and leaks no descriptor: the handle table, the pool and the descriptor
    table of the process are as before.  With every handle in use it fails
    with EMFILE before any system call. *)
Theorem vtpc_open_failure (st : State) (path : string) (flags mode : Z) :
  cache_initialized st = true →
  fst (vtpc_open cfg st path flags mode) = -1 →
  let st' := snd (vtpc_open cfg st path flags mode) in
  open_files st' = open_files st
  ∧ cache st' = cache st
  ∧ fds (world st') = fds (world st)
  ∧ ((∀ f, f ∈ take (MAX_OPEN_FILES cfg) (open_files st) → fc_os_fd f ≠ -1) →
     errno (world st') = EMFILE ∧ trace (world st') = trace (world st)).
Proof.
  intros Hi. unfold vtpc_open. rewrite Hi. cbn [negb Z.eqb].
  destruct (find_free_handle_first
              (take (MAX_OPEN_FILES cfg) (open_files st)) 0 ltac:(lia))
    as [[E Hall]|(n & f & E & Hn & Hf & Hbefore)]; rewrite E.
  { cbn. intros _. by split_and!. }
  replace (0 + Z.of_nat n =? -1) with false
    by (symmetry; apply Z.eqb_neq; lia).
  assert (∀ P : Prop,
            (∀ f, f ∈ take (MAX_OPEN_FILES cfg) (open_files st)
                  → fc_os_fd f ≠ -1) → P) as Hfull.
  { intros P Hall. destruct (Hall f); [by eapply list_elem_of_lookup_2|done]. }
  pose proof (sys_open_fds (world st) path (Z.lor flags O_DIRECT) mode) as Hopen.
  destruct (sys_open _ _ _ _) as [os_fd w]. cbn in Hopen.
  destruct Hopen as [[-> Hfds]|(Hpos & Hfree & Hfds)].
  { cbn. intros _. split_and!; [done|done|done|apply Hfull]. }
  replace (os_fd =? -1) with false by (symmetry; apply Z.eqb_neq; lia).
  pose proof (sys_fstat_fds w os_fd) as Hfds1.
  destruct (sys_fstat w os_fd) as [[r sz] w1]. cbn in Hfds1.
  destruct (r =? -1); [|cbn; lia].
  pose proof (sys_close_fds w1 os_fd) as Hfds2.
  destruct (sys_close w1 os_fd) as [r2 w2]. cbn in Hfds2.
  cbn. intros _. split_and!; [done|done| |apply Hfull].
  rewrite Hfds2, Hfds1, Hfds. by apply delete_insert_id.
Qed.

Lemma init_blocks_fails blocks w k e rest :
  (k < length blocks)%nat → e ≠ 0 →
  script w = replicate k IoOk ++ IoFail e :: rest →
  let r := init_blocks cfg blocks w in
  r.1.1 = -1 ∧ length r.1.2 = length blocks
  ∧ errno r.2 = ENOMEM ∧ script r.2 = rest
  ∧ trace r.2
    = trace w ++ replicate (S k) (SysPosixMemalign (BLOCK_SIZE cfg))
  ∧ fs r.2 = fs w ∧ fds r.2 = fds w.
Proof.
  revert blocks w. induction k as [|k IH]; intros blocks w Hk He Hw;
    (destruct blocks as [|b blocks]; [cbn in Hk; lia|]);
    cbn [init_blocks]; unfold sys_posix_memalign, enter; rewrite Hw; cbn.
  - replace (e =? 0) with false by (symmetry; by apply Z.eqb_neq).
    cbn. by split_and!.
  - specialize (IH blocks
      {| fs := fs w; fds := fds w; errno := errno w;
         script := replicate k IoOk ++ IoFail e :: rest;
         trace := trace w ++ [SysPosixMemalign (BLOCK_SIZE cfg)];
         junk := junk w |} ltac:(cbn in Hk; lia) He eq_refl).
    cbn in IH. destruct (init_blocks cfg blocks _) as [[r bl] w'].
    cbn in *. destruct IH as (-> & Hlen & ? & ? & Htr & ? & ?).
    split_and!; try done; [by rewrite Hlen|].
    rewrite Htr, <- app_assoc. done.
Qed.

(** X9. When an allocation of [init_cache] fails, the first [vtpc_open]
    returns -1 with [errno] ENOMEM before any [open]; the pool stays marked
    as not initialised and the handle table is not touched, so the next
    [vtpc_open] starts the initialisation over. *)
Theorem vtpc_open_init_failure (st : State) (path : string) (flags mode : Z)
    (k : nat) (e : Z) (rest : list outcome) :
  cache_initialized st = false →
  (k < length (cache st))%nat → e ≠ 0 →
  script (world st) = replicate k IoOk ++ IoFail e :: rest →
  let r := vtpc_open cfg st path flags mode in
  fst r = -1
  ∧ cache_initialized (snd r) = false
  ∧ open_files (snd r) = open_files st
  ∧ errno (world (snd r)) = ENOMEM
  ∧ trace (world (snd r))
    = trace (world st) ++ replicate (S k) (SysPosixMemalign (BLOCK_SIZE cfg))
  ∧ fs (world (snd r)) = fs (world st)
  ∧ fds (world (snd r)) = fds (world st).
Proof.
  intros Hi Hk He Hw. unfold vtpc_open, init_cache. rewrite Hi. cbn [negb].
  pose proof (init_blocks_fails (cache st) (world st) k e rest Hk He Hw) as H.
  destruct (init_blocks cfg (cache st) (world st)) as [[r blocks] w].
  cbn in H. destruct H as (-> & _ & ? & ? & ? & ? & ?).
  cbn. by split_and!.
Qed.

Lemma fsync_blocks_invalid os_fd blocks w :
  Forall (λ b, cb_valid b = false) blocks →
  fsync_blocks cfg os_fd blocks w = (0, blocks, w).
Proof.
  induction 1 as [|b rest Hb _ IH]; [done|].
  cbn. rewrite Hb. cbn. by rewrite IH.
Qed.

(** X10. Before the first [vtpc_open] the handle table is all zeros, and
    zero is not the mark of a free handle: every handle in range passes the
    guard and stands for raw descriptor 0 with tracked size 0.  So
    [vtpc_close] on such a handle ends by closing descriptor 0, and
    [vtpc_fsync] on it writes nothing back and calls [fsync (0)]; when that
    fails it returns -1, and otherwise it calls [ftruncate (0, 0)] and
    returns 0, as it does when a file is behind descriptor 0. *)
Theorem handles_before_first_open (w : OS) (h : Z) :
  0 ≤ h < Z.of_nat (MAX_OPEN_FILES cfg) →
  let st := static_state cfg w in
  bad_handle cfg st h = false
  ∧ fc_os_fd (file st h) = 0
  ∧ last (trace (world (snd (vtpc_close cfg st h)))) = Some (SysClose 0)
  ∧ (let r := vtpc_fsync cfg st h in
     (fst r = -1 ∧ trace (world (snd r)) = trace w ++ [SysFsync 0])
     ∨ (fst r = 0
        ∧ trace (world (snd r))
          = trace w ++ [SysFsync 0; SysFtruncate 0 0]))
  ∧ (script w = [] → backed w 0 →
     let r := vtpc_fsync cfg st h in
     fst r = 0
     ∧ trace (world (snd r)) = trace w ++ [SysFsync 0; SysFtruncate 0 0]).
Proof.
  intros Hh st.
  assert (file st h = zero_file) as Hf.
  { unfold file, st, static_state. cbn.
    by rewrite lookup_replicate_2 by lia. }
  assert (bad_handle cfg st h = false) as Hbad.
  { unfold bad_handle. rewrite Hf. cbn.
    rewrite (proj2 (Z.ltb_ge h 0)) by lia.
    replace (h >=? Z.of_nat (MAX_OPEN_FILES cfg)) with false
      by (symmetry; rewrite Z.geb_leb; apply Z.leb_gt; lia).
    done. }
  assert (vtpc_fsync cfg st h
          = let '(res, w2) := sys_fsync w 0 in
            if res =? -1 then (-1, set_world w2 st)
            else (res, set_world (snd (sys_ftruncate w2 0 0)) st)) as Hfs.
  { unfold vtpc_fsync. rewrite Hbad, Hf.
    cbn [fc_os_fd fc_file_size zero_file].
    rewrite fsync_blocks_invalid.
    2:{ unfold st, static_state. cbn [cache].
        apply Forall_forall. intros b Hb.
        apply elem_of_replicate in Hb as [-> _]. done. }
    cbn [Z.eqb world set_world set_cache st static_state].
    destruct (sys_fsync w 0) as [res w2].
    destruct (res =? -1); [done|].
    match goal with
    | |- context [sys_ftruncate _ _ ?l] =>
        replace l with 0
          by (unfold file; cbn; by rewrite lookup_replicate_2 by lia)
    end.
    by destruct (sys_ftruncate w2 0 0). }
  split_and!; [done|by rewrite Hf| | |].
  - destruct (vtpc_close_releases cfg st h Hbad) as (_ & _ & _ & Hlast & _).
    { unfold st, static_state. cbn. by rewrite length_replicate. }
    by rewrite Hf in Hlast.
  - cbv zeta. rewrite Hfs.
    pose proof (sys_fsync_result w 0) as [Hres Htr2].
    destruct (sys_fsync w 0) as [res w2]. cbn [fst snd] in Hres, Htr2.
    pose proof (sys_ftruncate_trace w2 0 0) as Htr3.
    destruct Hres as [->| ->]; cbn [Z.eqb Pos.eqb fst snd world set_world].
    + right. split; [done|]. rewrite Htr3, Htr2. by rewrite <- app_assoc.
    + left. by split.
  - intros Hcalm Hback. cbv zeta. rewrite Hfs.
    destruct (sys_fsync_backed w 0 Hcalm Hback)
      as (w2 & Hw2 & Hs2 & Hfs2 & Hfds2).
    pose proof (sys_fsync_result w 0) as [_ Htr2].
    rewrite Hw2 in Htr2 |- *. cbn [fst snd] in Htr2.
    pose proof (sys_ftruncate_trace w2 0 0) as Htr3.
    cbn [Z.eqb fst snd world set_world]. split; [done|].
    rewrite Htr3, Htr2. by rewrite <- app_assoc.
Qed.

End Handles.

Lemma use_after_close_witness :
  let st' := snd (vtpc_close Demo.tiny Run.st_full 0) in
  vtpc_close Demo.tiny st' 0
  = (-1, set_world (set_errno EBADF (world st')) st')
  ∧ vtpc_fsync Demo.tiny st' 0
    = (-1, set_world (set_errno EBADF (world st')) st').
Proof.
  destruct (use_after_close Demo.tiny Run.st_full 0 [] 0 0 0)
    as (H1 & _ & _ & _ & H5).
  - vm_compute. reflexivity.
  - vm_compute. reflexivity.
  - split; [exact H1|exact H5].
Defined.

Lemma vtpc_open_lowest_handle_witness :
  fc_os_fd (file Run.st_open 1) = -1
  ∧ fc_flags (file (snd (vtpc_open Demo.tiny Run.st_open "b" Demo.rw 420)) 1)
    = Demo.rw.
Proof.
  destruct (vtpc_open_lowest_handle Demo.tiny Run.st_open "b" Demo.rw 420 1
              (snd (vtpc_open Demo.tiny Run.st_open "b" Demo.rw 420)))
    as (_ & H1 & _ & _ & _ & H2 & _).
  - vm_compute. reflexivity.
  - vm_compute. reflexivity.
  - vm_compute. reflexivity.
  - discriminate.
  - split; [exact H1|exact H2].
Defined.

Lemma vtpc_open_failure_witness :
  let st' := snd (vtpc_open Demo.tiny Run.st_open "missing" 0 0) in
  open_files st' = open_files Run.st_open
  ∧ fds (world st') = fds (world Run.st_open).
Proof.
  destruct (vtpc_open_failure Demo.tiny Run.st_open "missing" 0 0)
    as (H1 & _ & H3 & _).
  - vm_compute. reflexivity.
  - vm_compute. reflexivity.
  - split; [exact H1|exact H3].
Defined.

Lemma vtpc_open_init_failure_witness :
  let r := vtpc_open Demo.tiny More.st_no_memory "a" Demo.rw 420 in
  fst r = -1 ∧ cache_initialized (snd r) = false
  ∧ errno (world (snd r)) = ENOMEM.
Proof.
  destruct (vtpc_open_init_failure Demo.tiny More.st_no_memory "a" Demo.rw 420
              1 ENOMEM [])
    as (H1 & H2 & _ & H4 & _).
  - vm_compute. reflexivity.
  - vm_compute. lia.
  - vm_compute. discriminate.
  - vm_compute. reflexivity.
  - split_and!; [exact H1|exact H2|exact H4].
Defined.

Lemma handles_before_first_open_witness :
  let st := static_state Demo.tiny More.piped in
  bad_handle Demo.tiny st 1 = false
  ∧ fst (vtpc_fsync Demo.tiny st 1) = 0
  ∧ trace (world (snd (vtpc_fsync Demo.tiny st 1)))
    = [SysFsync 0; SysFtruncate 0 0].
Proof.
  destruct (handles_before_first_open Demo.tiny More.piped 1)
    as (H1 & _ & _ & _ & H4).
  - cbn. lia.
  - destruct H4 as [H5 H6].
    + vm_compute. reflexivity.
    + apply backedb_sound. vm_compute. reflexivity.
    + split_and!; [exact H1|exact H5|exact H6].
Defined.

(** ** The pool at work: lookups, hits, fills and evictions *)

Section PoolAtWork.

Variable cfg : Config.

Lemma find_from_first blocks i fd k :
  0 ≤ i →
  (find_from blocks i fd k = -1
   ∧ ∀ b, b ∈ blocks → holds fd k b = false)
  ∨ ∃ n b, find_from blocks i fd k = i + Z.of_nat n
      ∧ blocks !! n = Some b ∧ holds fd k b = true
      ∧ ∀ j bj, (j < n)%nat → blocks !! j = Some bj → holds fd k bj = false.
Proof.
  revert i. induction blocks as [|x rest IH]; intros i Hi; cbn [find_from].
  { left. split; [done|]. intros b Hb. by apply elem_of_nil in Hb. }
  change (cb_valid x && (cb_fd x =? fd) && (cb_block_index x =? k))
    with (holds fd k x).
  destruct (holds fd k x) eqn:Hx.
  - right. exists 0%nat, x. split_and!; [lia|done|done|]. intros j bj Hj. lia.
  - destruct (IH (i + 1) ltac:(lia))
      as [[-> Hall]|(n & b & -> & Hn & Hb & Hbefore)].
    + left. split; [done|]. intros b Hb.
      apply elem_of_cons in Hb as [->|Hb]; [done|by apply Hall].
    + right. exists (S n), b. split_and!; [lia|done|done|].
      intros [|j] bj Hj Hbj; cbn in Hbj; [by simplify_eq|].
      apply (Hbefore j bj); [lia|done].
Qed.

(** X11. [find_cache_block] returns -1 exactly when no slot is valid for
    the descriptor and block asked for, and otherwise the index of the first
    such slot. *)
Theorem find_cache_block_first (st : State) (fd k : Z) :
  (find_cache_block st fd k = -1
   ∧ ∀ b, b ∈ cache st → holds fd k b = false)
  ∨ ∃ n b, find_cache_block st fd k = Z.of_nat n
      ∧ cache st !! n = Some b ∧ holds fd k b = true
      ∧ ∀ j bj, (j < n)%nat → cache st !! j = Some bj →
          holds fd k bj = false.
Proof.
  unfold find_cache_block.
  destruct (find_from_first (cache st) 0 fd k ltac:(lia))
    as [?|(n & b & E & ?)]; [by left|right].
  exists n, b. rewrite E. split; [lia|done].
Qed.

Lemma read_loop_done fuel os_fd offset count user_buf st :
  read_loop cfg fuel os_fd offset count count user_buf st
  = Some (Finished count, user_buf, st).
Proof. destruct fuel; cbn; by rewrite Z.ltb_irrefl. Qed.

Lemma write_loop_done fuel os_fd offset count user_buf st :
  write_loop cfg fuel os_fd offset count count user_buf st
  = Some (count, st).
Proof. destruct fuel; cbn; by rewrite Z.ltb_irrefl. Qed.

Lemma one_chunk offset count :
  0 < BLOCK_SIZE cfg → 0 ≤ offset → 0 < count →
  offset + count ≤ OFF_MAX →
  offset mod BLOCK_SIZE cfg + count ≤ BLOCK_SIZE cfg →
  chunk_block cfg offset 0 = offset / BLOCK_SIZE cfg
  ∧ chunk_offset cfg offset 0 = offset mod BLOCK_SIZE cfg
  ∧ chunk_len cfg offset count 0 = count.
Proof.
  intros HBS Hoff Hcount Hmax Hin.
  destruct (chunk_block_small cfg offset 0 HBS ltac:(lia)) as (Hb & Ho & _).
  rewrite Z.add_0_r in Hb, Ho. split_and!; [done|done|].
  unfold chunk_len. rewrite Ho, Z.sub_0_r.
  destruct (Z.gtb_spec (BLOCK_SIZE cfg - offset mod BLOCK_SIZE cfg) count); lia.
Qed.

(** X12. A read that lies inside one cached block is served from the pool:
    no system call is made, the bytes come from the slot, the counter of
    the slot goes up by one and the cursor moves by [count]. *)
Theorem read_hit_no_io (st : State) (h count : Z) (n : nat) (b : CacheBlock) :
  0 < BLOCK_SIZE cfg →
  bad_handle cfg st h = false →
  length (open_files st) = MAX_OPEN_FILES cfg →
  let f := file st h in
  let c := fc_current_offset f in
  0 ≤ c → 0 < count → c + count ≤ fc_file_size f →
  fc_file_size f ≤ OFF_MAX →
  c mod BLOCK_SIZE cfg + count ≤ BLOCK_SIZE cfg →
  find_cache_block st (fc_os_fd f) (c / BLOCK_SIZE cfg) = Z.of_nat n →
  cache st !! n = Some b →
  vtpc_read cfg st h count
  = Some (count, slice (cb_data b) (c mod BLOCK_SIZE cfg) count,
          set_file h
            {| fc_os_fd := fc_os_fd f; fc_current_offset := c + count;
               fc_file_size := fc_file_size f; fc_flags := fc_flags f |}
            (set_slot (Z.of_nat n)
               {| cb_data := cb_data b; cb_fd := cb_fd b;
                  cb_block_index := cb_block_index b;
                  cb_dirty := cb_dirty b;
                  cb_frequency := u64 (cb_frequency b + 1);
                  cb_valid := cb_valid b |} st)).
Proof.
  intros HBS Hbad Hlen f c Hc Hcount Hsize Hmax Hin Hfind Hn.
  pose proof (bad_handle_false _ _ _ Hbad) as [Hh _].
  pose proof (lookup_lt_Some _ _ _ Hn) as Hnlt.
  unfold vtpc_read. rewrite Hbad. fold f c.
  replace (c >=? fc_file_size f) with false
    by (symmetry; rewrite Z.geb_leb; apply Z.leb_gt; lia).
  unfold OFF_MAX in *.
  rewrite (u64_small (c + count)), (u64_small (fc_file_size f)) by lia.
  replace (c + count >? fc_file_size f) with false
    by (symmetry; rewrite Z.gtb_ltb; apply Z.ltb_ge; lia).
  destruct (one_chunk c count HBS Hc Hcount ltac:(unfold OFF_MAX; lia) Hin)
    as (Hkb & Hko & Hkl).
  destruct (Z.to_nat count) as [|fuel] eqn:Hfuel; [lia|].
  cbn [read_loop]. replace (0 <? count) with true
    by (symmetry; apply Z.ltb_lt; lia).
  rewrite read_chunk_unfold, Hkb, Hko, Hkl. unfold read_fetch.
  rewrite Hfind.
  replace (Z.of_nat n =? -1) with false by (symmetry; apply Z.eqb_neq; lia).
  rewrite (slot_lookup st n b Hn).
  rewrite slot_set_slot by (rewrite Nat2Z.id; done).
  rewrite Z.add_0_l, read_loop_done. cbn [app touched cb_data].
  change (file (set_slot (Z.of_nat n) (touched b) st) h) with f. fold c.
  rewrite !s64_small by lia. done.
Qed.

(** X13. A write that lies inside one cached block goes to the pool only:
    no system call is made and the file is not touched; the bytes are
    stored in the slot, which becomes dirty, its counter goes up by one,
    the cursor moves by [count] and the tracked size grows to the cursor
    if it was below it. *)
Theorem write_hit_no_io (st : State) (h count : Z) (buf : list byte)
    (n : nat) (b : CacheBlock) :
  0 < BLOCK_SIZE cfg →
  bad_handle cfg st h = false →
  length (open_files st) = MAX_OPEN_FILES cfg →
  let f := file st h in
  let c := fc_current_offset f in
  0 ≤ c → 0 < count → c + count ≤ OFF_MAX →
  c mod BLOCK_SIZE cfg + count ≤ BLOCK_SIZE cfg →
  find_cache_block st (fc_os_fd f) (c / BLOCK_SIZE cfg) = Z.of_nat n →
  cache st !! n = Some b →
  vtpc_write cfg st h buf count
  = Some (count,
          set_file h
            {| fc_os_fd := fc_os_fd f; fc_current_offset := c + count;
               fc_file_size := Z.max (fc_file_size f) (c + count);
               fc_flags := fc_flags f |}
            (set_slot (Z.of_nat n)
               {| cb_data :=
                    memcpy (cb_data b) (c mod BLOCK_SIZE cfg)
                      (slice buf 0 count);
                  cb_fd := cb_fd b;
                  cb_block_index := cb_block_index b;
                  cb_dirty := true;
                  cb_frequency := u64 (cb_frequency b + 1);
                  cb_valid := cb_valid b |} st)).
Proof.
  intros HBS Hbad Hlen f c Hc Hcount Hmax Hin Hfind Hn.
  pose proof (bad_handle_false _ _ _ Hbad) as [Hh _].
  pose proof (lookup_lt_Some _ _ _ Hn) as Hnlt.
  unfold vtpc_write. rewrite Hbad. fold f c.
  destruct (one_chunk c count HBS Hc Hcount Hmax Hin) as (Hkb & Hko & Hkl).
  destruct (Z.to_nat count) as [|fuel] eqn:Hfuel; [lia|].
  cbn [write_loop]. replace (0 <? count) with true
    by (symmetry; apply Z.ltb_lt; lia).
  rewrite write_chunk_unfold, Hkb, Hko, Hkl. unfold write_fetch.
  rewrite Hfind.
  replace (Z.of_nat n =? -1) with false by (symmetry; apply Z.eqb_neq; lia).
  rewrite (slot_lookup st n b Hn).
  rewrite slot_set_slot by (rewrite Nat2Z.id; done).
  rewrite set_slot_set_slot.
  rewrite Z.add_0_l, write_loop_done. cbn [touched cb_data].
  change (file (set_slot (Z.of_nat n) _ st) h) with f. fold c.
  unfold OFF_MAX in *. rewrite !s64_small by lia.
  do 3 f_equal.
  destruct (Z.gtb_spec (c + count) (fc_file_size f)); f_equal; lia.
Qed.

Lemma sys_pread_fails w fd len off e rest :
  script w = IoFail e :: rest →
  sys_pread w fd len off
  = (-1, [],
     {| fs := fs w; fds := fds w; errno := e; script := rest;
        trace := trace w ++ [SysPread fd len off]; junk := junk w |}).
Proof. intros Hw. unfold sys_pread, enter. rewrite Hw. done. Qed.

(** X14. A write of part of a block that is not in the pool must read the
    block first.  When that [pread] fails, [vtpc_write] still returns
    [count]: the slot is filled with zeros, the bytes of the buffer are
    stored over them and the slot is marked dirty, so that a later
    write-back puts zeros over the rest of the block in the file.  (Here a
    slot is free, so no eviction comes first.) *)
Theorem write_miss_failed_fill (st : State) (h count : Z) (buf : list byte)
    (n : nat) (b0 : CacheBlock) (e : Z) (rest : list outcome) :
  0 < BLOCK_SIZE cfg →
  bad_handle cfg st h = false →
  length (open_files st) = MAX_OPEN_FILES cfg →
  let f := file st h in
  let c := fc_current_offset f in
  let k := c / BLOCK_SIZE cfg in
  0 ≤ c → 0 < count → count < BLOCK_SIZE cfg → c + count ≤ OFF_MAX →
  c mod BLOCK_SIZE cfg + count ≤ BLOCK_SIZE cfg →
  find_cache_block st (fc_os_fd f) k = -1 →
  first_invalid (cache st) = Some (n, b0) →
  script (world st) = IoFail e :: rest →
  vtpc_write cfg st h buf count
  = Some (count,
          set_file h
            {| fc_os_fd := fc_os_fd f; fc_current_offset := c + count;
               fc_file_size := Z.max (fc_file_size f) (c + count);
               fc_flags := fc_flags f |}
            (set_slot (Z.of_nat n)
               {| cb_data :=
                    memcpy (memset0 (cb_data b0) 0 (BLOCK_SIZE cfg))
                      (c mod BLOCK_SIZE cfg) (slice buf 0 count);
                  cb_fd := fc_os_fd f; cb_block_index := k;
                  cb_dirty := true; cb_frequency := 1; cb_valid := true |}
               (set_world
                  {| fs := fs (world st); fds := fds (world st); errno := e;
                     script := rest;
                     trace := trace (world st)
                              ++ [SysPread (fc_os_fd f) (BLOCK_SIZE cfg)
                                    (k * BLOCK_SIZE cfg)];
                     junk := junk (world st) |} st))).
Proof.
  intros HBS Hbad Hlen f c k Hc Hcount Hpart Hmax Hin Hfind Hfree Hscript.
  pose proof (bad_handle_false _ _ _ Hbad) as [Hh _].
  pose proof (first_invalid_lt _ _ _ Hfree) as Hnlt.
  assert (cache st !! n = Some b0) as Hn.
  { unfold first_invalid in Hfree. by apply list_find_Some in Hfree as (? & _). }
  unfold vtpc_write. rewrite Hbad. fold f c.
  destruct (one_chunk c count HBS Hc Hcount Hmax Hin) as (Hkb & Hko & Hkl).
  destruct (Z.to_nat count) as [|fuel] eqn:Hfuel; [lia|].
  cbn [write_loop]. replace (0 <? count) with true
    by (symmetry; apply Z.ltb_lt; lia).
  rewrite write_chunk_unfold, Hkb, Hko, Hkl. unfold write_fetch.
  fold k. rewrite Hfind. cbn [Z.eqb Pos.eqb].
  rewrite (evict_block_first_invalid cfg st n b0 Hfree).
  replace (count <? BLOCK_SIZE cfg) with true
    by (symmetry; apply Z.ltb_lt; lia).
  rewrite (sys_pread_fails _ _ _ _ e rest Hscript). cbn [Z.eqb Pos.eqb].
  rewrite (slot_lookup st n b0 Hn).
  rewrite slot_set_slot by (cbn; rewrite Nat2Z.id; done).
  rewrite set_slot_set_slot.
  rewrite Z.add_0_l, write_loop_done.
  change (file (set_slot (Z.of_nat n) _ _) h) with f. fold c.
  unfold OFF_MAX in *. rewrite !s64_small by lia.
  cbn [stored loaded cb_data cb_fd cb_block_index cb_frequency cb_valid].
  do 3 f_equal.
  destruct (Z.gtb_spec (c + count) (fc_file_size f)); f_equal; lia.
Qed.

Lemma sys_lseek_trace w fd off whence :
  trace (sys_lseek w fd off whence).2 = trace w ++ [SysLseek fd off whence].
Proof.
  unfold sys_lseek. pose proof (enter_trace (SysLseek fd off whence) w) as H.
  destruct (enter _ w) as [o w1]. cbn in H.
  destruct o; cbn; try done;
    (destruct (file_of w1 fd) as [[[p pos] c]|]; cbn; [|done]);
    (destruct (if whence =? SEEK_SET then _ else _) as [t|]; cbn; [|done]);
    by destruct (t <? 0).
Qed.

Lemma sys_write_trace w fd data :
  trace (sys_write w fd data).2 = trace w ++ [SysWrite fd data].
Proof.
  unfold sys_write. pose proof (enter_trace (SysWrite fd data) w) as H.
  destruct (enter _ w) as [o w1]. cbn in H.
  destruct o; cbn; try done;
    by destruct (file_of w1 fd) as [[[p pos] c]|].
Qed.

(** X15. With every slot valid, [evict_block] invalidates the slot it
    returns (valid and dirty cleared, counter 0, buffer and key kept) and
    leaves every other slot and the handle table alone.  A clean victim
    costs no system call; a dirty victim is written back by one [lseek] to
    its block and one [write] of its buffer, followed by a [perror] exactly
    when the [write] did not return BLOCK_SIZE, and by nothing else. *)
Theorem evict_block_effect (st : State) :
  first_invalid (cache st) = None → cache st ≠ [] →
  ∃ n b,
    fst (evict_block cfg st) = Z.of_nat n
    ∧ cache st !! n = Some b ∧ cb_valid b = true
    ∧ cache (snd (evict_block cfg st))
      = <[n := {| cb_data := cb_data b; cb_fd := cb_fd b;
                  cb_block_index := cb_block_index b; cb_dirty := false;
                  cb_frequency := 0; cb_valid := false |}]> (cache st)
    ∧ open_files (snd (evict_block cfg st)) = open_files st
    ∧ (cb_dirty b = false → world (snd (evict_block cfg st)) = world st)
    ∧ (cb_dirty b = true →
       let offset := cb_block_index b * BLOCK_SIZE cfg in
       let data := take (Z.to_nat (BLOCK_SIZE cfg)) (cb_data b) in
       let written :=
         fst (sys_write (snd (sys_lseek (world st) (cb_fd b) offset SEEK_SET))
                (cb_fd b) data) in
       trace (world (snd (evict_block cfg st)))
       = trace (world st)
         ++ [SysLseek (cb_fd b) offset SEEK_SET; SysWrite (cb_fd b) data]
         ++ (if written =? BLOCK_SIZE cfg then []
             else [SysPerror "vtpc: eviction write failed"])).
Proof.
  intros Hfull Hne.
  assert (0 < length (cache st))%nat as Hlen.
  { destruct (cache st); [done|cbn; lia]. }
  destruct (evict_block_cases cfg st Hlen) as (n & b & Hn & Hfst & Hcase).
  assert (cb_valid b = true) as Hv.
  { destruct (cb_valid b) eqn:Hv; [done|].
    unfold first_invalid in Hfull.
    pose proof (proj1 (list_find_None _ _) Hfull) as Hall.
    rewrite Forall_forall in Hall.
    destruct (Hall b); [by eapply list_elem_of_lookup_2|done]. }
  destruct Hcase as [[Hv' _]|[_ Hst]]; [congruence|].
  exists n, b. rewrite Hst. split_and!; [done|done|done| | | |].
  - cbn. rewrite Nat2Z.id. by destruct (cb_dirty b).
  - by destruct (cb_dirty b).
  - by intros ->.
  - intros ->. cbn [world set_slot set_cache set_world].
    unfold evict_write_back.
    pose proof (sys_lseek_trace (world st) (cb_fd b)
                  (cb_block_index b * BLOCK_SIZE cfg) SEEK_SET) as H1.
    destruct (sys_lseek _ _ _ _) as [r1 w1]. cbn in H1.
    pose proof (sys_write_trace w1 (cb_fd b)
                  (take (Z.to_nat (BLOCK_SIZE cfg)) (cb_data b))) as H2.
    destruct (sys_write _ _ _) as [r2 w2]. cbn in H2.
    cbn [fst snd]. destruct (r2 =? BLOCK_SIZE cfg); cbn [negb].
    + rewrite H2, H1. by rewrite <- !app_assoc.
    + cbn. rewrite H2, H1. by rewrite <- !app_assoc.
Qed.

End PoolAtWork.

Lemma read_hit_no_io_witness :
  let st := snd (vtpc_lseek Demo.tiny Run.st_full 0 0 SEEK_SET) in
  ∃ st', vtpc_read Demo.tiny st 0 4 = Some (4, [x01; x02; x03; x04], st')
    ∧ world st' = world st
    ∧ (cb_frequency (slot st 0), cb_frequency (slot st' 0)) = (1, 2).
Proof.
  intros st.
  pose proof (read_hit_no_io Demo.tiny st 0 4 0 (slot st 0)) as H.
  cbv zeta in H. rewrite H.
  - eexists. split; [vm_compute; reflexivity|]. split; [reflexivity|].
    vm_compute. reflexivity.
  - vm_compute. reflexivity.
  - vm_compute. reflexivity.
  - vm_compute. reflexivity.
  - vm_compute. discriminate.
  - vm_compute. reflexivity.
  - vm_compute. discriminate.
  - vm_compute. discriminate.
  - vm_compute. discriminate.
  - vm_compute. reflexivity.
  - vm_compute. reflexivity.
Defined.

Lemma write_hit_no_io_witness :
  let st := snd (vtpc_lseek Demo.tiny Run.st_full 0 0 SEEK_SET) in
  ∃ st', vtpc_write Demo.tiny st 0 [x0a; x0b] 2 = Some (2, st')
    ∧ world st' = world st
    ∧ cb_data (slot st' 0) = [x0a; x0b; x03; x04]
    ∧ (cb_frequency (slot st 0), cb_frequency (slot st' 0)) = (1, 2).
Proof.
  intros st.
  pose proof (write_hit_no_io Demo.tiny st 0 2 [x0a; x0b] 0 (slot st 0)) as H.
  cbv zeta in H. rewrite H.
  - eexists. split; [reflexivity|]. split; [reflexivity|].
    split; vm_compute; reflexivity.
  - vm_compute. reflexivity.
  - vm_compute. reflexivity.
  - vm_compute. reflexivity.
  - vm_compute. discriminate.
  - vm_compute. reflexivity.
  - vm_compute. discriminate.
  - vm_compute. discriminate.
  - vm_compute. reflexivity.
  - vm_compute. reflexivity.
Defined.

Lemma write_miss_failed_fill_witness :
  let st := with_script [IoFail EIO] Run.st_open in
  ∃ st', vtpc_write Demo.tiny st 0 [x0a; x0b] 2 = Some (2, st')
    ∧ cb_data (slot st' 0) = [x0a; x0b; x00; x00]
    ∧ cb_dirty (slot st' 0) = true.
Proof.
  intros st.
  pose proof (write_miss_failed_fill Demo.tiny st 0 2 [x0a; x0b] 0
                (slot st 0) EIO []) as H.
  cbv zeta in H. rewrite H.
  - eexists. split; [reflexivity|]. split; vm_compute; reflexivity.
  - vm_compute. reflexivity.
  - vm_compute. reflexivity.
  - vm_compute. reflexivity.
  - vm_compute. discriminate.
  - vm_compute. reflexivity.
  - vm_compute. reflexivity.
  - vm_compute. discriminate.
  - vm_compute. discriminate.
  - vm_compute. reflexivity.
  - vm_compute. reflexivity.
  - vm_compute. reflexivity.
Defined.

Lemma evict_block_effect_witness :
  ∃ n b,
    fst (evict_block Demo.tiny Run.st_full) = Z.of_nat n
    ∧ cache Run.st_full !! n = Some b
    ∧ cache (snd (evict_block Demo.tiny Run.st_full))
      = <[n := {| cb_data := cb_data b; cb_fd := cb_fd b;
                  cb_block_index := cb_block_index b; cb_dirty := false;
                  cb_frequency := 0; cb_valid := false |}]>
          (cache Run.st_full).
Proof.
  destruct (evict_block_effect Demo.tiny Run.st_full)
    as (n & b & H1 & H2 & _ & H4 & _).
  - vm_compute. reflexivity.
  - vm_compute. discriminate.
  - exists n, b. split_and!; [exact H1|exact H2|exact H4].
Defined.

(** ** Other traffic and the stream of a handle *)

Section Isolation.

Variable cfg : Config.

(** X16. Reads and seeks on a well-served handle, and reads, seeks and
    writes through handles of other descriptors, in any number and order,
    all end and leave the stream of the handle as it is, also when they
    evict blocks of the handle from the pool. *)
Theorem other_traffic_keeps_stream (st : State) (h : Z) (mid : list call) :
  0 < BLOCK_SIZE cfg → tidy cfg st h →
  Forall (elsewhere st h) mid →
  ∃ st',
    run_all cfg mid st = Some st'
    ∧ sound cfg st' (fc_os_fd (file st h))
    ∧ fc_os_fd (file st' h) = fc_os_fd (file st h)
    ∧ fc_file_size (file st' h) = fc_file_size (file st h)
    ∧ stream cfg st' h = stream cfg st h.
Proof.
  intros HBS (Hlen & Hbad & Hsound & Hcur & Hsize & _) Hmid.
  pose proof (bad_handle_false _ _ _ Hbad) as [Hh _].
  destruct (elsewhere_run cfg st h (fc_file_size (file st h))
              (λ k, block_view cfg st (fc_os_fd (file st h)) k) mid st
              HBS Hbad Hmid)
    as (st' & Hrun & Hs' & Hlen' & Hfd' & Hcur' & Hsz' & _ & Hv');
    [split_and!; try done; lia|].
  exists st'. split_and!; [done|done|apply Hfd'; lia|done|].
  unfold stream. rewrite Hsz', Hfd' by lia.
  apply list_fmap_ext. intros i q Hq.
  apply logical_byte_views; [done|lia|done].
Qed.

End Isolation.

Lemma other_traffic_keeps_stream_witness :
  ∃ st',
    run_all Demo.tiny [Lseek 0 0 SEEK_SET; Read 0 8; Lseek 0 2 SEEK_CUR]
      Run.st_full = Some st'
    ∧ stream Demo.tiny st' 0 = Run.two_blocks.
Proof.
  destruct (other_traffic_keeps_stream Demo.tiny Run.st_full 0
              [Lseek 0 0 SEEK_SET; Read 0 8; Lseek 0 2 SEEK_CUR])
    as (st' & Hrun & _ & _ & _ & Hs).
  - vm_compute. reflexivity.
  - apply st_full_tidy.
  - repeat constructor; try (by left); vm_compute; discriminate.
  - exists st'. split; [exact Hrun|]. rewrite Hs. vm_compute. reflexivity.
Defined.


(** ** The disk loader over the library *)

Lemma byte_at_app (a b : list byte) q :
  0 ≤ q →
  byte_at (a ++ b) q
  = if decide (q < Z.of_nat (length a)) then byte_at a q
    else byte_at b (q - Z.of_nat (length a)).
Proof.
  intros Hq. unfold byte_at. case_decide.
  - by rewrite lookup_app_l by lia.
  - rewrite lookup_app_r by lia. do 2 f_equal. lia.
Qed.

Lemma byte_at_take (l : list byte) n q :
  0 ≤ q < Z.of_nat n → byte_at (take n l) q = byte_at l q.
Proof. intros Hq. unfold byte_at. by rewrite lookup_take_lt by lia. Qed.

Lemma byte_at_drop (l : list byte) n q :
  0 ≤ q → byte_at (drop n l) q = byte_at l (Z.of_nat n + q).
Proof.
  intros Hq. unfold byte_at. rewrite lookup_drop. do 2 f_equal. lia.
Qed.

Lemma write_at_app s d (a b : list byte) :
  0 ≤ d →
  write_at (write_at s d a) (d + Z.of_nat (length a)) b = write_at s d (a ++ b).
Proof.
  intros Hd. apply byte_at_ext.
  - rewrite !length_write_at, length_app. lia.
  - intros q Hq. rewrite !byte_at_write_at by lia.
    rewrite length_app, Nat2Z.inj_add.
    repeat case_decide; try lia; try done.
    + rewrite byte_at_app by lia. case_decide; [lia|]. f_equal. lia.
    + rewrite byte_at_app by lia. case_decide; [done|lia].
Qed.

Lemma write_at_nil (s : list byte) d :
  0 ≤ d ≤ Z.of_nat (length s) → write_at s d [] = s.
Proof.
  intros Hd. apply byte_at_ext.
  - rewrite length_write_at. cbn. lia.
  - intros q Hq. rewrite byte_at_write_at by lia. cbn.
    case_decide; [lia|done].
Qed.

Lemma length_repeated buffer n : length (repeated buffer n) = Z.to_nat n.
Proof. unfold repeated. by rewrite length_fmap, length_seq. Qed.

Lemma byte_at_repeated buffer n q :
  0 ≤ q < n →
  byte_at (repeated buffer n) q
  = byte_at buffer (q mod Z.of_nat (length buffer)).
Proof.
  intros Hq. unfold repeated, byte_at at 1.
  rewrite list_lookup_fmap, lookup_seq_lt by lia. cbn. by rewrite Z2Nat.id by lia.
Qed.

(** The bytes of the pattern from a multiple of the buffer's length on are
    the start of the buffer. *)
Lemma repeated_chunk buffer n d chunk :
  0 ≤ d → 0 ≤ chunk ≤ Z.of_nat (length buffer) → d + chunk ≤ n →
  d mod Z.of_nat (length buffer) = 0 →
  drop (Z.to_nat d) (repeated buffer n)
  = take (Z.to_nat chunk) buffer
      ++ drop (Z.to_nat (d + chunk)) (repeated buffer n).
Proof.
  intros Hd Hchunk Hn Hmod.
  rewrite <- (take_drop (Z.to_nat chunk) (drop (Z.to_nat d) _)) at 1.
  rewrite drop_drop. replace (Z.to_nat d + Z.to_nat chunk)%nat
    with (Z.to_nat (d + chunk)) by lia.
  f_equal. apply byte_at_ext.
  - rewrite !length_take, length_drop, length_repeated. lia.
  - intros q Hq. rewrite length_take, length_drop, length_repeated in Hq.
    rewrite !byte_at_take by lia. rewrite byte_at_drop by lia.
    rewrite byte_at_repeated by lia. f_equal.
    rewrite Z2Nat.id by lia.
    rewrite Z.add_mod, Hmod, Z.add_0_l, Z.mod_mod, Z.mod_small by lia. done.
Qed.

Section LoaderProofs.

Variable cfg : Config.

Lemma file_eta (f : FileContext) :
  {| fc_os_fd := fc_os_fd f; fc_current_offset := fc_current_offset f;
     fc_file_size := fc_file_size f; fc_flags := fc_flags f |} = f.
Proof. by destruct f. Qed.

(** The first loop of [RunDiskIteration] on a well-served handle: it ends
    without an exception with the pattern in the stream. *)
Lemma write_all_tidy h buffer file_size fuel st remaining :
  0 < BLOCK_SIZE cfg → buffer ≠ [] → file_size ≤ OFF_MAX →
  tidy cfg st h → 0 ≤ remaining ≤ file_size →
  fc_current_offset (file st h) = file_size - remaining →
  file_size - remaining ≤ fc_file_size (file st h) →
  remaining = 0 ∨ (file_size - remaining) mod Z.of_nat (length buffer) = 0 →
  (Z.to_nat remaining ≤ fuel)%nat →
  let f := file st h in
  ∃ st',
    write_all cfg fuel h buffer remaining st = Some (None, st')
    ∧ tidy cfg st' h
    ∧ file st' h
      = {| fc_os_fd := fc_os_fd f; fc_current_offset := file_size;
           fc_file_size := Z.max (fc_file_size f) file_size;
           fc_flags := fc_flags f |}
    ∧ (∀ h', h' ≠ h → 0 ≤ h' → file st' h' = file st h')
    ∧ stream cfg st' h
      = write_at (stream cfg st h) (file_size - remaining)
          (drop (Z.to_nat (file_size - remaining))
             (repeated buffer file_size)).
Proof.
  intros HBS Hne Hmax. revert st remaining.
  assert (0 < Z.of_nat (length buffer)) as HB.
  { destruct buffer; [done|cbn; lia]. }
  induction fuel as [|fuel IH]; intros st remaining Htidy Hrem Hcur Hsz Hmod Hfuel f.
  - assert (remaining = 0) as -> by lia.
    exists st. cbn. split; [done|]. split; [done|].
    rewrite Z.sub_0_r in *. split_and!; [|done|].
    + rewrite <- Hcur. rewrite Z.max_l by (fold f in Hsz; lia). subst f.
      by rewrite file_eta.
    + rewrite drop_ge by (rewrite length_repeated; lia).
      rewrite write_at_nil; [done|]. rewrite length_stream. lia.
  - destruct (decide (remaining = 0)) as [->|Hpos].
    { exists st. cbn. split; [done|]. split; [done|].
      rewrite Z.sub_0_r in *. split_and!; [|done|].
      + rewrite <- Hcur. rewrite Z.max_l by (fold f in Hsz; lia). subst f.
        by rewrite file_eta.
      + rewrite drop_ge by (rewrite length_repeated; lia).
        rewrite write_at_nil; [done|]. rewrite length_stream. lia. }
    destruct Hmod as [?|Hmod]; [done|].
    set (d := file_size - remaining) in *.
    set (chunk := Z.min (Z.of_nat (length buffer)) remaining).
    destruct (vtpc_write_tidy_n cfg st h buffer chunk HBS Htidy)
      as (st1 & Hw & Htidy1 & Hf1 & Hoth1 & Hs1); [lia|lia|].
    fold f in Hf1, Hs1, Hcur, Hsz. rewrite Hcur in Hf1, Hs1.
    destruct (IH st1 (remaining - chunk)) as (st' & Hall & Htidy' & Hf' & Hoth' & Hs');
      [done|lia|rewrite Hf1; cbn; lia|rewrite Hf1; cbn; lia| |lia|].
    { destruct (decide (remaining ≤ Z.of_nat (length buffer))); [left; lia|right].
      replace (file_size - (remaining - chunk))
        with (d + 1 * Z.of_nat (length buffer)) by lia.
      by rewrite Z.mod_add by lia. }
    exists st'. split.
    { cbn [write_all].
      replace (remaining >? 0) with true by (symmetry; apply Z.gtb_lt; lia).
      unfold my_write. fold chunk. rewrite Hw.
      replace (chunk =? -1) with false by (symmetry; apply Z.eqb_neq; lia).
      unfold OFF_MAX in Hmax.
      rewrite (u64_small chunk) by lia.
      rewrite u64_small by lia. exact Hall. }
    split; [done|]. split_and!.
    + rewrite Hf', Hf1. cbn. f_equal. lia.
    + intros h' Hh' Hh0. rewrite Hoth' by done. by apply Hoth1.
    + rewrite Hs', Hs1.
      replace (file_size - (remaining - chunk)) with (d + chunk) by lia.
      rewrite (repeated_chunk buffer file_size d chunk) by lia.
      rewrite <- write_at_app by lia. rewrite length_take.
      by replace (Z.of_nat (Z.to_nat chunk `min` length buffer))
        with chunk by lia.
Qed.

(** The second loop on a well-served handle whose stream starts with the
    pattern: it ends without an exception and leaves [buffer] as it was. *)
Lemma read_all_tidy h buffer file_size fuel st remaining :
  0 < BLOCK_SIZE cfg → buffer ≠ [] → Z.of_nat (length buffer) ≤ SSIZE_MAX →
  tidy cfg st h → 0 ≤ remaining ≤ file_size →
  fc_current_offset (file st h) = file_size - remaining →
  file_size ≤ fc_file_size (file st h) →
  remaining = 0 ∨ (file_size - remaining) mod Z.of_nat (length buffer) = 0 →
  (∀ q, 0 ≤ q < file_size →
     byte_at (stream cfg st h) q
     = byte_at buffer (q mod Z.of_nat (length buffer))) →
  (Z.to_nat remaining ≤ fuel)%nat →
  let f := file st h in
  ∃ st',
    read_all cfg fuel h buffer remaining st = Some (None, buffer, st')
    ∧ tidy cfg st' h
    ∧ file st' h
      = {| fc_os_fd := fc_os_fd f; fc_current_offset := file_size;
           fc_file_size := fc_file_size f; fc_flags := fc_flags f |}
    ∧ (∀ h', h' ≠ h → 0 ≤ h' → file st' h' = file st h')
    ∧ stream cfg st' h = stream cfg st h.
Proof.
  intros HBS Hne Hmax. revert st remaining.
  assert (0 < Z.of_nat (length buffer)) as HB.
  { destruct buffer; [done|cbn; lia]. }
  induction fuel as [|fuel IH];
    intros st remaining Htidy Hrem Hcur Hsz Hmod Hpat Hfuel f.
  - assert (remaining = 0) as -> by lia.
    exists st. cbn. split; [done|]. split; [done|].
    rewrite Z.sub_0_r in *. split_and!; [|done|done].
    rewrite <- Hcur. subst f. by rewrite file_eta.
  - destruct (decide (remaining = 0)) as [->|Hpos].
    { exists st. cbn. split; [done|]. split; [done|].
      rewrite Z.sub_0_r in *. split_and!; [|done|done].
      rewrite <- Hcur. subst f. by rewrite file_eta. }
    destruct Hmod as [?|Hmod]; [done|].
    set (d := file_size - remaining) in *.
    set (chunk := Z.min (Z.of_nat (length buffer)) remaining).
    destruct (vtpc_read_tidy cfg st h chunk HBS Htidy)
      as (out & st1 & Hr & Hout & Htidy1 & Hf1 & Hoth1 & Hs1); [lia|].
    fold f in Hf1, Hout, Hcur, Hsz. rewrite Hcur in Hf1, Hout.
    assert (out = take (Z.to_nat chunk) buffer) as Hout'.
    { subst out. apply byte_at_ext.
      - rewrite length_slice by (rewrite length_stream; fold f; lia).
        rewrite length_take. lia.
      - intros q Hq.
        rewrite length_slice in Hq by (rewrite length_stream; fold f; lia).
        rewrite byte_at_slice by (rewrite ?length_stream; fold f; lia).
        rewrite Hpat by lia. rewrite byte_at_take by lia. f_equal.
        rewrite Z.add_mod, Hmod, Z.add_0_l, Z.mod_mod, Z.mod_small by lia.
        done. }
    assert (Z.of_nat (length out) = chunk) as Hlen.
    { rewrite Hout', length_take. lia. }
    rewrite Hlen in Hr, Hf1.
    destruct (IH st1 (remaining - chunk))
      as (st' & Hall & Htidy' & Hf' & Hoth' & Hs');
      [done|lia|rewrite Hf1; cbn; lia|rewrite Hf1; cbn; lia| | |lia|].
    { destruct (decide (remaining ≤ Z.of_nat (length buffer))); [left; lia|right].
      replace (file_size - (remaining - chunk))
        with (d + 1 * Z.of_nat (length buffer)) by lia.
      by rewrite Z.mod_add by lia. }
    { intros q Hq. rewrite Hs1. by apply Hpat. }
    exists st'. split.
    { cbn [read_all].
      replace (remaining >? 0) with true by (symmetry; apply Z.gtb_lt; lia).
      unfold my_read. fold chunk. rewrite Hr.
      replace (memcpy buffer 0 out) with buffer.
      2:{ rewrite memcpy_0, Hout', length_take.
          replace (Z.to_nat chunk `min` length buffer)%nat
            with (Z.to_nat chunk) by lia.
          by rewrite take_drop. }
      replace (chunk =? 0) with false by (symmetry; apply Z.eqb_neq; lia).
      replace (chunk =? -1) with false by (symmetry; apply Z.eqb_neq; lia).
      unfold SSIZE_MAX in Hmax.
      rewrite (u64_small chunk) by lia.
      pose proof Htidy as (_ & _ & _ & _ & Hfs & _). fold f in Hfs.
      unfold OFF_MAX in Hfs.
      rewrite u64_small by lia. exact Hall. }
    split; [done|]. split_and!.
    + rewrite Hf', Hf1. done.
    + intros h' Hh' Hh0. rewrite Hoth' by done. by apply Hoth1.
    + by rewrite Hs', Hs1.
Qed.

(** X17. On a well-served handle, with a buffer that is not empty and a
    clock that works, [RunDiskIteration] throws nothing: it returns the
    time between the two readings of the clock, [buffer] is as it was, the
    cursor is at [file_size], and the stream starts with [file_size] bytes
    of the buffer written over and over, followed by what the stream held
    past them. *)
Theorem RunDiskIteration_completes (p : Bench) (h : Z) (buffer : list byte)
    (file_size : Z) (t1 t2 : timespec) (rest : list (Z + timespec))
    (fuel : nat) :
  0 < BLOCK_SIZE cfg →
  tidy cfg (lib p) h →
  buffer ≠ [] → Z.of_nat (length buffer) ≤ SSIZE_MAX →
  0 ≤ file_size ≤ OFF_MAX →
  clock p = inr t1 :: inr t2 :: rest →
  (Z.to_nat file_size ≤ fuel)%nat →
  ∃ st',
    RunDiskIteration cfg fuel p h buffer file_size
    = Some (inr (TimespecToSeconds t1 t2), buffer,
            {| lib := st'; clock := rest |})
    ∧ tidy cfg st' h
    ∧ fc_current_offset (file st' h) = file_size
    ∧ stream cfg st' h
      = write_at (stream cfg (lib p) h) 0 (repeated buffer file_size)
    ∧ (∀ h', h' ≠ h → 0 ≤ h' → file st' h' = file (lib p) h').
Proof.
  intros HBS Htidy Hne HB Hsize Hclock Hfuel.
  assert (0 ≤ fc_file_size (file (lib p) h)) as Hfs0.
  { destruct Htidy as (_ & _ & _ & _ & ? & _). lia. }
  destruct (vtpc_lseek_tidy cfg (lib p) h 0 Htidy)
    as (st1 & Hl1 & Htidy1 & Hf1 & Hoth1 & _ & _ & Hs1); [lia|].
  destruct (write_all_tidy h buffer file_size fuel st1 file_size)
    as (st2 & Hw & Htidy2 & Hf2 & Hoth2 & Hs2);
    [done|done|lia|done|lia|rewrite Hf1; cbn; lia|rewrite Hf1; cbn; lia
    |right; by rewrite Z.sub_diag|done|].
  rewrite Z.sub_diag in Hs2. cbn [Z.to_nat drop] in Hs2.
  rewrite Hf1 in Hf2. cbn [fc_os_fd fc_file_size fc_flags] in Hf2.
  destruct (vtpc_fsync_tidy cfg st2 h HBS Htidy2)
    as (st3 & Hfs & Htidy3 & Hof3 & _ & _ & _ & _ & Hs3).
  assert (∀ h', file st3 h' = file st2 h') as Hf3.
  { intros h'. unfold file. by rewrite Hof3. }
  destruct (vtpc_lseek_tidy cfg st3 h 0 Htidy3)
    as (st4 & Hl4 & Htidy4 & Hf4 & Hoth4 & _ & _ & Hs4); [lia|].
  rewrite Hf3, Hf2 in Hf4. cbn [fc_os_fd fc_file_size fc_flags] in Hf4.
  assert (stream cfg st4 h
          = write_at (stream cfg (lib p) h) 0 (repeated buffer file_size))
    as Hs.
  { by rewrite Hs4, Hs3, Hs2, Hs1. }
  destruct (read_all_tidy h buffer file_size fuel st4 file_size)
    as (st5 & Hr & Htidy5 & Hf5 & Hoth5 & Hs5);
    [done|done|done|done|lia|rewrite Hf4; cbn; lia|rewrite Hf4; cbn; lia
    |right; by rewrite Z.sub_diag| |done|].
  { intros q Hq. rewrite Hs, byte_at_write_at by lia.
    rewrite length_repeated. case_decide; [|lia].
    rewrite Z.sub_0_r. by apply byte_at_repeated. }
  exists st5. split.
  { unfold RunDiskIteration, my_lseek, my_fsync. rewrite Hl1.
    cbn [Z.eqb]. unfold clock_gettime at 1. cbn [clock lib]. rewrite Hclock.
    cbn [Z.eqb lib clock]. rewrite Hw, Hfs. cbn [Z.eqb]. rewrite Hl4.
    cbn [Z.eqb]. rewrite Hr. unfold clock_gettime. cbn [clock lib Z.eqb].
    done. }
  split; [done|]. split_and!.
  - rewrite Hf5. done.
  - by rewrite Hs5.
  - intros h' Hh' Hh0.
    rewrite Hoth5, Hoth4, Hf3, Hoth2, Hoth1 by done. done.
Qed.

Lemma write_fetch_open_files st os_fd k to_copy :
  open_files (snd (write_fetch cfg st os_fd k to_copy)) = open_files st.
Proof.
  unfold write_fetch. destruct (find_cache_block st os_fd k =? -1); [|done].
  pose proof (evict_block_open_files cfg st) as H.
  destruct (evict_block cfg st) as [i st1]. cbn [snd] in H.
  destruct (to_copy <? BLOCK_SIZE cfg); [|done].
  by destruct (sys_pread _ _ _ _) as [[r got] w].
Qed.

Lemma write_chunk_open_files os_fd offset count n buf st :
  open_files (snd (write_chunk cfg os_fd offset count n buf st))
  = open_files st.
Proof.
  rewrite write_chunk_unfold.
  pose proof (write_fetch_open_files st os_fd (chunk_block cfg offset n)
                (chunk_len cfg offset count n)) as H.
  by destruct (write_fetch _ _ _ _ _) as [i st1].
Qed.

(** [vtpc_write] on an open handle returns [count] and leaves the handle
    open, whatever the system calls under it did. *)
Lemma vtpc_write_keeps_handle st h buf count :
  0 < BLOCK_SIZE cfg → bad_handle cfg st h = false →
  length (open_files st) = MAX_OPEN_FILES cfg →
  0 ≤ count ≤ SSIZE_MAX →
  ∃ st', vtpc_write cfg st h buf count = Some (count, st')
    ∧ bad_handle cfg st' h = false
    ∧ length (open_files st') = MAX_OPEN_FILES cfg.
Proof.
  intros HBS Hbad Hlen Hcount. unfold vtpc_write. rewrite Hbad.
  destruct (write_loop_inv cfg (λ _ s, open_files s = open_files st)
    (Z.to_nat count) (fc_os_fd (file st h)) (fc_current_offset (file st h))
    count buf 0 st) as (st1 & -> & Hof); [done|lia|lia|done| |].
  { intros n s _ Hs. by rewrite write_chunk_open_files. }
  unfold SSIZE_MAX in Hcount. rewrite (s64_small count) by lia.
  pose proof (bad_handle_false _ _ _ Hbad) as [Hh _].
  eexists. split; [done|]. split.
  - rewrite <- Hbad. apply bad_handle_file.
    rewrite file_set_file by (rewrite Hof; lia). cbn.
    by rewrite (file_same_open_files st1 st).
  - unfold set_file. cbn. by rewrite length_insert, Hof.
Qed.

(** The first loop on an open handle throws nothing. *)
Lemma write_all_no_exception h buffer fuel st remaining e st' :
  0 < BLOCK_SIZE cfg → Z.of_nat (length buffer) ≤ SSIZE_MAX →
  bad_handle cfg st h = false →
  length (open_files st) = MAX_OPEN_FILES cfg →
  write_all cfg fuel h buffer remaining st ≠ Some (Some e, st').
Proof.
  intros HBS HB. revert st remaining.
  induction fuel as [|fuel IH]; intros st remaining Hbad Hlen; cbn [write_all].
  - by destruct (remaining >? 0).
  - destruct (Z.gtb_spec remaining 0) as [Hpos|]; [|done].
    set (chunk := Z.min (Z.of_nat (length buffer)) remaining).
    destruct (vtpc_write_keeps_handle st h buffer chunk HBS Hbad Hlen)
      as (st1 & Hw & Hbad1 & Hlen1); [lia|].
    unfold my_write. rewrite Hw.
    replace (chunk =? -1) with false by (symmetry; apply Z.eqb_neq; lia).
    by apply IH.
Qed.

(** The exceptions of the second loop are its own. *)
Lemma read_all_exception h fuel buffer remaining st what err b st' :
  read_all cfg fuel h buffer remaining st
  = Some (Some (runtime_error what err), b, st') →
  what ≠ "write: "%string.
Proof.
  revert buffer remaining st.
  induction fuel as [|fuel IH]; intros buffer remaining st; cbn [read_all].
  - by destruct (remaining >? 0).
  - destruct (remaining >? 0); [|done].
    destruct (my_read cfg st h _) as [[[received got] st1]|]; [|done].
    destruct (received =? 0); [by intros [= <- _ _ _]|].
    destruct (received =? -1); [|by apply IH].
    destruct (errno (world st1) =? EINTR); [by apply IH|].
    by intros [= <- _ _ _].
Qed.

(** X18. [RunDiskIteration] never throws its "write: " error, whatever the
    backing store does: a handle that is not open is caught by the first
    [my_lseek], and on an open handle [vtpc_write] has no failing exit, so
    a write that the store refused is not seen by the loader's first
    loop. *)
Theorem RunDiskIteration_no_write_error (p : Bench) (h : Z)
    (buffer : list byte) (file_size : Z) (fuel : nat)
    (what : string) (err : option Z) (b : list byte) (p' : Bench) :
  0 < BLOCK_SIZE cfg →
  length (open_files (lib p)) = MAX_OPEN_FILES cfg →
  Z.of_nat (length buffer) ≤ SSIZE_MAX →
  RunDiskIteration cfg fuel p h buffer file_size
  = Some (inl (runtime_error what err), b, p') →
  what ≠ "write: "%string.
Proof.
  intros HBS Hlen HB. unfold RunDiskIteration, my_lseek, my_fsync.
  destruct (bad_handle cfg (lib p) h) eqn:Hbad.
  { unfold vtpc_lseek. rewrite Hbad. cbn [Z.eqb Pos.eqb].
    by intros [= <- _ _ _]. }
  rewrite (vtpc_lseek_set cfg _ _ 0 Hbad) by lia. cbn [Z.eqb].
  pose proof (bad_handle_false _ _ _ Hbad) as [Hh _].
  set (st1 := set_file h _ (lib p)).
  assert (bad_handle cfg st1 h = false ∧ length (open_files st1)
          = MAX_OPEN_FILES cfg) as [Hbad1 Hlen1].
  { split.
    - rewrite <- Hbad. apply bad_handle_file. subst st1.
      by rewrite file_set_file by lia.
    - subst st1. unfold set_file. cbn. by rewrite length_insert. }
  unfold clock_gettime at 1. cbn [clock lib].
  destruct (clock p) as [|[e|t] rest].
  - cbn [Z.eqb lib clock].
    pose proof (write_all_no_exception h buffer fuel st1 file_size) as Hno.
    destruct (write_all cfg fuel h buffer file_size st1)
      as [[[e|] st2]|]; [by destruct (Hno e st2)| |done].
    destruct (vtpc_fsync cfg st2 h) as [r st3].
    destruct (r =? -1); [by intros [= <- _ _ _]|].
    destruct (vtpc_lseek cfg st3 h 0 SEEK_SET) as [r4 st4].
    destruct (r4 =? -1); [by intros [= <- _ _ _]|].
    pose proof (read_all_exception h fuel buffer file_size st4) as Hr.
    destruct (read_all cfg fuel h buffer file_size st4)
      as [[[[[what5 err5]|] b5] st5]|]; [|done|done].
    intros [= <- _ _ _]. by eapply Hr.
  - cbn [Z.eqb Pos.eqb]. by intros [= <- _ _ _].
  - cbn [Z.eqb lib clock].
    pose proof (write_all_no_exception h buffer fuel st1 file_size) as Hno.
    destruct (write_all cfg fuel h buffer file_size st1)
      as [[[e|] st2]|]; [by destruct (Hno e st2)| |done].
    destruct (vtpc_fsync cfg st2 h) as [r st3].
    destruct (r =? -1); [by intros [= <- _ _ _]|].
    destruct (vtpc_lseek cfg st3 h 0 SEEK_SET) as [r4 st4].
    destruct (r4 =? -1); [by intros [= <- _ _ _]|].
    pose proof (read_all_exception h fuel buffer file_size st4) as Hr.
    destruct (read_all cfg fuel h buffer file_size st4)
      as [[[[[what5 err5]|] b5] st5]|]; [| |done].
    + intros [= <- _ _ _]. by eapply Hr.
    + unfold clock_gettime. cbn [clock lib].
      destruct rest as [|[e2|t2] rest2]; cbn [Z.eqb Pos.eqb]; try done.
      by intros [= <- _ _ _].
Qed.

(** The first loop with an empty buffer: every [my_write] writes nothing
    and [remaining] stays as it is. *)
Lemma write_all_empty h fuel st remaining :
  0 < BLOCK_SIZE cfg → 0 < remaining < 2 ^ 64 →
  bad_handle cfg st h = false →
  length (open_files st) = MAX_OPEN_FILES cfg →
  write_all cfg fuel h [] remaining st = None.
Proof.
  intros HBS Hrem. revert st.
  induction fuel as [|fuel IH]; intros st Hbad Hlen; cbn [write_all].
  - by replace (remaining >? 0) with true by (symmetry; apply Z.gtb_lt; lia).
  - replace (remaining >? 0) with true by (symmetry; apply Z.gtb_lt; lia).
    cbv zeta. cbn [length]. change (Z.of_nat 0) with 0.
    rewrite Z.min_l by lia.
    destruct (vtpc_write_keeps_handle st h [] 0 HBS Hbad Hlen)
      as (st1 & Hw & Hbad1 & Hlen1); [unfold SSIZE_MAX; lia|].
    unfold my_write. rewrite Hw. cbn [Z.eqb].
    rewrite (u64_small 0), Z.sub_0_r, u64_small by lia. by apply IH.
Qed.

(** X19. With an empty buffer and a positive [file_size], on an open handle
    and with a working clock, [RunDiskIteration] does not return: each
    [my_write] of the first loop is asked for 0 bytes and returns 0, so
    [remaining] never decreases. *)
Theorem RunDiskIteration_empty_buffer (p : Bench) (h : Z) (file_size : Z)
    (t1 : timespec) (rest : list (Z + timespec)) :
  0 < BLOCK_SIZE cfg →
  bad_handle cfg (lib p) h = false →
  length (open_files (lib p)) = MAX_OPEN_FILES cfg →
  0 < file_size < 2 ^ 64 →
  clock p = inr t1 :: rest →
  ∀ fuel, RunDiskIteration cfg fuel p h [] file_size = None.
Proof.
  intros HBS Hbad Hlen Hsize Hclock fuel.
  unfold RunDiskIteration, my_lseek.
  rewrite (vtpc_lseek_set cfg _ _ 0 Hbad) by lia. cbn [Z.eqb].
  pose proof (bad_handle_false _ _ _ Hbad) as [Hh _].
  unfold clock_gettime at 1. cbn [clock lib]. rewrite Hclock.
  cbn [Z.eqb lib clock].
  rewrite write_all_empty; [done|done|done| |].
  - rewrite <- Hbad. apply bad_handle_file.
    by rewrite file_set_file by lia.
  - unfold set_file. cbn. by rewrite length_insert.
Qed.

End LoaderProofs.

Lemma RunDiskIteration_completes_witness :
  ∃ st',
    RunDiskIteration Demo.tiny 5 Loads.bench 0 [x0a; x0b] 5
    = Some (inr (1, 200000000), [x0a; x0b], {| lib := st'; clock := [] |})
    ∧ stream Demo.tiny st' 0 = [x0a; x0b; x0a; x0b; x0a; x06; x07; x08].
Proof.
  destruct (RunDiskIteration_completes Demo.tiny Loads.bench 0 [x0a; x0b] 5
              Loads.t1 Loads.t2 [] 5) as (st' & Hr & _ & _ & Hs & _).
  - vm_compute. reflexivity.
  - apply st_full_tidy.
  - discriminate.
  - vm_compute. discriminate.
  - vm_compute. split; discriminate.
  - reflexivity.
  - cbn. lia.
  - exists st'. split; [exact Hr|]. rewrite Hs. vm_compute. reflexivity.
Defined.

Lemma RunDiskIteration_no_write_error_witness :
  ∃ b p',
    RunDiskIteration Demo.tiny 12 Loads.bench_faults 0 [x0a; x0b; x0c] 12
    = Some (inl (runtime_error "fsync: " (Some EIO)), b, p')
    ∧ "fsync: "%string ≠ "write: "%string.
Proof.
  assert (∃ b p',
            RunDiskIteration Demo.tiny 12 Loads.bench_faults 0
              [x0a; x0b; x0c] 12
            = Some (inl (runtime_error "fsync: " (Some EIO)), b, p'))
    as (b & p' & H).
  { vm_compute. eexists _, _. reflexivity. }
  exists b, p'. split; [exact H|].
  apply (RunDiskIteration_no_write_error Demo.tiny Loads.bench_faults 0
           [x0a; x0b; x0c] 12 12 _ (Some EIO) b p').
  - vm_compute. reflexivity.
  - vm_compute. reflexivity.
  - vm_compute. discriminate.
  - exact H.
Defined.

Lemma RunDiskIteration_empty_buffer_witness :
  RunDiskIteration Demo.tiny 1000 Loads.bench 0 [] 7 = None.
Proof.
  apply (RunDiskIteration_empty_buffer Demo.tiny Loads.bench 0 7
           Loads.t1 [inr Loads.t2]).
  - vm_compute. reflexivity.
  - vm_compute. reflexivity.
  - vm_compute. reflexivity.
  - vm_compute. split; reflexivity.
  - reflexivity.
Defined.


(** ** The shell: segments and tokens of a line *)

Section MinishProofs.

Import Minish.

Lemma starts_amps_spec s : starts_amps s = true ↔ amps_at s 0.
Proof.
  unfold amps_at. destruct s as [|a [|b rest]]; cbn.
  - split; [done|]. by intros [? _].
  - split; [done|]. by intros [_ ?].
  - rewrite andb_true_iff. split.
    + intros [Ha Hb]. apply Byte.byte_dec_bl in Ha, Hb. by subst.
    + intros [[= ->] [= ->]]. done.
Qed.

Lemma amps_at_cons a s j : amps_at (a :: s) (S j) ↔ amps_at s j.
Proof. done. Qed.

Lemma find_amps_Some s i :
  find_amps s = Some i → amps_at s i ∧ ∀ j, (j < i)%nat → ¬ amps_at s j.
Proof.
  revert i. induction s as [|a rest IH]; intros i; [done|].
  cbn [find_amps]. destruct (starts_amps (a :: rest)) eqn:Hs.
  - intros [= <-]. split; [by apply starts_amps_spec|]. lia.
  - destruct (find_amps rest) as [i'|]; [|done]. intros [= <-].
    destruct (IH i' eq_refl) as [Hat Hmin]. split; [done|].
    intros [|j] Hj.
    + rewrite <- starts_amps_spec. by rewrite Hs.
    + rewrite amps_at_cons. apply Hmin. lia.
Qed.

Lemma find_amps_None s : find_amps s = None ↔ ∀ j, ¬ amps_at s j.
Proof.
  induction s as [|a rest IH].
  - split; [|done]. intros _ j [? _]. done.
  - cbn [find_amps]. destruct (starts_amps (a :: rest)) eqn:Hs.
    + split; [done|]. intros H. destruct (H O). by apply starts_amps_spec.
    + destruct (find_amps rest) as [i'|] eqn:Hf.
      * split; [done|]. intros H.
        destruct (find_amps_Some rest i' Hf) as [Hat _].
        destruct (H (S i')). by rewrite amps_at_cons.
      * split; [|done]. intros _ [|j].
        -- rewrite <- starts_amps_spec. by rewrite Hs.
        -- rewrite amps_at_cons. by apply IH.
Qed.

Lemma amps_at_drop s pos j : amps_at (drop pos s) j ↔ amps_at s (pos + j).
Proof.
  unfold amps_at. rewrite !lookup_drop.
  by replace (pos + S j)%nat with (S (pos + j)) by lia.
Qed.

Lemma amps_at_take s n j :
  amps_at (take n s) j → amps_at s j ∧ (j + 2 ≤ n)%nat.
Proof.
  unfold amps_at. intros [H1 H2].
  apply lookup_take_Some in H2 as [H2 Hlt].
  apply lookup_take_Some in H1 as [H1 _]. split; [done|lia].
Qed.

Lemma amps_at_length s j : amps_at s j → (j + 2 ≤ length s)%nat.
Proof. intros [_ H]. apply lookup_lt_Some in H. lia. Qed.

(** What [line.find ("&&", pos)] returns. *)
Lemma find_Some line pos next :
  find line pos = Some next →
  (pos ≤ next)%nat ∧ amps_at line next
  ∧ ∀ j, (pos ≤ j < next)%nat → ¬ amps_at line j.
Proof.
  unfold find. case_decide; [|done].
  destruct (find_amps (drop pos line)) as [i|] eqn:Hf; [|done].
  intros [= <-]. destruct (find_amps_Some _ _ Hf) as [Hat Hmin].
  split; [lia|]. split; [by apply amps_at_drop|].
  intros j Hj Hatj. apply (Hmin (j - pos)%nat); [lia|].
  apply amps_at_drop. by replace (pos + (j - pos))%nat with j by lia.
Qed.

Lemma find_None line pos :
  (pos ≤ length line)%nat → find line pos = None →
  find_amps (drop pos line) = None.
Proof.
  unfold find. intros Hpos. case_decide; [|lia].
  by destruct (find_amps (drop pos line)).
Qed.

Lemma join_cons segment rest :
  rest ≠ [] → join (segment :: rest) = segment ++ [amp; amp] ++ join rest.
Proof. by destruct rest. Qed.

Lemma split_loop_spec line fuel pos acc :
  (pos ≤ length line)%nat → (length line - pos < fuel)%nat →
  ∃ segments,
    split_loop fuel line pos acc = Some (acc ++ segments)
    ∧ segments ≠ []
    ∧ join segments = drop pos line
    ∧ Forall (λ segment, find_amps segment = None) segments.
Proof.
  revert pos acc. induction fuel as [|fuel IH]; intros pos acc Hpos Hfuel;
    [lia|].
  cbn [split_loop]. destruct (find line pos) as [next|] eqn:Hf.
  - destruct (find_Some _ _ _ Hf) as (Hle & Hat & Hmin).
    pose proof (amps_at_length _ _ Hat) as Hlen.
    destruct (IH (next + 2)%nat
                (acc ++ [substr line pos (next - pos)]))
      as (segments & Hs & Hne & Hj & Hall); [lia|lia|].
    exists (substr line pos (next - pos) :: segments).
    split; [by rewrite Hs, <- app_assoc|]. split; [done|]. split.
    + rewrite join_cons by done. rewrite Hj. unfold substr.
      rewrite <- (take_drop (next - pos) (drop pos line)) at 2.
      f_equal. rewrite drop_drop.
      replace (pos + (next - pos))%nat with next by lia.
      destruct Hat as [H1 H2].
      rewrite (drop_S _ _ _ H1), (drop_S _ _ _ H2). cbn.
      by replace (next + 2)%nat with (S (S next)) by lia.
    + constructor; [|done]. apply find_amps_None. intros j Hatj.
      unfold substr in Hatj. apply amps_at_take in Hatj as [Hatj Hj2].
      apply amps_at_drop in Hatj. apply (Hmin (pos + j)%nat); [lia|done].
  - exists [substr_from line pos]. split; [done|]. split; [done|].
    split; [done|]. constructor; [|done]. by apply find_None.
Qed.

(** X20. The first loop of [main] ends for every line (after at most one
    turn per character and one more), and cuts the line at its "&&": the
    segments joined by "&&" are the line again, there is at least one
    segment, and no segment contains "&&". *)
Theorem segments_of_line (line : list byte) (fuel : nat) :
  (length line < fuel)%nat →
  ∃ segments,
    split_loop fuel line 0 [] = Some segments
    ∧ segments ≠ []
    ∧ join segments = line
    ∧ Forall (λ segment, find_amps segment = None) segments.
Proof.
  intros Hfuel.
  destruct (split_loop_spec line fuel 0 []) as (segments & H); [lia|lia|].
  by exists segments.
Qed.

Lemma extract_spec s token :
  Forall (λ ch, isspace ch = false) token →
  (extract s token = [] ↔ token = [] ∧ IsWhitespaceOnly s = true)
  ∧ Forall word (extract s token)
  ∧ concat (extract s token)
    = token ++ filter (λ ch, isspace ch = false) s.
Proof.
  revert token. induction s as [|ch rest IH]; intros token Htok.
  - cbn. destruct token as [|c token'].
    + split_and!; [done|constructor|done].
    + split_and!.
      * split; [done|]. by intros [? _].
      * constructor; [by split|constructor].
      * cbn. by rewrite !app_nil_r.
  - cbn [extract IsWhitespaceOnly]. rewrite filter_cons.
    destruct (isspace ch) eqn:Hch; cbn [negb].
    + rewrite decide_False by done.
      destruct token as [|c token'].
      * apply (IH []). constructor.
      * destruct (IH [] ltac:(constructor)) as (_ & Hw & Hc). split_and!.
        -- split; [done|]. by intros [? _].
        -- constructor; [by split|done].
        -- cbn [concat]. by rewrite Hc.
    + rewrite decide_True by done.
      destruct (IH (token ++ [ch])) as (He & Hw & Hc).
      { apply Forall_app. split; [done|]. by constructor. }
      split_and!.
      * rewrite He. split; [|by intros [_ ?]].
        intros [H _]. by destruct token.
      * done.
      * by rewrite Hc, <- app_assoc.
Qed.

(** X21. The tokens that [main] extracts from a segment: there are none
    exactly when the segment is whitespace only; each token is non-empty
    and free of whitespace; and the tokens put together are the segment
    without its whitespace. *)
Theorem tokens_of_segment (segment : list byte) :
  (tokens_of segment = [] ↔ IsWhitespaceOnly segment = true)
  ∧ Forall (λ token, token ≠ []
                     ∧ Forall (λ ch, isspace ch = false) token)
      (tokens_of segment)
  ∧ concat (tokens_of segment)
    = filter (λ ch, isspace ch = false) segment.
Proof.
  destruct (extract_spec segment [] ltac:(constructor)) as (He & Hw & Hc).
  split_and!; [|done|done].
  rewrite He. split; [by intros [_ ?]|done].
Qed.

Variable W : Type.
Variable ExecuteCommand : list (list byte) → W → bool * W.

Lemma run_segments_silent segments w :
  existsb IsWhitespaceOnly segments = false →
  fst (run_segments W ExecuteCommand segments w) = None.
Proof.
  revert w. induction segments as [|segment rest IH]; intros w; [done|].
  cbn [existsb run_segments]. intros H.
  apply orb_false_elim in H as [Hs Hrest].
  destruct (tokens_of segment) as [|t ts] eqn:Ht.
  { apply (proj1 (extract_spec segment [] ltac:(constructor))) in Ht.
    destruct Ht as [_ Ht]. congruence. }
  destruct (ExecuteCommand (t :: ts) w) as [ok w1].
  destruct ok; cbn [negb]; [by apply IH|done].
Qed.

(** X22. When [main] prints a syntax error for a line, it is the one about
    an empty command next to "&&", and no command of the line has been
    run, not even those before the empty segment.  The other
    message, for a segment without tokens, is never printed: a segment
    that reaches the last loop has a token. *)
Theorem main_line_message (fuel : nat) (line : list byte) (w w' : W)
    (message : string) :
  main_line W ExecuteCommand fuel line w = Some (Some message, w') →
  message = empty_near_amps ∧ w' = w.
Proof.
  unfold main_line. destruct (split_loop fuel line 0 []) as [segments|];
    [|done].
  destruct (forallb IsWhitespaceOnly segments); [done|].
  destruct (existsb IsWhitespaceOnly segments) eqn:He.
  { by intros [= <- <-]. }
  intros [= H]. pose proof (run_segments_silent segments w He) as Hs.
  rewrite H in Hs. done.
Qed.

End MinishProofs.

Lemma segments_of_line_witness :
  ∃ segments,
    Minish.split_loop 9 [x61; x26; x26; x62; x26; x26; x26; x63] 0 []
    = Some segments
    ∧ segments = [[x61]; [x62]; [x26; x63]]
    ∧ Minish.join segments = [x61; x26; x26; x62; x26; x26; x26; x63].
Proof.
  destruct (segments_of_line [x61; x26; x26; x62; x26; x26; x26; x63] 9)
    as (segments & H & _ & Hj & _); [cbn; lia|].
  exists segments. split; [exact H|]. split; [|exact Hj].
  vm_compute in H. injection H as <-. reflexivity.
Defined.

Lemma main_line_message_witness :
  Minish.main_line _ Minish.logged 11
    [x2f; x62; x69; x6e; x2f; x6c; x73; x20; x26; x26] []
  = Some (Some Minish.empty_near_amps, []).
Proof.
  assert (Minish.main_line _ Minish.logged 11
            [x2f; x62; x69; x6e; x2f; x6c; x73; x20; x26; x26] []
          = Some (Some Minish.empty_near_amps, [])) as H.
  { vm_compute. reflexivity. }
  destruct (main_line_message _ Minish.logged _ _ _ _ _ H) as [_ _].
  exact H.
Defined.
